(** * Verification of [translation_manager.py]

    A shallow embedding of the text pipeline of the Hytale mod translator
    (tokenizer, segment translator, source filter, locale-file reader and
    writer, string collector) together with the properties its
    specification states about it.  The name sanitiser of
    [mod_manager.py] and the translation memory and segment cache of
    [app.py] are embedded as well, the network translator being a
    parameter.

    Python strings are sequences of Unicode code points: a character is a
    code point in [N], a string a list of them.  The classifications that
    CPython implements by a short list of code points (white space, line
    breaks, the character classes of the regular expressions) are written
    out; the ones that need the Unicode database ([str.isalpha],
    [str.isalnum], [str.lower], ...) are parameters of the sections that
    use them. *)

From Stdlib Require Import String Ascii DecimalString DecimalNat.
From Stdlib Require Import List NArith ZArith PeanoNat Bool Lia Permutation Floats.
Import ListNotations.

(** ** Strings *)

Module PyStr.

Definition char := N.
Definition str := list char.

Definition char_eqb (a b : char) : bool := N.eqb a b.
Arguments char_eqb : simpl never.

(** A literal of the development: the code points of an ASCII text. *)
Definition py (s : string) : str := List.map N_of_ascii (list_ascii_of_string s).
Arguments py s%_string.

Local Open Scope N_scope.

Definition QUOTE : char := 34.
Definition BACKSLASH : char := 92.
Definition SPACE : char := 32.
Definition NEWLINE : char := 10.

Definition in_range (lo hi c : N) : bool := N.leb lo c && N.leb c hi.

(** [Py_UNICODE_ISSPACE]: the characters [str.strip()], [str.isspace()] and
    the pattern [\s] treat as white space. *)
Definition isspace (c : char) : bool :=
  in_range 9 13 c || in_range 28 31 c || N.eqb c 32 || N.eqb c 133
  || N.eqb c 160 || N.eqb c 5760 || in_range 8192 8202 c || N.eqb c 8232
  || N.eqb c 8233 || N.eqb c 8239 || N.eqb c 8287 || N.eqb c 12288.

Local Close Scope N_scope.

(** Python's truth value of a string: [if s:] holds for a non-empty one. *)
Definition truthy (s : str) : bool :=
  match s with [] => false | _ :: _ => true end.

Fixpoint str_eqb (a b : str) : bool :=
  match a, b with
  | [], [] => true
  | x :: a', y :: b' => char_eqb x y && str_eqb a' b'
  | _, _ => false
  end.

(** [s.lstrip()], [s.rstrip()] and [s.strip()] without argument. *)
Fixpoint lstrip (s : str) : str :=
  match s with
  | [] => []
  | c :: s' => if isspace c then lstrip s' else s
  end.

Definition rstrip (s : str) : str := rev (lstrip (rev s)).

Definition strip (s : str) : str := rstrip (lstrip s).

(** The slice [t[a:b]] for indices [0 <= a], [0 <= b]. *)
Definition slice (t : str) (a b : nat) : str := firstn (b - a) (skipn a t).

(** [c in s] for a one-character string [c]. *)
Definition char_in (c : char) (s : str) : bool := existsb (char_eqb c) s.

(** [s.startswith(p)] and [sub in s]. *)
Fixpoint starts_with (p s : str) : bool :=
  match p, s with
  | [], _ => true
  | a :: p', b :: s' => char_eqb a b && starts_with p' s'
  | _ :: _, [] => false
  end.

Fixpoint contains (sub s : str) : bool :=
  starts_with sub s
  || match s with [] => false | _ :: s' => contains sub s' end.

(** [s.replace(c, "")] for a one-character string [c]. *)
Definition remove_char (c : char) (s : str) : str :=
  filter (fun x => negb (char_eqb x c)) s.

(** [sep.join(parts)]. *)
Fixpoint join (sep : str) (parts : list str) : str :=
  match parts with
  | [] => []
  | [p] => p
  | p :: ps => p ++ sep ++ join sep ps
  end.

(** [s.endswith(p)]. *)
Definition ends_with (p s : str) : bool := starts_with (rev p) (rev s).

(** [Py_UNICODE_ISLINEBREAK]: the line boundaries of [str.splitlines()]. *)
Definition is_linebreak (c : char) : bool :=
  (in_range 10 13 c || in_range 28 30 c || N.eqb c 133 || N.eqb c 8232
   || N.eqb c 8233)%N.

Definition CR : char := 13%N.

(** [s.splitlines()]: a line ends at a line boundary, [\r\n] counting as
    one; the text after the last boundary is a line when it is not empty.
    [cur] holds the characters of the line being read and [after_cr] tells
    that the last character was a carriage return. *)
Fixpoint splitlines_go (after_cr : bool) (cur : str) (s : str) : list str :=
  match s with
  | [] => if truthy cur then [cur] else []
  | c :: s' =>
      if after_cr && char_eqb c NEWLINE then splitlines_go false cur s'
      else if is_linebreak c then cur :: splitlines_go (char_eqb c CR) [] s'
      else splitlines_go false (cur ++ [c]) s'
  end.

Definition splitlines (s : str) : list str := splitlines_go false [] s.

(** [s.split(c)] for a one-character separator [c]. *)
Fixpoint split_go (c : char) (cur : str) (s : str) : list str :=
  match s with
  | [] => [cur]
  | x :: s' =>
      if char_eqb x c then cur :: split_go c [] s' else split_go c (cur ++ [x]) s'
  end.

Definition split_char (c : char) (s : str) : list str := split_go c [] s.

(** [s.partition(c)] for a one-character separator [c]: the text before the
    first [c] and the text after it; without a [c], the whole text and
    the empty string. *)
Fixpoint partition_char (c : char) (s : str) : str * str :=
  match s with
  | [] => ([], [])
  | x :: s' =>
      if char_eqb x c then ([], s')
      else let '(a, b) := partition_char c s' in (x :: a, b)
  end.

(** [s.replace(old, new)] and [s.replace(old, new, count)] for a non-empty
    [old]: the occurrences are taken from the left and do not overlap.
    [skip] counts the characters of the occurrence just replaced. *)
Fixpoint replace_go (old new : str) (count : option nat) (skip : nat) (s : str)
    : str :=
  match s with
  | [] => []
  | c :: s' =>
      match skip with
      | S k => replace_go old new count k s'
      | O =>
          let allowed := match count with Some O => false | _ => true end in
          if allowed && starts_with old s
          then new ++ replace_go old new (option_map pred count)
                        (length old - 1) s'
          else c :: replace_go old new count 0 s'
      end
  end.

Definition replace (old new s : str) : str := replace_go old new None 0 s.
Definition replace_first (old new s : str) : str :=
  replace_go old new (Some 1) 0 s.

(** The order of [str]: lexicographic on the code points. *)
Fixpoint str_ltb (a b : str) : bool :=
  match a, b with
  | _, [] => false
  | [], _ :: _ => true
  | x :: a', y :: b' =>
      if N.ltb x y then true else if N.ltb y x then false else str_ltb a' b'
  end.

(** [str(n)] for a natural number: its decimal digits. *)
Definition str_of_nat (n : nat) : str :=
  py (NilEmpty.string_of_uint (Nat.to_uint n)).

Lemma str_eqb_eq (a b : str) : str_eqb a b = true <-> a = b.
Proof.
  revert b; induction a as [|x a IH]; intros [|y b]; simpl; split;
    try congruence; try discriminate.
  - rewrite andb_true_iff. intros [Hx Hab].
    apply N.eqb_eq in Hx. apply IH in Hab. congruence.
  - intros E; inversion E; subst. rewrite andb_true_iff; split.
    + apply N.eqb_refl.
    + now apply IH.
Qed.

Lemma str_eqb_refl (a : str) : str_eqb a a = true.
Proof. now apply str_eqb_eq. Qed.

Lemma truthy_false (s : str) : truthy s = false <-> s = [].
Proof. destruct s; simpl; split; congruence. Qed.

Lemma join_nil (parts : list str) : join [] parts = concat parts.
Proof.
  induction parts as [|p ps IH]; simpl; auto.
  destruct ps as [|q ps]; simpl in *.
  - now rewrite app_nil_r.
  - now rewrite IH.
Qed.

(** *** White space *)

Definition all_space (s : str) : bool := forallb isspace s.

Lemma lstrip_nil (s : str) : lstrip s = [] <-> all_space s = true.
Proof.
  induction s as [|c s IH]; simpl; [tauto|].
  destruct (isspace c); simpl; [exact IH|]. split; discriminate.
Qed.

Lemma all_space_rev (s : str) : all_space (rev s) = all_space s.
Proof.
  unfold all_space. induction s as [|c s IH]; simpl; auto.
  rewrite forallb_app, IH. simpl. rewrite andb_true_r. apply andb_comm.
Qed.

Lemma rstrip_nil (s : str) : rstrip s = [] <-> all_space s = true.
Proof.
  unfold rstrip. rewrite <- all_space_rev, <- lstrip_nil.
  split; intros H.
  - apply (f_equal (@rev _)) in H. now rewrite rev_involutive in H.
  - now rewrite H.
Qed.

Lemma lstrip_head (s : str) :
  match lstrip s with [] => True | c :: _ => isspace c = false end.
Proof.
  induction s as [|c s IH]; simpl; auto.
  destruct (isspace c) eqn:Hc; auto.
Qed.

Lemma lstrip_suffix (s : str) : exists pre, all_space pre = true /\ s = pre ++ lstrip s.
Proof.
  induction s as [|c s (pre & Hp & E)]; simpl.
  - exists []. auto.
  - destruct (isspace c) eqn:Hc.
    + exists (c :: pre). simpl. rewrite Hc, Hp. split; auto. now rewrite <- E.
    + exists []. auto.
Qed.

Lemma strip_nil (s : str) : strip s = [] <-> all_space s = true.
Proof.
  unfold strip. rewrite rstrip_nil. split; intros H.
  - apply lstrip_nil. pose proof (lstrip_head s) as Hh.
    destruct (lstrip s) as [|c r]; auto. simpl in H. rewrite Hh in H. discriminate.
  - apply lstrip_nil in H. now rewrite H.
Qed.

Lemma truthy_strip (s : str) : truthy (strip s) = negb (all_space s).
Proof.
  destruct (all_space s) eqn:H.
  - apply strip_nil in H. now rewrite H.
  - destruct (strip s) as [|c r] eqn:E; auto.
    apply strip_nil in E. congruence.
Qed.

Definition no_space (s : str) : bool := forallb (fun c => negb (isspace c)) s.

Lemma lstrip_no_space (s : str) : no_space s = true -> lstrip s = s.
Proof.
  destruct s as [|c s]; simpl; auto.
  destruct (isspace c); simpl; [discriminate|auto].
Qed.

Lemma strip_no_space (s : str) : no_space s = true -> strip s = s.
Proof.
  intros H. unfold strip, rstrip. rewrite (lstrip_no_space s H).
  rewrite lstrip_no_space; [apply rev_involutive|].
  unfold no_space in *. rewrite forallb_forall in *.
  intros c Hc. apply H. now apply in_rev.
Qed.

Lemma slice_full (t : str) : slice t 0 (length t) = t.
Proof. unfold slice. simpl. rewrite Nat.sub_0_r. apply firstn_all. Qed.

Lemma firstn_plus (A : Type) (m k : nat) (l : list A) :
  firstn (m + k) l = firstn m l ++ firstn k (skipn m l).
Proof.
  revert l; induction m as [|m IH]; intros l; simpl; auto.
  destruct l as [|x l]; simpl.
  - now rewrite firstn_nil.
  - now rewrite IH.
Qed.

Lemma slice_app (t : str) (a b c : nat) :
  a <= b -> b <= c -> slice t a b ++ slice t b c = slice t a c.
Proof.
  intros Hab Hbc. unfold slice.
  replace (c - a) with ((b - a) + (c - b)) by lia.
  rewrite firstn_plus. f_equal.
  rewrite skipn_skipn. f_equal. f_equal. lia.
Qed.

Lemma slice_prefix (t : str) (b : nat) : slice t 0 b = firstn b t.
Proof. unfold slice. simpl. now rewrite Nat.sub_0_r. Qed.

Lemma slice_nonempty (t : str) (a b : nat) :
  a < b -> b <= length t -> slice t a b <> [].
Proof.
  intros Hab Hb E. apply (f_equal (@length _)) in E.
  unfold slice in E. rewrite length_firstn, length_skipn in E. simpl in E. lia.
Qed.

(** *** Lines *)

Definition no_linebreak (s : str) : bool := forallb (fun c => negb (is_linebreak c)) s.

Lemma splitlines_go_line (l : str) :
  no_linebreak l = true ->
  forall cur s, splitlines_go false cur (l ++ s) = splitlines_go false (cur ++ l) s.
Proof.
  induction l as [|c l IH]; intros H cur s; simpl.
  - now rewrite app_nil_r.
  - simpl in H. apply andb_true_iff in H. destruct H as [Hc Hl].
    apply negb_true_iff in Hc. rewrite Hc.
    rewrite (IH Hl). now rewrite <- app_assoc.
Qed.

Lemma join_cons2 (sep l l2 : str) (ls : list str) :
  join sep (l :: l2 :: ls) = l ++ sep ++ join sep (l2 :: ls).
Proof. reflexivity. Qed.

Lemma splitlines_go_newline (cur s : str) :
  splitlines_go false cur (NEWLINE :: s) = cur :: splitlines_go false [] s.
Proof. reflexivity. Qed.

Lemma splitlines_join (lines : list str) :
  Forall (fun l => no_linebreak l = true /\ l <> []) lines ->
  splitlines (join [NEWLINE] lines) = lines.
Proof.
  unfold splitlines. induction lines as [|l ls IH]; intros H; [reflexivity|].
  inversion H as [|? ? [Hl Hne] Hls]; subst.
  destruct ls as [|l2 ls].
  - simpl. rewrite <- (app_nil_r l) at 1.
    rewrite (splitlines_go_line l Hl). simpl.
    destruct l; [congruence|reflexivity].
  - rewrite join_cons2, (splitlines_go_line l Hl).
    change ([NEWLINE] ++ join [NEWLINE] (l2 :: ls))
      with (NEWLINE :: join [NEWLINE] (l2 :: ls)).
    rewrite splitlines_go_newline. simpl app. f_equal. now apply IH.
Qed.

(** *** Trimmed text *)

(** [s.strip() == s]: no white space at either end. *)
Definition trimmed (s : str) : Prop := lstrip s = s /\ lstrip (rev s) = rev s.

Lemma lstrip_fixed (s : str) :
  lstrip s = s <-> match s with [] => True | c :: _ => isspace c = false end.
Proof.
  destruct s as [|c s]; simpl; [tauto|].
  destruct (isspace c) eqn:Hc; split; auto; try discriminate.
  intros E. pose proof (lstrip_suffix s) as (pre & _ & Hp).
  apply (f_equal (@length _)) in E. apply (f_equal (@length _)) in Hp.
  rewrite length_app in Hp. simpl in E. lia.
Qed.

Lemma trimmed_strip (s : str) : trimmed s -> strip s = s.
Proof.
  intros [H1 H2]. unfold strip, rstrip. rewrite H1, H2. apply rev_involutive.
Qed.

Lemma lstrip_idem (s : str) : lstrip (lstrip s) = lstrip s.
Proof. apply lstrip_fixed. apply lstrip_head. Qed.

Lemma lstrip_app_fixed (a b : str) :
  a <> [] -> lstrip a = a -> lstrip (a ++ b) = a ++ b.
Proof.
  intros Ha H. apply lstrip_fixed. apply lstrip_fixed in H.
  destruct a; [congruence|exact H].
Qed.

Lemma strip_trimmed (s : str) : trimmed (strip s).
Proof.
  unfold trimmed, strip, rstrip. rewrite rev_involutive, lstrip_idem.
  split; auto.
  apply lstrip_fixed.
  pose proof (lstrip_head s) as Hh.
  pose proof (lstrip_suffix (rev (lstrip s))) as (pre & Hpre & E).
  destruct (lstrip (rev (lstrip s))) as [|c r] eqn:Er; simpl; auto.
  apply (f_equal (@rev _)) in E. rewrite rev_involutive, rev_app_distr in E.
  destruct (rev (c :: r)) as [|x xs] eqn:Ex.
  { apply (f_equal (@length _)) in Ex. rewrite length_rev in Ex. discriminate. }
  simpl in E. rewrite E in Hh. simpl in Ex. rewrite Ex. exact Hh.
Qed.

Lemma trimmed_cons_mid (k v : str) (c : char) :
  isspace c = false -> trimmed k -> trimmed v -> trimmed (k ++ [c] ++ v).
Proof.
  intros Hc [Hk1 Hk2] [Hv1 Hv2]. split.
  - destruct k as [|x k].
    + simpl. now rewrite Hc.
    + apply lstrip_app_fixed; [discriminate|exact Hk1].
  - rewrite !rev_app_distr. simpl rev. rewrite <- app_assoc.
    destruct (rev v) as [|x r] eqn:Ev.
    + simpl. now rewrite Hc.
    + apply lstrip_app_fixed; [discriminate|exact Hv2].
Qed.

(** *** Partition *)

Lemma partition_char_mid (c : char) (k v : str) :
  char_in c k = false -> partition_char c (k ++ [c] ++ v) = (k, v).
Proof.
  induction k as [|x k IH]; simpl; intros H.
  - unfold char_eqb. now rewrite N.eqb_refl.
  - apply orb_false_iff in H. destruct H as [Hx Hk].
    unfold char_eqb in *. rewrite N.eqb_sym in Hx. rewrite Hx.
    simpl in IH. now rewrite (IH Hk).
Qed.

Lemma char_in_mid (c : char) (k v : str) : char_in c (k ++ [c] ++ v) = true.
Proof.
  unfold char_in. rewrite existsb_app. simpl. unfold char_eqb.
  rewrite N.eqb_refl. simpl. apply orb_true_r.
Qed.

Lemma partition_char_parts (c : char) (s a b : str) :
  partition_char c s = (a, b) ->
  char_in c a = false
  /\ (char_in c s = true -> s = a ++ [c] ++ b)
  /\ (char_in c s = false -> a = s /\ b = []).
Proof.
  revert a b; induction s as [|x s IH]; intros a b; simpl.
  - intros E; inversion E; subst. repeat split; auto; discriminate.
  - unfold char_eqb. rewrite (N.eqb_sym c x). destruct (N.eqb x c) eqn:Hx.
    + intros E; inversion E; subst. apply N.eqb_eq in Hx. subst x.
      repeat split; auto; simpl in *; discriminate.
    + destruct (partition_char c s) as [a' b'] eqn:Ep.
      intros E; inversion E; subst.
      destruct (IH a' b eq_refl) as (H1 & H2 & H3). simpl.
      unfold char_eqb. rewrite (N.eqb_sym c x), Hx. simpl.
      split; [exact H1|]. split.
      * intros H. now rewrite (H2 H) at 1.
      * intros H. destruct (H3 H) as [Ha Hb]. now subst.
Qed.

(** *** What stripping keeps *)

Lemma forallb_lstrip (p : char -> bool) (s : str) :
  forallb p s = true -> forallb p (lstrip s) = true.
Proof.
  induction s as [|c s IH]; simpl; auto.
  intros H. apply andb_true_iff in H. destruct H as [Hc Hs].
  destruct (isspace c); auto. simpl. now rewrite Hc, Hs.
Qed.

Lemma forallb_rev (p : char -> bool) (s : str) : forallb p (rev s) = forallb p s.
Proof.
  induction s as [|c s IH]; simpl; auto.
  rewrite forallb_app, IH. simpl. rewrite andb_true_r. apply andb_comm.
Qed.

Lemma forallb_strip (p : char -> bool) (s : str) :
  forallb p s = true -> forallb p (strip s) = true.
Proof.
  intros H. unfold strip, rstrip. rewrite forallb_rev.
  apply forallb_lstrip. rewrite forallb_rev. now apply forallb_lstrip.
Qed.

Lemma char_in_false (c : char) (s : str) :
  char_in c s = false <-> forallb (fun x => negb (char_eqb c x)) s = true.
Proof.
  unfold char_in. induction s as [|x s IH]; simpl; [tauto|].
  rewrite orb_false_iff, andb_true_iff, IH, negb_true_iff. tauto.
Qed.

Lemma char_in_strip (c : char) (s : str) :
  char_in c s = false -> char_in c (strip s) = false.
Proof. rewrite !char_in_false. apply forallb_strip. Qed.

Lemma lstrip_snoc (a : str) (x : char) :
  isspace x = false -> exists pre, lstrip (a ++ [x]) = pre ++ [x].
Proof.
  intros Hx. induction a as [|y a (pre & IH)]; simpl.
  - rewrite Hx. now exists [].
  - destruct (isspace y).
    + now exists pre.
    + now exists (y :: a).
Qed.

Lemma strip_cons (x : char) (k : str) :
  isspace x = false -> exists r, strip (x :: k) = x :: r.
Proof.
  intros Hx. unfold strip, rstrip. simpl lstrip. rewrite Hx. simpl rev.
  destruct (lstrip_snoc (rev k) x Hx) as (pre & E). rewrite E.
  rewrite rev_app_distr. simpl. now exists (rev pre).
Qed.

Lemma splitlines_go_no_linebreak (s : str) :
  forall after_cr cur,
    no_linebreak cur = true ->
    Forall (fun l => no_linebreak l = true) (splitlines_go after_cr cur s).
Proof.
  induction s as [|c s IH]; intros after_cr cur Hcur; simpl.
  - destruct (truthy cur); constructor; auto.
  - destruct (after_cr && char_eqb c NEWLINE); [now apply IH|].
    destruct (is_linebreak c) eqn:Hc.
    + constructor; auto.
    + apply IH. unfold no_linebreak in *. rewrite forallb_app, Hcur. simpl.
      now rewrite Hc.
Qed.

Lemma splitlines_no_linebreak (s : str) :
  Forall (fun l => no_linebreak l = true) (splitlines s).
Proof. now apply splitlines_go_no_linebreak. Qed.

(** *** Replacing the first occurrence *)

Lemma starts_with_app (p s : str) :
  starts_with p s = true -> s = p ++ skipn (length p) s.
Proof.
  revert s; induction p as [|a p IH]; intros [|b s]; simpl; try discriminate; auto.
  intros H. apply andb_true_iff in H. destruct H as [Hab Hp].
  apply N.eqb_eq in Hab. subst b. now rewrite <- (IH s Hp).
Qed.

Lemma replace_go_done (old new : str) (s : str) :
  forall skip, replace_go old new (Some 0) skip s = skipn skip s.
Proof.
  induction s as [|c s IH]; intros [|k]; simpl; auto.
  now rewrite IH.
Qed.

Lemma replace_first_spec (old new s : str) :
  old <> [] ->
  replace_first old new s = s
  \/ exists s1 s2, s = s1 ++ old ++ s2 /\ replace_first old new s = s1 ++ new ++ s2.
Proof.
  intros Hold. unfold replace_first. induction s as [|c s IH]; simpl; auto.
  destruct (starts_with old (c :: s)) eqn:Hs.
  - right. exists [], (skipn (length old) (c :: s)). simpl. split.
    + now apply starts_with_app.
    + rewrite replace_go_done. destruct old as [|o old]; [congruence|].
      simpl. now rewrite Nat.sub_0_r.
  - destruct IH as [IH|(s1 & s2 & E1 & E2)].
    + left. now rewrite IH.
    + right. exists (c :: s1), s2. simpl. now rewrite E1 at 1; rewrite E2.
Qed.

(** *** Literals and numbers *)

Lemma py_inj (a b : string) : py a = py b -> a = b.
Proof.
  unfold py. intros H.
  rewrite <- (string_of_list_ascii_of_string a), <- (string_of_list_ascii_of_string b).
  f_equal. revert H. generalize (list_ascii_of_string a) (list_ascii_of_string b).
  induction l as [|x l IH]; intros [|y l']; simpl; try discriminate; auto.
  intros H. inversion H as [[Hx Hl]]. f_equal; [|now apply IH].
  rewrite <- (ascii_N_embedding x), <- (ascii_N_embedding y). now rewrite Hx.
Qed.

Lemma str_of_nat_inj (n m : nat) : str_of_nat n = str_of_nat m -> n = m.
Proof.
  unfold str_of_nat. intros H. apply py_inj in H.
  apply Unsigned.to_uint_inj.
  assert (E : Some (Nat.to_uint n) = Some (Nat.to_uint m))
    by (rewrite <- !NilEmpty.usu; now rewrite H).
  now inversion E.
Qed.

(** *** Joining and splitting *)

Lemma join_snoc (sep : str) (p : list str) (a : str) :
  p <> [] -> join sep (p ++ [a]) = join sep p ++ sep ++ a.
Proof.
  induction p as [|x p IH]; [congruence|]. intros _.
  destruct p as [|y p]; [reflexivity|].
  change ((x :: y :: p) ++ [a]) with (x :: (y :: p) ++ [a]).
  change (join sep (x :: (y :: p) ++ [a]))
    with (x ++ sep ++ join sep ((y :: p) ++ [a])).
  rewrite IH by discriminate. rewrite join_cons2. now rewrite <- !app_assoc.
Qed.

Lemma join_snoc_inj (sep : str) (p : list str) (a b : str) :
  join sep (p ++ [a]) = join sep (p ++ [b]) -> a = b.
Proof.
  destruct p as [|x p].
  - simpl. auto.
  - rewrite !join_snoc by discriminate. intros H.
    apply app_inv_head in H. now apply app_inv_head in H.
Qed.

Lemma split_go_plain (c : char) (a : str) :
  char_in c a = false -> forall cur, split_go c cur a = [cur ++ a].
Proof.
  induction a as [|x a IH]; intros H cur; simpl.
  - now rewrite app_nil_r.
  - simpl in H. apply orb_false_iff in H. destruct H as [Hx Ha].
    unfold char_eqb in *. rewrite N.eqb_sym, Hx, (IH Ha). now rewrite <- app_assoc.
Qed.

Lemma split_go_sep (c : char) (a rest : str) :
  char_in c a = false ->
  forall cur, split_go c cur (a ++ c :: rest) = (cur ++ a) :: split_go c [] rest.
Proof.
  induction a as [|x a IH]; intros H cur; simpl.
  - unfold char_eqb. now rewrite N.eqb_refl, app_nil_r.
  - simpl in H. apply orb_false_iff in H. destruct H as [Hx Ha].
    unfold char_eqb in *. rewrite N.eqb_sym, Hx, (IH Ha). now rewrite <- app_assoc.
Qed.

Lemma split_join (c : char) (p : list str) :
  p <> [] -> Forall (fun a => char_in c a = false) p ->
  split_char c (join [c] p) = p.
Proof.
  unfold split_char. induction p as [|a p IH]; [congruence|]. intros _ H.
  inversion H; subst. destruct p as [|b p].
  - simpl. now rewrite split_go_plain.
  - rewrite join_cons2. simpl app. rewrite split_go_sep by assumption.
    simpl. f_equal. apply IH; [discriminate|assumption].
Qed.

(** *** The order of the strings *)

Lemma str_ltb_irrefl (a : str) : str_ltb a a = false.
Proof.
  induction a as [|x a IH]; simpl; auto. now rewrite N.ltb_irrefl.
Qed.

Lemma str_ltb_trans (a : str) :
  forall b c, str_ltb a b = true -> str_ltb b c = true -> str_ltb a c = true.
Proof.
  induction a as [|x a IH]; intros [|y b] [|z c]; simpl; try discriminate; auto.
  destruct (N.ltb_spec x y), (N.ltb_spec y x); try lia; try discriminate;
    destruct (N.ltb_spec y z), (N.ltb_spec z y); try lia; try discriminate;
    destruct (N.ltb_spec x z), (N.ltb_spec z x); try lia; auto.
  apply IH.
Qed.

End PyStr.

(** ** The segment tokenizer: [_TAG_PATTERN] and [parse_tagged_text] *)

Module Tokenizer.
Import PyStr.

Local Open Scope N_scope.

Definition LT : char := 60.
Definition GT : char := 62.
Definition LBRACKET : char := 91.
Definition RBRACKET : char := 93.

(** The class [[^>]]: any character but [>], a line break included. *)
Definition re_not_gt (c : char) : bool := negb (char_eqb c GT).

(** The class [[A-Z]] under [re.IGNORECASE] on a [str] pattern: the 52 ASCII
    letters and the four characters whose case folding is an ASCII letter
    (U+0130, U+0131, U+017F, U+212A). *)
Definition re_AZ_ignorecase (c : char) : bool :=
  in_range 65 90 c || in_range 97 122 c
  || N.eqb c 304 || N.eqb c 305 || N.eqb c 383 || N.eqb c 8490.

(** The literal [n] under [re.IGNORECASE]. *)
Definition re_n_ignorecase (c : char) : bool := N.eqb c 110 || N.eqb c 78.

Local Close Scope N_scope.

(** The longest prefix of [s] whose characters are in the class [p]. *)
Fixpoint span (p : char -> bool) (s : str) : nat :=
  match s with
  | c :: s' => if p c then S (span p s') else 0
  | [] => 0
  end.

(** [[p]+c] where [c] is not in the class [p]: the greedy repetition takes
    the longest run, and a shorter one is followed by a character of the
    class, never by [c]; so the match is the non-empty longest run followed
    by [c], or there is none.  The result is the length of the match. *)
Definition match_run_then (p : char -> bool) (close : char) (s : str) : option nat :=
  let n := span p s in
  match n, nth_error s n with
  | S _, Some d => if char_eqb d close then Some (S n) else None
  | _, _ => None
  end.

(** The four alternatives of [_TAG_PATTERN], each anchored at the start of
    [s], giving the length of its match. *)
Definition alt_angle (s : str) : option nat :=
  match s with
  | c :: s' =>
      if char_eqb c LT then option_map S (match_run_then re_not_gt GT s') else None
  | [] => None
  end.

Definition alt_bracket (s : str) : option nat :=
  match s with
  | c :: s' =>
      if char_eqb c LBRACKET
      then option_map S (match_run_then re_AZ_ignorecase RBRACKET s')
      else None
  | [] => None
  end.

Definition alt_escape (s : str) : option nat :=
  match s with
  | b :: n :: _ =>
      if char_eqb b BACKSLASH && re_n_ignorecase n then Some 2 else None
  | _ => None
  end.

Definition alt_padded (s : str) : option nat :=
  match s with
  | a :: b :: n :: z :: _ =>
      if char_eqb a SPACE && char_eqb b BACKSLASH && re_n_ignorecase n
         && char_eqb z SPACE
      then Some 4 else None
  | _ => None
  end.

Definition orelse (a b : option nat) : option nat :=
  match a with Some x => Some x | None => b end.

(** [_TAG_PATTERN.match] at the start of [s]: the alternatives are tried in
    the order they are written and the first that matches wins. *)
Definition match_tag (s : str) : option nat :=
  orelse (alt_angle s)
    (orelse (alt_bracket s) (orelse (alt_escape s) (alt_padded s))).

(** [_TAG_PATTERN.finditer(text)]: the spans [(m.start(), m.end())] of the
    successive leftmost matches.  [s] is the text from position [pos] on;
    [skip] counts the characters of the last match still to be passed, so
    that the scan resumes at its end. *)
Fixpoint finditer_from (pos skip : nat) (s : str) : list (nat * nat) :=
  match s with
  | [] => []
  | _ :: s' =>
      match skip with
      | S k => finditer_from (S pos) k s'
      | O =>
          match match_tag s with
          | Some len => (pos, pos + len) :: finditer_from (S pos) (len - 1) s'
          | None => finditer_from (S pos) 0 s'
          end
      end
  end.

Definition finditer (text : str) : list (nat * nat) := finditer_from 0 0 text.

(** [_TAG_PATTERN.search(text)] as a truth value, for [has_markup]. *)
Definition has_markup (text : str) : bool :=
  if truthy text
  then match finditer text with [] => false | _ :: _ => true end
  else false.

Definition segment := (str * bool)%type.

(** The body of the [for m in _TAG_PATTERN.finditer(text)] loop, threading
    [result] and [last_end]. *)
Fixpoint tag_loop (text : str) (ms : list (nat * nat))
    (last_end : nat) (result : list segment) : list segment * nat :=
  match ms with
  | [] => (result, last_end)
  | (m_start, m_end) :: ms' =>
      let result1 :=
        if last_end <? m_start then
          let seg := slice text last_end m_start in
          if truthy seg then result ++ [(seg, false)] else result
        else result in
      tag_loop text ms' m_end (result1 ++ [(slice text m_start m_end, true)])
  end.

Definition parse_tagged_text (text : str) : list segment :=
  if truthy text then
    let '(result, last_end) := tag_loop text (finditer text) 0 [] in
    if last_end <? length text then
      let seg := slice text last_end (length text) in
      if truthy seg then result ++ [(seg, false)] else result
    else result
  else [].

(** The concatenation of the contents of a list of segments. *)
Definition contents (segs : list segment) : str := concat (map fst segs).

(** *** The spans of [finditer] *)

(** Successive spans: each is non-empty, starts at or after the end of the
    one before ([lo] for the first) and ends within the text of length [n]. *)
Fixpoint chained (lo n : nat) (ms : list (nat * nat)) : Prop :=
  match ms with
  | [] => True
  | (a, b) :: ms' => lo <= a /\ a < b /\ b <= n /\ chained b n ms'
  end.

Lemma span_le (p : char -> bool) (s : str) : span p s <= length s.
Proof. induction s as [|c s IH]; simpl; [lia|]. destruct (p c); simpl; lia. Qed.

Lemma match_run_then_bounds (p : char -> bool) (close : char) (s : str) (len : nat) :
  match_run_then p close s = Some len -> 2 <= len <= length s.
Proof.
  unfold match_run_then.
  destruct (span p s) as [|k] eqn:Hk; [discriminate|].
  destruct (nth_error s (S k)) as [d|] eqn:Hd; [|discriminate].
  destruct (char_eqb d close); [|discriminate].
  intros E; inversion E; subst.
  assert (S k < length s) by (apply nth_error_Some; congruence). lia.
Qed.

Lemma match_tag_bounds (s : str) (len : nat) :
  match_tag s = Some len -> 0 < len <= length s.
Proof.
  unfold match_tag, orelse.
  destruct (alt_angle s) as [x|] eqn:H1.
  { intros E; inversion E; subst. unfold alt_angle in H1.
    destruct s as [|c s']; [discriminate|].
    destruct (char_eqb c LT); [|discriminate].
    destruct (match_run_then re_not_gt GT s') as [k|] eqn:Hk; [|discriminate].
    apply match_run_then_bounds in Hk. inversion H1; subst. simpl. lia. }
  destruct (alt_bracket s) as [x|] eqn:H2.
  { intros E; inversion E; subst. unfold alt_bracket in H2.
    destruct s as [|c s']; [discriminate|].
    destruct (char_eqb c LBRACKET); [|discriminate].
    destruct (match_run_then re_AZ_ignorecase RBRACKET s') as [k|] eqn:Hk;
      [|discriminate].
    apply match_run_then_bounds in Hk. inversion H2; subst. simpl. lia. }
  destruct (alt_escape s) as [x|] eqn:H3.
  { intros E; inversion E; subst. unfold alt_escape in H3.
    destruct s as [|b [|n s']]; try discriminate.
    destruct (char_eqb b BACKSLASH && re_n_ignorecase n); [|discriminate].
    inversion H3; subst. simpl. lia. }
  unfold alt_padded.
  destruct s as [|a [|b [|n [|z s']]]]; try discriminate.
  destruct (char_eqb a SPACE && char_eqb b BACKSLASH && re_n_ignorecase n
            && char_eqb z SPACE); [|discriminate].
  intros E; inversion E; subst. simpl. lia.
Qed.

Lemma finditer_from_chained (s : str) :
  forall pos skip, skip <= length s ->
    chained (pos + skip) (pos + length s) (finditer_from pos skip s).
Proof.
  induction s as [|c s IH]; intros pos skip Hskip; simpl; [exact I|].
  destruct skip as [|k].
  - destruct (match_tag (c :: s)) as [len|] eqn:Hm.
    + apply match_tag_bounds in Hm. simpl in Hm. simpl.
      repeat split; try lia.
      replace (pos + len) with (S pos + (len - 1)) by lia.
      replace (pos + S (length s)) with (S pos + length s) by lia.
      apply IH. lia.
    + specialize (IH (S pos) 0).
      replace (pos + 0) with pos by lia.
      replace (pos + S (length s)) with (S pos + length s) by lia.
      assert (Hc : chained (S pos + 0) (S pos + length s) (finditer_from (S pos) 0 s))
        by (apply IH; lia).
      revert Hc. generalize (finditer_from (S pos) 0 s).
      intros [|[a b] ms]; simpl; auto. intros (H1 & H2 & H3 & H4).
      repeat split; auto; lia.
  - simpl in Hskip.
    replace (pos + S k) with (S pos + k) by lia.
    replace (pos + S (length s)) with (S pos + length s) by lia.
    apply IH. lia.
Qed.

Lemma finditer_chained (text : str) : chained 0 (length text) (finditer text).
Proof. apply (finditer_from_chained text 0 0). lia. Qed.

(** *** The loop invariant of [parse_tagged_text] *)

Definition nonempty_segments (segs : list segment) : Prop :=
  Forall (fun seg => fst seg <> []) segs.

Lemma contents_app (a b : list segment) : contents (a ++ b) = contents a ++ contents b.
Proof. unfold contents. now rewrite map_app, concat_app. Qed.

Lemma contents_single (c : str) (b : bool) : contents [(c, b)] = c.
Proof. unfold contents. simpl. apply app_nil_r. Qed.

Lemma nonempty_segments_snoc (segs : list segment) (c : str) (b : bool) :
  nonempty_segments segs -> c <> [] -> nonempty_segments (segs ++ [(c, b)]).
Proof.
  intros H Hc. apply Forall_app; split; auto.
Qed.

Lemma tag_loop_invariant (text : str) (ms : list (nat * nat)) :
  forall last_end result,
    chained last_end (length text) ms ->
    last_end <= length text ->
    contents result = slice text 0 last_end ->
    nonempty_segments result ->
    let '(result', last_end') := tag_loop text ms last_end result in
    contents result' = slice text 0 last_end'
    /\ last_end' <= length text
    /\ nonempty_segments result'.
Proof.
  induction ms as [|[a b] ms IH]; intros last_end result Hch Hle Hc Hne; simpl.
  - auto.
  - simpl in Hch. destruct Hch as (H1 & H2 & H3 & H4).
    apply IH; auto.
    + rewrite contents_app, contents_single.
      rewrite <- (slice_app text 0 a b) by lia. f_equal.
      destruct (last_end <? a) eqn:Hlt.
      * apply Nat.ltb_lt in Hlt.
        destruct (truthy (slice text last_end a)) eqn:Ht.
        -- rewrite contents_app, contents_single, Hc. apply slice_app; lia.
        -- apply truthy_false in Ht. exfalso.
           apply (slice_nonempty text last_end a); auto; lia.
      * apply Nat.ltb_ge in Hlt. replace a with last_end by lia. exact Hc.
    + apply nonempty_segments_snoc.
      * destruct (last_end <? a); auto.
        destruct (truthy (slice text last_end a)) eqn:Ht; auto.
        apply nonempty_segments_snoc; auto.
        intros E. rewrite E in Ht. discriminate.
      * apply slice_nonempty; lia.
Qed.

Lemma tag_loop_nil (text : str) (last_end : nat) (result : list segment) :
  tag_loop text [] last_end result = (result, last_end).
Proof. reflexivity. Qed.

Lemma parse_tagged_text_contents (text : str) :
  contents (parse_tagged_text text) = text.
Proof.
  unfold parse_tagged_text. destruct (truthy text) eqn:Ht.
  2:{ apply truthy_false in Ht. now subst. }
  pose proof (tag_loop_invariant text (finditer text) 0 []
                (finditer_chained text) (Nat.le_0_l _) eq_refl (Forall_nil _)) as H.
  destruct (tag_loop text (finditer text) 0 []) as [result last_end].
  destruct H as (Hc & Hle & _).
  destruct (last_end <? length text) eqn:Hlt.
  - apply Nat.ltb_lt in Hlt.
    destruct (truthy (slice text last_end (length text))) eqn:Hs.
    + rewrite contents_app, contents_single, Hc, slice_app by lia. apply slice_full.
    + apply truthy_false in Hs. exfalso.
      apply (slice_nonempty text last_end (length text)); auto.
  - apply Nat.ltb_ge in Hlt. replace last_end with (length text) in Hc by lia.
    now rewrite Hc, slice_full.
Qed.

(** *** A text with markup is not blank *)

Lemma match_tag_not_blank (s : str) (len : nat) :
  match_tag s = Some len -> all_space s = false.
Proof.
  unfold match_tag, orelse, alt_angle, alt_bracket, alt_escape, alt_padded.
  destruct s as [|a s1]; [discriminate|].
  destruct (char_eqb a LT) eqn:H1.
  { apply N.eqb_eq in H1. subst a. reflexivity. }
  destruct (char_eqb a LBRACKET) eqn:H2.
  { apply N.eqb_eq in H2. subst a. reflexivity. }
  simpl. destruct s1 as [|b s2]; [discriminate|].
  destruct (char_eqb a BACKSLASH) eqn:H3.
  { apply N.eqb_eq in H3. subst a. reflexivity. }
  simpl. destruct s2 as [|n [|z s4]]; try discriminate.
  destruct (char_eqb a SPACE); simpl; [|discriminate].
  destruct (char_eqb b BACKSLASH) eqn:H4; simpl; [|discriminate].
  apply N.eqb_eq in H4. subst b. intros _.
  unfold all_space. simpl. apply andb_false_r.
Qed.

Lemma finditer_from_not_blank (s : str) :
  forall pos skip, finditer_from pos skip s <> [] -> all_space s = false.
Proof.
  induction s as [|c s IH]; intros pos skip; simpl; [congruence|].
  destruct skip as [|k].
  - destruct (match_tag (c :: s)) as [len|] eqn:Hm.
    + intros _. apply match_tag_not_blank in Hm. exact Hm.
    + intros H. apply IH in H. unfold all_space in *. simpl. rewrite H.
      apply andb_false_r.
  - intros H. apply IH in H. unfold all_space in *. simpl. rewrite H.
    apply andb_false_r.
Qed.

Lemma markup_not_blank (text : str) :
  existsb snd (parse_tagged_text text) = true -> truthy (strip text) = true.
Proof.
  intros H. rewrite truthy_strip.
  destruct (finditer text) as [|m ms] eqn:Hf.
  - exfalso. unfold parse_tagged_text in H. rewrite Hf in H. simpl in H.
    destruct (truthy text); [|discriminate].
    destruct (0 <? length text); [|discriminate].
    destruct (truthy (slice text 0 (length text))); discriminate.
  - unfold finditer in Hf.
    rewrite (finditer_from_not_blank text 0 0); auto. congruence.
Qed.

Lemma markup_not_empty (text : str) :
  existsb snd (parse_tagged_text text) = true -> truthy text = true.
Proof.
  unfold parse_tagged_text. destruct (truthy text); auto.
Qed.

End Tokenizer.

(** ** The segment translator: [smart_translate] *)

Module Translator.
Import PyStr Tokenizer.

(** What a translate function returns: [(translated, error)], each a string
    or [None]. *)
Definition translation := (option str * option str)%type.

(** Python's truth value of a [str | None]: [None] and the empty string are
    false. *)
Definition truthy_opt (o : option str) : bool :=
  match o with Some s => truthy s | None => false end.

Fixpoint enumerate_from {A : Type} (i : nat) (l : list A) : list (nat * A) :=
  match l with
  | [] => []
  | x :: l' => (i, x) :: enumerate_from (S i) l'
  end.

Definition enumerate {A : Type} (l : list A) : list (nat * A) := enumerate_from 0 l.

(** [l[i] = x] for an index within the list. *)
Fixpoint list_set {A : Type} (l : list A) (i : nat) (x : A) : list A :=
  match l, i with
  | [], _ => []
  | _ :: l', O => x :: l'
  | y :: l', S i' => y :: list_set l' i' x
  end.

(** [seg[:len(seg) - len(seg.lstrip())]] and [seg[len(seg.rstrip()):]]. *)
Definition leading (seg : str) : str :=
  slice seg 0 (length seg - length (lstrip seg)).

Definition trailing (seg : str) : str :=
  skipn (length (rstrip seg)) seg.

Section SmartTranslate.

(** The injected translate function may keep state (a cache, a translation
    memory, a network session): it is a function of the text and a state [W]
    that it returns updated. *)
Variable W : Type.
Variable translate_func : str -> W -> translation * W.

(** [[(i, seg) for i, (seg, is_tag) in enumerate(segments)
      if not is_tag and seg.strip()]]. *)
Definition text_segments_of (segments : list segment) : list (nat * str) :=
  map (fun e : nat * segment => (fst e, fst (snd e)))
    (filter (fun e : nat * segment =>
               negb (snd (snd e)) && truthy (strip (fst (snd e))))
       (enumerate segments)).

(** The [for idx, seg in text_segments] loop, threading
    [translated_segments], [errors] and the state of [translate_func]. *)
Fixpoint translate_loop (todo : list (nat * str))
    (translated_segments : list segment) (errors : list str) (w : W)
    : list segment * list str * W :=
  match todo with
  | [] => (translated_segments, errors, w)
  | (idx, seg) :: todo' =>
      let seg_clean := strip seg in
      if truthy seg_clean then
        let '((tr, err), w1) := translate_func seg_clean w in
        let translated_segments1 :=
          match tr with
          | Some t =>
              if truthy t
              then list_set translated_segments idx
                     (leading seg ++ t ++ trailing seg, false)
              else translated_segments
          | None => translated_segments
          end in
        let errors1 :=
          match err with
          | Some e => if truthy e then errors ++ [e] else errors
          | None => errors
          end in
        translate_loop todo' translated_segments1 errors1 w1
      else translate_loop todo' translated_segments errors w
  end.

Definition smart_translate (text : str) (w : W) : translation * W :=
  if negb (truthy text) || negb (truthy (strip text)) then ((None, None), w)
  else
    let segments := parse_tagged_text text in
    if forallb snd segments || negb (existsb snd segments)
    then translate_func text w
    else
      let text_segments := text_segments_of segments in
      match text_segments with
      | [] => ((Some text, None), w)
      | _ :: _ =>
          let '(translated_segments, errors, w') :=
            translate_loop text_segments segments [] w in
          let result := join [] (map fst translated_segments) in
          ((Some result, hd_error errors), w')
      end.

End SmartTranslate.

Arguments translate_loop {W} translate_func todo translated_segments errors w.
Arguments smart_translate {W} translate_func text w.

(** *** The translation of a tokenization, segment by segment

    What section 4.3 of the specification describes: every literal segment
    with non-blank content is trimmed and handed to the translate function,
    and a non-empty answer replaces it with the white space it had put back
    around; every other segment stays; the errors are collected in the order
    of the calls. *)

Section TranslateEach.

Variable W : Type.
Variable translate_func : str -> W -> translation * W.

Definition translatable (seg : segment) : bool :=
  negb (snd seg) && truthy (strip (fst seg)).

Definition reattach (seg : str) (tr : option str) : str :=
  match tr with
  | Some t => if truthy t then leading seg ++ t ++ trailing seg else seg
  | None => seg
  end.

Definition error_list (err : option str) : list str :=
  match err with
  | Some e => if truthy e then [e] else []
  | None => []
  end.

Fixpoint translate_each (segs : list segment) (w : W)
    : list segment * list str * W :=
  match segs with
  | [] => ([], [], w)
  | seg :: rest =>
      if translatable seg then
        let '((tr, err), w1) := translate_func (strip (fst seg)) w in
        let '(out, errs, w2) := translate_each rest w1 in
        ((reattach (fst seg) tr, false) :: out, error_list err ++ errs, w2)
      else
        let '(out, errs, w2) := translate_each rest w in
        (seg :: out, errs, w2)
  end.

(** The segments of [out] stand where those of [segs] stood, with the same
    marking, and the markup among them is unchanged. *)
Definition markup_kept (segs out : list segment) : Prop :=
  Forall2 (fun a b : segment =>
             snd a = snd b /\ (snd a = true -> fst a = fst b)) segs out.

Definition text_segments_from (i : nat) (segments : list segment) : list (nat * str) :=
  map (fun e : nat * segment => (fst e, fst (snd e)))
    (filter (fun e : nat * segment =>
               negb (snd (snd e)) && truthy (strip (fst (snd e))))
       (enumerate_from i segments)).

Lemma list_set_middle (A : Type) (pre : list A) (y x : A) (rest : list A) :
  list_set (pre ++ y :: rest) (length pre) x = pre ++ x :: rest.
Proof. induction pre as [|p pre IH]; simpl; auto. now rewrite IH. Qed.

Lemma translate_each_cons (seg : str) (is_tag : bool) (rest : list segment) (w : W) :
  translate_each ((seg, is_tag) :: rest) w
  = if negb is_tag && truthy (strip seg) then
      let '((tr, err), w1) := translate_func (strip seg) w in
      let '(out, errs, w2) := translate_each rest w1 in
      ((reattach seg tr, false) :: out, error_list err ++ errs, w2)
    else
      let '(out, errs, w2) := translate_each rest w in
      ((seg, is_tag) :: out, errs, w2).
Proof. reflexivity. Qed.

Lemma translate_loop_each (rest : list segment) :
  forall (pre : list segment) (errors : list str) (w : W),
    translate_loop translate_func (text_segments_from (length pre) rest)
      (pre ++ rest) errors w
    = let '(out, errs, w') := translate_each rest w in
      (pre ++ out, errors ++ errs, w').
Proof.
  induction rest as [|[seg is_tag] rest IH]; intros pre errors w.
  - simpl. now rewrite !app_nil_r.
  - rewrite translate_each_cons.
    unfold text_segments_from. simpl enumerate_from. simpl filter.
    destruct (negb is_tag && truthy (strip seg)) eqn:Hc.
    + apply andb_true_iff in Hc. destruct Hc as [Htag Hs].
      simpl map. simpl translate_loop. rewrite Hs.
      destruct (translate_func (strip seg) w) as [[tr err] w1].
      pose proof (IH (pre ++ [(reattach seg tr, false)])) as IH'.
      rewrite length_app, Nat.add_1_r in IH'. unfold text_segments_from in IH'.
      destruct is_tag; [discriminate|].
      assert (Hset :
        match tr with
        | Some t =>
            if truthy t
            then list_set (pre ++ (seg, false) :: rest) (length pre)
                   (leading seg ++ t ++ trailing seg, false)
            else pre ++ (seg, false) :: rest
        | None => pre ++ (seg, false) :: rest
        end = (pre ++ [(reattach seg tr, false)]) ++ rest).
      { rewrite <- app_assoc. simpl. unfold reattach.
        destruct tr as [t|]; auto. destruct (truthy t); auto.
        apply list_set_middle. }
      etransitivity; [|etransitivity; [apply (IH' (errors ++ error_list err) w1)|]].
      * f_equal; auto. unfold error_list.
        destruct err as [e|]; [destruct (truthy e)|]; now rewrite ?app_nil_r.
      * destruct (translate_each rest w1) as [[out errs] w2].
        now rewrite <- !app_assoc.
    + pose proof (IH (pre ++ [(seg, is_tag)]) errors w) as IH'.
      rewrite length_app, Nat.add_1_r in IH'. unfold text_segments_from in IH'.
      etransitivity; [|etransitivity; [apply IH'|]].
      * f_equal. now rewrite <- app_assoc.
      * destruct (translate_each rest w) as [[out errs] w2].
        now rewrite <- app_assoc.
Qed.

Lemma translate_each_markup_kept (segs : list segment) :
  forall w, markup_kept segs (fst (fst (translate_each segs w))).
Proof.
  induction segs as [|[seg is_tag] rest IH]; intros w; simpl.
  - constructor.
  - unfold translatable. simpl.
    destruct (negb is_tag && truthy (strip seg)) eqn:Hc.
    + destruct (translate_func (strip seg) w) as [[tr err] w1].
      specialize (IH w1).
      destruct (translate_each rest w1) as [[out errs] w2]. simpl in *.
      constructor; auto. simpl.
      destruct is_tag; [discriminate|]. split; [reflexivity|discriminate].
    + specialize (IH w).
      destruct (translate_each rest w) as [[out errs] w2]. simpl in *.
      constructor; auto.
Qed.

(** Without a translatable segment nothing is called and nothing changes. *)
Lemma translate_each_idle (segs : list segment) (w : W) :
  text_segments_from 0 segs = [] -> translate_each segs w = (segs, [], w).
Proof.
  assert (G : forall i, text_segments_from i segs = [] ->
                        translate_each segs w = (segs, [], w)).
  { induction segs as [|[seg is_tag] rest IH]; intros i; simpl; auto.
    unfold text_segments_from, translatable. simpl.
    destruct (negb is_tag && truthy (strip seg)); simpl; [discriminate|].
    intros H. fold (text_segments_from (S i) rest) in H.
    now rewrite (IH (S i) H). }
  apply G.
Qed.

(** The tokenization mixes markup and literal text: the text takes neither
    the fast path nor the early return of [smart_translate]. *)
Definition mixed (text : str) : Prop :=
  existsb snd (parse_tagged_text text) = true
  /\ forallb snd (parse_tagged_text text) = false.

Lemma smart_translate_mixed (text : str) (w : W) :
  mixed text ->
  smart_translate translate_func text w
  = let '(out, errs, w') := translate_each (parse_tagged_text text) w in
    ((Some (contents out), hd_error errs), w').
Proof.
  intros [Hany Hall]. unfold smart_translate.
  rewrite (markup_not_empty text Hany), (markup_not_blank text Hany), Hany, Hall.
  simpl.
  change (text_segments_of (parse_tagged_text text))
    with (text_segments_from 0 (parse_tagged_text text)).
  destruct (text_segments_from 0 (parse_tagged_text text)) as [|e todo] eqn:Hts.
  - rewrite (translate_each_idle _ w Hts). simpl.
    now rewrite parse_tagged_text_contents.
  - rewrite <- Hts.
    pose proof (translate_loop_each (parse_tagged_text text) [] [] w) as H.
    simpl in H. rewrite H.
    destruct (translate_each (parse_tagged_text text) w) as [[out errs] w'].
    now rewrite join_nil.
Qed.

End TranslateEach.

Arguments translate_each {W} translate_func segs w.

End Translator.

(** ** The source filter: [_should_skip_source] and [_is_translation_key] *)

Module Filter.
Import PyStr.

Local Open Scope N_scope.

Definition UNDERSCORE : char := 95.
Definition LBRACE : char := 123.
Definition RBRACE : char := 125.
Definition PERCENT : char := 37.
Definition DOT : char := 46.
Definition HYPHEN : char := 45.

(** The class [[a-zA-Z_%]] (the pattern has no flag). *)
Definition re_placeholder_start (c : char) : bool :=
  in_range 97 122 c || in_range 65 90 c || N.eqb c 95 || N.eqb c 37.

Local Close Scope N_scope.

(** [re.search]: the pattern, given by its match [m] anchored at the start
    of a text, matches at some position of [s]. *)
Fixpoint re_search (m : str -> bool) (s : str) : bool :=
  m s || match s with [] => false | _ :: s' => re_search m s' end.

(** [\{[a-zA-Z_%]] anchored. *)
Definition m_placeholder (s : str) : bool :=
  match s with
  | a :: b :: _ => char_eqb a LBRACE && re_placeholder_start b
  | _ => false
  end.

(** [a\s*b] anchored, for characters [a] and [b] that are not white space:
    the greedy [\s*] takes the whole run of white space. *)
Definition m_spaced (a b : char) (s : str) : bool :=
  match s with
  | x :: r =>
      char_eqb x a
      && match lstrip r with y :: _ => char_eqb y b | [] => false end
  | [] => false
  end.

(** [part * k]. *)
Fixpoint str_mul (part : str) (k : nat) : str :=
  match k with
  | O => []
  | S k' => part ++ str_mul part k'
  end.

Section UnicodeClasses.

(** [str.isalpha] and [str.isalnum] on one character: the Unicode database
    decides them. *)
Variable isalpha : char -> bool.
Variable isalnum : char -> bool.

(** [s.isalpha()] and [s.isalnum()]: false on the empty string. *)
Definition str_isalpha (s : str) : bool := truthy s && forallb isalpha s.
Definition str_isalnum (s : str) : bool := truthy s && forallb isalnum s.

(** The [for n in range(1, len(s) // 2 + 1)] loop of [_should_skip_source]:
    it returns [True] at the first [n] that divides [len(s)] with
    [s[:n] * (len(s) // n) == s]. *)
Definition repeats (s : str) : bool :=
  existsb (fun n =>
             (length s mod n =? 0)
             && str_eqb (str_mul (firstn n s) (length s / n)) s)
    (seq 1 (length s / 2)).

Definition _should_skip_source (text : str) : bool :=
  if negb (truthy text) || negb (truthy (strip text)) then true
  else
    let s := strip text in
    if char_in LBRACE s && char_in RBRACE s && re_search m_placeholder s then true
    else if contains (py "%s") s || contains (py "%d") s || contains (py "%(") s
    then true
    else if re_search (m_spaced UNDERSCORE RBRACE) s
            || re_search (m_spaced LBRACE UNDERSCORE) s
    then true
    else if negb (truthy (remove_char NEWLINE
                            (remove_char SPACE (remove_char UNDERSCORE s))))
    then true
    else if negb (char_in SPACE s) && negb (char_in NEWLINE s)
            && char_in UNDERSCORE s
            && forallb (fun c => isalnum c || char_eqb c UNDERSCORE) s
    then true
    else if negb (char_in SPACE s) && negb (char_in NEWLINE s)
            && (2 <=? length s) && str_isalpha s
    then repeats s
    else false.

(** [_is_translation_key]: a dotted identifier such as [items.Sword.name]. *)
Definition key_part_ok (p : str) : bool :=
  truthy p && str_isalnum (remove_char HYPHEN (remove_char UNDERSCORE p)).

Definition _is_translation_key (text : str) : bool :=
  if negb (truthy text) || negb (truthy (strip text)) then false
  else
    let s := strip text in
    if char_in SPACE s then false
    else
      let parts := split_char DOT s in
      if length parts <? 2 then false
      else forallb key_part_ok parts.

(** *** Repetitions *)

Lemma length_str_mul (part : str) (k : nat) :
  length (str_mul part k) = k * length part.
Proof. induction k as [|k IH]; simpl; auto. rewrite length_app, IH. lia. Qed.

Lemma firstn_str_mul (part : str) (k : nat) :
  firstn (length part) (str_mul part (S k)) = part.
Proof.
  simpl. rewrite firstn_app, Nat.sub_diag, firstn_all. simpl. apply app_nil_r.
Qed.

Lemma repeats_str_mul (part : str) (k : nat) :
  part <> [] -> 2 <= k -> repeats (str_mul part k) = true.
Proof.
  intros Hp Hk. unfold repeats. apply existsb_exists.
  assert (Hn : 0 < length part) by (destruct part; simpl; [congruence|lia]).
  exists (length part). rewrite length_str_mul. split.
  - apply in_seq. split; [lia|].
    assert (length part <= k * length part / 2); [|lia].
    apply Nat.div_le_lower_bound; [lia|]. nia.
  - rewrite Nat.Div0.mod_mul, Nat.div_mul by lia. simpl.
    destruct k as [|k]; [lia|].
    rewrite firstn_str_mul. apply str_eqb_refl.
Qed.

(** *** Alphabetic text *)

Hypothesis alpha_not_space : forall c, isalpha c = true -> isspace c = false.

Lemma alpha_no_space (s : str) : forallb isalpha s = true -> no_space s = true.
Proof.
  unfold no_space. rewrite !forallb_forall. intros H c Hc.
  now rewrite (alpha_not_space c (H c Hc)).
Qed.

Lemma no_space_char_in (c : char) (s : str) :
  isspace c = true -> no_space s = true -> char_in c s = false.
Proof.
  intros Hc Hs. unfold char_in. destruct (existsb (char_eqb c) s) eqn:E; auto.
  apply existsb_exists in E. destruct E as (x & Hx & Hcx).
  apply N.eqb_eq in Hcx. subst x.
  unfold no_space in Hs. rewrite forallb_forall in Hs.
  specialize (Hs c Hx). rewrite Hc in Hs. discriminate.
Qed.

End UnicodeClasses.

(** The ASCII part of the two classes, for concrete runs. *)
Definition ascii_isalpha (c : char) : bool :=
  (in_range 65 90 c || in_range 97 122 c)%N.
Definition ascii_isalnum (c : char) : bool :=
  (ascii_isalpha c || in_range 48 57 c)%N.

End Filter.

(** ** Dictionaries

    A Python [dict] keeps its keys in the order of their first insertion: an
    association list without repeated keys. *)

Module Dict.
Import PyStr.

Definition dict (V : Type) := list (str * V).

Fixpoint get {V : Type} (d : dict V) (k : str) : option V :=
  match d with
  | [] => None
  | (k', v) :: d' => if str_eqb k' k then Some v else get d' k
  end.

Definition mem {V : Type} (d : dict V) (k : str) : bool :=
  match get d k with Some _ => true | None => false end.

(** [d[k] = v]: the value of a key already present is replaced where the
    key stands, a new key goes to the end. *)
Fixpoint set {V : Type} (d : dict V) (k : str) (v : V) : dict V :=
  match d with
  | [] => [(k, v)]
  | (k', v') :: d' =>
      if str_eqb k' k then (k', v) :: d' else (k', v') :: set d' k v
  end.

(** [d.update(other)]. *)
Definition update {V : Type} (d other : dict V) : dict V :=
  fold_left (fun acc kv => set acc (fst kv) (snd kv)) other d.

Definition keys {V : Type} (d : dict V) : list str := map fst d.

(** *** Lookup and update *)

Lemma get_set_same {V : Type} (d : dict V) (k : str) (v : V) :
  get (set d k v) k = Some v.
Proof.
  induction d as [|[k' v'] d IH]; simpl.
  - now rewrite str_eqb_refl.
  - destruct (str_eqb k' k) eqn:E; simpl; rewrite E; auto.
Qed.

Lemma get_set_other {V : Type} (d : dict V) (k k' : str) (v : V) :
  k <> k' -> get (set d k v) k' = get d k'.
Proof.
  intros Hne. induction d as [|[k0 v0] d IH]; simpl.
  - destruct (str_eqb k k') eqn:E; auto. apply str_eqb_eq in E. congruence.
  - destruct (str_eqb k0 k) eqn:E; simpl; [|now rewrite IH].
    apply str_eqb_eq in E. subst k0.
    destruct (str_eqb k k') eqn:E'; auto.
    apply str_eqb_eq in E'. congruence.
Qed.

Lemma get_None {V : Type} (d : dict V) (k : str) :
  get d k = None <-> ~ In k (keys d).
Proof.
  induction d as [|[k' v'] d IH]; simpl; [tauto|].
  destruct (str_eqb k' k) eqn:E.
  - apply str_eqb_eq in E. subst. split; [discriminate|tauto].
  - rewrite IH. split; [|tauto]. intros H [H1|H1]; auto.
    subst. rewrite str_eqb_refl in E. discriminate.
Qed.

Lemma get_Some_in {V : Type} (d : dict V) (k : str) (v : V) :
  get d k = Some v -> In (k, v) d.
Proof.
  induction d as [|[k' v'] d IH]; simpl; [discriminate|].
  destruct (str_eqb k' k) eqn:E; auto.
  apply str_eqb_eq in E. subst. intros H; inversion H; auto.
Qed.

Lemma in_get {V : Type} (d : dict V) (k : str) (v : V) :
  NoDup (keys d) -> In (k, v) d -> get d k = Some v.
Proof.
  induction d as [|[k' v'] d IH]; simpl; [tauto|].
  intros Hnd [H|H].
  - inversion H; subst. now rewrite str_eqb_refl.
  - inversion Hnd; subst. destruct (str_eqb k' k) eqn:E; auto.
    apply str_eqb_eq in E. subst. exfalso. apply H2.
    change k with (fst (k, v)). now apply in_map.
Qed.

Lemma set_absent {V : Type} (d : dict V) (k : str) (v : V) :
  get d k = None -> set d k v = d ++ [(k, v)].
Proof.
  induction d as [|[k' v'] d IH]; simpl; auto.
  destruct (str_eqb k' k); [discriminate|]. intros H. now rewrite IH.
Qed.

Lemma keys_set_present {V : Type} (d : dict V) (k : str) (v : V) :
  get d k <> None -> keys (set d k v) = keys d.
Proof.
  induction d as [|[k' v'] d IH]; simpl; [congruence|].
  destruct (str_eqb k' k); simpl; auto. intros H. now rewrite IH.
Qed.

Lemma NoDup_keys_set {V : Type} (d : dict V) (k : str) (v : V) :
  NoDup (keys d) -> NoDup (keys (set d k v)).
Proof.
  intros H. destruct (get d k) eqn:E.
  - rewrite keys_set_present; [exact H|congruence].
  - rewrite set_absent by exact E. unfold keys. rewrite map_app. simpl.
    apply NoDup_app; [exact H|repeat constructor; auto|].
    intros x Hx [Hk|[]]. subst x. now apply (proj1 (get_None d k) E).
Qed.

Lemma set_all {V : Type} (P : str * V -> Prop) (d : dict V) (k : str) (v : V) :
  (forall k', k' = k -> P (k', v)) -> Forall P d -> Forall P (set d k v).
Proof.
  intros Hk. induction d as [|[k' v'] d IH]; simpl; intros H.
  - constructor; auto.
  - inversion H; subst. destruct (str_eqb k' k) eqn:E.
    + constructor; auto. apply Hk. now apply str_eqb_eq.
    + constructor; auto.
Qed.

Lemma fold_set_fresh {V : Type} (l acc : dict V) :
  NoDup (keys (acc ++ l)) ->
  fold_left (fun a kv => set a (fst kv) (snd kv)) l acc = acc ++ l.
Proof.
  revert acc; induction l as [|[k v] l IH]; intros acc H; simpl.
  - now rewrite app_nil_r.
  - assert (Hk : get acc k = None).
    { apply get_None. unfold keys in H. rewrite map_app in H. simpl in H.
      apply NoDup_remove_2 in H. intros Hin. apply H. apply in_or_app. auto. }
    rewrite (set_absent _ _ _ Hk).
    replace (acc ++ (k, v) :: l) with ((acc ++ [(k, v)]) ++ l)
      by (now rewrite <- app_assoc).
    apply IH. now rewrite <- app_assoc.
Qed.

Lemma get_update_other {V : Type} (other d : dict V) (k : str) :
  get other k = None -> get (update d other) k = get d k.
Proof.
  unfold update. revert d; induction other as [|[k' v'] o IH]; intros d; simpl; auto.
  destruct (str_eqb k' k) eqn:E; [discriminate|]. intros H.
  rewrite (IH _ H). apply get_set_other. intros ->.
  rewrite str_eqb_refl in E. discriminate.
Qed.

Lemma get_update_in {V : Type} (other d : dict V) (k : str) (v : V) :
  NoDup (keys other) -> get other k = Some v -> get (update d other) k = Some v.
Proof.
  unfold update. revert d; induction other as [|[k' v'] o IH]; intros d; simpl.
  - discriminate.
  - intros Hnd. inversion Hnd; subst. destruct (str_eqb k' k) eqn:E.
    + apply str_eqb_eq in E. subst k'. intros H; inversion H; subst.
      change (fold_left (fun acc kv => set acc (fst kv) (snd kv)) o (set d k v))
        with (update (set d k v) o).
      rewrite get_update_other; [apply get_set_same|].
      now apply get_None.
    + intros H. now apply IH.
Qed.

Lemma NoDup_keys_update {V : Type} (other d : dict V) :
  NoDup (keys d) -> NoDup (keys (update d other)).
Proof.
  unfold update. revert d; induction other as [|[k v] o IH]; intros d H; simpl; auto.
  apply IH. now apply NoDup_keys_set.
Qed.

Lemma update_all {V : Type} (P : str * V -> Prop) (other d : dict V) :
  Forall P other -> Forall P d -> Forall P (update d other).
Proof.
  unfold update. revert d; induction other as [|[k v] o IH]; intros d Ho Hd; simpl; auto.
  inversion Ho; subst. apply IH; auto. apply set_all; auto.
  intros k' ->. assumption.
Qed.

Lemma get_perm {V : Type} (d d' : dict V) (k : str) :
  Permutation d d' -> NoDup (keys d) -> get d k = get d' k.
Proof.
  intros Hp Hnd.
  assert (Hnd' : NoDup (keys d')).
  { apply (Permutation_NoDup (l := keys d)); auto. now apply Permutation_map. }
  destruct (get d k) as [v|] eqn:E.
  - symmetry. apply in_get; auto.
    apply (Permutation_in _ Hp). now apply get_Some_in.
  - symmetry. apply get_None. apply get_None in E. intros Hin. apply E.
    apply (Permutation_in (l := keys d')); auto.
    apply Permutation_sym. now apply Permutation_map.
Qed.

Lemma in_set {V : Type} (d : dict V) (k : str) (v : V) (x : str * V) :
  In x (set d k v) -> In x d \/ x = (k, v).
Proof.
  induction d as [|[k' v'] d IH]; simpl.
  - intros [<-|[]]. now right.
  - destruct (str_eqb k' k) eqn:E; simpl.
    + apply str_eqb_eq in E. subst k'. intros [<-|H]; auto.
    + intros [<-|H]; auto. destruct (IH H); auto.
Qed.

(** *** Updates that change nothing *)

Lemma set_same {V : Type} (d : dict V) (k : str) (v : V) :
  get d k = Some v -> set d k v = d.
Proof.
  induction d as [|[k' v'] d IH]; simpl; [discriminate|].
  destruct (str_eqb k' k) eqn:E.
  - intros H. inversion H. reflexivity.
  - intros H. now rewrite IH.
Qed.

Lemma update_same {V : Type} (other d : dict V) :
  (forall k v, In (k, v) other -> get d k = Some v) -> update d other = d.
Proof.
  unfold update. induction other as [|[k v] o IH]; intros H; simpl; auto.
  rewrite set_same by (apply H; now left).
  apply IH. intros k' v' Hin. apply H. now right.
Qed.

Lemma in_update {V : Type} (other d : dict V) (x : str * V) :
  In x (update d other) -> In x d \/ In x other.
Proof.
  unfold update. revert d. induction other as [|[k v] o IH]; intros d; simpl; auto.
  intros H. apply IH in H. destruct H as [H|H]; auto.
  apply in_set in H. destruct H as [H|H]; auto.
Qed.

Lemma mem_In {V : Type} (d : dict V) (k : str) : mem d k = true <-> In k (keys d).
Proof.
  unfold mem. destruct (get d k) as [v|] eqn:E.
  - split; auto. intros _. apply get_Some_in in E.
    apply in_map_iff. now exists (k, v).
  - apply get_None in E. split; [discriminate|contradiction].
Qed.

Lemma keys_set {V : Type} (d : dict V) (k : str) (v : V) (k' : str) :
  In k' (keys (set d k v)) <-> In k' (keys d) \/ k' = k.
Proof.
  induction d as [|[k0 v0] d IH]; simpl.
  - split.
    + intros [H|[]]. now right.
    + intros [[]|H]. now left.
  - destruct (str_eqb k0 k) eqn:E; simpl.
    + apply str_eqb_eq in E. subst k0. split; [tauto|].
      intros [H|H]; auto.
    + rewrite IH. tauto.
Qed.

End Dict.

(** ** Locale files: [parse_lang_content], [lang_to_content] and the keys *)

Module Lang.
Import PyStr Filter.

Definition EQUALS : char := 61%N.
Definition HASH : char := 35%N.
Definition SLASH : char := 47%N.

(** One turn of the [for line in text.splitlines()] loop. *)
Definition parse_line (result : Dict.dict str) (line0 : str) : Dict.dict str :=
  let line := strip line0 in
  if negb (truthy line) || starts_with [HASH] line then result
  else if char_in EQUALS line then
    let '(key, value) := partition_char EQUALS line in
    Dict.set result (strip key) (strip value)
  else result.

Definition parse_lang_content (text : str) : Dict.dict str :=
  fold_left parse_line (splitlines text) [].

(** The order of the pairs [(k, v)] that [sorted] uses. *)
Definition item_ltb (p q : str * str) : bool :=
  str_ltb (fst p) (fst q)
  || (str_eqb (fst p) (fst q) && str_ltb (snd p) (snd q)).

(** [sorted(items)]: a stable sort; an item goes before the first item
    that is greater. *)
Fixpoint insert_item (x : str * str) (l : list (str * str)) : list (str * str) :=
  match l with
  | [] => [x]
  | y :: l' => if item_ltb x y then x :: l else y :: insert_item x l'
  end.

Definition sorted (l : list (str * str)) : list (str * str) :=
  fold_left (fun acc x => insert_item x acc) l [].

(** [lang_to_content(entries, use_spaces=False)]. *)
Definition lang_line (kv : str * str) : str := fst kv ++ [EQUALS] ++ snd kv.

Definition lang_to_content (entries : Dict.dict str) : str :=
  join [NEWLINE] (map lang_line (sorted entries)).

(** [lang_file_rel_to_ru]: the first path component that names a locale
    other than [ru-RU] becomes [ru-RU]. *)
Definition is_locale_name (p : str) : bool :=
  truthy p && negb (str_eqb p (py "ru-RU"))
  && (starts_with (py "en") p
      || ((length p =? 5)
          && match nth_error p 2 with
             | Some c => char_eqb c HYPHEN
             | None => false
             end)).

Fixpoint to_ru_parts (parts : list str) : list str :=
  match parts with
  | [] => []
  | p :: rest =>
      if is_locale_name p then py "ru-RU" :: rest else p :: to_ru_parts rest
  end.

Definition lang_file_rel_to_ru (rel : str) : str :=
  join [SLASH] (to_ru_parts (split_char SLASH (replace [BACKSLASH] [SLASH] rel))).

Section CaseVariant.

(** [str.lower]: the Unicode database decides it. *)
Variable lower : str -> str.

Definition _key_case_variant (key : str) : str :=
  if contains (py "benchcategories.") (lower key) then
    if contains (py "benchcategories.") key
    then replace_first (py "benchcategories.") (py "benchCategories.") key
    else replace_first (py "benchCategories.") (py "benchcategories.") key
  else key.

(** The [for k, v in list(d.items())] loop that adds the aliases: it runs
    over the items the dictionary had before the loop. *)
Definition add_aliases (d : Dict.dict str) : Dict.dict str :=
  fold_left
    (fun acc kv =>
       let alt := _key_case_variant (fst kv) in
       if negb (str_eqb alt (fst kv)) && negb (Dict.mem acc alt)
       then Dict.set acc alt (snd kv) else acc)
    d d.

End CaseVariant.

(** [str.lower] on ASCII text, for concrete runs. *)
Definition ascii_lower (s : str) : str :=
  map (fun c => if in_range 65 90 c then (c + 32)%N else c) s.

(** *** Well-formed items

    What a line [key=value] can hold: a key and a value without white space
    at their ends and without line boundary, the key without [=] and not
    starting a comment. *)

Definition clean_key (k : str) : Prop :=
  trimmed k /\ char_in EQUALS k = false /\ no_linebreak k = true
  /\ starts_with [HASH] k = false.

Definition clean_value (v : str) : Prop := trimmed v /\ no_linebreak v = true.

Definition clean_item (kv : str * str) : Prop :=
  clean_key (fst kv) /\ clean_value (snd kv).

Lemma parse_line_lang_line (result : Dict.dict str) (k v : str) :
  clean_item (k, v) ->
  parse_line result (lang_line (k, v)) = Dict.set result k v.
Proof.
  intros [(Hkt & Hke & _ & Hkh) (Hvt & _)]. simpl in *.
  unfold parse_line, lang_line. simpl fst. simpl snd.
  rewrite (trimmed_strip (k ++ [EQUALS] ++ v))
    by (apply trimmed_cons_mid; auto).
  assert (Ht : truthy (k ++ [EQUALS] ++ v) = true) by (destruct k; reflexivity).
  assert (Hh : starts_with [HASH] (k ++ [EQUALS] ++ v) = false).
  { destruct k as [|x k]; [reflexivity|]. simpl in *.
    exact Hkh. }
  rewrite Ht, Hh, char_in_mid, (partition_char_mid EQUALS k v Hke).
  simpl. now rewrite (trimmed_strip k Hkt), (trimmed_strip v Hvt).
Qed.

Lemma lang_line_is_a_line (kv : str * str) :
  clean_item kv -> no_linebreak (lang_line kv) = true /\ lang_line kv <> [].
Proof.
  destruct kv as [k v]. intros [(_ & _ & Hk & _) (_ & Hv)]. simpl in *.
  unfold lang_line, no_linebreak in *. simpl fst. simpl snd. split.
  - rewrite !forallb_app, Hk, Hv. reflexivity.
  - destruct k; discriminate.
Qed.

(** *** Sorting *)

Lemma insert_item_perm (x : str * str) (l : list (str * str)) :
  Permutation (insert_item x l) (x :: l).
Proof.
  induction l as [|y l IH]; simpl; auto.
  destruct (item_ltb x y); auto.
  rewrite IH. apply perm_swap.
Qed.

Lemma sorted_perm (l : list (str * str)) : Permutation (sorted l) l.
Proof.
  unfold sorted.
  assert (G : forall acc, Permutation
                (fold_left (fun a x => insert_item x a) l acc) (acc ++ l)).
  { induction l as [|x l IH]; intros acc; simpl.
    - now rewrite app_nil_r.
    - eapply Permutation_trans; [apply IH|].
      eapply Permutation_trans; [apply Permutation_app_tail, insert_item_perm|].
      simpl. apply Permutation_middle. }
  apply (G []).
Qed.

Lemma sorted_keys_NoDup (d : Dict.dict str) :
  NoDup (Dict.keys d) -> NoDup (Dict.keys (sorted d)).
Proof.
  apply Permutation_NoDup. apply Permutation_map, Permutation_sym, sorted_perm.
Qed.

Lemma get_sorted (d : Dict.dict str) (k : str) :
  NoDup (Dict.keys d) -> Dict.get (sorted d) k = Dict.get d k.
Proof.
  intros H. symmetry. apply Dict.get_perm; auto.
  apply Permutation_sym, sorted_perm.
Qed.

(** *** Reading back what was written *)

Lemma fold_parse_lines (l : list (str * str)) :
  Forall clean_item l ->
  forall acc,
    fold_left parse_line (map lang_line l) acc
    = fold_left (fun a kv => Dict.set a (fst kv) (snd kv)) l acc.
Proof.
  induction l as [|[k v] l IH]; intros H acc; simpl; auto.
  inversion H; subst. rewrite parse_line_lang_line by assumption.
  now apply IH.
Qed.

Lemma parse_lang_to_content (d : Dict.dict str) :
  Forall clean_item d -> NoDup (Dict.keys d) ->
  parse_lang_content (lang_to_content d) = sorted d.
Proof.
  intros Hc Hnd. unfold parse_lang_content, lang_to_content.
  assert (Hcs : Forall clean_item (sorted d)).
  { apply (Permutation_Forall (Permutation_sym (sorted_perm d))). exact Hc. }
  rewrite splitlines_join.
  - rewrite (fold_parse_lines (sorted d) Hcs).
    apply (Dict.fold_set_fresh (sorted d) []). simpl. now apply sorted_keys_NoDup.
  - apply Forall_map. revert Hcs. apply Forall_impl.
    intros kv. apply lang_line_is_a_line.
Qed.

(** *** What a locale file holds *)

Definition well_formed (d : Dict.dict str) : Prop :=
  Forall clean_item d /\ NoDup (Dict.keys d).

Lemma parse_line_well_formed (result : Dict.dict str) (line0 : str) :
  no_linebreak line0 = true -> well_formed result ->
  well_formed (parse_line result line0).
Proof.
  intros Hl [Hc Hnd]. unfold parse_line.
  pose proof (strip_trimmed line0) as Htr.
  pose proof (forallb_strip _ line0 Hl) as Hnl. fold (no_linebreak (strip line0)) in Hnl.
  set (line := strip line0) in *.
  destruct (negb (truthy line) || starts_with [HASH] line) eqn:Hskip;
    [split; assumption|].
  apply orb_false_iff in Hskip. destruct Hskip as [_ Hhash].
  destruct (char_in EQUALS line) eqn:Heq; [|split; assumption].
  destruct (partition_char EQUALS line) as [key value] eqn:Hp.
  destruct (partition_char_parts EQUALS line key value Hp) as (Hk & Hline & _).
  specialize (Hline Heq).
  assert (Hparts : no_linebreak key = true /\ no_linebreak value = true).
  { unfold no_linebreak in *. rewrite Hline, !forallb_app in Hnl.
    apply andb_true_iff in Hnl. destruct Hnl as [H1 H2].
    apply andb_true_iff in H2. tauto. }
  destruct Hparts as [Hnk Hnv].
  split; [|now apply Dict.NoDup_keys_set].
  apply Dict.set_all; auto. intros k' ->. split; simpl.
  - split; [apply strip_trimmed|]. split; [now apply char_in_strip|].
    split; [now apply forallb_strip|].
    destruct key as [|x key']; [reflexivity|].
    assert (Hx : isspace x = false).
    { destruct Htr as [Htr _]. apply lstrip_fixed in Htr.
      rewrite Hline in Htr. exact Htr. }
    destruct (strip_cons x key' Hx) as (r & E). rewrite E.
    rewrite Hline in Hhash. simpl in Hhash. simpl.
    destruct (char_eqb HASH x); [discriminate|reflexivity].
  - split; [apply strip_trimmed|now apply forallb_strip].
Qed.

Lemma parse_lang_content_well_formed (text : str) :
  well_formed (parse_lang_content text).
Proof.
  unfold parse_lang_content.
  assert (G : forall lines acc,
             Forall (fun l => no_linebreak l = true) lines ->
             well_formed acc -> well_formed (fold_left parse_line lines acc)).
  { induction lines as [|l lines IH]; intros acc Hl Hacc; simpl; auto.
    inversion Hl; subst. apply IH; auto. now apply parse_line_well_formed. }
  apply G; [apply splitlines_no_linebreak|]. split; constructor.
Qed.

(** *** The aliases *)

(** A text that may stand anywhere in a key. *)
Definition plain (s : str) : Prop :=
  s <> []
  /\ forallb (fun c => negb (isspace c)) s = true
  /\ char_in EQUALS s = false
  /\ no_linebreak s = true
  /\ starts_with [HASH] s = false.

Lemma head_app_nonempty (P : char -> Prop) (a b : str) :
  a <> [] ->
  match a with [] => True | c :: _ => P c end ->
  match a ++ b with [] => True | c :: _ => P c end.
Proof. destruct a; simpl; auto. congruence. Qed.

Lemma clean_key_subst (s1 old new s2 : str) :
  plain new -> clean_key (s1 ++ old ++ s2) -> clean_key (s1 ++ new ++ s2).
Proof.
  intros (Hne & Hsp & Heq & Hnl & Hh) ([Hl Hr] & Hke & Hkl & Hkh).
  apply lstrip_fixed in Hl. apply lstrip_fixed in Hr.
  unfold clean_key, trimmed. rewrite char_in_false in *. unfold no_linebreak in *.
  rewrite !forallb_app in *.
  apply andb_true_iff in Hke. destruct Hke as [Hke1 Hke2].
  apply andb_true_iff in Hke2. destruct Hke2 as [_ Hke2].
  apply andb_true_iff in Hkl. destruct Hkl as [Hkl1 Hkl2].
  apply andb_true_iff in Hkl2. destruct Hkl2 as [_ Hkl2].
  assert (Hn1 : match new with [] => True | c :: _ => isspace c = false end).
  { destruct new as [|n new]; auto. simpl in Hsp.
    apply andb_true_iff in Hsp. destruct Hsp as [Hsp _].
    now apply negb_true_iff in Hsp. }
  assert (Hn2 : match rev new with [] => True | c :: _ => isspace c = false end).
  { rewrite <- forallb_rev in Hsp. destruct (rev new) as [|n r]; auto.
    simpl in Hsp. apply andb_true_iff in Hsp. destruct Hsp as [Hsp _].
    now apply negb_true_iff in Hsp. }
  split; [split|split; [|split]].
  - apply lstrip_fixed. destruct s1 as [|x s1]; [|exact Hl].
    simpl. now apply head_app_nonempty.
  - apply lstrip_fixed. rewrite !rev_app_distr in *. rewrite <- app_assoc in *.
    destruct (rev s2) as [|y r2]; [|exact Hr]. simpl.
    apply head_app_nonempty; auto.
    intros E. apply Hne. apply (f_equal (@rev _)) in E.
    now rewrite rev_involutive in E.
  - now rewrite Hke1, Heq, Hke2.
  - now rewrite Hkl1, Hnl, Hkl2.
  - destruct s1 as [|x s1]; [|exact Hkh]. simpl.
    destruct new as [|n new]; [congruence|exact Hh].
Qed.

Section Aliases.

Variable lower : str -> str.

Lemma clean_key_case_variant (k : str) :
  clean_key k -> clean_key (_key_case_variant lower k).
Proof.
  intros Hk. unfold _key_case_variant.
  destruct (contains (py "benchcategories.") (lower k)); [|exact Hk].
  destruct (contains (py "benchcategories.") k).
  - destruct (replace_first_spec (py "benchcategories.") (py "benchCategories.") k)
      as [E|(s1 & s2 & E1 & E2)]; [discriminate|now rewrite E|].
    rewrite E2. rewrite E1 in Hk. revert Hk. apply clean_key_subst.
    repeat split; try reflexivity. discriminate.
  - destruct (replace_first_spec (py "benchCategories.") (py "benchcategories.") k)
      as [E|(s1 & s2 & E1 & E2)]; [discriminate|now rewrite E|].
    rewrite E2. rewrite E1 in Hk. revert Hk. apply clean_key_subst.
    repeat split; try reflexivity. discriminate.
Qed.

Definition alias_step (acc : Dict.dict str) (kv : str * str) : Dict.dict str :=
  let alt := _key_case_variant lower (fst kv) in
  if negb (str_eqb alt (fst kv)) && negb (Dict.mem acc alt)
  then Dict.set acc alt (snd kv) else acc.

Lemma add_aliases_fold (d : Dict.dict str) :
  add_aliases lower d = fold_left alias_step d d.
Proof. reflexivity. Qed.

Lemma alias_step_keeps (acc : Dict.dict str) (kv : str * str) (k v : str) :
  Dict.get acc k = Some v -> Dict.get (alias_step acc kv) k = Some v.
Proof.
  intros H. unfold alias_step.
  destruct (negb (str_eqb (_key_case_variant lower (fst kv)) (fst kv))); simpl; auto.
  unfold Dict.mem.
  destruct (Dict.get acc (_key_case_variant lower (fst kv))) eqn:E; simpl; auto.
  rewrite Dict.get_set_other; auto. intros Heq. rewrite Heq in E. congruence.
Qed.

Lemma add_aliases_keeps (d : Dict.dict str) (k v : str) :
  Dict.get d k = Some v -> Dict.get (add_aliases lower d) k = Some v.
Proof.
  rewrite add_aliases_fold. generalize d at 1 3 as acc.
  induction d as [|kv d IH]; intros acc H; simpl; auto.
  apply IH. now apply alias_step_keeps.
Qed.

Lemma alias_step_well_formed (acc : Dict.dict str) (kv : str * str) :
  clean_item kv -> well_formed acc -> well_formed (alias_step acc kv).
Proof.
  intros [Hk Hv] [Hc Hnd]. unfold alias_step.
  destruct (negb (str_eqb (_key_case_variant lower (fst kv)) (fst kv))
            && negb (Dict.mem acc (_key_case_variant lower (fst kv))));
    [|split; assumption].
  split; [|now apply Dict.NoDup_keys_set].
  apply Dict.set_all; auto. intros k' ->. split; simpl; auto.
  now apply clean_key_case_variant.
Qed.

Lemma add_aliases_well_formed (d : Dict.dict str) :
  well_formed d -> well_formed (add_aliases lower d).
Proof.
  intros Hd. rewrite add_aliases_fold.
  assert (G : forall items acc,
             Forall clean_item items -> well_formed acc ->
             well_formed (fold_left alias_step items acc)).
  { induction items as [|kv items IH]; intros acc Hi Hacc; simpl; auto.
    inversion Hi; subst. apply IH; auto. now apply alias_step_well_formed. }
  apply G; auto. apply Hd.
Qed.

(** *** Dictionaries that hold every variant *)

(** The variant of the variant of [k] is [k]. *)
Definition stable_key (k : str) : Prop :=
  _key_case_variant lower (_key_case_variant lower k) = k.

Definition closed (d : Dict.dict str) : Prop :=
  forall k, In k (Dict.keys d) -> In (_key_case_variant lower k) (Dict.keys d).

Lemma alias_step_keys (acc : Dict.dict str) (kv : str * str) (k : str) :
  In k (Dict.keys (alias_step acc kv)) ->
  In k (Dict.keys acc) \/ k = _key_case_variant lower (fst kv).
Proof.
  unfold alias_step.
  destruct (negb (str_eqb (_key_case_variant lower (fst kv)) (fst kv))
            && negb (Dict.mem acc (_key_case_variant lower (fst kv)))); auto.
  intros H. now apply Dict.keys_set in H.
Qed.

Lemma alias_step_mono (acc : Dict.dict str) (kv : str * str) (k : str) :
  In k (Dict.keys acc) -> In k (Dict.keys (alias_step acc kv)).
Proof.
  unfold alias_step.
  destruct (negb (str_eqb (_key_case_variant lower (fst kv)) (fst kv))
            && negb (Dict.mem acc (_key_case_variant lower (fst kv)))); auto.
  intros H. apply Dict.keys_set. now left.
Qed.

Lemma alias_step_adds (acc : Dict.dict str) (kv : str * str) :
  In (fst kv) (Dict.keys acc) ->
  In (_key_case_variant lower (fst kv)) (Dict.keys (alias_step acc kv)).
Proof.
  intros Hk. unfold alias_step.
  destruct (str_eqb (_key_case_variant lower (fst kv)) (fst kv)) eqn:E1; simpl.
  - apply str_eqb_eq in E1. now rewrite E1.
  - destruct (Dict.mem acc (_key_case_variant lower (fst kv))) eqn:E2; simpl.
    + now apply Dict.mem_In.
    + apply Dict.keys_set. now right.
Qed.

Lemma fold_alias_mono (items acc : Dict.dict str) (k : str) :
  In k (Dict.keys acc) -> In k (Dict.keys (fold_left alias_step items acc)).
Proof.
  revert acc. induction items as [|kv items IH]; intros acc H; simpl; auto.
  apply IH. now apply alias_step_mono.
Qed.

Lemma fold_alias_keys (items : Dict.dict str) :
  forall acc k,
    In k (Dict.keys (fold_left alias_step items acc)) ->
    In k (Dict.keys acc)
    \/ exists k0, In k0 (Dict.keys items) /\ k = _key_case_variant lower k0.
Proof.
  induction items as [|kv items IH]; intros acc k H; simpl in *; auto.
  apply IH in H. destruct H as [H|(k0 & H0 & E)].
  - apply alias_step_keys in H. destruct H as [H|H]; auto.
    right. exists (fst kv). auto.
  - right. exists k0. auto.
Qed.

Lemma fold_alias_adds (items : Dict.dict str) :
  forall acc k0,
    (forall k, In k (Dict.keys items) -> In k (Dict.keys acc)) ->
    In k0 (Dict.keys items) ->
    In (_key_case_variant lower k0) (Dict.keys (fold_left alias_step items acc)).
Proof.
  induction items as [|kv items IH]; intros acc k0 Hsub H0; simpl in *; [contradiction|].
  destruct H0 as [<-|H0].
  - apply fold_alias_mono. apply alias_step_adds. apply Hsub. now left.
  - apply IH; auto. intros k Hk. apply alias_step_mono. apply Hsub. now right.
Qed.

Lemma add_aliases_closed (d : Dict.dict str) :
  Forall stable_key (Dict.keys d) -> closed (add_aliases lower d).
Proof.
  intros Hs k Hk. rewrite add_aliases_fold in *.
  apply fold_alias_keys in Hk. destruct Hk as [Hk|(k0 & H0 & ->)].
  - now apply fold_alias_adds.
  - rewrite Forall_forall in Hs. rewrite (Hs k0 H0). now apply fold_alias_mono.
Qed.

Lemma add_aliases_noop (d : Dict.dict str) : closed d -> add_aliases lower d = d.
Proof.
  intros Hc. rewrite add_aliases_fold.
  assert (G : forall items,
             (forall k, In k (Dict.keys items) -> In k (Dict.keys d)) ->
             fold_left alias_step items d = d).
  { induction items as [|kv items IH]; intros Hsub; simpl; auto.
    assert (E : alias_step d kv = d).
    { unfold alias_step.
      assert (Hm : Dict.mem d (_key_case_variant lower (fst kv)) = true).
      { apply Dict.mem_In. apply Hc. apply Hsub. now left. }
      rewrite Hm. now rewrite andb_false_r. }
    rewrite E. apply IH. intros k Hk. apply Hsub. now right. }
  apply G. auto.
Qed.

Lemma closed_perm (d d' : Dict.dict str) : Permutation d d' -> closed d -> closed d'.
Proof.
  intros Hp Hc k Hk.
  assert (Hpk : Permutation (Dict.keys d) (Dict.keys d'))
    by (unfold Dict.keys; now apply Permutation_map).
  apply (Permutation_in _ Hpk). apply Hc.
  apply (Permutation_in _ (Permutation_sym Hpk)). exact Hk.
Qed.

End Aliases.

(** *** Sorted items *)

Lemma item_ltb_irrefl (p : str * str) : item_ltb p p = false.
Proof.
  unfold item_ltb. rewrite !str_ltb_irrefl. now rewrite andb_false_r.
Qed.

Lemma item_ltb_trans (p q r : str * str) :
  item_ltb p q = true -> item_ltb q r = true -> item_ltb p r = true.
Proof.
  unfold item_ltb. intros H1 H2.
  apply orb_true_iff in H1. apply orb_true_iff in H2. apply orb_true_iff.
  destruct H1 as [H1|H1], H2 as [H2|H2].
  - left. now apply (str_ltb_trans _ (fst q)).
  - apply andb_true_iff in H2. destruct H2 as [E _]. apply str_eqb_eq in E.
    left. now rewrite <- E.
  - apply andb_true_iff in H1. destruct H1 as [E _]. apply str_eqb_eq in E.
    left. now rewrite E.
  - apply andb_true_iff in H1. apply andb_true_iff in H2.
    destruct H1 as [E1 L1], H2 as [E2 L2]. apply str_eqb_eq in E1, E2.
    right. apply andb_true_iff. split.
    + apply str_eqb_eq. congruence.
    + now apply (str_ltb_trans _ (snd q)).
Qed.

(** [x] does not go after [y]. *)
Definition item_le (x y : str * str) : Prop := item_ltb y x = false.

Lemma item_ltb_le (x y : str * str) : item_ltb x y = true -> item_le x y.
Proof.
  intros H. unfold item_le. destruct (item_ltb y x) eqn:E; auto.
  pose proof (item_ltb_trans x y x H E) as C. rewrite item_ltb_irrefl in C.
  discriminate.
Qed.

(** Every item does not go after the items that follow it. *)
Fixpoint in_order (l : list (str * str)) : Prop :=
  match l with
  | [] => True
  | x :: l' => Forall (item_le x) l' /\ in_order l'
  end.

Lemma insert_item_in_order (x : str * str) (l : list (str * str)) :
  in_order l -> in_order (insert_item x l).
Proof.
  induction l as [|y l IH]; simpl; [intros _; split; [constructor|exact I]|].
  intros [Hy Hl]. destruct (item_ltb x y) eqn:E; simpl.
  - split; [|split; assumption]. constructor; [now apply item_ltb_le|].
    apply Forall_forall. intros z Hz. unfold item_le.
    destruct (item_ltb z x) eqn:Ez; auto.
    pose proof (item_ltb_trans z x y Ez E) as C.
    rewrite Forall_forall in Hy. specialize (Hy z Hz). unfold item_le in Hy.
    congruence.
  - split; [|now apply IH].
    apply Forall_forall. intros z Hz.
    apply (Permutation_in _ (insert_item_perm x l)) in Hz.
    destruct Hz as [<-|Hz]; [exact E|].
    rewrite Forall_forall in Hy. now apply Hy.
Qed.

Lemma sorted_in_order (l : list (str * str)) : in_order (sorted l).
Proof.
  unfold sorted.
  assert (G : forall acc, in_order acc ->
                          in_order (fold_left (fun a x => insert_item x a) l acc)).
  { induction l as [|x l IH]; intros acc Ha; simpl; auto.
    apply IH. now apply insert_item_in_order. }
  apply G. exact I.
Qed.

Lemma insert_item_last (x : str * str) (l : list (str * str)) :
  Forall (fun y => item_le y x) l -> insert_item x l = l ++ [x].
Proof.
  induction l as [|y l IH]; simpl; auto.
  intros H. inversion H as [|? ? Hy Hl]; subst. unfold item_le in Hy.
  rewrite Hy. now rewrite IH.
Qed.

Lemma in_order_app (a : list (str * str)) (x : str * str) (l : list (str * str)) :
  in_order (a ++ x :: l) -> Forall (fun y => item_le y x) a.
Proof.
  induction a as [|y a IH]; simpl; [constructor|].
  intros [Hy Ha]. constructor; [|now apply IH].
  rewrite Forall_forall in Hy. apply Hy. apply in_or_app. right. now left.
Qed.

Lemma sorted_of_in_order (l : list (str * str)) : in_order l -> sorted l = l.
Proof.
  unfold sorted.
  assert (G : forall acc, in_order (acc ++ l) ->
                          fold_left (fun a x => insert_item x a) l acc = acc ++ l).
  { induction l as [|x l IH]; intros acc Ha; simpl; [now rewrite app_nil_r|].
    rewrite (insert_item_last x acc) by now apply (in_order_app acc x l).
    rewrite IH; rewrite <- app_assoc; auto. }
  intros H. apply (G []). exact H.
Qed.

Lemma sorted_idem (l : list (str * str)) : sorted (sorted l) = sorted l.
Proof. apply sorted_of_in_order, sorted_in_order. Qed.

Lemma lang_to_content_sorted (d : Dict.dict str) :
  lang_to_content (sorted d) = lang_to_content d.
Proof. unfold lang_to_content. now rewrite sorted_idem. Qed.

End Lang.

(** ** JSON values and the Python operations on them *)

Module Json.
Import PyStr.

(** A key of a [dict]: [json.loads] makes string keys only; [obj[i] = v]
    with an integer [i] on a [dict] adds an integer key. *)
Inductive pkey : Type :=
| KStr (s : str)
| KInt (z : Z).

Local Set Warnings "-register-all".

(** What [json.loads] returns. *)
Inductive json : Type :=
| JNull
| JBool (b : bool)
| JInt (z : Z)
| JFloat (f : float)
| JStr (s : str)
| JArr (items : list json)
| JObj (members : list (pkey * json)).

Definition pkey_eqb (a b : pkey) : bool :=
  match a, b with
  | KStr x, KStr y => str_eqb x y
  | KInt x, KInt y => Z.eqb x y
  | _, _ => false
  end.

(** Python's truth value. *)
Definition json_truthy (v : json) : bool :=
  match v with
  | JNull => false
  | JBool b => b
  | JInt z => negb (Z.eqb z 0)
  | JFloat f => negb (PrimFloat.eqb f PrimFloat.zero)
  | JStr s => truthy s
  | JArr items => match items with [] => false | _ => true end
  | JObj members => match members with [] => false | _ => true end
  end.

Definition is_dict (v : json) : bool := match v with JObj _ => true | _ => false end.
Definition is_list (v : json) : bool := match v with JArr _ => true | _ => false end.
Definition is_str (v : json) : bool := match v with JStr _ => true | _ => false end.

Fixpoint members_get (o : list (pkey * json)) (k : pkey) : option json :=
  match o with
  | [] => None
  | (k', v) :: o' => if pkey_eqb k' k then Some v else members_get o' k
  end.

Fixpoint members_set (o : list (pkey * json)) (k : pkey) (v : json)
    : list (pkey * json) :=
  match o with
  | [] => [(k, v)]
  | (k', v') :: o' =>
      if pkey_eqb k' k then (k', v) :: o' else (k', v') :: members_set o' k v
  end.

(** The position that the index [i] names in a sequence of [len] items:
    a negative index counts from the end; [None] is [IndexError]. *)
Definition index_of (len : nat) (i : Z) : option nat :=
  let j := if (i <? 0)%Z then (i + Z.of_nat len)%Z else i in
  if ((0 <=? j) && (j <? Z.of_nat len))%Z then Some (Z.to_nat j) else None.

Fixpoint list_set_at {A : Type} (l : list A) (i : nat) (x : A) : list A :=
  match l, i with
  | [], _ => []
  | _ :: l', O => x :: l'
  | y :: l', S i' => y :: list_set_at l' i' x
  end.

(** [d.get(k)] for a string [k]; [None] is [AttributeError] (not a dict).
    The inner option is Python's [None] for a missing key. *)
Definition dict_get (d : json) (k : str) : option (option json) :=
  match d with
  | JObj o => Some (members_get o (KStr k))
  | _ => None
  end.

(** [obj[k]]; [None] is [KeyError], [IndexError] or [TypeError]. *)
Definition getitem (obj : json) (k : pkey) : option json :=
  match obj, k with
  | JObj o, _ => members_get o k
  | JArr l, KInt i =>
      match index_of (length l) i with
      | Some n => nth_error l n
      | None => None
      end
  | JStr s, KInt i =>
      match index_of (length s) i with
      | Some n => option_map (fun c => JStr [c]) (nth_error s n)
      | None => None
      end
  | _, _ => None
  end.

(** [obj[k] = v]; [None] is [IndexError] or [TypeError]. *)
Definition setitem (obj : json) (k : pkey) (v : json) : option json :=
  match obj, k with
  | JObj o, _ => Some (JObj (members_set o k v))
  | JArr l, KInt i =>
      match index_of (length l) i with
      | Some n => Some (JArr (list_set_at l n v))
      | None => None
      end
  | _, _ => None
  end.

(** [k in obj] for a string [k]; [None] is [TypeError] (not iterable). *)
Definition str_in (k : str) (obj : json) : option bool :=
  match obj with
  | JObj o => Some (match members_get o (KStr k) with Some _ => true | None => false end)
  | JArr l => Some (existsb (fun x => match x with JStr s => str_eqb s k | _ => false end) l)
  | JStr s => Some (contains k s)
  | _ => None
  end.

(** [len(obj)]; [None] is [TypeError]. *)
Definition py_len (obj : json) : option nat :=
  match obj with
  | JObj o => Some (length o)
  | JArr l => Some (length l)
  | JStr s => Some (length s)
  | _ => None
  end.

Definition pkey_json (k : pkey) : json :=
  match k with KStr s => JStr s | KInt z => JInt z end.

(** [for x in obj]: the items of a list, the keys of a dict, the characters
    of a string; [None] is [TypeError] (not iterable). *)
Definition py_iter (obj : json) : option (list json) :=
  match obj with
  | JArr l => Some l
  | JObj o => Some (map (fun kv => pkey_json (fst kv)) o)
  | JStr s => Some (map (fun c => JStr [c]) s)
  | _ => None
  end.

End Json.

(** ** The extracted mod: a tree of files

    The directory [extracted_path] as the program sees it through [pathlib]:
    a directory lists its entries in the order the operating system gives
    them; a file holds the text that [read_text(encoding="utf-8")] returns,
    or cannot be decoded.  A path is the list of its components below
    [extracted_path]; symbolic links and the components [..] are not
    modelled. *)

Module FS.
Import PyStr.

Local Set Warnings "-register-all".

Inductive node : Type :=
| File (content : option str)
| Dir (entries : list (str * node)).

Definition path := list str.

Definition SLASH : char := 47%N.

(** The components of [base / rel]: [pathlib] drops the empty components
    and the components [.]. *)
Definition path_of (rel : str) : path :=
  filter (fun c => truthy c && negb (str_eqb c (py "."))) (split_char SLASH rel).

(** [p.relative_to(base).as_posix()]. *)
Definition as_posix (p : path) : str := join [SLASH] p.

Fixpoint entry (name : str) (entries : list (str * node)) : option node :=
  match entries with
  | [] => None
  | (n, c) :: rest => if str_eqb n name then Some c else entry name rest
  end.

Fixpoint set_entry (name : str) (c : node) (entries : list (str * node))
    : list (str * node) :=
  match entries with
  | [] => [(name, c)]
  | (n, c') :: rest =>
      if str_eqb n name then (n, c) :: rest else (n, c') :: set_entry name c rest
  end.

Fixpoint lookup (t : node) (p : path) : option node :=
  match p with
  | [] => Some t
  | name :: p' =>
      match t with
      | Dir entries =>
          match entry name entries with
          | Some c => lookup c p'
          | None => None
          end
      | File _ => None
      end
  end.

Definition exists_ (t : node) (p : path) : bool :=
  match lookup t p with Some _ => true | None => false end.

Definition is_file (t : node) (p : path) : bool :=
  match lookup t p with Some (File _) => true | _ => false end.

Definition is_dir (t : node) (p : path) : bool :=
  match lookup t p with Some (Dir _) => true | _ => false end.

(** [p.read_text(encoding="utf-8")]; [None] is the exception raised for a
    missing file, a directory or bytes that are not UTF-8. *)
Definition read_text (t : node) (p : path) : option str :=
  match lookup t p with
  | Some (File (Some s)) => Some s
  | _ => None
  end.

(** [p.write_text(s, encoding="utf-8")]: the file is created or replaced in
    its directory; [None] is the exception raised when the directory is
    missing or the path names a directory. *)
Fixpoint write_text (t : node) (p : path) (s : str) : option node :=
  match p, t with
  | [], _ => None
  | _ :: _, File _ => None
  | [name], Dir entries =>
      match entry name entries with
      | Some (Dir _) => None
      | _ => Some (Dir (set_entry name (File (Some s)) entries))
      end
  | name :: p', Dir entries =>
      match entry name entries with
      | Some c =>
          match write_text c p' s with
          | Some c' => Some (Dir (set_entry name c' entries))
          | None => None
          end
      | None => None
      end
  end.

(** [p.mkdir(parents=True, exist_ok=True)]; [None] is the exception raised
    when a component of [p] is a file. *)
Fixpoint mkdir_all (t : node) (p : path) : option node :=
  match p, t with
  | [], Dir _ => Some t
  | _, File _ => None
  | name :: p', Dir entries =>
      match mkdir_all (match entry name entries with
                       | Some c => c
                       | None => Dir []
                       end) p' with
      | Some c' => Some (Dir (set_entry name c' entries))
      | None => None
      end
  end.

(** [p.parent] and [p.name]. *)
Definition parent (p : path) : path := removelast p.
Definition name (p : path) : str := last p [].

(** The entries of the directory [p], in the order of the file system; a
    path that is no directory has none. *)
Definition listdir (t : node) (p : path) : list (str * node) :=
  match lookup t p with
  | Some (Dir entries) => entries
  | _ => []
  end.

(** [p.glob("*" + suffix)]: the entries of [p] whose name ends with
    [suffix], files and directories alike. *)
Definition glob_suffix (t : node) (p : path) (suffix : str) : list path :=
  map (fun e => p ++ [fst e])
    (filter (fun e => ends_with suffix (fst e)) (listdir t p)).

(** [base.rglob("*" + suffix)]: the matches of a directory, then those of
    its subdirectories, each in turn. *)
Fixpoint rglob_from (here : path) (n : node) (suffix : str) : list path :=
  match n with
  | Dir entries =>
      map (fun e => here ++ [fst e])
        (filter (fun e => ends_with suffix (fst e)) entries)
      ++ (fix below (es : list (str * node)) : list path :=
            match es with
            | [] => []
            | (nm, c) :: es' => rglob_from (here ++ [nm]) c suffix ++ below es'
            end) entries
  | File _ => []
  end.

Definition rglob_suffix (t : node) (suffix : str) : list path :=
  rglob_from [] t suffix.

(** *** Well-formed trees

    The entries of a directory have distinct names, and a name is not empty
    and holds no slash. *)

Definition name_ok (n : str) : bool := truthy n && negb (char_in SLASH n).

Fixpoint distinct (l : list str) : bool :=
  match l with
  | [] => true
  | x :: l' => negb (existsb (str_eqb x) l') && distinct l'
  end.

Fixpoint wf_tree (n : node) : bool :=
  match n with
  | File _ => true
  | Dir entries =>
      distinct (map fst entries)
      && forallb (fun e => name_ok (fst e)) entries
      && (fix all (es : list (str * node)) : bool :=
            match es with
            | [] => true
            | (_, c) :: es' => wf_tree c && all es'
            end) entries
  end.

Lemma distinct_NoDup (l : list str) : distinct l = true -> NoDup l.
Proof.
  induction l as [|x l IH]; simpl; intros H; constructor.
  - apply andb_true_iff in H. destruct H as [H _].
    apply negb_true_iff in H. intros Hin.
    assert (E : existsb (str_eqb x) l = true)
      by (apply existsb_exists; exists x; split; [assumption|apply str_eqb_refl]).
    congruence.
  - apply IH. apply andb_true_iff in H. tauto.
Qed.

Lemma node_rect' (P : node -> Prop) :
  (forall c, P (File c)) ->
  (forall entries, Forall (fun e => P (snd e)) entries -> P (Dir entries)) ->
  forall n, P n.
Proof.
  intros HF HD. fix IH 1. intros [c|entries]; [apply HF|apply HD].
  induction entries as [|[nm c] entries IHe]; constructor; [apply IH|apply IHe].
Qed.

Lemma wf_tree_Dir (entries : list (str * node)) :
  wf_tree (Dir entries) = true ->
  NoDup (map fst entries)
  /\ Forall (fun e => name_ok (fst e) = true) entries
  /\ Forall (fun e => wf_tree (snd e) = true) entries.
Proof.
  simpl. intros H. apply andb_true_iff in H. destruct H as [H H3].
  apply andb_true_iff in H. destruct H as [H1 H2].
  split; [now apply distinct_NoDup|].
  split; [apply Forall_forall; now apply forallb_forall|].
  clear H1 H2. induction entries as [|[nm c] entries IH]; constructor.
  - apply andb_true_iff in H3. tauto.
  - apply IH. apply andb_true_iff in H3. tauto.
Qed.

Lemma entry_in (nm : str) (entries : list (str * node)) (c : node) :
  entry nm entries = Some c -> In (nm, c) entries.
Proof.
  induction entries as [|[n c'] entries IH]; simpl; [discriminate|].
  destruct (str_eqb n nm) eqn:E; auto.
  apply str_eqb_eq in E. subst. intros H; inversion H; auto.
Qed.

Lemma wf_lookup (p : path) :
  forall t n, wf_tree t = true -> lookup t p = Some n -> wf_tree n = true.
Proof.
  induction p as [|nm p IH]; intros t n Hwf; simpl.
  - intros H; inversion H; now subst.
  - destruct t as [c|entries]; [discriminate|].
    destruct (entry nm entries) as [c|] eqn:E; [|discriminate].
    apply IH. apply wf_tree_Dir in Hwf. destruct Hwf as (_ & _ & Hc).
    rewrite Forall_forall in Hc. apply (Hc (nm, c)). now apply entry_in.
Qed.

Lemma NoDup_map_inj {A B : Type} (f : A -> B) (l : list A) :
  (forall a b, In a l -> In b l -> f a = f b -> a = b) ->
  NoDup l -> NoDup (map f l).
Proof.
  induction l as [|x l IH]; simpl; intros Hf Hnd; constructor.
  - inversion Hnd; subst. intros Hin. apply in_map_iff in Hin.
    destruct Hin as (y & Hy & Hyl). apply Hf in Hy; auto. now subst.
  - inversion Hnd; subst. apply IH; auto.
Qed.

Lemma NoDup_filter_map_fst {B : Type} (f : str * B -> bool) (l : list (str * B)) :
  NoDup (map fst l) -> NoDup (map fst (filter f l)).
Proof.
  induction l as [|x l IH]; simpl; intros H; [constructor|].
  inversion H; subst. destruct (f x); simpl; auto.
  constructor; auto. intros Hin. apply H2.
  apply in_map_iff in Hin. destruct Hin as (y & Hy & Hyl).
  apply filter_In in Hyl. apply in_map_iff. exists y. tauto.
Qed.

Lemma listdir_names (t : node) (p : path) :
  wf_tree t = true -> NoDup (map fst (listdir t p)).
Proof.
  intros Hwf. unfold listdir. destruct (lookup t p) as [[c|entries]|] eqn:E;
    try constructor.
  apply (wf_lookup p t _ Hwf) in E. now apply wf_tree_Dir in E.
Qed.

Lemma glob_suffix_distinct (t : node) (p : path) (suffix : str) :
  wf_tree t = true -> NoDup (map as_posix (glob_suffix t p suffix)).
Proof.
  intros Hwf. unfold glob_suffix. rewrite map_map.
  rewrite <- (map_map fst (fun n => as_posix (p ++ [n]))).
  apply NoDup_map_inj.
  - intros a b _ _. apply join_snoc_inj.
  - apply NoDup_filter_map_fst. now apply listdir_names.
Qed.

Lemma rglob_from_Dir (here : path) (entries : list (str * node)) (suffix : str) :
  rglob_from here (Dir entries) suffix
  = map (fun e => here ++ [fst e])
      (filter (fun e => ends_with suffix (fst e)) entries)
    ++ flat_map (fun e => rglob_from (here ++ [fst e]) (snd e) suffix) entries.
Proof.
  simpl. f_equal. induction entries as [|[nm c] entries IH]; simpl; auto.
  now rewrite IH.
Qed.

Lemma rglob_shift (suffix : str) (n : node) :
  forall here,
    rglob_from here n suffix = map (fun q => here ++ q) (rglob_from [] n suffix).
Proof.
  induction n as [c|entries IH] using node_rect'; intros here; [reflexivity|].
  rewrite !rglob_from_Dir, map_app, map_map. simpl. f_equal.
  rewrite flat_map_concat_map, (flat_map_concat_map _ entries), concat_map, map_map.
  f_equal. apply map_ext_in. intros e He.
  rewrite Forall_forall in IH. rewrite (IH e He (here ++ [fst e])), (IH e He [fst e]).
  rewrite map_map. apply map_ext. intros q. now rewrite <- app_assoc.
Qed.

Lemma rglob_rel_Dir (entries : list (str * node)) (suffix : str) :
  rglob_from [] (Dir entries) suffix
  = map (fun e => [fst e]) (filter (fun e => ends_with suffix (fst e)) entries)
    ++ flat_map (fun e => map (cons (fst e)) (rglob_from [] (snd e) suffix)) entries.
Proof.
  rewrite rglob_from_Dir. simpl. f_equal.
  rewrite !flat_map_concat_map. f_equal. apply map_ext. intros e.
  now rewrite rglob_shift.
Qed.

Lemma rglob_good (suffix : str) (n : node) :
  wf_tree n = true ->
  forall q, In q (rglob_from [] n suffix) ->
            q <> [] /\ Forall (fun a => name_ok a = true) q.
Proof.
  induction n as [c|entries IH] using node_rect'; intros Hwf q; [intros []|].
  apply wf_tree_Dir in Hwf. destruct Hwf as (_ & Hok & Hc).
  rewrite Forall_forall in IH, Hok, Hc.
  rewrite rglob_rel_Dir. intros Hin. apply in_app_or in Hin. destruct Hin as [Hin|Hin].
  - apply in_map_iff in Hin. destruct Hin as (e & <- & He).
    apply filter_In in He. destruct He as [He _].
    split; [discriminate|]. constructor; auto.
  - apply in_flat_map in Hin. destruct Hin as (e & He & Hq).
    apply in_map_iff in Hq. destruct Hq as (q' & <- & Hq').
    split; [discriminate|]. constructor; auto.
    now apply (IH e He (Hc e He) q').
Qed.

Lemma NoDup_blocks (entries : list (str * node)) (g : str * node -> list path) :
  NoDup (map fst entries) ->
  (forall e, In e entries -> NoDup (g e)) ->
  NoDup (flat_map (fun e => map (cons (fst e)) (g e)) entries).
Proof.
  induction entries as [|e entries IH]; simpl; intros Hnd Hg; [constructor|].
  inversion Hnd; subst. apply NoDup_app.
  - apply NoDup_map_inj; [|apply Hg; now left].
    intros a b _ _ H. now inversion H.
  - apply IH; auto.
  - intros q Hq1 Hq2. apply in_map_iff in Hq1. destruct Hq1 as (q1 & <- & _).
    apply in_flat_map in Hq2. destruct Hq2 as (e' & He' & Hq2).
    apply in_map_iff in Hq2. destruct Hq2 as (q2 & E & _). inversion E; subst.
    apply H1. apply in_map_iff. exists e'. auto.
Qed.

Lemma rglob_NoDup (suffix : str) (n : node) :
  wf_tree n = true -> NoDup (rglob_from [] n suffix).
Proof.
  induction n as [c|entries IH] using node_rect'; intros Hwf; [constructor|].
  pose proof (rglob_good suffix (Dir entries) Hwf) as Hgood.
  apply wf_tree_Dir in Hwf. destruct Hwf as (Hnd & _ & Hc).
  rewrite Forall_forall in IH, Hc. rewrite rglob_rel_Dir. apply NoDup_app.
  - rewrite <- (map_map fst (fun n => [n])). apply NoDup_map_inj.
    + intros a b _ _ H. now inversion H.
    + now apply NoDup_filter_map_fst.
  - apply NoDup_blocks; auto.
  - intros q Hq1 Hq2. apply in_map_iff in Hq1. destruct Hq1 as (e & <- & _).
    apply in_flat_map in Hq2. destruct Hq2 as (e' & He' & Hq2).
    apply in_map_iff in Hq2. destruct Hq2 as (q2 & E & Hq2). inversion E; subst.
    destruct (rglob_good suffix (snd e') (Hc e' He') [] Hq2) as [Hne _]. congruence.
Qed.

Lemma rglob_suffix_distinct (t : node) (suffix : str) :
  wf_tree t = true -> NoDup (map as_posix (rglob_suffix t suffix)).
Proof.
  intros Hwf. unfold rglob_suffix. apply NoDup_map_inj; [|now apply rglob_NoDup].
  intros a b Ha Hb H.
  destruct (rglob_good suffix t Hwf a Ha) as [Ha1 Ha2].
  destruct (rglob_good suffix t Hwf b Hb) as [Hb1 Hb2].
  assert (Hs : forall q, Forall (fun a => name_ok a = true) q ->
                         Forall (fun a => char_in SLASH a = false) q).
  { intros q. apply Forall_impl. intros x Hx. unfold name_ok in Hx.
    apply andb_true_iff in Hx. destruct Hx as [_ Hx]. now apply negb_true_iff in Hx. }
  rewrite <- (split_join SLASH a Ha1 (Hs a Ha2)).
  rewrite <- (split_join SLASH b Hb1 (Hs b Hb2)).
  unfold as_posix in H. now rewrite H.
Qed.

(** *** What a write leaves as it is *)

Lemma str_eqb_neq (a b : str) : str_eqb a b = false <-> a <> b.
Proof.
  split.
  - intros H E. apply str_eqb_eq in E. congruence.
  - intros H. destruct (str_eqb a b) eqn:E; auto. apply str_eqb_eq in E. contradiction.
Qed.

Lemma entry_set_same (nm : str) (c : node) (l : list (str * node)) :
  entry nm (set_entry nm c l) = Some c.
Proof.
  induction l as [|[n c'] l IH]; simpl.
  - now rewrite str_eqb_refl.
  - destruct (str_eqb n nm) eqn:E; simpl; now rewrite E.
Qed.

Lemma entry_set_other (n nm : str) (c : node) (l : list (str * node)) :
  n <> nm -> entry n (set_entry nm c l) = entry n l.
Proof.
  intros Hne. induction l as [|[n0 c'] l IH]; simpl.
  - assert (E : str_eqb nm n = false) by (apply str_eqb_neq; congruence).
    now rewrite E.
  - destruct (str_eqb n0 nm) eqn:E; simpl.
    + apply str_eqb_eq in E. subst n0.
      assert (E' : str_eqb nm n = false) by (apply str_eqb_neq; congruence).
      now rewrite E'.
    + destruct (str_eqb n0 n); auto.
Qed.

Lemma set_entry_same (nm : str) (c : node) (l : list (str * node)) :
  entry nm l = Some c -> set_entry nm c l = l.
Proof.
  induction l as [|[n c'] l IH]; simpl; [discriminate|].
  destruct (str_eqb n nm) eqn:E.
  - intros H. inversion H. reflexivity.
  - intros H. now rewrite IH.
Qed.

(** [q] is [p] or an ancestor of [p]. *)
Definition prefix (q p : path) : Prop := exists r, p = q ++ r.

Lemma prefix_cons (n : str) (q p : path) : prefix q p -> prefix (n :: q) (n :: p).
Proof. intros [r ->]. now exists r. Qed.

Lemma prefix_nil (p : path) : prefix [] p.
Proof. now exists p. Qed.

Lemma write_text_cons (nm nm' : str) (p' : path) (entries : list (str * node)) (s : str) :
  write_text (Dir entries) (nm :: nm' :: p') s
  = match entry nm entries with
    | Some c =>
        match write_text c (nm' :: p') s with
        | Some c' => Some (Dir (set_entry nm c' entries))
        | None => None
        end
    | None => None
    end.
Proof. reflexivity. Qed.

Lemma lookup_write_same (p : path) :
  forall t t' s, write_text t p s = Some t' -> lookup t' p = Some (File (Some s)).
Proof.
  induction p as [|nm p IH]; intros t t' s H; [simpl in H; discriminate|].
  destruct t as [c|entries]; [destruct p; simpl in H; discriminate|].
  destruct p as [|nm' p'].
  - simpl in H.
    destruct (entry nm entries) as [[c|es]|]; inversion H; subst; simpl;
      now rewrite entry_set_same.
  - rewrite write_text_cons in H.
    destruct (entry nm entries) as [c0|]; [|discriminate].
    destruct (write_text c0 (nm' :: p') s) as [c0'|] eqn:E; [|discriminate].
    inversion H; subst. cbn [lookup]. rewrite entry_set_same.
    now apply (IH c0).
Qed.

Lemma lookup_write_other (p : path) :
  forall t t' s q,
    write_text t p s = Some t' -> ~ prefix q p -> lookup t' q = lookup t q.
Proof.
  induction p as [|nm p IH]; intros t t' s q H Hq; [simpl in H; discriminate|].
  destruct t as [c|entries]; [destruct p; simpl in H; discriminate|].
  destruct q as [|n q]; [destruct Hq; apply prefix_nil|].
  destruct (str_eqb n nm) eqn:En.
  - apply str_eqb_eq in En. subst n.
    assert (Hq' : ~ prefix q p) by (intros Hp; apply Hq; now apply prefix_cons).
    destruct p as [|nm' p'].
    + simpl in H.
      assert (Hne : q <> []) by (intros ->; apply Hq'; apply prefix_nil).
      destruct q as [|n' q']; [congruence|].
      destruct (entry nm entries) as [[c|es]|] eqn:Ee; inversion H; subst;
        cbn [lookup]; rewrite entry_set_same, ?Ee; reflexivity.
    + rewrite write_text_cons in H.
      destruct (entry nm entries) as [c0|] eqn:Ee; [|discriminate].
      destruct (write_text c0 (nm' :: p') s) as [c0'|] eqn:E; [|discriminate].
      inversion H; subst. cbn [lookup]. rewrite entry_set_same, Ee.
      now apply (IH c0 c0' s).
  - apply str_eqb_neq in En.
    assert (G : forall c', lookup (Dir (set_entry nm c' entries)) (n :: q)
                           = lookup (Dir entries) (n :: q))
      by (intros c'; cbn [lookup]; now rewrite entry_set_other).
    destruct p as [|nm' p'].
    + simpl in H.
      destruct (entry nm entries) as [[c|es]|]; inversion H; subst; apply G.
    + rewrite write_text_cons in H.
      destruct (entry nm entries) as [c0|]; [|discriminate].
      destruct (write_text c0 (nm' :: p') s) as [c0'|]; [|discriminate].
      inversion H; subst. apply G.
Qed.

(** A file is no ancestor of a path that can be written. *)
Lemma write_file_not_prefix (p : path) :
  forall t t' s q c,
    write_text t p s = Some t' -> lookup t q = Some (File c) -> q <> p ->
    ~ prefix q p.
Proof.
  induction p as [|nm p IH]; intros t t' s q c H Hl Hne; [simpl in H; discriminate|].
  destruct t as [c0|entries]; [destruct p; simpl in H; discriminate|].
  destruct q as [|n q]; [discriminate|].
  intros [r Hr]. inversion Hr; subst n. clear Hr.
  cbn [lookup] in Hl.
  destruct (entry nm entries) as [c0|] eqn:Ee; [|discriminate].
  destruct p as [|nm' p'].
  - destruct q; [congruence|discriminate].
  - rewrite write_text_cons in H. rewrite Ee in H.
    destruct (write_text c0 (nm' :: p') s) as [c0'|] eqn:E; [|discriminate].
    apply (IH c0 c0' s q c E Hl); [congruence|].
    exists r. congruence.
Qed.

Lemma write_keeps_file (p q : path) (t t' : node) (s : str) (c : option str) :
  write_text t p s = Some t' -> q <> p -> lookup t q = Some (File c) ->
  lookup t' q = Some (File c).
Proof.
  intros H Hne Hl. rewrite (lookup_write_other p t t' s q H); auto.
  now apply (write_file_not_prefix p t t' s q c).
Qed.

Lemma mkdir_all_cons (nm : str) (p' : path) (entries : list (str * node)) :
  mkdir_all (Dir entries) (nm :: p')
  = match mkdir_all (match entry nm entries with
                     | Some c => c
                     | None => Dir []
                     end) p' with
    | Some c' => Some (Dir (set_entry nm c' entries))
    | None => None
    end.
Proof. reflexivity. Qed.

Lemma mkdir_all_file (c : option str) (p : path) : mkdir_all (File c) p = None.
Proof. now destruct p. Qed.

Lemma lookup_mkdir_other (p : path) :
  forall t t' q, mkdir_all t p = Some t' -> ~ prefix q p -> lookup t' q = lookup t q.
Proof.
  induction p as [|nm p IH]; intros t t' q H Hq.
  - destruct t; simpl in H; [discriminate|]. now inversion H.
  - destruct t as [c|entries]; [now rewrite mkdir_all_file in H|].
    rewrite mkdir_all_cons in H.
    destruct q as [|n q]; [destruct Hq; apply prefix_nil|].
    destruct (mkdir_all _ p) as [c'|] eqn:E; [|discriminate].
    inversion H; subst. cbn [lookup].
    destruct (str_eqb n nm) eqn:En.
    + apply str_eqb_eq in En. subst n. rewrite entry_set_same.
      assert (Hq' : ~ prefix q p) by (intros Hp; apply Hq; now apply prefix_cons).
      rewrite (IH _ _ q E Hq').
      destruct (entry nm entries); [reflexivity|].
      destruct q as [|n' q']; [destruct Hq'; apply prefix_nil|reflexivity].
    + apply str_eqb_neq in En. now rewrite entry_set_other.
Qed.

Lemma mkdir_file_not_prefix (p : path) :
  forall t t' q c,
    mkdir_all t p = Some t' -> lookup t q = Some (File c) -> ~ prefix q p.
Proof.
  induction p as [|nm p IH]; intros t t' q c H Hl [r Hr].
  - destruct q; [|discriminate]. simpl in Hl. inversion Hl; subst.
    discriminate.
  - destruct t as [c0|entries]; [now rewrite mkdir_all_file in H|].
    rewrite mkdir_all_cons in H.
    destruct q as [|n q]; [discriminate|].
    inversion Hr; subst n. cbn [lookup] in Hl.
    destruct (entry nm entries) as [c0|]; [|discriminate].
    destruct (mkdir_all c0 p) as [c'|] eqn:E; [|discriminate].
    apply (IH c0 c' q c E Hl). exists r. congruence.
Qed.

Lemma mkdir_keeps_file (p q : path) (t t' : node) (c : option str) :
  mkdir_all t p = Some t' -> lookup t q = Some (File c) ->
  lookup t' q = Some (File c).
Proof.
  intros H Hl. rewrite (lookup_mkdir_other p t t' q H); auto.
  now apply (mkdir_file_not_prefix p t t' q c).
Qed.

(** *** Writes that change nothing *)

Lemma write_text_same (p : path) :
  forall t s, p <> [] -> read_text t p = Some s -> write_text t p s = Some t.
Proof.
  unfold read_text.
  induction p as [|nm p IH]; intros t s Hp H; [congruence|].
  destruct t as [c|entries]; [discriminate|]. cbn [lookup] in H.
  destruct (entry nm entries) as [c0|] eqn:Ee; [|discriminate].
  destruct p as [|nm' p'].
  - simpl in H. destruct c0 as [[c|]|]; try discriminate.
    inversion H; subst. simpl. rewrite Ee. now rewrite set_entry_same.
  - rewrite write_text_cons, Ee. rewrite (IH c0 s); [|discriminate|exact H].
    now rewrite set_entry_same.
Qed.

Lemma mkdir_all_same (p : path) :
  forall t, is_dir t p = true -> mkdir_all t p = Some t.
Proof.
  unfold is_dir.
  induction p as [|nm p IH]; intros t H.
  - simpl in H. now destruct t.
  - destruct t as [c|entries]; [discriminate|]. cbn [lookup] in H.
    rewrite mkdir_all_cons.
    destruct (entry nm entries) as [c0|] eqn:Ee; [|discriminate].
    rewrite (IH c0 H). now rewrite set_entry_same.
Qed.

(** The directory of a file is a directory. *)
Lemma parent_is_dir (p : path) :
  forall t c, p <> [] -> lookup t p = Some (File c) -> is_dir t (parent p) = true.
Proof.
  unfold is_dir, parent.
  induction p as [|nm p IH]; intros t c Hp H; [congruence|].
  destruct t as [c0|entries]; [discriminate|]. cbn [lookup] in H.
  destruct (entry nm entries) as [c0|] eqn:Ee; [|discriminate].
  destruct p as [|nm' p'].
  - reflexivity.
  - change (removelast (nm :: nm' :: p')) with (nm :: removelast (nm' :: p')).
    cbn [lookup]. rewrite Ee. apply (IH c0 c); [discriminate|exact H].
Qed.

Lemma prefix_refl (p : path) : prefix p p.
Proof. exists []. now rewrite app_nil_r. Qed.

Lemma prefix_parent (q p : path) : prefix q (parent p) -> prefix q p.
Proof.
  intros [r Hr]. unfold parent in Hr. destruct p as [|n p]; [now exists r|].
  exists (r ++ [last (n :: p) []]).
  rewrite app_assoc, <- Hr. apply app_removelast_last. discriminate.
Qed.

Lemma lookup_file_nonempty (t : node) (p q : path) (c c' : option str) :
  lookup t p = Some (File c) -> lookup t q = Some (File c') -> p <> [] -> q <> [].
Proof.
  intros Hp Hq Hne ->. simpl in Hq. inversion Hq; subst.
  destruct p; [congruence|discriminate].
Qed.

End FS.

(** ** UI descriptors: [_UI_TEXT_PATTERN], [extract_ui_strings] and
    [apply_ui_translations] *)

Module Ui.
Import PyStr Tokenizer.

Definition re_not_quote (c : char) : bool := negb (char_eqb c QUOTE).

(** [\s*] at the start of [s]: the length of the run of white space. *)
Definition spaces (s : str) : nat := span isspace s.

(** After the marker: the quote that opens the value, the value (any
    characters but a quote) and the quote that closes it.  The result is
    the length of the value. *)
Definition m_quoted (s : str) : option nat :=
  match s with
  | q :: s' =>
      if char_eqb q QUOTE then
        let n := span re_not_quote s' in
        match nth_error s' n with
        | Some _ => Some n
        | None => None
        end
      else None
  | [] => None
  end.

(** The first alternative, anchored at the start of [s]: [Text:], white
    space, then the quoted value.  The result is the lengths of its first
    and second groups. *)
Definition alt_text (s : str) : option (nat * nat) :=
  if starts_with (py "Text:") s then
    let s1 := skipn 5 s in
    let w := spaces s1 in
    match m_quoted (skipn w s1) with
    | Some n => Some (5 + w + 1, n)
    | None => None
    end
  else None.

(** The second alternative: [@Text], white space, [=], white space, then
    the quoted value. *)
Definition alt_at_text (s : str) : option (nat * nat) :=
  if starts_with (py "@Text") s then
    let s1 := skipn 5 s in
    let w1 := spaces s1 in
    match skipn w1 s1 with
    | e :: s2 =>
        if char_eqb e 61%N then
          let w2 := spaces s2 in
          match m_quoted (skipn w2 s2) with
          | Some n => Some (5 + w1 + 1 + w2 + 1, n)
          | None => None
          end
        else None
    | [] => None
    end
  else None.

(** [_UI_TEXT_PATTERN.match] at the start of [s]: the length of the text
    before the value (group 1 or 4) and the length of the value (group 2 or
    5); the closing quote (group 3 or 6) follows. *)
Definition match_ui (s : str) : option (nat * nat) :=
  match alt_text s with
  | Some m => Some m
  | None => alt_at_text s
  end.

(** [extract_ui_strings]: for every match, its start and its value. *)
Fixpoint extract_from (pos skip : nat) (s : str) : list (nat * str) :=
  match s with
  | [] => []
  | _ :: s' =>
      match skip with
      | S k => extract_from (S pos) k s'
      | O =>
          match match_ui s with
          | Some (pre, n) =>
              (pos, slice s pre (pre + n)) :: extract_from (S pos) (pre + n) s'
          | None => extract_from (S pos) 0 s'
          end
      end
  end.

Definition extract_ui_strings (content : str) : list (nat * str) :=
  extract_from 0 0 content.

(** The function [repl] of [apply_ui_translations]: the translation of the
    first pair whose source is the value and whose translation is not
    empty. *)
Fixpoint lookup_translation (replacements : list (str * str)) (val : str)
    : option str :=
  match replacements with
  | [] => None
  | (src, tr) :: rest =>
      if str_eqb val src && truthy tr then Some tr
      else lookup_translation rest val
  end.

(** [_UI_TEXT_PATTERN.sub(repl, content)]. *)
Fixpoint sub_from (replacements : list (str * str)) (skip : nat) (s : str) : str :=
  match s with
  | [] => []
  | c :: s' =>
      match skip with
      | S k => sub_from replacements k s'
      | O =>
          match match_ui s with
          | Some (pre, n) =>
              let val := slice s pre (pre + n) in
              let whole := firstn (pre + n + 1) s in
              match lookup_translation replacements val with
              | Some tr => firstn pre s ++ tr ++ [QUOTE]
              | None => whole
              end ++ sub_from replacements (pre + n) s'
          | None => c :: sub_from replacements 0 s'
          end
      end
  end.

Definition apply_ui_translations (content : str) (replacements : list (str * str))
    : str :=
  match replacements with
  | [] => content
  | _ :: _ => sub_from replacements 0 content
  end.

(** The starts of the matches grow strictly. *)
Lemma extract_from_starts (s : str) :
  forall pos skip x, In x (extract_from pos skip s) -> pos <= fst x.
Proof.
  induction s as [|c s IH]; intros pos skip x H; simpl in H; [contradiction|].
  destruct skip as [|k].
  - destruct (match_ui (c :: s)) as [[pre n]|].
    + destruct H as [<-|H]; [simpl; lia|]. apply IH in H. lia.
    + apply IH in H. lia.
  - apply IH in H. lia.
Qed.

Lemma extract_from_distinct (s : str) :
  forall pos skip, NoDup (map fst (extract_from pos skip s)).
Proof.
  induction s as [|c s IH]; intros pos skip; simpl; [constructor|].
  destruct skip as [|k]; [|apply IH].
  destruct (match_ui (c :: s)) as [[pre n]|]; [|apply IH].
  simpl. constructor; [|apply IH].
  intros H. apply in_map_iff in H. destruct H as (x & E & H).
  apply extract_from_starts in H. lia.
Qed.

End Ui.

(** ** The catalogue entries and the Python library *)

Module Catalogue.
Import PyStr Json.

(** The field [type] of an entry. *)
Inductive source_type : Type :=
| Manifest
| LangFile
| UiFile
| CommonJson
| GenericJson.

Definition source_type_eqb (a b : source_type) : bool :=
  match a, b with
  | Manifest, Manifest | LangFile, LangFile | UiFile, UiFile
  | CommonJson, CommonJson | GenericJson, GenericJson => true
  | _, _ => false
  end.

(** An entry [{type, file_rel, key, source, translated}].  [translated] is
    what the collector found in the target file, [None] when there is
    nothing: a string for a locale file, any JSON value for a translation
    JSON. *)
Record row : Type := {
  r_type : source_type;
  r_file_rel : str;
  r_key : str;
  r_source : str;
  r_translated : option json
}.

(** The functions of the Python library that the program calls and that
    rest on the Unicode database or on the JSON codec. *)
Record pylib : Type := {
  isalpha : char -> bool;        (* c.isalpha() *)
  isalnum : char -> bool;        (* c.isalnum() *)
  isdigit : char -> bool;        (* c.isdigit() *)
  lower : str -> str;            (* s.lower() *)
  title : str -> str;            (* s.title() *)
  py_int : str -> option Z;      (* int(s); None is ValueError *)
  json_loads : str -> option json;   (* json.loads(s); None is an exception *)
  json_dumps : json -> str       (* json.dumps(v, ensure_ascii=False, indent=2) *)
}.

End Catalogue.

(** ** The translation writer: [save_all_translations] *)

Module Writer.
Import PyStr Json FS Catalogue Lang Ui.

Definition DOT : char := 46%N.
Definition LBRACKET : char := 91%N.
Definition RBRACKET : char := 93%N.

(** The state of the files after a call, and whether the call returned or
    raised an exception: what was written before the exception stays. *)
Inductive result : Type :=
| Returned (t : node)
| Raised (t : node).

Definition tree_of (r : result) : node :=
  match r with Returned t => t | Raised t => t end.

Definition and_then (r : result) (f : node -> result) : result :=
  match r with
  | Returned t => f t
  | Raised t => Raised t
  end.

(** A loop over the items of a dictionary, each turn a step on the files. *)
Fixpoint for_each {A : Type} (step : A -> node -> result) (items : list A)
    (t : node) : result :=
  match items with
  | [] => Returned t
  | x :: rest => and_then (step x t) (for_each step rest)
  end.

(** The dictionaries that the first loop of [save_all_translations] fills. *)
Record groups : Type := {
  manifest_updates : Dict.dict (Dict.dict str);
  lang_by_file : Dict.dict (Dict.dict str);
  ui_by_file : Dict.dict (list (str * str));
  common_json_by_file : Dict.dict (Dict.dict str);
  json_by_file : Dict.dict (list (str * str));
  lang_sources : Dict.dict (Dict.dict str)
}.

Definition no_groups : groups :=
  {| manifest_updates := []; lang_by_file := []; ui_by_file := [];
     common_json_by_file := []; json_by_file := []; lang_sources := [] |}.

(** [d.setdefault(rel, {})[key] = value]. *)
Definition set_in (d : Dict.dict (Dict.dict str)) (rel key value : str)
    : Dict.dict (Dict.dict str) :=
  Dict.set d rel
    (Dict.set (match Dict.get d rel with Some kv => kv | None => [] end) key value).

(** [d.setdefault(rel, []).append(pair)]. *)
Definition append_in (d : Dict.dict (list (str * str))) (rel : str) (pair : str * str)
    : Dict.dict (list (str * str)) :=
  Dict.set d rel
    (match Dict.get d rel with Some l => l | None => [] end ++ [pair]).

(** [(r.get("translated") or "").strip()]; [None] is the [AttributeError]
    of a value that is true and not a string. *)
Definition translated_text (r : row) : option str :=
  match r_translated r with
  | None => Some []
  | Some v =>
      if json_truthy v then
        match v with JStr s => Some (strip s) | _ => None end
      else Some []
  end.

(** One turn of the [for r in rows] loop. *)
Definition group_row (g : groups) (r : row) : option groups :=
  match translated_text r with
  | None => None
  | Some tr =>
      let rel := r_file_rel r in
      let key := r_key r in
      let src := r_source r in
      let g1 :=
        match r_type r with
        | LangFile =>
            {| manifest_updates := manifest_updates g;
               lang_by_file := lang_by_file g;
               ui_by_file := ui_by_file g;
               common_json_by_file := common_json_by_file g;
               json_by_file := json_by_file g;
               lang_sources :=
                 set_in (lang_sources g) (lang_file_rel_to_ru rel) key (strip src) |}
        | _ => g
        end in
      if negb (truthy tr) then Some g1
      else
        Some
          match r_type r with
          | Manifest =>
              {| manifest_updates := set_in (manifest_updates g1) rel key tr;
                 lang_by_file := lang_by_file g1;
                 ui_by_file := ui_by_file g1;
                 common_json_by_file := common_json_by_file g1;
                 json_by_file := json_by_file g1;
                 lang_sources := lang_sources g1 |}
          | LangFile =>
              {| manifest_updates := manifest_updates g1;
                 lang_by_file :=
                   set_in (lang_by_file g1) (lang_file_rel_to_ru rel) key tr;
                 ui_by_file := ui_by_file g1;
                 common_json_by_file := common_json_by_file g1;
                 json_by_file := json_by_file g1;
                 lang_sources := lang_sources g1 |}
          | UiFile =>
              {| manifest_updates := manifest_updates g1;
                 lang_by_file := lang_by_file g1;
                 ui_by_file := append_in (ui_by_file g1) rel (src, tr);
                 common_json_by_file := common_json_by_file g1;
                 json_by_file := json_by_file g1;
                 lang_sources := lang_sources g1 |}
          | CommonJson =>
              {| manifest_updates := manifest_updates g1;
                 lang_by_file := lang_by_file g1;
                 ui_by_file := ui_by_file g1;
                 common_json_by_file := set_in (common_json_by_file g1) rel key tr;
                 json_by_file := json_by_file g1;
                 lang_sources := lang_sources g1 |}
          | GenericJson =>
              {| manifest_updates := manifest_updates g1;
                 lang_by_file := lang_by_file g1;
                 ui_by_file := ui_by_file g1;
                 common_json_by_file := common_json_by_file g1;
                 json_by_file := append_in (json_by_file g1) rel (key, tr);
                 lang_sources := lang_sources g1 |}
          end
  end.

Fixpoint group_rows (g : groups) (rows : list row) : option groups :=
  match rows with
  | [] => Some g
  | r :: rest =>
      match group_row g r with
      | Some g' => group_rows g' rest
      | None => None
      end
  end.

(** Sequencing of operations that may raise. *)
Definition bind {A B : Type} (o : option A) (f : A -> option B) : option B :=
  match o with Some x => f x | None => None end.

Notation "'let?' x ':=' e 'in' k" := (bind e (fun x => k))
  (at level 10, x name, e at level 100, k at level 200).

Fixpoint fold_opt {A S : Type} (f : S -> A -> option S) (items : list A) (s : S)
    : option S :=
  match items with
  | [] => Some s
  | x :: rest => let? s' := f s x in fold_opt f rest s'
  end.

Section Passes.

Variable lib : pylib.

(** *** The manifest *)

(** [int(k.split("[")[1].split("]")[0])]. *)
Definition author_index (k : str) : option Z :=
  py_int lib (hd [] (split_char RBRACKET (nth 1 (split_char LBRACKET k) []))).

(** One turn of the [for k, v in kv.items()] loop on the manifest. *)
Definition manifest_set (data : json) (kv : str * str) : option json :=
  let k := fst kv in
  let v := snd kv in
  if str_eqb k (py "Name") then setitem data (KStr (py "Name")) (JStr v)
  else if str_eqb k (py "Description")
  then setitem data (KStr (py "Description")) (JStr v)
  else if starts_with (py "Authors[") k && contains (py "].Name") k then
    let? idx := author_index k in
    let? has := str_in (py "Authors") data in
    if has then
      let? authors := getitem data (KStr (py "Authors")) in
      let? len := py_len authors in
      if (idx <? Z.of_nat len)%Z then
        let? a := getitem authors (KInt idx) in
        if is_dict a then
          let? a' := setitem a (KStr (py "Name")) (JStr v) in
          let? authors' := setitem authors (KInt idx) a' in
          setitem data (KStr (py "Authors")) authors'
        else Some data
      else Some data
    else Some data
  else Some data.

Definition manifest_step (g : str * Dict.dict str) (t : node) : result :=
  let p := path_of (fst g) in
  if exists_ t p then
    match
      (let? text := read_text t p in
       let? data := json_loads lib text in
       let? data' := fold_opt manifest_set (snd g) data in
       write_text t p (json_dumps lib data'))
    with
    | Some t' => Returned t'
    | None => Raised t
    end
  else Returned t.

(** *** The locale files *)

(** The content written to the target-locale file: the entries merged into
    what the file holds, with the aliases. *)
Definition merged_ru (existing_text : option str) (entries : Dict.dict str) : str :=
  let existing_ru :=
    match existing_text with
    | Some text => parse_lang_content text
    | None => []
    end in
  lang_to_content (add_aliases (lower lib) (Dict.update existing_ru entries)).

Definition write_ru (ru_rel : str) (entries : Dict.dict str) (t : node)
    : option node :=
  let ru_path := path_of ru_rel in
  let? existing_text :=
    (if exists_ t ru_path
     then let? text := read_text t ru_path in Some (Some text)
     else Some None) in
  let? t1 := mkdir_all t (parent ru_path) in
  write_text t1 ru_path (merged_ru existing_text entries).

(** The [for k, src_text in sources.items()] loop. *)
Definition backfill (existing_en sources : Dict.dict str) : Dict.dict str :=
  fold_left
    (fun acc kv =>
       if negb (Dict.mem acc (fst kv)) && truthy (snd kv)
       then Dict.set acc (fst kv) (snd kv) else acc)
    sources existing_en.

Definition backfill_en (sources : Dict.dict (Dict.dict str)) (ru_rel : str)
    (t : node) : option node :=
  let src_rel := replace (py "ru-RU") (py "en-US") ru_rel in
  let src_path := path_of src_rel in
  if exists_ t src_path && negb (str_eqb src_rel ru_rel) then
    let? text := read_text t src_path in
    let existing_en := parse_lang_content text in
    let srcs := match Dict.get sources ru_rel with Some s => s | None => [] end in
    write_text t src_path
      (lang_to_content (add_aliases (lower lib) (backfill existing_en srcs)))
  else Some t.

Definition lang_step (sources : Dict.dict (Dict.dict str))
    (g : str * Dict.dict str) (t : node) : result :=
  match write_ru (fst g) (snd g) t with
  | None => Raised t
  | Some t1 =>
      match backfill_en sources (fst g) t1 with
      | None => Raised t1
      | Some t2 => Returned t2
      end
  end.

(** *** The UI descriptors *)

Definition ui_step (g : str * list (str * str)) (t : node) : result :=
  let p := path_of (fst g) in
  if exists_ t p then
    match
      (let? content := read_text t p in
       write_text t p (apply_ui_translations content (snd g)))
    with
    | Some t' => Returned t'
    | None => Raised t
    end
  else Returned t.

(** *** The translation JSON of [Common/Translations] *)

(** [key_path.split(".", 1)]: the text before the first dot and, when there
    is a dot, the text after it. *)
Definition split_first_dot (key_path : str) : str * option str :=
  if char_in DOT key_path
  then let '(a, b) := partition_char DOT key_path in (a, Some b)
  else (key_path, None).

(** One turn of the [for key_path, val in kv.items()] loop. *)
Definition common_set (existing : json) (kv : str * str) : option json :=
  let val := snd kv in
  match split_first_dot (fst kv) with
  | (k, None) => setitem existing (KStr k) (JStr val)
  | (cat, Some subkey) =>
      let? has := str_in cat existing in
      let? fresh :=
        (if has
         then let? c := getitem existing (KStr cat) in Some (negb (is_dict c))
         else Some true) in
      let? existing1 :=
        (if fresh then setitem existing (KStr cat) (JObj []) else Some existing) in
      let? c := getitem existing1 (KStr cat) in
      let? c' := setitem c (KStr subkey) (JStr val) in
      setitem existing1 (KStr cat) c'
  end.

Definition common_json_step (g : str * Dict.dict str) (t : node) : result :=
  let ru_path := parent (path_of (fst g)) ++ [py "ru_RU.json"] in
  match
    (let? existing :=
       (if exists_ t ru_path
        then let? text := read_text t ru_path in json_loads lib text
        else Some (JObj [])) in
     let? existing' := fold_opt common_set (snd g) existing in
     write_text t ru_path (json_dumps lib existing'))
  with
  | Some t' => Returned t'
  | None => Raised t
  end.

(** *** The other JSON files *)

(** [s.isdigit()]. *)
Definition str_isdigit (s : str) : bool := truthy s && forallb (isdigit lib) s.

(** [re.split(r"\.|\[|\]", s)]. *)
Fixpoint split_path_go (cur : str) (s : str) : list str :=
  match s with
  | [] => [cur]
  | c :: s' =>
      if char_eqb c DOT || char_eqb c LBRACKET || char_eqb c RBRACKET
      then cur :: split_path_go [] s'
      else split_path_go (cur ++ [c]) s'
  end.

(** [_key_str_to_path]; [None] is the [ValueError] of [int]. *)
Fixpoint path_elements (parts : list str) : option (list pkey) :=
  match parts with
  | [] => Some []
  | p :: rest =>
      if truthy p then
        let? e := (if str_isdigit p
                   then let? z := py_int lib p in Some (KInt z)
                   else Some (KStr p)) in
        let? es := path_elements rest in
        Some (e :: es)
      else path_elements rest
  end.

Definition _key_str_to_path (s : str) : option (list pkey) :=
  path_elements (split_path_go [] s).

(** [_json_set_by_path]; the object that the path leads to is changed in
    place, which for a value without sharing is the value rebuilt around
    the change. *)
Fixpoint _json_set_by_path (obj : json) (path : list pkey) (value : str)
    : option json :=
  match path with
  | [] => None
  | [k] => setitem obj k (JStr value)
  | k :: rest =>
      let? child := getitem obj k in
      let? child' := _json_set_by_path child rest value in
      setitem obj k child'
  end.

Definition json_set (data : json) (kv : str * str) : option json :=
  let? path := _key_str_to_path (fst kv) in
  _json_set_by_path data path (snd kv).

Definition json_step (g : str * list (str * str)) (t : node) : result :=
  let p := path_of (fst g) in
  if exists_ t p then
    match
      (let? text := read_text t p in
       let? data := json_loads lib text in
       let? data' := fold_opt json_set (snd g) data in
       write_text t p (json_dumps lib data'))
    with
    | Some t' => Returned t'
    | None => Raised t
    end
  else Returned t.

(** *** The whole write-back *)

Definition save_all_translations (extracted : node) (rows : list row) : result :=
  match group_rows no_groups rows with
  | None => Raised extracted
  | Some g =>
      and_then (for_each manifest_step (manifest_updates g) extracted) (fun t1 =>
      and_then (for_each (lang_step (lang_sources g)) (lang_by_file g) t1) (fun t2 =>
      and_then (for_each ui_step (ui_by_file g) t2) (fun t3 =>
      and_then (for_each common_json_step (common_json_by_file g) t3) (fun t4 =>
      for_each json_step (json_by_file g) t4))))
  end.

End Passes.

(** *** The merge into the target-locale file *)

Section Merge.

Variable lib : pylib.

(** A key of the file that the entries do not name keeps its value in the
    merged content, when the entries are lines of a locale file. *)
Lemma merged_ru_keeps (old : str) (entries : Dict.dict str) (k v : str) :
  Forall clean_item entries ->
  Dict.get (parse_lang_content old) k = Some v ->
  Dict.get entries k = None ->
  Dict.get (parse_lang_content (merged_ru lib (Some old) entries)) k = Some v.
Proof.
  intros Hc Hk Hn. unfold merged_ru.
  set (d0 := Dict.update (parse_lang_content old) entries).
  assert (W0 : well_formed d0).
  { destruct (parse_lang_content_well_formed old) as [Hf Hnd].
    split; [apply Dict.update_all; auto|apply Dict.NoDup_keys_update; auto]. }
  destruct (add_aliases_well_formed (lower lib) d0 W0) as [Hf1 Hnd1].
  rewrite parse_lang_to_content by assumption.
  rewrite get_sorted by assumption.
  apply add_aliases_keeps. unfold d0. now rewrite Dict.get_update_other.
Qed.

(** *** What a pass leaves as it is *)

(** The file [q] holds [c] before and after the step. *)
Definition keeps (q : path) (c : option str) (f : node -> result) : Prop :=
  forall t, lookup t q = Some (File c) -> lookup (tree_of (f t)) q = Some (File c).

Lemma manifest_step_keeps (g : str * Dict.dict str) (q : path) (c : option str) :
  path_of (fst g) <> q -> keeps q c (manifest_step lib g).
Proof.
  intros Hne t Hl. unfold manifest_step.
  destruct (exists_ t (path_of (fst g))); [|exact Hl].
  destruct (read_text t (path_of (fst g))) as [text|]; [|exact Hl]. cbn [bind].
  destruct (json_loads lib text) as [data|]; [|exact Hl]. cbn [bind].
  destruct (fold_opt (manifest_set lib) (snd g) data) as [data'|]; [|exact Hl].
  cbn [bind].
  destruct (write_text t (path_of (fst g)) (json_dumps lib data')) as [t'|] eqn:E;
    [|exact Hl].
  apply (write_keeps_file _ q t t' _ c E); congruence.
Qed.

Lemma ui_step_keeps (g : str * list (str * str)) (q : path) (c : option str) :
  path_of (fst g) <> q -> keeps q c (ui_step g).
Proof.
  intros Hne t Hl. unfold ui_step.
  destruct (exists_ t (path_of (fst g))); [|exact Hl].
  destruct (read_text t (path_of (fst g))) as [text|]; [|exact Hl]. cbn [bind].
  destruct (write_text t (path_of (fst g)) _) as [t'|] eqn:E; [|exact Hl].
  apply (write_keeps_file _ q t t' _ c E); congruence.
Qed.

Lemma json_step_keeps (g : str * list (str * str)) (q : path) (c : option str) :
  path_of (fst g) <> q -> keeps q c (json_step lib g).
Proof.
  intros Hne t Hl. unfold json_step.
  destruct (exists_ t (path_of (fst g))); [|exact Hl].
  destruct (read_text t (path_of (fst g))) as [text|]; [|exact Hl]. cbn [bind].
  destruct (json_loads lib text) as [data|]; [|exact Hl]. cbn [bind].
  destruct (fold_opt (json_set lib) (snd g) data) as [data'|]; [|exact Hl].
  cbn [bind].
  destruct (write_text t (path_of (fst g)) (json_dumps lib data')) as [t'|] eqn:E;
    [|exact Hl].
  apply (write_keeps_file _ q t t' _ c E); congruence.
Qed.

(** The file that the pass over [Common/Translations] writes for [rel]. *)
Definition common_target (rel : str) : path :=
  parent (path_of rel) ++ [py "ru_RU.json"].

Lemma common_json_step_keeps (g : str * Dict.dict str) (q : path) (c : option str) :
  common_target (fst g) <> q -> keeps q c (common_json_step lib g).
Proof.
  intros Hne t Hl. unfold common_json_step. fold (common_target (fst g)).
  destruct (if exists_ t (common_target (fst g))
            then let? text := read_text t (common_target (fst g)) in json_loads lib text
            else Some (JObj [])) as [existing|]; [|exact Hl].
  cbn [bind].
  destruct (fold_opt common_set (snd g) existing) as [existing'|]; [|exact Hl].
  cbn [bind].
  destruct (write_text t (common_target (fst g)) (json_dumps lib existing'))
    as [t'|] eqn:E; [|exact Hl].
  apply (write_keeps_file _ q t t' _ c E); congruence.
Qed.

(** The locale file that the backfill of [ru_rel] reads and writes. *)
Definition source_rel (ru_rel : str) : str := replace (py "ru-RU") (py "en-US") ru_rel.

Lemma backfill_en_keeps (sources : Dict.dict (Dict.dict str)) (ru_rel : str)
    (q : path) (c : option str) (t t' : node) :
  source_rel ru_rel = ru_rel \/ path_of (source_rel ru_rel) <> q ->
  backfill_en lib sources ru_rel t = Some t' ->
  lookup t q = Some (File c) -> lookup t' q = Some (File c).
Proof.
  intros Hsrc H Hl. unfold backfill_en in H. fold (source_rel ru_rel) in H.
  destruct (exists_ t (path_of (source_rel ru_rel))
            && negb (str_eqb (source_rel ru_rel) ru_rel)) eqn:Eb.
  - apply andb_true_iff in Eb. destruct Eb as [_ Eb].
    apply negb_true_iff in Eb. apply str_eqb_neq in Eb.
    destruct Hsrc as [Hsrc|Hsrc]; [contradiction|].
    destruct (read_text t (path_of (source_rel ru_rel))) as [text|]; [|discriminate].
    cbn [bind] in H.
    apply (write_keeps_file _ q t t' _ c H); congruence.
  - inversion H; subst. exact Hl.
Qed.

Lemma write_ru_keeps (ru_rel : str) (entries : Dict.dict str)
    (q : path) (c : option str) (t t' : node) :
  path_of ru_rel <> q ->
  write_ru lib ru_rel entries t = Some t' ->
  lookup t q = Some (File c) -> lookup t' q = Some (File c).
Proof.
  intros Hne H Hl. unfold write_ru in H.
  destruct (if exists_ t (path_of ru_rel)
            then let? text := read_text t (path_of ru_rel) in Some (Some text)
            else Some None) as [existing|]; [|discriminate].
  cbn [bind] in H.
  destruct (mkdir_all t (parent (path_of ru_rel))) as [t1|] eqn:E1; [|discriminate].
  cbn [bind] in H.
  apply (write_keeps_file _ q t1 t' _ c H); [congruence|].
  now apply (mkdir_keeps_file _ q t t1 c E1).
Qed.

Lemma lang_step_keeps (sources : Dict.dict (Dict.dict str)) (g : str * Dict.dict str)
    (q : path) (c : option str) :
  path_of (fst g) <> q ->
  source_rel (fst g) = fst g \/ path_of (source_rel (fst g)) <> q ->
  keeps q c (lang_step lib sources g).
Proof.
  intros Hne Hsrc t Hl. unfold lang_step.
  destruct (write_ru lib (fst g) (snd g) t) as [t1|] eqn:E1; [|exact Hl].
  assert (Hl1 : lookup t1 q = Some (File c))
    by (apply (write_ru_keeps (fst g) (snd g) q c t t1); auto).
  destruct (backfill_en lib sources (fst g) t1) as [t2|] eqn:E2; [|exact Hl1].
  now apply (backfill_en_keeps sources (fst g) q c t1 t2).
Qed.

(** The key [k] of the locale file [P] has the value [v]. *)
Definition holds (P : path) (k v : str) (t : node) : Prop :=
  exists cur, read_text t P = Some cur
              /\ Dict.get (parse_lang_content cur) k = Some v.

Lemma read_text_lookup (t : node) (p : path) (s : str) :
  read_text t p = Some s <-> lookup t p = Some (File (Some s)).
Proof.
  unfold read_text. destruct (lookup t p) as [[[c|]|es]|]; split; congruence.
Qed.

Lemma keeps_holds (P : path) (k v : str) (f : node -> result) :
  (forall c, keeps P c f) ->
  forall t, holds P k v t -> holds P k v (tree_of (f t)).
Proof.
  intros Hf t (cur & Hr & Hg). exists cur. split; [|exact Hg].
  apply read_text_lookup. apply Hf. now apply read_text_lookup.
Qed.

Lemma lang_step_merges (sources : Dict.dict (Dict.dict str)) (g : str * Dict.dict str)
    (P : path) (k v : str) :
  path_of (fst g) = P ->
  source_rel (fst g) = fst g \/ path_of (source_rel (fst g)) <> P ->
  Forall clean_item (snd g) -> Dict.get (snd g) k = None ->
  forall t, holds P k v t -> holds P k v (tree_of (lang_step lib sources g t)).
Proof.
  intros HP Hsrc Hc Hn t (cur & Hr & Hg). unfold lang_step.
  destruct (write_ru lib (fst g) (snd g) t) as [t1|] eqn:E1;
    [|exists cur; now split].
  assert (H1 : holds P k v t1).
  { unfold write_ru in E1. rewrite HP in E1.
    assert (Ex : exists_ t P = true).
    { unfold exists_. apply read_text_lookup in Hr. now rewrite Hr. }
    rewrite Ex, Hr in E1. cbn [bind] in E1.
    destruct (mkdir_all t (parent P)) as [t0|]; [|discriminate]. cbn [bind] in E1.
    exists (merged_ru lib (Some cur) (snd g)). split.
    - apply read_text_lookup. now apply (lookup_write_same P t0 t1).
    - now apply merged_ru_keeps. }
  destruct (backfill_en lib sources (fst g) t1) as [t2|] eqn:E2; [|exact H1].
  destruct H1 as (new & Hr1 & Hg1). exists new. split; [|exact Hg1].
  apply read_text_lookup.
  apply (backfill_en_keeps sources (fst g) P (Some new) t1 t2); auto.
  now apply read_text_lookup.
Qed.

End Merge.

(** *** Properties that every step keeps *)

Lemma for_each_inv {A : Type} (I : node -> Prop) (step : A -> node -> result)
    (items : list A) :
  (forall x, In x items -> forall t, I t -> I (tree_of (step x t))) ->
  forall t, I t -> I (tree_of (for_each step items t)).
Proof.
  induction items as [|x items IH]; intros H t Ht; simpl; [exact Ht|].
  assert (Hx : I (tree_of (step x t))) by (apply H; [now left|exact Ht]).
  destruct (step x t) as [t1|t1]; simpl in *; [|exact Hx].
  apply IH; [|exact Hx]. intros y Hy. apply H. now right.
Qed.

Lemma and_then_inv (I : node -> Prop) (r : result) (f : node -> result) :
  I (tree_of r) -> (forall t, I t -> I (tree_of (f t))) -> I (tree_of (and_then r f)).
Proof. intros Hr Hf. destruct r as [t|t]; simpl in *; auto. Qed.

(** *** Where the groups come from *)

(** Every file of the dictionary satisfies [F]. *)
Definition files_ok {V : Type} (F : str -> Prop) (D : Dict.dict V) : Prop :=
  forall rel x, In (rel, x) D -> F rel.

(** Every entry of every file of the dictionary satisfies [Q]. *)
Definition covers (Q : str -> str -> str -> Prop) (D : Dict.dict (Dict.dict str)) : Prop :=
  forall rel kv key val, In (rel, kv) D -> In (key, val) kv -> Q rel key val.

Lemma set_in_files (F : str -> Prop) (D : Dict.dict (Dict.dict str)) (rel key value : str) :
  files_ok F D -> F rel -> files_ok F (set_in D rel key value).
Proof.
  intros HD HF rel' x Hin. unfold set_in in Hin. apply Dict.in_set in Hin.
  destruct Hin as [Hin|Hin]; [now apply (HD rel' x)|]. inversion Hin; now subst.
Qed.

Lemma append_in_files (F : str -> Prop) (D : Dict.dict (list (str * str))) (rel : str)
    (pair : str * str) :
  files_ok F D -> F rel -> files_ok F (append_in D rel pair).
Proof.
  intros HD HF rel' x Hin. unfold append_in in Hin. apply Dict.in_set in Hin.
  destruct Hin as [Hin|Hin]; [now apply (HD rel' x)|]. inversion Hin; now subst.
Qed.

Lemma set_in_covers (Q : str -> str -> str -> Prop) (D : Dict.dict (Dict.dict str))
    (rel key value : str) :
  covers Q D -> Q rel key value -> covers Q (set_in D rel key value).
Proof.
  intros HD HQ rel' kv key' val' Hin Hkv. unfold set_in in Hin.
  apply Dict.in_set in Hin.
  destruct Hin as [Hin|Hin]; [now apply (HD rel' kv)|]. inversion Hin; subst.
  apply Dict.in_set in Hkv. destruct Hkv as [Hkv|Hkv]; [|inversion Hkv; now subst].
  destruct (Dict.get D rel) as [kv0|] eqn:Eg; [|contradiction].
  apply Dict.get_Some_in in Eg. now apply (HD rel kv0).
Qed.

Section Provenance.

(** The rows that were grouped. *)
Variable R : row -> Prop.

Definition from_row (ty : source_type) (rel : str) : Prop :=
  exists r, R r /\ r_type r = ty /\ r_file_rel r = rel.

Definition from_lang_row (ru_rel : str) : Prop :=
  exists r, R r /\ r_type r = LangFile
            /\ lang_file_rel_to_ru (r_file_rel r) = ru_rel.

Definition from_lang_entry (ru_rel key tr : str) : Prop :=
  exists r, R r /\ r_type r = LangFile
            /\ lang_file_rel_to_ru (r_file_rel r) = ru_rel
            /\ r_key r = key /\ translated_text r = Some tr /\ truthy tr = true.

Definition provenance (g : groups) : Prop :=
  files_ok (from_row Manifest) (manifest_updates g)
  /\ files_ok from_lang_row (lang_by_file g)
  /\ covers from_lang_entry (lang_by_file g)
  /\ files_ok (from_row UiFile) (ui_by_file g)
  /\ files_ok (from_row CommonJson) (common_json_by_file g)
  /\ files_ok (from_row GenericJson) (json_by_file g).

Lemma no_groups_provenance : provenance no_groups.
Proof. repeat split; intros rel x; try intros key val; intros []. Qed.

Lemma group_row_provenance (g g' : groups) (r : row) :
  provenance g -> R r -> group_row g r = Some g' -> provenance g'.
Proof.
  intros (H1 & H2 & H3 & H4 & H5 & H6) Hr. unfold group_row.
  destruct (translated_text r) as [tr|] eqn:Etr; [|discriminate].
  destruct (truthy tr) eqn:Et; cbn [negb];
    destruct (r_type r) eqn:Ety; intros E; inversion E; subst; clear E;
    unfold provenance; cbn [manifest_updates lang_by_file ui_by_file
                            common_json_by_file json_by_file lang_sources];
    repeat split; auto.
  - apply set_in_files; auto. now exists r.
  - apply set_in_files; auto. now exists r.
  - apply set_in_covers; auto. exists r. repeat split; auto.
  - apply append_in_files; auto. now exists r.
  - apply set_in_files; auto. now exists r.
  - apply append_in_files; auto. now exists r.
Qed.

Lemma group_rows_provenance (rows : list row) :
  forall g g', provenance g -> Forall R rows -> group_rows g rows = Some g' ->
               provenance g'.
Proof.
  induction rows as [|r rows IH]; intros g g' Hg HR; simpl.
  - intros E. inversion E. now subst.
  - inversion HR; subst.
    destruct (group_row g r) as [g1|] eqn:E1; [|discriminate].
    apply IH; auto. now apply (group_row_provenance g g1 r).
Qed.

End Provenance.

(** *** The rows that do not write the file [P] *)

(** The row makes no pass write [P], but for the merge into [P] itself. *)
Definition no_other_writer (P : path) (r : row) : Prop :=
  match r_type r with
  | LangFile =>
      let ru_rel := lang_file_rel_to_ru (r_file_rel r) in
      source_rel ru_rel = ru_rel \/ path_of (source_rel ru_rel) <> P
  | CommonJson => common_target (r_file_rel r) <> P
  | _ => path_of (r_file_rel r) <> P
  end.

(** A row whose translation is merged into [P] does not name the key [k],
    and its key and its translation can stand on a line of a locale file. *)
Definition unrelated_entry (P : path) (k : str) (r : row) : Prop :=
  r_type r = LangFile ->
  path_of (lang_file_rel_to_ru (r_file_rel r)) = P ->
  forall tr, translated_text r = Some tr -> truthy tr = true ->
    r_key r <> k /\ clean_key (r_key r) /\ no_linebreak tr = true.

Lemma translated_text_trimmed (r : row) (tr : str) :
  translated_text r = Some tr -> trimmed tr.
Proof.
  unfold translated_text. destruct (r_translated r) as [v|].
  - destruct (json_truthy v).
    + destruct v; try discriminate. intros E. inversion E. apply strip_trimmed.
    + intros E. inversion E. now split.
  - intros E. inversion E. now split.
Qed.

Section KeptKeys.

Variable lib : pylib.
Variable P : path.
Variables k v : str.
Variable rows : list row.

Hypothesis rows_ok :
  forall r, In r rows -> no_other_writer P r /\ unrelated_entry P k r.

Lemma save_all_translations_holds (t : node) :
  holds P k v t -> holds P k v (tree_of (save_all_translations lib t rows)).
Proof.
  intros Ht. unfold save_all_translations.
  destruct (group_rows no_groups rows) as [g|] eqn:Eg; [|exact Ht].
  assert (Hp : provenance (fun r => In r rows) g).
  { apply (group_rows_provenance _ rows no_groups g); auto.
    - apply no_groups_provenance.
    - apply Forall_forall. auto. }
  destruct Hp as (H1 & H2 & H3 & H4 & H5 & H6).
  apply and_then_inv.
  { apply for_each_inv; [|exact Ht]. intros [rel kv] Hin. apply keeps_holds.
    intros c. apply manifest_step_keeps.
    destruct (H1 rel kv Hin) as (r & Hr & Hty & Hrel).
    destruct (rows_ok r Hr) as [Hw _]. unfold no_other_writer in Hw.
    rewrite Hty in Hw. simpl. congruence. }
  intros t1 Ht1. apply and_then_inv.
  { apply for_each_inv; [|exact Ht1]. intros [ru_rel entries] Hin.
    destruct (H2 ru_rel entries Hin) as (r & Hr & Hty & Hrel).
    assert (Hsrc : source_rel ru_rel = ru_rel \/ path_of (source_rel ru_rel) <> P).
    { destruct (rows_ok r Hr) as [Hw _]. unfold no_other_writer in Hw.
      rewrite Hty in Hw. cbv zeta in Hw. now rewrite Hrel in Hw. }
    destruct (list_eq_dec (list_eq_dec N.eq_dec) (path_of ru_rel) P) as [HP|HP].
    - apply lang_step_merges; auto.
      + apply Forall_forall. intros [key tr] Hkv.
        destruct (H3 ru_rel entries key tr Hin Hkv)
          as (r' & Hr' & Hty' & Hrel' & Hkey & Htr & Htruthy).
        destruct (rows_ok r' Hr') as [_ Hu].
        rewrite <- Hrel' in HP.
        destruct (Hu Hty' HP tr Htr Htruthy) as (_ & Hck & Hnl).
        split; simpl; [now rewrite <- Hkey|].
        split; [now apply (translated_text_trimmed r')|exact Hnl].
      + simpl. destruct (Dict.get entries k) as [tr|] eqn:Ek; [|reflexivity].
        apply Dict.get_Some_in in Ek.
        destruct (H3 ru_rel entries k tr Hin Ek)
          as (r' & Hr' & Hty' & Hrel' & Hkey & Htr & Htruthy).
        destruct (rows_ok r' Hr') as [_ Hu].
        rewrite <- Hrel' in HP.
        destruct (Hu Hty' HP tr Htr Htruthy) as (Hne & _). contradiction.
    - apply keeps_holds. intros c. now apply lang_step_keeps. }
  intros t2 Ht2. apply and_then_inv.
  { apply for_each_inv; [|exact Ht2]. intros [rel kv] Hin. apply keeps_holds.
    intros c. apply ui_step_keeps.
    destruct (H4 rel kv Hin) as (r & Hr & Hty & Hrel).
    destruct (rows_ok r Hr) as [Hw _]. unfold no_other_writer in Hw.
    rewrite Hty in Hw. simpl. congruence. }
  intros t3 Ht3. apply and_then_inv.
  { apply for_each_inv; [|exact Ht3]. intros [rel kv] Hin. apply keeps_holds.
    intros c. apply common_json_step_keeps.
    destruct (H5 rel kv Hin) as (r & Hr & Hty & Hrel).
    destruct (rows_ok r Hr) as [Hw _]. unfold no_other_writer in Hw.
    rewrite Hty in Hw. simpl. congruence. }
  intros t4 Ht4.
  apply for_each_inv; [|exact Ht4]. intros [rel kv] Hin. apply keeps_holds.
  intros c. apply json_step_keeps.
  destruct (H6 rel kv Hin) as (r & Hr & Hty & Hrel).
  destruct (rows_ok r Hr) as [Hw _]. unfold no_other_writer in Hw.
  rewrite Hty in Hw. simpl. congruence.
Qed.

End KeptKeys.

(** *** Contents that a second merge leaves as they are *)

Section Idempotence.

Variable lib : pylib.

Definition stable (k : str) : Prop := stable_key (lower lib) k.

Lemma keys_update_all (P : str -> Prop) (d other : Dict.dict str) :
  Forall P (Dict.keys d) -> Forall P (Dict.keys other) ->
  Forall P (Dict.keys (Dict.update d other)).
Proof.
  rewrite !Forall_forall. intros Hd Ho k Hk.
  apply in_map_iff in Hk. destruct Hk as ([k' v] & <- & Hin).
  apply Dict.in_update in Hin. destruct Hin as [Hin|Hin].
  - apply Hd. apply in_map_iff. now exists (k', v).
  - apply Ho. apply in_map_iff. now exists (k', v).
Qed.

Lemma keys_sorted (d : Dict.dict str) (k : str) :
  In k (Dict.keys (sorted d)) <-> In k (Dict.keys d).
Proof.
  assert (Hp : Permutation (Dict.keys (sorted d)) (Dict.keys d))
    by (unfold Dict.keys; apply Permutation_map, sorted_perm).
  split; [apply (Permutation_in _ Hp)|apply (Permutation_in _ (Permutation_sym Hp))].
Qed.

(** What the merge wrote is its own merge with the same entries. *)
Lemma merged_ru_idem (existing : option str) (entries : Dict.dict str) :
  Forall clean_item entries -> NoDup (Dict.keys entries) ->
  Forall stable (Dict.keys entries) ->
  (forall old, existing = Some old ->
               Forall stable (Dict.keys (parse_lang_content old))) ->
  merged_ru lib (Some (merged_ru lib existing entries)) entries
  = merged_ru lib existing entries.
Proof.
  intros Hc Hnd Hs Hex. unfold merged_ru.
  set (ex := match existing with
             | Some text => parse_lang_content text
             | None => []
             end).
  assert (Wex : well_formed ex).
  { unfold ex. destruct existing; [apply parse_lang_content_well_formed|].
    split; constructor. }
  assert (Sex : Forall stable (Dict.keys ex)).
  { unfold ex. destruct existing as [old|]; [now apply Hex|constructor]. }
  set (d0 := Dict.update ex entries).
  assert (W0 : well_formed d0).
  { destruct Wex as [Hf Hn].
    split; [apply Dict.update_all; auto|apply Dict.NoDup_keys_update; auto]. }
  assert (S0 : Forall stable (Dict.keys d0)) by now apply keys_update_all.
  set (d1 := add_aliases (lower lib) d0).
  destruct (add_aliases_well_formed (lower lib) d0 W0) as [Hf1 Hnd1].
  fold d1 in Hf1, Hnd1.
  assert (C1 : closed (lower lib) d1) by now apply add_aliases_closed.
  rewrite parse_lang_to_content by assumption.
  rewrite Dict.update_same.
  - rewrite add_aliases_noop; [apply lang_to_content_sorted|].
    apply (closed_perm (lower lib) d1); [apply Permutation_sym, sorted_perm|exact C1].
  - intros k v Hin. rewrite get_sorted by assumption.
    apply add_aliases_keeps. apply Dict.get_update_in; auto.
    now apply Dict.in_get.
Qed.

(** One turn of the loop of [backfill]. *)
Definition backfill_step (acc : Dict.dict str) (kv : str * str) : Dict.dict str :=
  if negb (Dict.mem acc (fst kv)) && truthy (snd kv)
  then Dict.set acc (fst kv) (snd kv) else acc.

Lemma backfill_fold (existing_en sources : Dict.dict str) :
  backfill existing_en sources = fold_left backfill_step sources existing_en.
Proof. reflexivity. Qed.

Lemma backfill_well_formed (sources : Dict.dict str) :
  Forall clean_item sources ->
  forall d, well_formed d -> well_formed (backfill d sources).
Proof.
  intros Hs. rewrite Forall_forall in Hs.
  induction sources as [|kv sources IH]; intros d Hd; simpl; auto.
  rewrite backfill_fold. cbn [fold_left]. rewrite <- backfill_fold.
  apply IH; [intros x Hx; apply Hs; now right|].
  unfold backfill_step.
  destruct (negb (Dict.mem d (fst kv)) && truthy (snd kv)); auto.
  destruct Hd as [Hf Hn]. split.
  - apply Dict.set_all; auto. intros k' ->.
    assert (Hkv : clean_item kv) by (apply Hs; now left).
    now destruct kv.
  - now apply Dict.NoDup_keys_set.
Qed.

Lemma backfill_keys (P : str -> Prop) (sources : Dict.dict str) :
  Forall P (Dict.keys sources) ->
  forall d, Forall P (Dict.keys d) -> Forall P (Dict.keys (backfill d sources)).
Proof.
  induction sources as [|kv sources IH]; intros Hs d Hd; simpl; auto.
  inversion Hs; subst.
  rewrite backfill_fold. cbn [fold_left]. rewrite <- backfill_fold.
  apply IH; auto. unfold backfill_step.
  destruct (negb (Dict.mem d (fst kv)) && truthy (snd kv)); auto.
  apply Forall_forall. intros k Hk. apply Dict.keys_set in Hk.
  destruct Hk as [Hk| ->]; auto. rewrite Forall_forall in Hd. now apply Hd.
Qed.

Lemma backfill_mono (sources : Dict.dict str) :
  forall d k, In k (Dict.keys d) -> In k (Dict.keys (backfill d sources)).
Proof.
  induction sources as [|kv sources IH]; intros d k Hk; simpl; auto.
  rewrite backfill_fold. cbn [fold_left]. rewrite <- backfill_fold.
  apply IH. unfold backfill_step.
  destruct (negb (Dict.mem d (fst kv)) && truthy (snd kv)); auto.
  apply Dict.keys_set. now left.
Qed.

Lemma backfill_covers (sources : Dict.dict str) :
  forall d k v, In (k, v) sources -> truthy v = true ->
                In k (Dict.keys (backfill d sources)).
Proof.
  induction sources as [|kv sources IH]; intros d k v Hin Hv; simpl in Hin;
    [contradiction|].
  rewrite backfill_fold. cbn [fold_left]. rewrite <- backfill_fold.
  destruct Hin as [->|Hin]; [|now apply (IH _ k v)].
  apply backfill_mono. unfold backfill_step. simpl. rewrite Hv.
  destruct (Dict.mem d k) eqn:E; simpl.
  - now apply Dict.mem_In.
  - apply Dict.keys_set. now right.
Qed.

Lemma backfill_noop (sources d : Dict.dict str) :
  (forall k v, In (k, v) sources -> truthy v = true -> In k (Dict.keys d)) ->
  backfill d sources = d.
Proof.
  induction sources as [|[k v] sources IH]; intros H; [reflexivity|].
  rewrite backfill_fold. cbn [fold_left]. rewrite <- backfill_fold.
  assert (E : backfill_step d (k, v) = d).
  { unfold backfill_step. simpl. destruct (truthy v) eqn:Ev.
    - assert (Hm : Dict.mem d k = true)
        by (apply Dict.mem_In; apply (H k v); auto; now left).
      now rewrite Hm.
    - now rewrite andb_false_r. }
  rewrite E. apply IH. intros k' v' Hin. apply H. now right.
Qed.

(** The content that the backfill writes to the source-locale file. *)
Definition backfilled (sources : Dict.dict str) (text : str) : str :=
  lang_to_content
    (add_aliases (lower lib) (backfill (parse_lang_content text) sources)).

Lemma backfilled_idem (sources : Dict.dict str) (text : str) :
  Forall clean_item sources -> Forall stable (Dict.keys sources) ->
  Forall stable (Dict.keys (parse_lang_content text)) ->
  backfilled sources (backfilled sources text) = backfilled sources text.
Proof.
  intros Hc Hs Hex. unfold backfilled.
  set (f0 := backfill (parse_lang_content text) sources).
  assert (W0 : well_formed f0)
    by (apply backfill_well_formed; auto; apply parse_lang_content_well_formed).
  assert (S0 : Forall stable (Dict.keys f0)) by now apply backfill_keys.
  set (f1 := add_aliases (lower lib) f0).
  destruct (add_aliases_well_formed (lower lib) f0 W0) as [Hf1 Hnd1].
  fold f1 in Hf1, Hnd1.
  assert (C1 : closed (lower lib) f1) by now apply add_aliases_closed.
  rewrite parse_lang_to_content by assumption.
  rewrite backfill_noop.
  - rewrite add_aliases_noop; [apply lang_to_content_sorted|].
    apply (closed_perm (lower lib) f1); [apply Permutation_sym, sorted_perm|exact C1].
  - intros k v Hin Hv. apply keys_sorted. unfold f1. rewrite add_aliases_fold.
    apply fold_alias_mono. now apply (backfill_covers sources _ k v).
Qed.

End Idempotence.

(** *** Locale files that a second call leaves as they are *)

Section Settled.

Variable lib : pylib.
Variable sources : Dict.dict (Dict.dict str).

Definition sources_of (ru_rel : str) : Dict.dict str :=
  match Dict.get sources ru_rel with Some s => s | None => [] end.

Definition ru_path (g : str * Dict.dict str) : path := path_of (fst g).
Definition en_path (g : str * Dict.dict str) : path := path_of (source_rel (fst g)).

(** Whether the step for [g] fills the source-locale file. *)
Definition backfills (g : str * Dict.dict str) (t : node) : bool :=
  exists_ t (en_path g) && negb (str_eqb (source_rel (fst g)) (fst g)).

(** The files of [g] hold what the step for [g] would write. *)
Definition settled (g : str * Dict.dict str) (t : node) : Prop :=
  (exists c, read_text t (ru_path g) = Some c /\ merged_ru lib (Some c) (snd g) = c)
  /\ ru_path g <> []
  /\ (backfills g t = true ->
      exists e, read_text t (en_path g) = Some e
                /\ backfilled lib (sources_of (fst g)) e = e).

Lemma settled_noop (g : str * Dict.dict str) (t : node) :
  settled g t -> lang_step lib sources g t = Returned t.
Proof.
  intros ((c & Hr & Hm) & Hne & Hb). unfold lang_step.
  assert (Hl : lookup t (ru_path g) = Some (File (Some c)))
    by now apply read_text_lookup.
  assert (E1 : write_ru lib (fst g) (snd g) t = Some t).
  { unfold write_ru. fold (ru_path g).
    assert (Ex : exists_ t (ru_path g) = true) by (unfold exists_; now rewrite Hl).
    rewrite Ex, Hr. cbn [bind].
    rewrite mkdir_all_same by now apply (parent_is_dir _ t (Some c)).
    cbn [bind]. rewrite Hm. now apply write_text_same. }
  rewrite E1.
  assert (E2 : backfill_en lib sources (fst g) t = Some t).
  { unfold backfill_en. fold (source_rel (fst g)). fold (en_path g).
    fold (backfills g t). destruct (backfills g t) eqn:Eb; [|reflexivity].
    destruct (Hb eq_refl) as (e & He & Hbe). rewrite He. cbn [bind].
    fold (sources_of (fst g)). fold (backfilled lib (sources_of (fst g)) e).
    rewrite Hbe. apply write_text_same; [|exact He].
    apply read_text_lookup in He.
    now apply (lookup_file_nonempty t (ru_path g) (en_path g) (Some c) (Some e)). }
  now rewrite E2.
Qed.

Lemma settled_frame (g : str * Dict.dict str) (t t' : node) :
  lookup t' (ru_path g) = lookup t (ru_path g) ->
  lookup t' (en_path g) = lookup t (en_path g) ->
  settled g t -> settled g t'.
Proof.
  intros H1 H2. unfold settled, backfills, read_text, exists_.
  now rewrite H1, H2.
Qed.

(** What the merge into the target-locale file does. *)
Lemma write_ru_spec (ru_rel : str) (entries : Dict.dict str) (t t0 : node) :
  write_ru lib ru_rel entries t = Some t0 ->
  exists existing,
    (forall old, existing = Some old -> read_text t (path_of ru_rel) = Some old)
    /\ read_text t0 (path_of ru_rel) = Some (merged_ru lib existing entries)
    /\ path_of ru_rel <> []
    /\ (forall q, ~ prefix q (path_of ru_rel) -> lookup t0 q = lookup t q).
Proof.
  unfold write_ru. intros H.
  destruct (if exists_ t (path_of ru_rel)
            then let? text := read_text t (path_of ru_rel) in Some (Some text)
            else Some None) as [existing|] eqn:Ee; [|discriminate].
  cbn [bind] in H.
  destruct (mkdir_all t (parent (path_of ru_rel))) as [t1|] eqn:E1; [|discriminate].
  cbn [bind] in H. exists existing. split; [|split; [|split]].
  - intros old ->. destruct (exists_ t (path_of ru_rel)); [|discriminate].
    destruct (read_text t (path_of ru_rel)); [|discriminate].
    cbn [bind] in Ee. congruence.
  - apply read_text_lookup. now apply (lookup_write_same _ t1 t0).
  - intros E. rewrite E in H. destruct t1; discriminate.
  - intros q Hq. rewrite (lookup_write_other _ t1 t0 _ q H Hq).
    apply (lookup_mkdir_other _ t t1 q E1).
    intros Hp. apply Hq. now apply prefix_parent.
Qed.

(** A step leaves the paths that are no ancestor of its files. *)
Lemma lang_step_frame (g : str * Dict.dict str) (t t' : node) (q : path) :
  lang_step lib sources g t = Returned t' ->
  ~ prefix q (ru_path g) -> ~ prefix q (en_path g) ->
  lookup t' q = lookup t q.
Proof.
  unfold lang_step. intros H Hru Hen.
  destruct (write_ru lib (fst g) (snd g) t) as [t0|] eqn:E1; [|discriminate].
  destruct (backfill_en lib sources (fst g) t0) as [t2|] eqn:E2; [|discriminate].
  inversion H; subst t2. clear H.
  destruct (write_ru_spec _ _ _ _ E1) as (existing & _ & _ & _ & Hf).
  rewrite <- (Hf q Hru).
  unfold backfill_en in E2. fold (source_rel (fst g)) in E2. fold (en_path g) in E2.
  destruct (exists_ t0 (en_path g) && negb (str_eqb (source_rel (fst g)) (fst g))).
  - destruct (read_text t0 (en_path g)) as [text|]; [|discriminate].
    cbn [bind] in E2. now apply (lookup_write_other _ t0 t' _ q E2).
  - now inversion E2.
Qed.

End Settled.

Section SecondCall.

Variable lib : pylib.
Variable sources : Dict.dict (Dict.dict str).

(** The entries and the sources of [g] are lines of a locale file, with
    keys whose variant leads back to them, and the backfill does not write
    an ancestor of the target-locale file. *)
Definition group_ok (g : str * Dict.dict str) : Prop :=
  Forall clean_item (snd g)
  /\ NoDup (Dict.keys (snd g))
  /\ Forall (stable lib) (Dict.keys (snd g))
  /\ Forall clean_item (sources_of sources (fst g))
  /\ Forall (stable lib) (Dict.keys (sources_of sources (fst g)))
  /\ (source_rel (fst g) = fst g \/ ~ prefix (en_path g) (ru_path g)).

(** The keys that the files of [g] hold lead back to themselves. *)
Definition tree_ok (g : str * Dict.dict str) (t : node) : Prop :=
  (forall text, read_text t (ru_path g) = Some text ->
                Forall (stable lib) (Dict.keys (parse_lang_content text)))
  /\ (forall text, read_text t (en_path g) = Some text ->
                   Forall (stable lib) (Dict.keys (parse_lang_content text))).

Lemma tree_ok_frame (g : str * Dict.dict str) (t t' : node) :
  lookup t' (ru_path g) = lookup t (ru_path g) ->
  lookup t' (en_path g) = lookup t (en_path g) ->
  tree_ok g t -> tree_ok g t'.
Proof.
  intros H1 H2. unfold tree_ok, read_text. now rewrite H1, H2.
Qed.

(** After its step, the files of a group are settled. *)
Lemma lang_step_settles (g : str * Dict.dict str) (t t1 : node) :
  group_ok g -> tree_ok g t ->
  lang_step lib sources g t = Returned t1 -> settled lib sources g t1.
Proof.
  intros (Hc & Hnd & Hs & Hsc & Hss & Hown) [Tru Ten]. unfold lang_step.
  destruct (write_ru lib (fst g) (snd g) t) as [t0|] eqn:E1; [|discriminate].
  destruct (backfill_en lib sources (fst g) t0) as [t2|] eqn:E2; [|discriminate].
  intros E. inversion E; subst t2. clear E.
  destruct (write_ru_spec lib _ _ _ _ E1) as (existing & Hex & Hr0 & Hne & Hf).
  fold (ru_path g) in Hex, Hr0, Hne, Hf.
  assert (Hm : merged_ru lib (Some (merged_ru lib existing (snd g))) (snd g)
               = merged_ru lib existing (snd g)).
  { apply merged_ru_idem; auto; intros old Ho; apply Tru; now apply Hex. }
  unfold backfill_en in E2. fold (source_rel (fst g)) in E2. fold (en_path g) in E2.
  fold (backfills g t0) in E2. fold (sources_of sources (fst g)) in E2.
  destruct (backfills g t0) eqn:Eb.
  - assert (Hpre : ~ prefix (en_path g) (ru_path g)).
    { destruct Hown as [Hown|Hown]; auto. unfold backfills in Eb.
      apply andb_true_iff in Eb. destruct Eb as [_ Eb].
      apply negb_true_iff in Eb. apply str_eqb_neq in Eb. contradiction. }
    assert (Hneq : en_path g <> ru_path g)
      by (intros Heq; apply Hpre; rewrite Heq; apply prefix_refl).
    destruct (read_text t0 (en_path g)) as [text|] eqn:Et; [|discriminate].
    cbn [bind] in E2. fold (backfilled lib (sources_of sources (fst g)) text) in E2.
    assert (Hen1 : read_text t1 (en_path g)
                   = Some (backfilled lib (sources_of sources (fst g)) text)).
    { apply read_text_lookup. now apply (lookup_write_same _ t0 t1). }
    split; [|split; [exact Hne|]].
    + exists (merged_ru lib existing (snd g)). split; [|exact Hm].
      apply read_text_lookup.
      apply (write_keeps_file _ (ru_path g) t0 t1 _ _ E2); [congruence|].
      now apply read_text_lookup.
    + intros _. exists (backfilled lib (sources_of sources (fst g)) text).
      split; [exact Hen1|]. apply backfilled_idem; auto.
      apply Ten. unfold read_text. rewrite <- (Hf _ Hpre). exact Et.
  - inversion E2; subst t1. split; [|split; [exact Hne|]].
    + exists (merged_ru lib existing (snd g)). now split.
    + intros Hb. congruence.
Qed.

(** The step for [g'] leaves the files of [g]. *)
Definition apart (g g' : str * Dict.dict str) : Prop :=
  ~ prefix (ru_path g) (ru_path g') /\ ~ prefix (ru_path g) (en_path g')
  /\ ~ prefix (en_path g) (ru_path g') /\ ~ prefix (en_path g) (en_path g').

Lemma apart_frame (g g' : str * Dict.dict str) (t t' : node) :
  apart g g' -> lang_step lib sources g' t = Returned t' ->
  lookup t' (ru_path g) = lookup t (ru_path g)
  /\ lookup t' (en_path g) = lookup t (en_path g).
Proof.
  intros (H1 & H2 & H3 & H4) H. split.
  - now apply (lang_step_frame lib sources g' t t').
  - now apply (lang_step_frame lib sources g' t t').
Qed.

Fixpoint all_apart (L : list (str * Dict.dict str)) : Prop :=
  match L with
  | [] => True
  | g :: rest => (forall g', In g' rest -> apart g g' /\ apart g' g) /\ all_apart rest
  end.

Lemma for_each_cons {A : Type} (step : A -> node -> result) (x : A) (rest : list A)
    (t t' : node) :
  for_each step (x :: rest) t = Returned t' ->
  exists t1, step x t = Returned t1 /\ for_each step rest t1 = Returned t'.
Proof.
  simpl. destruct (step x t) as [t1|t1]; simpl; [|discriminate].
  intros H. now exists t1.
Qed.

Lemma settled_through (g : str * Dict.dict str) (rest : list (str * Dict.dict str)) :
  forall t1 t',
    (forall g', In g' rest -> apart g g') ->
    for_each (lang_step lib sources) rest t1 = Returned t' ->
    (settled lib sources g t1 -> settled lib sources g t')
    /\ lookup t' (ru_path g) = lookup t1 (ru_path g)
    /\ lookup t' (en_path g) = lookup t1 (en_path g).
Proof.
  induction rest as [|g' rest IH]; intros t1 t' Ha H.
  - simpl in H. inversion H; subst. auto.
  - apply for_each_cons in H. destruct H as (t2 & H2 & Hrest).
    destruct (apart_frame g g' t1 t2 (Ha g' (or_introl eq_refl)) H2) as [F1 F2].
    destruct (IH t2 t' (fun x Hx => Ha x (or_intror Hx)) Hrest) as (S2 & G1 & G2).
    split; [|split; congruence].
    intros Hs. apply S2. now apply (settled_frame lib sources g t1 t2).
Qed.

Lemma for_each_settles (L : list (str * Dict.dict str)) :
  forall t t',
    all_apart L ->
    (forall g, In g L -> group_ok g /\ tree_ok g t) ->
    for_each (lang_step lib sources) L t = Returned t' ->
    forall g, In g L -> settled lib sources g t'.
Proof.
  induction L as [|g0 rest IH]; intros t t' Ha Hok H g Hg; [contradiction|].
  destruct Ha as [Ha0 Ha].
  apply for_each_cons in H. destruct H as (t1 & H1 & Hrest).
  destruct Hg as [<-|Hg].
  - destruct (Hok g0 (or_introl eq_refl)) as [Hg0 Ht0].
    destruct (settled_through g0 rest t1 t' (fun x Hx => proj1 (Ha0 x Hx)) Hrest)
      as (S & _ & _).
    apply S. now apply (lang_step_settles g0 t t1).
  - apply (IH t1 t' Ha); auto. intros g' Hg'.
    destruct (Hok g' (or_intror Hg')) as [Hg1 Ht1]. split; [exact Hg1|].
    destruct (apart_frame g' g0 t t1 (proj2 (Ha0 g' Hg')) H1) as [F1 F2].
    now apply (tree_ok_frame g' t t1).
Qed.

Lemma for_each_noop (L : list (str * Dict.dict str)) (t : node) :
  (forall g, In g L -> settled lib sources g t) ->
  for_each (lang_step lib sources) L t = Returned t.
Proof.
  induction L as [|g rest IH]; intros H; simpl; [reflexivity|].
  rewrite (settled_noop lib sources g t) by (apply H; now left).
  simpl. apply IH. intros g' Hg'. apply H. now right.
Qed.

(** The loop over the locale files, run again on its result, changes
    nothing. *)
Lemma for_each_lang_twice (L : list (str * Dict.dict str)) (t t' : node) :
  all_apart L ->
  (forall g, In g L -> group_ok g /\ tree_ok g t) ->
  for_each (lang_step lib sources) L t = Returned t' ->
  for_each (lang_step lib sources) L t' = Returned t'.
Proof.
  intros Ha Hok H. apply for_each_noop.
  now apply (for_each_settles L t t').
Qed.

End SecondCall.

(** *** The groups of rows that are all locale entries *)

Section LangRows.

Variable R : row -> Prop.

(** A row that is no locale entry has no translation. *)
Hypothesis R_lang :
  forall r, R r ->
            r_type r = LangFile
            \/ (r_type r <> LangFile /\ translated_text r = Some []).

Definition from_lang_source (ru_rel key val : str) : Prop :=
  exists r, R r /\ r_type r = LangFile
            /\ lang_file_rel_to_ru (r_file_rel r) = ru_rel
            /\ r_key r = key /\ val = strip (r_source r).

(** The files are distinct, and so are the keys of each file. *)
Definition entries_distinct (D : Dict.dict (Dict.dict str)) : Prop :=
  NoDup (Dict.keys D) /\ forall rel kv, In (rel, kv) D -> NoDup (Dict.keys kv).

Definition lang_shape (g : groups) : Prop :=
  entries_distinct (lang_by_file g)
  /\ covers from_lang_source (lang_sources g)
  /\ manifest_updates g = [] /\ ui_by_file g = []
  /\ common_json_by_file g = [] /\ json_by_file g = [].

Lemma set_in_distinct (D : Dict.dict (Dict.dict str)) (rel key value : str) :
  entries_distinct D -> entries_distinct (set_in D rel key value).
Proof.
  intros [Hn Hk]. unfold set_in. split.
  - now apply Dict.NoDup_keys_set.
  - intros rel' kv Hin. apply Dict.in_set in Hin.
    destruct Hin as [Hin|Hin]; [now apply (Hk rel')|]. inversion Hin; subst.
    apply Dict.NoDup_keys_set.
    destruct (Dict.get D rel) as [kv0|] eqn:Eg; [|constructor].
    apply Dict.get_Some_in in Eg. now apply (Hk rel).
Qed.

Lemma no_groups_shape : lang_shape no_groups.
Proof.
  split; [split; [constructor|intros rel kv []]|].
  split; [intros rel kv key val []|]. repeat split.
Qed.

Lemma group_row_shape (g g' : groups) (r : row) :
  lang_shape g -> R r -> group_row g r = Some g' -> lang_shape g'.
Proof.
  intros (H1 & H2 & H3 & H4 & H5 & H6) Hr. unfold group_row.
  destruct (R_lang r Hr) as [Hty|[Hty Htr]];
    [|rewrite Htr; simpl; intros E;
      assert (g' = g) by (destruct (r_type r); congruence); subst g';
      repeat split; auto; apply H1].
  rewrite Hty.
  destruct (translated_text r) as [tr|]; [|discriminate].
  assert (Hs : covers from_lang_source
                 (set_in (lang_sources g) (lang_file_rel_to_ru (r_file_rel r))
                    (r_key r) (strip (r_source r)))).
  { apply set_in_covers; auto. now exists r. }
  destruct (truthy tr); cbn [negb]; intros E; inversion E; subst; clear E;
    unfold lang_shape;
    cbn [manifest_updates lang_by_file ui_by_file common_json_by_file
         json_by_file lang_sources];
    repeat split; auto; try apply H1.
  - now apply set_in_distinct.
  - now apply set_in_distinct.
Qed.

Lemma group_rows_shape (rows : list row) :
  forall g g', lang_shape g -> Forall R rows -> group_rows g rows = Some g' ->
               lang_shape g'.
Proof.
  induction rows as [|r rows IH]; intros g g' Hg HR; simpl.
  - intros E. inversion E. now subst.
  - inversion HR; subst.
    destruct (group_row g r) as [g1|] eqn:E1; [|discriminate].
    apply IH; auto. now apply (group_row_shape g g1 r).
Qed.

End LangRows.

Lemma all_apart_of (L : list (str * Dict.dict str)) :
  NoDup (Dict.keys L) ->
  (forall g g', In g L -> In g' L -> fst g <> fst g' -> apart g g') ->
  all_apart L.
Proof.
  induction L as [|g rest IH]; intros Hn H; simpl; [exact I|].
  inversion Hn; subst. split.
  - intros g' Hg'.
    assert (Hne : fst g <> fst g').
    { intros E. apply H2. rewrite E. now apply in_map. }
    split; apply H; simpl; auto.
  - apply IH; auto. intros a b Ha Hb. apply H; now right.
Qed.

(** *** A second call with rows that are all locale entries *)

(** The target-locale file of a locale row. *)
Definition ru_of (r : row) : str := lang_file_rel_to_ru (r_file_rel r).

(** The row is a locale entry whose key, translation and source fit on a
    line of a locale file, with a key whose variant leads back to it, and
    the source-locale file of its backfill is no ancestor of its
    target-locale file. *)
Definition lang_row_ok (lib : pylib) (r : row) : Prop :=
  r_type r = LangFile
  /\ clean_key (r_key r) /\ stable lib (r_key r)
  /\ (forall tr, translated_text r = Some tr -> no_linebreak tr = true)
  /\ no_linebreak (strip (r_source r)) = true
  /\ (source_rel (ru_of r) = ru_of r
      \/ ~ prefix (path_of (source_rel (ru_of r))) (path_of (ru_of r))).

(** An entry of another type, without translation. *)
Definition untranslated (r : row) : Prop :=
  r_type r <> LangFile /\ translated_text r = Some [].

(** Neither file of the target [a] is a file of the target [b] or an
    ancestor of one. *)
Definition files_apart (a b : str) : Prop :=
  ~ prefix (path_of a) (path_of b)
  /\ ~ prefix (path_of a) (path_of (source_rel b))
  /\ ~ prefix (path_of (source_rel a)) (path_of b)
  /\ ~ prefix (path_of (source_rel a)) (path_of (source_rel b)).

(** The keys of the locale file [p], when it can be read, lead back to
    themselves by their variant. *)
Definition keys_stable_at (lib : pylib) (t : node) (p : path) : Prop :=
  forall text, read_text t p = Some text ->
               Forall (stable lib) (Dict.keys (parse_lang_content text)).

Section Twice.

Variable lib : pylib.
Variable rows : list row.
Variable t : node.

Hypothesis rows_ok :
  forall r, In r rows -> lang_row_ok lib r \/ untranslated r.

Hypothesis rows_apart :
  forall r r', In r rows -> In r' rows ->
               r_type r = LangFile -> r_type r' = LangFile ->
               ru_of r <> ru_of r' -> files_apart (ru_of r) (ru_of r').

Hypothesis tree_keys :
  forall r, In r rows -> r_type r = LangFile ->
            keys_stable_at lib t (path_of (ru_of r))
            /\ keys_stable_at lib t (path_of (source_rel (ru_of r))).

Lemma lang_rows_ok (r : row) :
  In r rows -> r_type r = LangFile -> lang_row_ok lib r.
Proof.
  intros Hr Hty. destruct (rows_ok r Hr) as [H|[H _]]; [exact H|contradiction].
Qed.

Lemma save_lang_only (g : groups) (t0 : node) :
  manifest_updates g = [] -> ui_by_file g = [] ->
  common_json_by_file g = [] -> json_by_file g = [] ->
  group_rows no_groups rows = Some g ->
  forall t', (save_all_translations lib t0 rows = Returned t'
              <-> for_each (lang_step lib (lang_sources g)) (lang_by_file g) t0
                  = Returned t').
Proof.
  intros E1 E2 E3 E4 Eg t'. unfold save_all_translations.
  rewrite Eg, E1, E2, E3, E4. simpl.
  destruct (for_each (lang_step lib (lang_sources g)) (lang_by_file g) t0);
    simpl; split; intros H; congruence.
Qed.

Lemma save_all_translations_twice (t' : node) :
  save_all_translations lib t rows = Returned t' ->
  save_all_translations lib t' rows = Returned t'.
Proof.
  intros H.
  destruct (group_rows no_groups rows) as [g|] eqn:Eg;
    [|unfold save_all_translations in H; rewrite Eg in H; discriminate].
  assert (HR : Forall (fun r => In r rows) rows) by (apply Forall_forall; auto).
  assert (Hty : forall r, In r rows ->
                 r_type r = LangFile
                 \/ (r_type r <> LangFile /\ translated_text r = Some [])).
  { intros r Hr. destruct (rows_ok r Hr) as [H0|H0]; [left; apply H0|now right]. }
  destruct (group_rows_shape (fun r => In r rows) Hty rows no_groups g
              (no_groups_shape _) HR Eg)
    as ((Hn & Hk) & Hsrc & E1 & E2 & E3 & E4).
  destruct (group_rows_provenance (fun r => In r rows) rows no_groups g
              (no_groups_provenance _) HR Eg)
    as (_ & Hfile & Hent & _).
  apply (save_lang_only g t' E1 E2 E3 E4 Eg).
  apply (save_lang_only g t E1 E2 E3 E4 Eg) in H.
  apply (for_each_lang_twice lib (lang_sources g) (lang_by_file g) t t'); auto.
  - apply all_apart_of; auto. intros [a ea] [b eb] Ha Hb Hne. simpl in Hne.
    destruct (Hfile a ea Ha) as (r & Hr & Hta & Hra).
    destruct (Hfile b eb Hb) as (r' & Hr' & Htb & Hrb).
    subst a b. now apply (rows_apart r r').
  - intros [ru_rel entries] Hin.
    destruct (Hfile ru_rel entries Hin) as (r0 & Hr0 & Hty0 & Hru0).
    split.
    + unfold group_ok. cbn [fst snd]. split; [|split; [|split; [|split; [|split]]]].
      * apply Forall_forall. intros [key tr] Hkv.
        destruct (Hent ru_rel entries key tr Hin Hkv)
          as (r & Hr & Htr0 & _ & Hkey & Htr & _).
        destruct (lang_rows_ok r Hr Htr0) as (_ & Hck & _ & Hnl & _).
        split; simpl; [now rewrite <- Hkey|].
        split; [now apply (translated_text_trimmed r)|now apply Hnl].
      * now apply (Hk ru_rel).
      * apply Forall_forall. intros key Hkey.
        apply in_map_iff in Hkey. destruct Hkey as ([key' tr] & <- & Hkv).
        destruct (Hent ru_rel entries key' tr Hin Hkv)
          as (r & Hr & Htr0 & _ & Hkey & _).
        destruct (lang_rows_ok r Hr Htr0) as (_ & _ & Hst & _).
        simpl. now rewrite <- Hkey.
      * unfold sources_of.
        destruct (Dict.get (lang_sources g) ru_rel) as [s|] eqn:Es; [|constructor].
        apply Dict.get_Some_in in Es.
        apply Forall_forall. intros [key val] Hkv.
        destruct (Hsrc ru_rel s key val Es Hkv) as (r & Hr & Htr0 & _ & Hkey & Hval).
        destruct (lang_rows_ok r Hr Htr0) as (_ & Hck & _ & _ & Hnl & _).
        split; simpl; [now rewrite <- Hkey|].
        subst val. split; [apply strip_trimmed|exact Hnl].
      * unfold sources_of.
        destruct (Dict.get (lang_sources g) ru_rel) as [s|] eqn:Es; [|constructor].
        apply Dict.get_Some_in in Es.
        apply Forall_forall. intros key Hkey.
        apply in_map_iff in Hkey. destruct Hkey as ([key' val] & <- & Hkv).
        destruct (Hsrc ru_rel s key' val Es Hkv) as (r & Hr & Htr0 & _ & Hkey & _).
        destruct (lang_rows_ok r Hr Htr0) as (_ & _ & Hst & _).
        simpl. now rewrite <- Hkey.
      * destruct (lang_rows_ok r0 Hr0 Hty0) as (_ & _ & _ & _ & _ & Hown).
        unfold ru_of in Hown. rewrite Hru0 in Hown. exact Hown.
    + destruct (tree_keys r0 Hr0 Hty0) as [T1 T2]. unfold ru_of in T1, T2.
      rewrite Hru0 in T1, T2. split; assumption.
Qed.

End Twice.

End Writer.

(** ** The string collector: [collect_all_strings] *)

Module Collector.
Import PyStr Json FS Catalogue Lang Ui Filter.

(** The collector appends to [rows] and to its sets of seen pairs while it
    runs, and what it appended stays when an exception is caught: a
    computation takes the state and returns it with a value, or with [None]
    when it raised. *)
Record cstate : Type := {
  rows : list row;
  lang_keys_seen : list (str * str);
  seen_ui : list (str * str)
}.

Definition M (A : Type) : Type := cstate -> cstate * option A.

Definition ret {A : Type} (x : A) : M A := fun s => (s, Some x).
Definition raise {A : Type} : M A := fun s => (s, None).

Definition mbind {A B : Type} (m : M A) (f : A -> M B) : M B :=
  fun s =>
    match m s with
    | (s', Some x) => f x s'
    | (s', None) => (s', None)
    end.

Notation "'do' x '<-' m ';' k" := (mbind m (fun x => k))
  (at level 10, x name, m at level 100, k at level 200).
Notation "m ';;' k" := (mbind m (fun _ => k))
  (at level 61, right associativity).

(** [try: m  except Exception: pass]. *)
Definition try_pass (m : M unit) : M unit :=
  fun s => (fst (m s), Some tt).

(** A value that may be an exception, inside the computation. *)
Definition lift {A : Type} (o : option A) : M A :=
  match o with Some x => ret x | None => raise end.

Fixpoint for_ {A : Type} (items : list A) (body : A -> M unit) : M unit :=
  match items with
  | [] => ret tt
  | x :: rest => body x ;; for_ rest body
  end.

Definition when (b : bool) (m : M unit) : M unit := if b then m else ret tt.

Definition append_row (r : row) : M unit :=
  fun s =>
    ({| rows := rows s ++ [r];
        lang_keys_seen := lang_keys_seen s;
        seen_ui := seen_ui s |}, Some tt).

Definition pair_eqb (a b : str * str) : bool :=
  str_eqb (fst a) (fst b) && str_eqb (snd a) (snd b).

Definition pair_in (x : str * str) (l : list (str * str)) : bool :=
  existsb (pair_eqb x) l.

Definition add_lang_key (x : str * str) : M unit :=
  fun s =>
    ({| rows := rows s;
        lang_keys_seen := if pair_in x (lang_keys_seen s)
                          then lang_keys_seen s else lang_keys_seen s ++ [x];
        seen_ui := seen_ui s |}, Some tt).

Definition add_seen_ui (x : str * str) : M unit :=
  fun s =>
    ({| rows := rows s;
        lang_keys_seen := lang_keys_seen s;
        seen_ui := if pair_in x (seen_ui s)
                   then seen_ui s else seen_ui s ++ [x] |}, Some tt).

Definition lang_key_seen (x : str * str) : M bool :=
  fun s => (s, Some (pair_in x (lang_keys_seen s))).

Definition ui_seen (x : str * str) : M bool :=
  fun s => (s, Some (pair_in x (seen_ui s))).

Definition make_row (ty : source_type) (rel key source : str)
    (translated : option json) : row :=
  {| r_type := ty; r_file_rel := rel; r_key := key; r_source := source;
     r_translated := translated |}.

Section Passes.

Variable lib : pylib.

(** The components of [extracted_path] itself, which are part of the
    [parts] of every path below it. *)
Variable base_parts : list str.

Variable extracted : node.

Definition is_key (s : str) : bool := _is_translation_key (isalnum lib) s.
Definition skip (s : str) : bool :=
  _should_skip_source (isalpha lib) (isalnum lib) s.

(** [not _is_translation_key(s) and not _should_skip_source(s)]. *)
Definition eligible (s : str) : bool := negb (is_key s) && negb (skip s).

(** [v and not _is_translation_key(v) and not _should_skip_source(v)] for a
    value [v] of any type: a value that is true and no string raises
    [AttributeError]. *)
Definition candidate (v : option json) : option (option str) :=
  match v with
  | None => Some None
  | Some j =>
      if json_truthy j then
        match j with
        | JStr s => Some (if eligible s then Some s else None)
        | _ => None
        end
      else Some None
  end.

Definition read_json (p : path) : M json :=
  do text <- lift (read_text extracted p);
  lift (json_loads lib text).

(** *** 1. The manifest *)

(** The test and the [rows.append] for one field of the manifest. *)
Definition manifest_field (rel key : str) (v : option json) : M unit :=
  do c <- lift (candidate v);
  match c with
  | Some s => append_row (make_row Manifest rel key s None)
  | None => ret tt
  end.

Definition author_key (i : nat) : str :=
  py "Authors[" ++ str_of_nat i ++ py "].Name".

Fixpoint manifest_authors (rel : str) (i : nat) (authors : list json) : M unit :=
  match authors with
  | [] => ret tt
  | a :: rest =>
      match a with
      | JObj o => manifest_field rel (author_key i) (members_get o (KStr (py "Name")))
      | _ => ret tt
      end ;;
      manifest_authors rel (S i) rest
  end.

(** The body of the [try] for the manifest [f]. *)
Definition manifest_body (f : path) : M unit :=
  do data <- read_json f;
  let rel := as_posix f in
  do name <- lift (dict_get data (py "Name"));
  manifest_field rel (py "Name") name ;;
  do description <- lift (dict_get data (py "Description"));
  manifest_field rel (py "Description") description ;;
  do authors <- lift (dict_get data (py "Authors"));
  do items <-
    lift (match authors with
          | Some a => if json_truthy a then py_iter a else Some []
          | None => Some []
          end);
  manifest_authors rel 0 items.

(** The [for name in ("manifest.json", "pack.json")] loop: the first of
    the two that is a file is read, and the loop ends. *)
Fixpoint scan_manifest (names : list str) : M unit :=
  match names with
  | [] => ret tt
  | name :: rest =>
      if is_file extracted [name]
      then try_pass (manifest_body [name])
      else scan_manifest rest
  end.

(** *** 2. The locale files *)

Definition lang_root : path := [py "Server"; py "Languages"].
Definition ru_dir : path := lang_root ++ [py "ru-RU"].

(** [sorted(lang_root.iterdir())]: the entries by name. *)
Fixpoint insert_entry (x : str * node) (l : list (str * node)) : list (str * node) :=
  match l with
  | [] => [x]
  | y :: l' => if str_ltb (fst x) (fst y) then x :: l else y :: insert_entry x l'
  end.

Definition sort_entries (l : list (str * node)) : list (str * node) :=
  fold_left (fun acc x => insert_entry x acc) l [].

Definition is_dir_node (n : node) : bool :=
  match n with Dir _ => true | File _ => false end.

(** The directory that the [for loc_dir in sorted(...)] loops read before
    their [break]: the first that is a directory and not [ru-RU]. *)
Definition locale_dir : option path :=
  match
    filter (fun e => is_dir_node (snd e) && negb (str_eqb (fst e) (py "ru-RU")))
      (sort_entries (listdir extracted lang_root))
  with
  | e :: _ => Some (lang_root ++ [fst e])
  | [] => None
  end.

(** [ru_entries_by_file], read outside any [try]. *)
Fixpoint read_ru_files (files : list path) (acc : Dict.dict (Dict.dict str))
    : M (Dict.dict (Dict.dict str)) :=
  match files with
  | [] => ret acc
  | lf :: rest =>
      do text <- lift (read_text extracted lf);
      read_ru_files rest (Dict.set acc (name lf) (parse_lang_content text))
  end.

(** The body of the [try] for the locale file [lf]. *)
Definition lang_file_body (ru_entries_by_file : Dict.dict (Dict.dict str))
    (lf : path) : M unit :=
  do text <- lift (read_text extracted lf);
  let entries := parse_lang_content text in
  let rel := as_posix lf in
  let ru := match Dict.get ru_entries_by_file (name lf) with
            | Some d => d
            | None => []
            end in
  for_ entries (fun kv =>
    when (eligible (snd kv))
      (add_lang_key (rel, fst kv) ;;
       append_row (make_row LangFile rel (fst kv) (snd kv)
                     (option_map JStr (Dict.get ru (fst kv)))))).

Definition scan_lang : M unit :=
  when (is_dir extracted lang_root)
    (do ru_entries_by_file <-
       (if is_dir extracted ru_dir
        then read_ru_files (glob_suffix extracted ru_dir (py ".lang")) []
        else ret []);
     match locale_dir with
     | Some loc =>
         for_ (glob_suffix extracted loc (py ".lang"))
           (fun lf => try_pass (lang_file_body ru_entries_by_file lf))
     | None => ret tt
     end).

(** *** 2b. The keys [server.xxx] of the JSON files *)

(** [_extract_server_translation_keys]. *)
Fixpoint _extract_server_translation_keys (obj : json) : list str :=
  match obj with
  | JObj members =>
      (fix over (ms : list (pkey * json)) : list str :=
         match ms with
         | [] => []
         | (_, v) :: ms' =>
             match v with
             | JStr s => if starts_with (py "server.") s then [skipn 7 s] else []
             | JObj _ | JArr _ => _extract_server_translation_keys v
             | _ => []
             end ++ over ms'
         end) members
  | JArr items =>
      (fix over (vs : list json) : list str :=
         match vs with
         | [] => []
         | v :: vs' => _extract_server_translation_keys v ++ over vs'
         end) items
  | _ => []
  end.

(** [a or b] on values that are a string or [None]. *)
Definition py_or (a b : option str) : option str :=
  match a with
  | Some s => if truthy s then a else b
  | None => b
  end.

(** [_key_to_default_display_name]. *)
Definition _key_to_default_display_name (key : str) : str :=
  let base := replace (py ".description") [] (replace (py ".name") [] key) in
  let parts := split_char DOT base in
  let last_part := last parts key in
  let nm := strip (replace [UNDERSCORE] [SPACE] last_part) in
  if negb (truthy nm) then key
  else
    let result := title lib nm in
    if contains (py ".description") key then py "Description: " ++ result
    else result.

(** [en_entries_all], read outside any [try]. *)
Fixpoint read_en_files (files : list path) (acc : Dict.dict str) : M (Dict.dict str) :=
  match files with
  | [] => ret acc
  | lf :: rest =>
      do text <- lift (read_text extracted lf);
      read_en_files rest (Dict.update acc (parse_lang_content text))
  end.

(** The [for ru_lf in ru_dir.glob("*.lang")] loop that looks [key] up. *)
Fixpoint ru_value (key : str) (files : list path) (ru_val : option str)
    : M (option str) :=
  match files with
  | [] => ret ru_val
  | ru_lf :: rest =>
      do text <- lift (read_text extracted ru_lf);
      let ru_entries := parse_lang_content text in
      ru_value key rest
        (py_or (py_or (Dict.get ru_entries key) ru_val)
           (Dict.get ru_entries (_key_case_variant (lower lib) key)))
  end.

(** [jf.is_file()] and neither [Languages] nor [Translations] in [jf.parts]. *)
Definition plain_json_file (jf : path) : bool :=
  is_file extracted jf
  && negb (existsb (str_eqb (py "Languages")) (base_parts ++ jf))
  && negb (existsb (str_eqb (py "Translations")) (base_parts ++ jf)).

Definition server_key_body (default_lang_rel : str) (en_entries_all : Dict.dict str)
    (key : str) : M unit :=
  do seen <- lang_key_seen (default_lang_rel, key);
  when (negb seen)
    (add_lang_key (default_lang_rel, key) ;;
     let src_val :=
       match py_or (py_or (Dict.get en_entries_all key)
                      (Dict.get en_entries_all (_key_case_variant (lower lib) key)))
               (Some (_key_to_default_display_name key))
       with
       | Some s => s
       | None => []
       end in
     do ru_val <-
       (if exists_ extracted ru_dir
        then ru_value key (glob_suffix extracted ru_dir (py ".lang")) None
        else ret None);
     when (negb (skip src_val))
       (append_row (make_row LangFile default_lang_rel key src_val
                      (option_map JStr ru_val)))).

Definition scan_server_keys : M unit :=
  when (is_dir extracted lang_root)
    match locale_dir with
    | Some loc =>
        let files := glob_suffix extracted loc (py ".lang") in
        do en_entries_all <- read_en_files files [];
        match files with
        | lf :: _ =>
            let default_lang_rel := as_posix lf in
            when (truthy default_lang_rel)
              (for_ (filter plain_json_file (rglob_suffix extracted (py ".json")))
                 (fun jf =>
                    try_pass
                      (do data <- read_json jf;
                       for_ (_extract_server_translation_keys data)
                         (server_key_body default_lang_rel en_entries_all))))
        | [] => ret tt
        end
    | None => ret tt
    end.

(** *** 3. The translation JSON of [Common/Translations] *)

Definition trans_root : path := [py "Common"; py "Translations"].

(** [str(n)] for an integer. *)
Definition str_of_Z (z : Z) : str :=
  if (z <? 0)%Z then py "-" ++ str_of_nat (Z.to_nat (- z)) else str_of_nat (Z.to_nat z).

(** [f"{k}"] for a key. *)
Definition pkey_text (k : pkey) : str :=
  match k with KStr s => s | KInt z => str_of_Z z end.

(** [d.get(k)] for a key of any type; [None] is [AttributeError]. *)
Definition dict_get_key (d : json) (k : pkey) : option (option json) :=
  match d with
  | JObj o => Some (members_get o k)
  | _ => None
  end.

(** The [for k2, v2 in v.items()] loop of a nested level. *)
Definition common_inner (rel : str) (k : pkey) (ru_inner : list (pkey * json))
    (members : list (pkey * json)) : M unit :=
  for_ members (fun kv2 =>
    match snd kv2 with
    | JStr v2 =>
        when (eligible v2)
          (append_row (make_row CommonJson rel
                         (pkey_text k ++ py "." ++ pkey_text (fst kv2)) v2
                         (members_get ru_inner (fst kv2))))
    | _ => ret tt
    end).

(** The [for k, v in data.items()] loop. *)
Definition common_members (rel : str) (ru_data : json)
    (members : list (pkey * json)) : M unit :=
  for_ members (fun kv =>
    match snd kv with
    | JStr v =>
        if eligible v then
          do tr <- lift (dict_get_key ru_data (fst kv));
          append_row (make_row CommonJson rel (pkey_text (fst kv)) v tr)
        else ret tt
    | JObj inner =>
        do ru_inner <- lift (dict_get_key ru_data (fst kv));
        match ru_inner with
        | None => common_inner rel (fst kv) [] inner
        | Some (JObj o) => common_inner rel (fst kv) o inner
        | Some _ => ret tt
        end
    | _ => ret tt
    end).

(** The body of the [try] for the translation file [jf]. *)
Definition common_body (jf : path) : M unit :=
  do data <- read_json jf;
  let rel := as_posix jf in
  match data with
  | JObj members =>
      let ru_file := parent jf ++ [py "ru_RU.json"] in
      do ru_data <-
        (if exists_ extracted ru_file then read_json ru_file else ret (JObj []));
      common_members rel ru_data members
  | _ => ret tt
  end.

Definition scan_common : M unit :=
  when (is_dir extracted trans_root)
    (for_ (glob_suffix extracted trans_root (py ".json"))
       (fun jf =>
          if starts_with (py "ru") (name jf) then ret tt
          else try_pass (common_body jf))).

(** *** 4. The UI descriptors *)

(** The body of the [try] for the descriptor [uf]. *)
Definition ui_body (uf : path) : M unit :=
  do content <- lift (read_text extracted uf);
  let rel := as_posix uf in
  for_ (extract_ui_strings content) (fun ps =>
    let s := snd ps in
    do seen <- ui_seen (rel, s);
    when (truthy (strip s) && eligible s && negb seen)
      (add_seen_ui (rel, s) ;;
       append_row (make_row UiFile rel (str_of_nat (fst ps)) s None))).

Definition scan_ui : M unit :=
  for_ (rglob_suffix extracted (py ".ui"))
    (fun uf => if is_file extracted uf then try_pass (ui_body uf) else ret tt).

(** *** 5. The other JSON files *)

(** [JSON_TEXT_KEYS]. *)
Definition JSON_TEXT_KEYS : list str :=
  [ py "name"; py "description"; py "title"; py "text"; py "displayName";
    py "message"; py "lore"; py "display_name"; py "desc"; py "label";
    py "hint"; py "placeholder" ].

Definition is_text_key (k : pkey) : bool :=
  match k with
  | KStr s => existsb (str_eqb (lower lib s)) JSON_TEXT_KEYS
  | KInt _ => false
  end.

(** [_json_find_text_paths]. *)
Fixpoint _json_find_text_paths (obj : json) (path : list pkey)
    : list (list pkey * str) :=
  match obj with
  | JObj members =>
      (fix over (ms : list (pkey * json)) : list (list pkey * str) :=
         match ms with
         | [] => []
         | (k, v) :: ms' =>
             match v with
             | JStr s =>
                 if is_text_key k then [(path ++ [k], s)]
                 else _json_find_text_paths v (path ++ [k])
             | _ => _json_find_text_paths v (path ++ [k])
             end ++ over ms'
         end) members
  | JArr items =>
      (fix over (i : nat) (vs : list json) : list (list pkey * str) :=
         match vs with
         | [] => []
         | v :: vs' =>
             _json_find_text_paths v (path ++ [KInt (Z.of_nat i)]) ++ over (S i) vs'
         end) 0 items
  | _ => []
  end.

(** [s.lstrip(".")]. *)
Fixpoint lstrip_dots (s : str) : str :=
  match s with
  | c :: s' => if char_eqb c DOT then lstrip_dots s' else s
  | [] => []
  end.

(** [_path_to_key_str]. *)
Fixpoint path_parts (first : bool) (path : list pkey) : list str :=
  match path with
  | [] => []
  | KInt z :: rest => (py "[" ++ str_of_Z z ++ py "]") :: path_parts false rest
  | KStr s :: rest => (if first then s else py "." ++ s) :: path_parts false rest
  end.

Definition _path_to_key_str (path : list pkey) : str :=
  lstrip_dots (concat (path_parts true path)).

(** The body of the [try] for the JSON file [jf]. *)
Definition json_body (jf : path) : M unit :=
  do data <- read_json jf;
  let rel := as_posix jf in
  for_ (_json_find_text_paths data []) (fun pv =>
    when (truthy (strip (snd pv)) && eligible (snd pv))
      (append_row (make_row GenericJson rel (_path_to_key_str (fst pv)) (snd pv) None))).

Definition scan_json : M unit :=
  for_ (filter plain_json_file (rglob_suffix extracted (py ".json")))
    (fun jf => try_pass (json_body jf)).

(** *** The whole collection *)

Definition start : cstate := {| rows := []; lang_keys_seen := []; seen_ui := [] |}.

Definition collect : M unit :=
  scan_manifest [py "manifest.json"; py "pack.json"] ;;
  scan_lang ;;
  scan_server_keys ;;
  scan_common ;;
  scan_ui ;;
  scan_json.

(** [collect_all_strings(extracted_path)]: the catalogue, or [None] when an
    exception leaves the function. *)
Definition collect_all_strings : option (list row) :=
  match collect start with
  | (s, Some _) => Some (rows s)
  | (_, None) => None
  end.

End Passes.

(** *** Computations that do not raise *)

Definition total {A : Type} (m : M A) : Prop := forall s, snd (m s) <> None.

Lemma total_ret {A : Type} (x : A) : total (ret x).
Proof. intros s. discriminate. Qed.

Lemma total_bind {A B : Type} (m : M A) (f : A -> M B) :
  total m -> (forall x, total (f x)) -> total (mbind m f).
Proof.
  intros Hm Hf s. unfold mbind. specialize (Hm s).
  destruct (m s) as [s' [x|]]; [apply Hf|]. now simpl in Hm.
Qed.

Lemma total_try_pass (m : M unit) : total (try_pass m).
Proof. intros s. discriminate. Qed.

Lemma total_when (b : bool) (m : M unit) : total m -> total (when b m).
Proof. intros H. destruct b; [exact H|apply total_ret]. Qed.

Lemma total_for {A : Type} (items : list A) (body : A -> M unit) :
  (forall x, In x items -> total (body x)) -> total (for_ items body).
Proof.
  induction items as [|x items IH]; intros H; simpl; [apply total_ret|].
  apply total_bind; [apply H; now left|]. intros _. apply IH.
  intros y Hy. apply H. now right.
Qed.

(** *** What a computation appends *)

(** The state after a computation, whether it returned or raised. *)
Definition after {A : Type} (m : M A) (s : cstate) : cstate := fst (m s).

(** [m] takes a state of [I] to a state of [I']. *)
Definition step {A : Type} (I : cstate -> Prop) (m : M A) (I' : cstate -> Prop) : Prop :=
  forall s, I s -> I' (after m s).

Lemma step_ret {A : Type} (I : cstate -> Prop) (x : A) : step I (ret x) I.
Proof. intros s H. exact H. Qed.

Lemma step_lift {A : Type} (I : cstate -> Prop) (o : option A) : step I (lift o) I.
Proof. intros s H. destruct o; exact H. Qed.

Lemma step_bind {A B : Type} (I I1 I2 : cstate -> Prop) (m : M A) (f : A -> M B) :
  step I m I1 -> (forall x, step I1 (f x) I2) -> (forall s, I1 s -> I2 s) ->
  step I (mbind m f) I2.
Proof.
  intros Hm Hf Hw s H. specialize (Hm s H). unfold after, mbind in *.
  destruct (m s) as [s' [x|]]; simpl in *; [now apply Hf|now apply Hw].
Qed.

Lemma step_keep_bind {A B : Type} (I : cstate -> Prop) (m : M A) (f : A -> M B) :
  step I m I -> (forall x, step I (f x) I) -> step I (mbind m f) I.
Proof. intros Hm Hf. apply (step_bind I I I); auto. Qed.

Lemma step_try_pass (I I' : cstate -> Prop) (m : M unit) :
  step I m I' -> step I (try_pass m) I'.
Proof. intros H s Hs. apply (H s Hs). Qed.

Lemma step_when (I : cstate -> Prop) (b : bool) (m : M unit) :
  step I m I -> step I (when b m) I.
Proof. intros H. destruct b; [exact H|apply step_ret]. Qed.

Lemma step_for {A : Type} (I : cstate -> Prop) (items : list A) (body : A -> M unit) :
  (forall x, In x items -> step I (body x) I) -> step I (for_ items body) I.
Proof.
  induction items as [|x items IH]; intros H; simpl; [apply step_ret|].
  apply step_keep_bind; [apply H; now left|]. intros _. apply IH.
  intros y Hy. apply H. now right.
Qed.

(** The pairs [(file_rel, key)] and [(file_rel, source)] of the entries of
    one type, in the order of the catalogue. *)
Definition of_type (ty : source_type) (r : row) : bool :=
  source_type_eqb (r_type r) ty.

Definition key_pairs (ty : source_type) (rs : list row) : list (str * str) :=
  map (fun r => (r_file_rel r, r_key r)) (filter (of_type ty) rs).

Definition source_pairs (ty : source_type) (rs : list row) : list (str * str) :=
  map (fun r => (r_file_rel r, r_source r)) (filter (of_type ty) rs).

(** The pairs of type [ty] are distinct and all in [allowed]. *)
Definition within (ty : source_type) (allowed : list (str * str)) (s : cstate) : Prop :=
  NoDup (key_pairs ty (rows s)) /\ incl (key_pairs ty (rows s)) allowed.

Lemma key_pairs_snoc (ty : source_type) (rs : list row) (r : row) :
  key_pairs ty (rs ++ [r])
  = key_pairs ty rs ++ (if of_type ty r then [(r_file_rel r, r_key r)] else []).
Proof.
  unfold key_pairs. rewrite filter_app, map_app. simpl.
  now destruct (of_type ty r).
Qed.

Lemma source_pairs_snoc (ty : source_type) (rs : list row) (r : row) :
  source_pairs ty (rs ++ [r])
  = source_pairs ty rs ++ (if of_type ty r then [(r_file_rel r, r_source r)] else []).
Proof.
  unfold source_pairs. rewrite filter_app, map_app. simpl.
  now destruct (of_type ty r).
Qed.

Lemma within_mono (ty : source_type) (a b : list (str * str)) (s : cstate) :
  incl a b -> within ty a s -> within ty b s.
Proof. intros Hab [H1 H2]. split; auto. eapply incl_tran; eauto. Qed.

Lemma within_append (ty : source_type) (allowed : list (str * str)) (r : row) :
  of_type ty r = true -> ~ In (r_file_rel r, r_key r) allowed ->
  step (within ty allowed) (append_row r)
       (within ty (allowed ++ [(r_file_rel r, r_key r)])).
Proof.
  intros Hty Hnew s [Hnd Hin]. unfold after, append_row, within. simpl.
  rewrite key_pairs_snoc, Hty. split.
  - apply NoDup_app; [exact Hnd|repeat constructor; auto|].
    intros x Hx [Hx'|[]]. subst x. apply Hnew. now apply Hin.
  - apply incl_app; [now apply incl_appl|apply incl_appr, incl_refl].
Qed.

Lemma within_append_other (ty : source_type) (allowed : list (str * str)) (r : row) :
  of_type ty r = false -> step (within ty allowed) (append_row r) (within ty allowed).
Proof.
  intros Hty s [Hnd Hin]. unfold after, append_row, within. simpl.
  now rewrite key_pairs_snoc, Hty, app_nil_r.
Qed.

(** A computation that leaves the rows as they are. *)
Definition silent {A : Type} (m : M A) : Prop := forall s, rows (after m s) = rows s.

Lemma within_silent {A : Type} (ty : source_type) (allowed : list (str * str)) (m : M A) :
  silent m -> step (within ty allowed) m (within ty allowed).
Proof. intros H s Hs. unfold within. now rewrite (H s). Qed.

Lemma silent_add_lang_key (x : str * str) : silent (add_lang_key x).
Proof. intros s. reflexivity. Qed.

Lemma silent_add_seen_ui (x : str * str) : silent (add_seen_ui x).
Proof. intros s. reflexivity. Qed.

Lemma silent_lang_key_seen (x : str * str) : silent (lang_key_seen x).
Proof. intros s. reflexivity. Qed.

Lemma silent_ui_seen (x : str * str) : silent (ui_seen x).
Proof. intros s. reflexivity. Qed.

Lemma silent_lift {A : Type} (o : option A) : silent (lift o).
Proof. intros s. now destruct o. Qed.

Lemma silent_ret {A : Type} (x : A) : silent (ret x).
Proof. intros s. reflexivity. Qed.

Lemma silent_bind {A B : Type} (m : M A) (f : A -> M B) :
  silent m -> (forall x, silent (f x)) -> silent (mbind m f).
Proof.
  intros Hm Hf s. specialize (Hm s). unfold after, mbind in *.
  destruct (m s) as [s' [x|]]; simpl in *; auto.
  rewrite <- Hm. apply (Hf x s').
Qed.

(** [m] appends rows of [P] only. *)
Definition appends {A : Type} (P : row -> Prop) (m : M A) : Prop :=
  forall s, exists new, rows (after m s) = rows s ++ new /\ Forall P new.

Lemma appends_silent {A : Type} (P : row -> Prop) (m : M A) : silent m -> appends P m.
Proof. intros H s. exists []. rewrite (H s), app_nil_r. auto. Qed.

Lemma appends_ret {A : Type} (P : row -> Prop) (x : A) : appends P (ret x).
Proof. apply appends_silent, silent_ret. Qed.

Lemma appends_lift {A : Type} (P : row -> Prop) (o : option A) : appends P (lift o).
Proof. apply appends_silent, silent_lift. Qed.

Lemma appends_bind {A B : Type} (P : row -> Prop) (m : M A) (f : A -> M B) :
  appends P m -> (forall x, appends P (f x)) -> appends P (mbind m f).
Proof.
  intros Hm Hf s. destruct (Hm s) as (n1 & E1 & H1). unfold after, mbind in *.
  destruct (m s) as [s' [x|]]; simpl in *.
  - destruct (Hf x s') as (n2 & E2 & H2). exists (n1 ++ n2).
    unfold after in E2. rewrite E2, E1, app_assoc. split; auto.
    apply Forall_app; auto.
  - exists n1. auto.
Qed.

Lemma appends_try_pass (P : row -> Prop) (m : M unit) :
  appends P m -> appends P (try_pass m).
Proof. intros H s. apply (H s). Qed.

Lemma appends_when (P : row -> Prop) (b : bool) (m : M unit) :
  appends P m -> appends P (when b m).
Proof. intros H. destruct b; [exact H|apply appends_ret]. Qed.

Lemma appends_for {A : Type} (P : row -> Prop) (items : list A) (body : A -> M unit) :
  (forall x, appends P (body x)) -> appends P (for_ items body).
Proof.
  intros H. induction items as [|x items IH]; simpl; [apply appends_ret|].
  apply appends_bind; auto.
Qed.

Lemma appends_append_row (P : row -> Prop) (r : row) : P r -> appends P (append_row r).
Proof. intros H s. exists [r]. split; [reflexivity|]. now constructor. Qed.

Definition has_type (ty : source_type) (r : row) : Prop := r_type r = ty.

Lemma key_pairs_other (ty ty' : source_type) (rs new : list row) :
  ty <> ty' -> Forall (has_type ty') new -> key_pairs ty (rs ++ new) = key_pairs ty rs.
Proof.
  intros Hne H. unfold key_pairs. rewrite filter_app, map_app.
  replace (filter (of_type ty) new) with (@nil row); [now rewrite app_nil_r|].
  induction H as [|r new Hr _ IH]; simpl; auto.
  unfold of_type at 1. rewrite Hr.
  destruct ty, ty'; simpl; auto; congruence.
Qed.

Lemma source_pairs_other (ty ty' : source_type) (rs new : list row) :
  ty <> ty' -> Forall (has_type ty') new -> source_pairs ty (rs ++ new) = source_pairs ty rs.
Proof.
  intros Hne H. unfold source_pairs. rewrite filter_app, map_app.
  replace (filter (of_type ty) new) with (@nil row); [now rewrite app_nil_r|].
  induction H as [|r new Hr _ IH]; simpl; auto.
  unfold of_type at 1. rewrite Hr.
  destruct ty, ty'; simpl; auto; congruence.
Qed.

Section PassTypes.

Variable lib : pylib.
Variable base_parts : list str.
Variable extracted : node.

Ltac appends_step :=
  lazymatch goal with
  | |- appends _ (ret _) => apply appends_ret
  | |- appends _ (lift _) => apply appends_lift
  | |- appends _ (try_pass _) => apply appends_try_pass
  | |- appends _ (when _ _) => apply appends_when
  | |- appends _ (for_ _ _) => apply appends_for; intro
  | |- appends _ (mbind _ _) => apply appends_bind; [|intro]
  | |- appends _ (append_row _) => apply appends_append_row; exact eq_refl
  | |- appends _ (add_lang_key _) => apply appends_silent, silent_add_lang_key
  | |- appends _ (add_seen_ui _) => apply appends_silent, silent_add_seen_ui
  | |- appends _ (lang_key_seen _) => apply appends_silent, silent_lang_key_seen
  | |- appends _ (ui_seen _) => apply appends_silent, silent_ui_seen
  end.

Ltac appends_tac := repeat appends_step.

Lemma appends_read_json (P : row -> Prop) (p : path) : appends P (read_json lib extracted p).
Proof. unfold read_json. appends_tac. Qed.

Lemma appends_manifest_field (rel key : str) (v : option json) :
  appends (has_type Manifest) (manifest_field lib rel key v).
Proof.
  unfold manifest_field. apply appends_bind; [apply appends_lift|intros c].
  destruct c; [apply appends_append_row; exact eq_refl|apply appends_ret].
Qed.

Lemma appends_scan_manifest (names : list str) :
  appends (has_type Manifest) (scan_manifest lib extracted names).
Proof.
  induction names as [|n names IH]; simpl; [apply appends_ret|].
  destruct (is_file extracted [n]); [|exact IH].
  apply appends_try_pass. unfold manifest_body.
  apply appends_bind; [apply appends_read_json|intros data].
  apply appends_bind; [apply appends_lift|intros nm].
  apply appends_bind; [apply appends_manifest_field|intros _].
  apply appends_bind; [apply appends_lift|intros ds].
  apply appends_bind; [apply appends_manifest_field|intros _].
  apply appends_bind; [apply appends_lift|intros au].
  apply appends_bind; [apply appends_lift|intros items].
  generalize 0 as i. induction items as [|a items IHi]; intros i; simpl.
  - apply appends_ret.
  - apply appends_bind; [|intros _; apply IHi].
    destruct a; try apply appends_ret. apply appends_manifest_field.
Qed.

Lemma appends_read_ru_files (P : row -> Prop) (files : list path) :
  forall acc, appends P (read_ru_files extracted files acc).
Proof.
  induction files as [|lf files IH]; intros acc; simpl; [apply appends_ret|].
  apply appends_bind; [apply appends_lift|intros text; apply IH].
Qed.

Lemma appends_read_en_files (P : row -> Prop) (files : list path) :
  forall acc, appends P (read_en_files extracted files acc).
Proof.
  induction files as [|lf files IH]; intros acc; simpl; [apply appends_ret|].
  apply appends_bind; [apply appends_lift|intros text; apply IH].
Qed.

Lemma appends_ru_value (P : row -> Prop) (key : str) (files : list path) :
  forall v, appends P (ru_value lib extracted key files v).
Proof.
  induction files as [|lf files IH]; intros v; simpl; [apply appends_ret|].
  apply appends_bind; [apply appends_lift|intros text; apply IH].
Qed.

Lemma appends_scan_lang : appends (has_type LangFile) (scan_lang lib extracted).
Proof.
  unfold scan_lang. apply appends_when. apply appends_bind.
  - destruct (is_dir extracted ru_dir); [apply appends_read_ru_files|apply appends_ret].
  - intros ru. destruct (locale_dir extracted); [|apply appends_ret].
    unfold lang_file_body. appends_tac.
Qed.

Lemma appends_scan_server_keys :
  appends (has_type LangFile) (scan_server_keys lib base_parts extracted).
Proof.
  unfold scan_server_keys. apply appends_when.
  destruct (locale_dir extracted) as [loc|]; [|apply appends_ret].
  apply appends_bind; [apply appends_read_en_files|intros en].
  destruct (glob_suffix extracted loc (py ".lang")); [apply appends_ret|].
  apply appends_when. apply appends_for. intros jf. apply appends_try_pass.
  apply appends_bind; [apply appends_read_json|intros data].
  apply appends_for. intros key. unfold server_key_body.
  apply appends_bind; [appends_tac|intros seen].
  apply appends_when. apply appends_bind; [appends_tac|intros _].
  apply appends_bind; [|intros v; appends_tac].
  destruct (exists_ extracted ru_dir); [apply appends_ru_value|apply appends_ret].
Qed.

Lemma appends_scan_common : appends (has_type CommonJson) (scan_common lib extracted).
Proof.
  unfold scan_common. apply appends_when. apply appends_for. intros jf.
  destruct (starts_with (py "ru") (name jf)); [apply appends_ret|].
  apply appends_try_pass. unfold common_body.
  apply appends_bind; [apply appends_read_json|intros data].
  destruct data; try apply appends_ret.
  apply appends_bind.
  { destruct (exists_ extracted (parent jf ++ [py "ru_RU.json"]));
      [apply appends_read_json|apply appends_ret]. }
  intros ru_data. unfold common_members. apply appends_for. intros kv.
  destruct (snd kv); try apply appends_ret.
  - destruct (eligible lib s); appends_tac.
  - apply appends_bind; [apply appends_lift|intros ru_inner].
    unfold common_inner.
    destruct ru_inner as [[]|]; try apply appends_ret;
      apply appends_for; intros kv2; destruct (snd kv2); appends_tac.
Qed.

Lemma appends_scan_ui : appends (has_type UiFile) (scan_ui lib extracted).
Proof.
  unfold scan_ui. apply appends_for. intros uf.
  destruct (is_file extracted uf); [|apply appends_ret].
  unfold ui_body. appends_tac.
Qed.

Lemma appends_scan_json :
  appends (has_type GenericJson) (scan_json lib base_parts extracted).
Proof.
  unfold scan_json. apply appends_for. intros jf. apply appends_try_pass.
  unfold json_body.
  apply appends_bind; [apply appends_read_json|intros data]. appends_tac.
Qed.

End PassTypes.

(** *** The keys of the manifest *)

Lemma author_key_inj (i j : nat) : author_key i = author_key j -> i = j.
Proof.
  unfold author_key. intros H. apply app_inv_head in H.
  apply app_inv_tail in H. now apply str_of_nat_inj.
Qed.

Lemma author_key_not_name (i : nat) : author_key i <> py "Name".
Proof. unfold author_key. intros H. inversion H. Qed.

Lemma author_key_not_description (i : nat) : author_key i <> py "Description".
Proof. unfold author_key. intros H. inversion H. Qed.

Definition unique (ty : source_type) (s : cstate) : Prop :=
  NoDup (key_pairs ty (rows s)).

Lemma within_unique (ty : source_type) (allowed : list (str * str)) (s : cstate) :
  within ty allowed s -> unique ty s.
Proof. now intros [H _]. Qed.

Lemma step_ret_mono {A : Type} (ty : source_type) (a b : list (str * str)) (x : A) :
  incl a b -> step (within ty a) (ret x) (within ty b).
Proof. intros H s Hs. now apply (within_mono ty a b). Qed.

Section ManifestKeys.

Variable lib : pylib.
Variable extracted : node.

Lemma manifest_field_step (rel key : str) (v : option json) (allowed : list (str * str)) :
  ~ In (rel, key) allowed ->
  step (within Manifest allowed) (manifest_field lib rel key v)
       (within Manifest (allowed ++ [(rel, key)])).
Proof.
  intros Hnew. unfold manifest_field.
  apply (step_bind _ (within Manifest allowed)).
  - apply step_lift.
  - intros [s|].
    + apply (within_append Manifest allowed (make_row Manifest rel key s None));
        [reflexivity|exact Hnew].
    + apply step_ret_mono. apply incl_appl, incl_refl.
  - intros s. apply within_mono. apply incl_appl, incl_refl.
Qed.

Lemma manifest_authors_step (rel : str) (items : list json) :
  forall i allowed,
    (forall j, i <= j -> ~ In (rel, author_key j) allowed) ->
    step (within Manifest allowed) (manifest_authors lib rel i items)
         (unique Manifest).
Proof.
  induction items as [|a items IH]; intros i allowed Hfree; simpl.
  - intros s. apply within_unique.
  - apply (step_bind _ (within Manifest (allowed ++ [(rel, author_key i)]))).
    + destruct a; try (apply step_ret_mono; apply incl_appl, incl_refl).
      apply manifest_field_step. apply Hfree. lia.
    + intros _. apply IH. intros j Hj Hin. apply in_app_or in Hin.
      destruct Hin as [Hin|[E|[]]].
      * apply (Hfree j); [lia|exact Hin].
      * apply (f_equal snd) in E. simpl in E. apply author_key_inj in E. lia.
    + intros s. apply within_unique.
Qed.

Lemma manifest_body_step (f : path) :
  step (within Manifest []) (manifest_body lib extracted f) (unique Manifest).
Proof.
  unfold manifest_body. set (rel := as_posix f).
  apply (step_bind _ (within Manifest []));
    [apply within_silent; unfold read_json;
     apply silent_bind; [apply silent_lift|intros; apply silent_lift]
    | intros data | intros s; apply within_unique].
  apply (step_bind _ (within Manifest []));
    [apply step_lift | intros nm | intros s; apply within_unique].
  apply (step_bind _ (within Manifest ([] ++ [(rel, py "Name")])));
    [apply manifest_field_step; intros [] | intros _ | intros s; apply within_unique].
  apply (step_bind _ (within Manifest ([] ++ [(rel, py "Name")])));
    [apply step_lift | intros ds | intros s; apply within_unique].
  apply (step_bind _ (within Manifest
                        (([] ++ [(rel, py "Name")]) ++ [(rel, py "Description")])));
    [apply manifest_field_step; intros [E|[]]; inversion E
    | intros _ | intros s; apply within_unique].
  apply (step_bind _ (within Manifest
                        (([] ++ [(rel, py "Name")]) ++ [(rel, py "Description")])));
    [apply step_lift | intros au | intros s; apply within_unique].
  apply (step_bind _ (within Manifest
                        (([] ++ [(rel, py "Name")]) ++ [(rel, py "Description")])));
    [apply step_lift | intros items | intros s; apply within_unique].
  apply manifest_authors_step.
  intros j _ [E|[E|[]]]; apply (f_equal snd) in E; simpl in E; symmetry in E.
  - now apply (author_key_not_name j).
  - now apply (author_key_not_description j).
Qed.

Lemma scan_manifest_step (names : list str) :
  step (within Manifest []) (scan_manifest lib extracted names) (unique Manifest).
Proof.
  induction names as [|n names IH]; simpl.
  - intros s. apply within_unique.
  - destruct (is_file extracted [n]); [|exact IH].
    apply step_try_pass. apply manifest_body_step.
Qed.

End ManifestKeys.

(** *** Loops over the keys of a file, and over files *)

(** A loop whose turn for [a] appends at most one entry, of key [key_of a]
    in the file [rel]. *)
Lemma for_keys_step {A : Type} (ty : source_type) (rel : str) (key_of : A -> str)
    (body : A -> M unit) (items : list A) :
  (forall a allowed,
      ~ In (rel, key_of a) allowed ->
      step (within ty allowed) (body a) (within ty (allowed ++ [(rel, key_of a)]))) ->
  NoDup (map key_of items) ->
  forall allowed,
    (forall a, In a items -> ~ In (rel, key_of a) allowed) ->
    step (within ty allowed) (for_ items body)
         (within ty (allowed ++ map (fun a => (rel, key_of a)) items)).
Proof.
  intros Hbody. induction items as [|a items IH]; intros Hnd allowed Hfree; simpl.
  - apply step_ret_mono. apply incl_appl, incl_refl.
  - inversion Hnd; subst.
    apply (step_bind _ (within ty (allowed ++ [(rel, key_of a)]))).
    + apply Hbody. apply Hfree. now left.
    + intros _.
      replace (allowed ++ (rel, key_of a) :: map (fun a0 => (rel, key_of a0)) items)
        with ((allowed ++ [(rel, key_of a)]) ++ map (fun a0 => (rel, key_of a0)) items)
        by (now rewrite <- app_assoc).
      apply IH; auto. intros b Hb Hin. apply in_app_or in Hin.
      destruct Hin as [Hin|[E|[]]].
      * apply (Hfree b); [now right|exact Hin].
      * apply (f_equal snd) in E. simpl in E. apply H1.
        rewrite E. now apply in_map.
    + intros s. apply within_mono. apply incl_app; [apply incl_appl, incl_refl|].
      apply incl_appr. intros x [<-|[]]. now left.
Qed.

(** A loop over files whose turn for [f] appends entries of the file
    [as_posix f] only, with distinct keys. *)
Lemma for_files_step (ty : source_type) (pairs_of : path -> list (str * str))
    (body : path -> M unit) (files : list path) :
  (forall f x, In x (pairs_of f) -> fst x = as_posix f) ->
  (forall f allowed,
      (forall k, ~ In (as_posix f, k) allowed) ->
      step (within ty allowed) (body f) (within ty (allowed ++ pairs_of f))) ->
  NoDup (map as_posix files) ->
  forall allowed,
    (forall f k, In f files -> ~ In (as_posix f, k) allowed) ->
    step (within ty allowed) (for_ files body) (unique ty).
Proof.
  intros Hrel Hbody. induction files as [|f files IH]; intros Hnd allowed Hfree; simpl.
  - intros s. apply within_unique.
  - inversion Hnd; subst.
    apply (step_bind _ (within ty (allowed ++ pairs_of f))).
    + apply Hbody. intros k. apply Hfree. now left.
    + intros _. apply IH; auto. intros g k Hg Hin. apply in_app_or in Hin.
      destruct Hin as [Hin|Hin].
      * apply (Hfree g k); [now right|exact Hin].
      * apply Hrel in Hin. simpl in Hin. apply H1. rewrite <- Hin.
        now apply in_map.
    + intros s. apply within_unique.
Qed.

(** *** Computations that leave the state as it is *)

Definition quiet {A : Type} (m : M A) : Prop := forall s, after m s = s.

Lemma quiet_ret {A : Type} (x : A) : quiet (ret x).
Proof. intros s. reflexivity. Qed.

Lemma quiet_lift {A : Type} (o : option A) : quiet (lift o).
Proof. intros s. now destruct o. Qed.

Lemma quiet_bind {A B : Type} (m : M A) (f : A -> M B) :
  quiet m -> (forall x, quiet (f x)) -> quiet (mbind m f).
Proof.
  intros Hm Hf s. specialize (Hm s). unfold after, mbind in *.
  destruct (m s) as [s' [x|]]; simpl in *; subst; auto. apply (Hf x s).
Qed.

Lemma step_quiet {A : Type} (I : cstate -> Prop) (m : M A) : quiet m -> step I m I.
Proof. intros H s Hs. now rewrite (H s). Qed.

Lemma quiet_lang_key_seen (x : str * str) : quiet (lang_key_seen x).
Proof. intros s. reflexivity. Qed.

Lemma quiet_ui_seen (x : str * str) : quiet (ui_seen x).
Proof. intros s. reflexivity. Qed.

Section Quiet.

Variable lib : pylib.
Variable extracted : node.

Lemma quiet_read_json (p : path) : quiet (read_json lib extracted p).
Proof.
  unfold read_json. apply quiet_bind; [apply quiet_lift|intros; apply quiet_lift].
Qed.

Lemma quiet_read_ru_files (files : list path) :
  forall acc, quiet (read_ru_files extracted files acc).
Proof.
  induction files as [|lf files IH]; intros acc; simpl; [apply quiet_ret|].
  apply quiet_bind; [apply quiet_lift|intros; apply IH].
Qed.

Lemma quiet_read_en_files (files : list path) :
  forall acc, quiet (read_en_files extracted files acc).
Proof.
  induction files as [|lf files IH]; intros acc; simpl; [apply quiet_ret|].
  apply quiet_bind; [apply quiet_lift|intros; apply IH].
Qed.

Lemma quiet_ru_value (key : str) (files : list path) :
  forall v, quiet (ru_value lib extracted key files v).
Proof.
  induction files as [|lf files IH]; intros v; simpl; [apply quiet_ret|].
  apply quiet_bind; [apply quiet_lift|intros; apply IH].
Qed.

End Quiet.

Lemma step_lift_some {A B : Type} (I I' : cstate -> Prop) (x : A) (f : A -> M B) :
  step I (f x) I' -> step I (mbind (lift (Some x)) f) I'.
Proof. intros H s Hs. exact (H s Hs). Qed.

Lemma step_lift_none {A B : Type} (I I' : cstate -> Prop) (f : A -> M B) :
  (forall s, I s -> I' s) -> step I (mbind (lift None) f) I'.
Proof. intros H s Hs. exact (H s Hs). Qed.

(** *** The keys of the locale files *)

Section LangKeys.

Variable lib : pylib.
Variable base_parts : list str.
Variable extracted : node.

(** The pairs that the turn for the locale file [lf] may append. *)
Definition lang_file_pairs (lf : path) : list (str * str) :=
  match read_text extracted lf with
  | Some text => map (fun kv : str * str => (as_posix lf, fst kv)) (parse_lang_content text)
  | None => []
  end.

Lemma lang_file_step (ru : Dict.dict (Dict.dict str)) (lf : path)
    (allowed : list (str * str)) :
  (forall k, ~ In (as_posix lf, k) allowed) ->
  step (within LangFile allowed) (try_pass (lang_file_body lib extracted ru lf))
       (within LangFile (allowed ++ lang_file_pairs lf)).
Proof.
  intros Hfree. apply step_try_pass. unfold lang_file_body, lang_file_pairs.
  destruct (read_text extracted lf) as [text|].
  - apply step_lift_some.
    apply (for_keys_step LangFile (as_posix lf) (fun kv : str * str => fst kv)).
    + intros [k v] al Hnew. cbn [fst snd] in *. unfold when.
      destruct (eligible lib v).
      * apply (step_bind _ (within LangFile al)).
        -- apply within_silent, silent_add_lang_key.
        -- intros _.
           apply (within_append LangFile al
                    (make_row LangFile (as_posix lf) k v _)); [reflexivity|exact Hnew].
        -- intros s0. apply within_mono. apply incl_appl, incl_refl.
      * apply step_ret_mono. apply incl_appl, incl_refl.
    + apply (proj2 (parse_lang_content_well_formed text)).
    + intros a _. apply Hfree.
  - apply step_lift_none. intros s. now rewrite app_nil_r.
Qed.

Lemma scan_lang_step :
  wf_tree extracted = true ->
  step (within LangFile []) (scan_lang lib extracted) (unique LangFile).
Proof.
  intros Hwf. unfold scan_lang, when.
  destruct (is_dir extracted lang_root); [|intros s; apply within_unique].
  apply (step_bind _ (within LangFile []));
    [ | intros ru | intros s; apply within_unique].
  - apply within_silent.
    destruct (is_dir extracted ru_dir); [|apply silent_ret].
    intros s. now rewrite (quiet_read_ru_files extracted _ _ s).
  - destruct (locale_dir extracted) as [loc|]; [|intros s; apply within_unique].
    apply (for_files_step LangFile lang_file_pairs).
    + intros f x Hx. unfold lang_file_pairs in Hx.
      destruct (read_text extracted f); [|contradiction].
      apply in_map_iff in Hx. destruct Hx as (kv & <- & _). reflexivity.
    + intros f al Hfree. now apply lang_file_step.
    + now apply glob_suffix_distinct.
    + intros f k _ [].
Qed.

(** Every pair of a locale entry is in the set of the keys seen. *)
Definition seen_ok (s : cstate) : Prop :=
  forall x, In x (key_pairs LangFile (rows s)) -> pair_in x (lang_keys_seen s) = true.

Lemma pair_eqb_refl (x : str * str) : pair_eqb x x = true.
Proof.
  unfold pair_eqb. apply andb_true_iff. split; now apply str_eqb_eq.
Qed.

Lemma pair_in_In (x : str * str) (l : list (str * str)) :
  pair_in x l = true <-> In x l.
Proof.
  unfold pair_in. rewrite existsb_exists. split.
  - intros (y & Hy & E). unfold pair_eqb in E. apply andb_true_iff in E.
    destruct E as [E1 E2]. apply str_eqb_eq in E1, E2.
    destruct x, y; simpl in *; subst. exact Hy.
  - intros H. exists x. split; [exact H|apply pair_eqb_refl].
Qed.

Lemma seen_add_append (x : str * str) (r : row) :
  (r_file_rel r, r_key r) = x ->
  step seen_ok (add_lang_key x ;; append_row r) seen_ok.
Proof.
  intros Hx s Hs y Hy. unfold after, mbind, add_lang_key, append_row in *.
  simpl in *. rewrite key_pairs_snoc in Hy. apply in_app_or in Hy.
  assert (G : forall z, pair_in z (lang_keys_seen s) = true \/ z = x ->
              pair_in z (if pair_in x (lang_keys_seen s) then lang_keys_seen s
                         else lang_keys_seen s ++ [x]) = true).
  { intros z Hz. destruct (pair_in x (lang_keys_seen s)) eqn:E.
    - destruct Hz as [Hz| ->]; auto.
    - apply pair_in_In. apply in_or_app. destruct Hz as [Hz| ->].
      + left. now apply pair_in_In.
      + right. now left. }
  apply G. destruct Hy as [Hy|Hy]; [left; now apply Hs|right].
  destruct (of_type LangFile r); [|contradiction].
  destruct Hy as [<-|[]]. exact Hx.
Qed.

Lemma scan_lang_seen : step seen_ok (scan_lang lib extracted) seen_ok.
Proof.
  unfold scan_lang. apply step_when. apply step_keep_bind.
  - apply step_quiet. destruct (is_dir extracted ru_dir);
      [apply quiet_read_ru_files|apply quiet_ret].
  - intros ru. destruct (locale_dir extracted) as [loc|]; [|apply step_ret].
    apply step_for. intros lf _. apply step_try_pass. unfold lang_file_body.
    apply step_keep_bind; [apply step_lift|]. intros text.
    apply step_for. intros [k v] _. apply step_when.
    now apply seen_add_append.
Qed.

(** The invariant of the pass over the keys [server.xxx]. *)
Definition lang_ok (s : cstate) : Prop := unique LangFile s /\ seen_ok s.

Lemma server_key_new (x : str * str) (c : bool) (look : M (option str))
    (mk : option str -> row) :
  (forall v, (r_file_rel (mk v), r_key (mk v)) = x) ->
  (forall v, of_type LangFile (mk v) = true) ->
  quiet look ->
  forall s, lang_ok s -> pair_in x (lang_keys_seen s) = false ->
    lang_ok (after (add_lang_key x ;; (do v <- look; when c (append_row (mk v)))) s).
Proof.
  intros Hx Hty Hq s [Hu Hs] E.
  set (s1 := {| rows := rows s; lang_keys_seen := lang_keys_seen s ++ [x];
                seen_ui := seen_ui s |}).
  assert (E1 : after (add_lang_key x ;; (do v <- look; when c (append_row (mk v)))) s
               = after (do v <- look; when c (append_row (mk v))) s1).
  { unfold after, mbind at 1, add_lang_key. cbv beta iota. now rewrite E. }
  rewrite E1. clear E1.
  assert (Hfresh : ~ In x (key_pairs LangFile (rows s))).
  { intros H. apply Hs in H. congruence. }
  assert (H1 : lang_ok s1).
  { split; [exact Hu|]. intros y Hy. apply pair_in_In. apply in_or_app. left.
    apply pair_in_In. now apply Hs. }
  specialize (Hq s1). unfold after, mbind in *.
  destruct (look s1) as [s2 [v|]]; simpl in Hq; subst s2; [|exact H1].
  destruct c; [|exact H1]. unfold when, append_row. simpl.
  split.
  - unfold unique. simpl. rewrite key_pairs_snoc, Hty, Hx.
    apply NoDup_app; [exact Hu|repeat constructor; auto|].
    intros y Hy [<-|[]]. now apply Hfresh.
  - intros y Hy. simpl in *. rewrite key_pairs_snoc, Hty, Hx in Hy.
    apply pair_in_In. apply in_or_app. apply in_app_or in Hy.
    destruct Hy as [Hy|Hy]; [left|now right].
    apply pair_in_In. now apply Hs.
Qed.

Lemma server_key_body_step (rel : str) (en : Dict.dict str) (key : str) :
  step lang_ok (server_key_body lib extracted rel en key) lang_ok.
Proof.
  intros s Hs. unfold server_key_body.
  unfold after, mbind at 1, lang_key_seen. cbv beta iota.
  destruct (pair_in (rel, key) (lang_keys_seen s)) eqn:E; [exact Hs|].
  cbn [negb when]. cbv zeta.
  apply (server_key_new (rel, key) _ _
           (fun v => make_row LangFile rel key _ (option_map JStr v))); auto.
  destruct (exists_ extracted ru_dir); [apply quiet_ru_value|apply quiet_ret].
Qed.

Lemma scan_server_keys_step :
  step lang_ok (scan_server_keys lib base_parts extracted) lang_ok.
Proof.
  unfold scan_server_keys. apply step_when.
  destruct (locale_dir extracted) as [loc|]; [|apply step_ret].
  cbv zeta. apply step_keep_bind; [apply step_quiet, quiet_read_en_files|intros en].
  destruct (glob_suffix extracted loc (py ".lang")) as [|lf files]; [apply step_ret|].
  apply step_when. apply step_for. intros jf _. apply step_try_pass.
  apply step_keep_bind; [apply step_quiet, quiet_read_json|intros data].
  apply step_for. intros key _. apply server_key_body_step.
Qed.

End LangKeys.

(** *** The keys and the sources of the UI descriptors *)

Section UiKeys.

Variable lib : pylib.
Variable extracted : node.

(** The pairs that the turn for the descriptor [uf] may append. *)
Definition ui_file_pairs (uf : path) : list (str * str) :=
  match read_text extracted uf with
  | Some content =>
      map (fun ps : nat * str => (as_posix uf, str_of_nat (fst ps)))
        (extract_ui_strings content)
  | None => []
  end.

Lemma ui_file_step (uf : path) (allowed : list (str * str)) :
  (forall k, ~ In (as_posix uf, k) allowed) ->
  step (within UiFile allowed)
       (if is_file extracted uf then try_pass (ui_body lib extracted uf) else ret tt)
       (within UiFile (allowed ++ ui_file_pairs uf)).
Proof.
  intros Hfree.
  destruct (is_file extracted uf); [|apply step_ret_mono; apply incl_appl, incl_refl].
  apply step_try_pass. unfold ui_body, ui_file_pairs.
  destruct (read_text extracted uf) as [content|].
  - apply step_lift_some.
    apply (for_keys_step UiFile (as_posix uf) (fun ps : nat * str => str_of_nat (fst ps))).
    + intros [pos s] al Hnew. cbn [fst snd] in *.
      apply (step_bind _ (within UiFile al)).
      * apply within_silent, silent_ui_seen.
      * intros seen. unfold when.
        destruct (truthy (strip s) && eligible lib s && negb seen).
        -- apply (step_bind _ (within UiFile al)).
           ++ apply within_silent, silent_add_seen_ui.
           ++ intros _.
              apply (within_append UiFile al
                       (make_row UiFile (as_posix uf) (str_of_nat pos) s None));
                [reflexivity|exact Hnew].
           ++ intros s0. apply within_mono. apply incl_appl, incl_refl.
        -- apply step_ret_mono. apply incl_appl, incl_refl.
      * intros s0. apply within_mono. apply incl_appl, incl_refl.
    + rewrite <- (map_map fst str_of_nat).
      apply NoDup_map_inj; [intros a b _ _; apply str_of_nat_inj|].
      apply extract_from_distinct.
    + intros a _. apply Hfree.
  - apply step_lift_none. intros s. now rewrite app_nil_r.
Qed.

Lemma scan_ui_step :
  wf_tree extracted = true ->
  step (within UiFile []) (scan_ui lib extracted) (unique UiFile).
Proof.
  intros Hwf. unfold scan_ui.
  apply (for_files_step UiFile ui_file_pairs).
  - intros f x Hx. unfold ui_file_pairs in Hx.
    destruct (read_text extracted f); [|contradiction].
    apply in_map_iff in Hx. destruct Hx as (ps & <- & _). reflexivity.
  - intros f al Hfree. now apply ui_file_step.
  - now apply rglob_suffix_distinct.
  - intros f k _ [].
Qed.

(** The sources of the UI entries are distinct in each file, and every one
    is in the set of the sources seen. *)
Definition ui_ok (s : cstate) : Prop :=
  NoDup (source_pairs UiFile (rows s))
  /\ forall x, In x (source_pairs UiFile (rows s)) -> pair_in x (seen_ui s) = true.

Lemma ui_new (x : str * str) (r : row) :
  (r_file_rel r, r_source r) = x -> of_type UiFile r = true ->
  forall s, ui_ok s -> pair_in x (seen_ui s) = false ->
    ui_ok (after (add_seen_ui x ;; append_row r) s).
Proof.
  intros Hx Hty s [Hn Ho] E.
  assert (Hfresh : ~ In x (source_pairs UiFile (rows s))).
  { intros H. apply Ho in H. congruence. }
  unfold after, mbind, add_seen_ui, append_row. cbv beta iota. rewrite E.
  unfold ui_ok. cbn [fst rows seen_ui].
  rewrite source_pairs_snoc, Hty, Hx. split.
  - apply NoDup_app; [exact Hn|repeat constructor; auto|].
    intros y Hy [<-|[]]. now apply Hfresh.
  - intros y Hy. apply pair_in_In. apply in_or_app. apply in_app_or in Hy.
    destruct Hy as [Hy|Hy]; [left|now right].
    apply pair_in_In. now apply Ho.
Qed.

Lemma scan_ui_sources : step ui_ok (scan_ui lib extracted) ui_ok.
Proof.
  unfold scan_ui. apply step_for. intros uf _.
  destruct (is_file extracted uf); [|apply step_ret].
  apply step_try_pass. unfold ui_body.
  apply step_keep_bind; [apply step_lift|intros content].
  apply step_for. intros [pos src] _. cbn [fst snd].
  intros s Hs. unfold after, mbind at 1, ui_seen. cbv beta iota.
  destruct (pair_in (as_posix uf, src) (seen_ui s)) eqn:E.
  - rewrite andb_false_r. exact Hs.
  - destruct (truthy (strip src) && eligible lib src); [|exact Hs].
    cbn [negb andb when]. now apply ui_new.
Qed.

End UiKeys.

(** *** The whole collection *)

Lemma step_weaken {A : Type} (I I' I2 : cstate -> Prop) (m : M A) :
  (forall s, I s -> I' s) -> step I' m I2 -> step I m I2.
Proof. intros Hw H s Hs. apply H, Hw, Hs. Qed.

(** A pass that appends entries of the type [ty'] leaves the pairs of the
    other types as they are. *)
Lemma keys_other {A : Type} (ty ty' : source_type) (P : list (str * str) -> Prop)
    (m : M A) :
  ty <> ty' -> appends (has_type ty') m ->
  step (fun s => P (key_pairs ty (rows s))) m (fun s => P (key_pairs ty (rows s))).
Proof.
  intros Hne Hm s Hs. destruct (Hm s) as (new & E & Hnew).
  rewrite E. now rewrite (key_pairs_other ty ty').
Qed.

Lemma sources_other {A : Type} (ty ty' : source_type) (P : list (str * str) -> Prop)
    (m : M A) :
  ty <> ty' -> appends (has_type ty') m ->
  step (fun s => P (source_pairs ty (rows s))) m (fun s => P (source_pairs ty (rows s))).
Proof.
  intros Hne Hm s Hs. destruct (Hm s) as (new & E & Hnew).
  rewrite E. now rewrite (source_pairs_other ty ty').
Qed.

Section CollectKeys.

Variable lib : pylib.
Variable base_parts : list str.
Variable extracted : node.

Lemma collect_all_strings_rows (rs : list row) :
  collect_all_strings lib base_parts extracted = Some rs ->
  rs = rows (after (collect lib base_parts extracted) start).
Proof.
  unfold collect_all_strings, after.
  destruct (collect lib base_parts extracted start) as [s [u|]]; [|discriminate].
  intros E. now inversion E.
Qed.

Lemma collect_manifest_unique :
  step (within Manifest []) (collect lib base_parts extracted) (unique Manifest).
Proof.
  unfold collect.
  apply (step_bind _ (unique Manifest)); [apply scan_manifest_step|intros _|auto].
  apply step_keep_bind;
    [apply (keys_other Manifest LangFile (fun l => NoDup l));
     [discriminate|apply appends_scan_lang]|intros _].
  apply step_keep_bind;
    [apply (keys_other Manifest LangFile (fun l => NoDup l));
     [discriminate|apply appends_scan_server_keys]|intros _].
  apply step_keep_bind;
    [apply (keys_other Manifest CommonJson (fun l => NoDup l));
     [discriminate|apply appends_scan_common]|intros _].
  apply step_keep_bind;
    [apply (keys_other Manifest UiFile (fun l => NoDup l));
     [discriminate|apply appends_scan_ui]|intros _].
  apply (keys_other Manifest GenericJson (fun l => NoDup l));
    [discriminate|apply appends_scan_json].
Qed.

Lemma within_nil_seen_ok (s : cstate) : within LangFile [] s -> seen_ok s.
Proof. intros [_ H] x Hx. destruct (H x Hx). Qed.

Lemma collect_lang_unique :
  wf_tree extracted = true ->
  step (within LangFile []) (collect lib base_parts extracted) (unique LangFile).
Proof.
  intros Hwf. unfold collect.
  apply (step_bind _ (within LangFile [])); [|intros _|intros s; apply within_unique].
  { apply (keys_other LangFile Manifest (fun l => NoDup l /\ incl l []));
      [discriminate|apply appends_scan_manifest]. }
  apply (step_bind _ lang_ok); [|intros _|now intros s [H _]].
  { intros s Hs. split; [now apply scan_lang_step|].
    apply scan_lang_seen. now apply within_nil_seen_ok. }
  apply (step_bind _ lang_ok); [apply scan_server_keys_step|intros _|now intros s [H _]].
  apply (step_weaken _ (unique LangFile)); [now intros s [H _]|].
  apply step_keep_bind;
    [apply (keys_other LangFile CommonJson (fun l => NoDup l));
     [discriminate|apply appends_scan_common]|intros _].
  apply step_keep_bind;
    [apply (keys_other LangFile UiFile (fun l => NoDup l));
     [discriminate|apply appends_scan_ui]|intros _].
  apply (keys_other LangFile GenericJson (fun l => NoDup l));
    [discriminate|apply appends_scan_json].
Qed.

Lemma collect_ui_unique :
  wf_tree extracted = true ->
  step (within UiFile []) (collect lib base_parts extracted) (unique UiFile).
Proof.
  intros Hwf. unfold collect.
  apply (step_bind _ (within UiFile [])); [|intros _|intros s; apply within_unique].
  { apply (keys_other UiFile Manifest (fun l => NoDup l /\ incl l []));
      [discriminate|apply appends_scan_manifest]. }
  apply (step_bind _ (within UiFile [])); [|intros _|intros s; apply within_unique].
  { apply (keys_other UiFile LangFile (fun l => NoDup l /\ incl l []));
      [discriminate|apply appends_scan_lang]. }
  apply (step_bind _ (within UiFile [])); [|intros _|intros s; apply within_unique].
  { apply (keys_other UiFile LangFile (fun l => NoDup l /\ incl l []));
      [discriminate|apply appends_scan_server_keys]. }
  apply (step_bind _ (within UiFile [])); [|intros _|intros s; apply within_unique].
  { apply (keys_other UiFile CommonJson (fun l => NoDup l /\ incl l []));
      [discriminate|apply appends_scan_common]. }
  apply (step_bind _ (unique UiFile)); [now apply scan_ui_step|intros _|auto].
  apply (keys_other UiFile GenericJson (fun l => NoDup l));
    [discriminate|apply appends_scan_json].
Qed.

Definition no_sources (s : cstate) : Prop := source_pairs UiFile (rows s) = [].
Definition unique_sources (s : cstate) : Prop := NoDup (source_pairs UiFile (rows s)).

Lemma no_sources_unique (s : cstate) : no_sources s -> unique_sources s.
Proof. unfold no_sources, unique_sources. intros ->. constructor. Qed.

Lemma collect_ui_sources :
  step no_sources (collect lib base_parts extracted) unique_sources.
Proof.
  unfold collect.
  apply (step_bind _ no_sources); [|intros _|apply no_sources_unique].
  { apply (sources_other UiFile Manifest (fun l => l = []));
      [discriminate|apply appends_scan_manifest]. }
  apply (step_bind _ no_sources); [|intros _|apply no_sources_unique].
  { apply (sources_other UiFile LangFile (fun l => l = []));
      [discriminate|apply appends_scan_lang]. }
  apply (step_bind _ no_sources); [|intros _|apply no_sources_unique].
  { apply (sources_other UiFile LangFile (fun l => l = []));
      [discriminate|apply appends_scan_server_keys]. }
  apply (step_bind _ no_sources); [|intros _|apply no_sources_unique].
  { apply (sources_other UiFile CommonJson (fun l => l = []));
      [discriminate|apply appends_scan_common]. }
  apply (step_bind _ unique_sources); [|intros _|auto].
  { intros s Hs. apply (scan_ui_sources lib extracted s).
    split; [now apply no_sources_unique|].
    unfold no_sources in Hs. rewrite Hs. intros x []. }
  apply (sources_other UiFile GenericJson (fun l => NoDup l));
    [discriminate|apply appends_scan_json].
Qed.

End CollectKeys.

End Collector.

(** ** A concrete library for the runs on examples

    The ASCII part of the Unicode functions, and a JSON codec given by a
    table of the texts that an example reads with the values they denote. *)

Module Run.
Import PyStr Filter Lang Json FS Catalogue.

Definition ascii_isdigit (c : char) : bool := in_range 48 57 c.

Definition ascii_upper_char (c : char) : char :=
  if in_range 97 122 c then (c - 32)%N else c.
Definition ascii_lower_char (c : char) : char :=
  if in_range 65 90 c then (c + 32)%N else c.

(** [s.title()] on ASCII text: a letter that follows a letter is in lower
    case, any other letter in upper case. *)
Fixpoint ascii_title_go (after_letter : bool) (s : str) : str :=
  match s with
  | [] => []
  | c :: s' =>
      (if after_letter then ascii_lower_char c else ascii_upper_char c)
      :: ascii_title_go (ascii_isalpha c) s'
  end.

Definition ascii_title (s : str) : str := ascii_title_go false s.

(** [int(s)] on a text of ASCII digits. *)
Definition ascii_int (s : str) : option Z :=
  if truthy s && forallb ascii_isdigit s
  then Some (fold_left (fun acc c => (acc * 10 + Z.of_N (c - 48))%Z) s 0%Z)
  else None.

Definition table_lib (table : list (str * json)) : pylib :=
  {| isalpha := ascii_isalpha;
     isalnum := ascii_isalnum;
     isdigit := ascii_isdigit;
     lower := ascii_lower;
     title := ascii_title;
     py_int := ascii_int;
     json_loads := fun s => Dict.get table s;
     json_dumps := fun v =>
       match filter (fun e => match snd e, v with
                              | JStr a, JStr b => str_eqb a b
                              | _, _ => false
                              end) table with
       | e :: _ => fst e
       | [] => []
       end |}.

End Run.

(** ** The folders of the mods: [safe_mod_name] of [mod_manager.py] *)

Module Mods.
Import PyStr Filter.

Section SafeName.

(** [c.isalnum()]: the Unicode database decides it. *)
Variable isalnum : char -> bool.

(** [c.isalnum() or c in "._-"]. *)
Definition safe_char (c : char) : bool := isalnum c || char_in c (py "._-").

(** [safe_mod_name]; [_safe_name] of [translation_manager.py] has the same
    body. *)
Definition safe_mod_name (name : str) : str :=
  map (fun c => if safe_char c then c else UNDERSCORE) name.

Definition _safe_name (name : str) : str := safe_mod_name name.

End SafeName.

End Mods.

(** ** The translation with memory: [_auto_translate] of [app.py] *)

Module App.
Import PyStr Tokenizer Translator.

Section AutoTranslate.

(** The state of the world outside the program, on which the answers of
    the translation services depend. *)
Variable W : Type.

(** [_basic_translate(text, source_lang, target_lang)]. *)
Variable _basic_translate : str -> str -> str -> W -> translation * W.

(** What the calls change in place: the global [_segment_cache], the
    dictionary [memory] of the caller, and the world. *)
Record state : Type := {
  _segment_cache : Dict.dict str;
  memory : Dict.dict str;
  world : W
}.

(** Python's truth value of a dictionary. *)
Definition truthy_dict (d : Dict.dict str) : bool :=
  match d with [] => false | _ :: _ => true end.

(** [memory[k]] under the test [memory and k in memory]; [has_memory]
    tells that the argument [memory] is not [None]. *)
Definition memory_lookup (has_memory : bool) (st : state) (k : str) : option str :=
  if has_memory && truthy_dict (memory st) then Dict.get (memory st) k else None.

(** The function [translate_segment] that [_auto_translate] hands to
    [smart_translate]. *)
Definition translate_segment (source_lang target_lang : str) (has_memory : bool)
    (seg : str) (st : state) : translation * state :=
  let seg_clean := strip seg in
  if negb (truthy seg_clean) then ((Some seg, None), st)
  else
    match Dict.get (_segment_cache st) seg_clean with
    | Some v => ((Some v, None), st)
    | None =>
        match memory_lookup has_memory st seg_clean with
        | Some v =>
            ((Some v, None),
             {| _segment_cache := Dict.set (_segment_cache st) seg_clean v;
                memory := memory st;
                world := world st |})
        | None =>
            let '((tr, err), w1) :=
              _basic_translate seg_clean source_lang target_lang (world st) in
            match tr with
            | Some t =>
                if truthy t then
                  ((tr, err),
                   {| _segment_cache := Dict.set (_segment_cache st) seg_clean t;
                      memory := if has_memory
                                then Dict.set (memory st) seg_clean t
                                else memory st;
                      world := w1 |})
                else
                  ((tr, err),
                   {| _segment_cache := _segment_cache st;
                      memory := memory st;
                      world := w1 |})
            | None =>
                ((tr, err),
                 {| _segment_cache := _segment_cache st;
                    memory := memory st;
                    world := w1 |})
            end
        end
    end.

(** [if result and memory is not None: memory[text] = result]. *)
Definition remember (has_memory : bool) (text : str) (result : option str)
    (st : state) : state :=
  match result with
  | Some r =>
      if truthy r && has_memory
      then {| _segment_cache := _segment_cache st;
              memory := Dict.set (memory st) text r;
              world := world st |}
      else st
  | None => st
  end.

(** [_auto_translate(text, source_lang, target_lang, memory)]. *)
Definition _auto_translate (text0 source_lang target_lang : str) (has_memory : bool)
    (st : state) : translation * state :=
  let text := strip text0 in
  if negb (truthy text) then ((None, None), st)
  else
    match memory_lookup has_memory st text with
    | Some v => ((Some v, None), st)
    | None =>
        if has_markup text then
          let '((result, err), st1) :=
            smart_translate (translate_segment source_lang target_lang has_memory)
              text st in
          ((result, err), remember has_memory text result st1)
        else
          let '((result, err), w1) :=
            _basic_translate text source_lang target_lang (world st) in
          ((result, err),
           remember has_memory text result
             {| _segment_cache := _segment_cache st;
                memory := memory st;
                world := w1 |})
    end.

End AutoTranslate.

Arguments _segment_cache {W} s.
Arguments memory {W} s.
Arguments world {W} s.

End App.

(** * The properties of the specification *)

Import PyStr Tokenizer Translator Filter.

(** ** The tokenizer *)

(** C1. Tokenizer round trip: for every string [s], the contents of the
    segments of [parse_tagged_text s], concatenated in their order,
    are [s] itself, and no segment has empty content. *)
Theorem parse_tagged_text_round_trip (s : str) :
  contents (parse_tagged_text s) = s
  /\ Forall (fun seg : segment => fst seg <> []) (parse_tagged_text s).
Proof.
  unfold parse_tagged_text. destruct (truthy s) eqn:Ht.
  2:{ apply truthy_false in Ht. subst. split; [reflexivity|constructor]. }
  pose proof (tag_loop_invariant s (finditer s) 0 []
                (finditer_chained s) (Nat.le_0_l _) eq_refl (Forall_nil _)) as H.
  destruct (tag_loop s (finditer s) 0 []) as [result last_end].
  destruct H as (Hc & Hle & Hne).
  destruct (last_end <? length s) eqn:Hlt.
  - apply Nat.ltb_lt in Hlt.
    assert (Hrest : slice s last_end (length s) <> [])
      by (apply slice_nonempty; lia).
    destruct (truthy (slice s last_end (length s))) eqn:Hs.
    + split.
      * rewrite contents_app, contents_single, Hc, slice_app by lia.
        apply slice_full.
      * now apply nonempty_segments_snoc.
    + apply truthy_false in Hs. contradiction.
  - apply Nat.ltb_ge in Hlt. replace last_end with (length s) in Hc by lia.
    split; [now rewrite Hc, slice_full | exact Hne].
Qed.

(** The scenario text of the specification:
    [Defeats <color is="red">Alive</color> in \n battle], the escape being
    the two characters backslash and [n]. *)
Definition scenario : str :=
  py "Defeats <color is=" ++ [QUOTE] ++ py "red" ++ [QUOTE]
  ++ py ">Alive</color> in \n battle".

(** C4, as the specification states it, fails: no segment of the scenario's
    tokenization is the two-character escape alone. *)
Lemma scenario_escape_is_not_alone :
  ~ In (py "\n", true) (parse_tagged_text scenario).
Proof.
  vm_compute. intros H.
  repeat (destruct H as [H|H]; [discriminate H|]). exact H.
Qed.

(** C4, amended. The scan reaches the space before the backslash first, and
    there the padded alternative matches: the tokenization of the scenario
    is the literal [Defeats ], the opening tag, the literal [Alive], the
    closing tag, the literal [ in], the four-character markup segment
    (space, backslash, [n], space) and the literal [battle]. *)
Theorem scenario_tokenization :
  parse_tagged_text scenario
  = [ (py "Defeats ", false);
      (py "<color is=" ++ [QUOTE] ++ py "red" ++ [QUOTE] ++ py ">", true);
      (py "Alive", false);
      (py "</color>", true);
      (py " in", false);
      (py " \n ", true);
      (py "battle", false) ].
Proof. vm_compute. reflexivity. Qed.

(** ** The segment translator *)

(** A translate function that answers [X] to everything, without error. *)
Definition answer_X (_ : str) (w : unit) : translation * unit :=
  ((Some (py "X"), None), w).

(** C2 at a failing input. The text [<b>] is one markup segment; the test
    [all(is_tag ...)] of the fast path holds for it, so the text goes to the
    translate function and its answer is returned, not the text. *)
Theorem pure_markup_goes_to_translate_func :
  parse_tagged_text (py "<b>") = [(py "<b>", true)]
  /\ smart_translate answer_X (py "<b>") tt = ((Some (py "X"), None), tt).
Proof. split; vm_compute; reflexivity. Qed.

(** C3 at a failing input. The tokenization of [[WIP]<b>] is two markup
    segments, and the result of [smart_translate] is the answer of the
    translate function, which holds neither of them. *)
Theorem pure_markup_is_not_preserved :
  parse_tagged_text (py "[WIP]<b>") = [(py "[WIP]", true); (py "<b>", true)]
  /\ fst (fst (smart_translate answer_X (py "[WIP]<b>") tt)) = Some (py "X")
  /\ contains (py "[WIP]") (py "X") = false
  /\ contains (py "<b>") (py "X") = false.
Proof. repeat split; vm_compute; reflexivity. Qed.

(** A translate function that fails on [a] with an empty message, fails on
    [d] with the message [boom] and answers [X] otherwise. *)
Definition quiet_failure (s : str) (w : unit) : translation * unit :=
  if str_eqb s (py "a") then ((None, Some []), w)
  else if str_eqb s (py "d") then ((None, Some (py "boom")), w)
  else ((Some (py "X"), None), w).

(** The first error that is not [None], in the words of the specification. *)
Fixpoint first_non_null (errs : list (option str)) : option str :=
  match errs with
  | [] => None
  | Some e :: _ => Some e
  | None :: rest => first_non_null rest
  end.

(** C9, as the specification states it, fails: on [a<b>c<i>d] the calls
    return the errors [""], [None] and ["boom"]; the first that is not
    [None] is the empty message, and [smart_translate] returns ["boom"]. *)
Lemma first_non_null_error_is_skipped :
  snd (fst (smart_translate quiet_failure (py "a<b>c<i>d") tt))
  <> first_non_null
       [ snd (fst (quiet_failure (py "a") tt));
         snd (fst (quiet_failure (py "c") tt));
         snd (fst (quiet_failure (py "d") tt)) ].
Proof. vm_compute. discriminate. Qed.

Section SegmentTranslation.

Variable W : Type.
Variable translate_func : str -> W -> translation * W.

(** C9, amended. For a text that mixes markup and literal segments,
    [smart_translate] returns the segments of [translate_each] concatenated:
    a literal segment whose call returned a non-empty translation is
    replaced by it, with the white space of the segment put back around,
    and every other segment is left as it was; the error returned is the
    first non-empty error message of the calls, [None] when there is none,
    and the partial result is returned with it. *)
Theorem smart_translate_partial_success (text : str) (w : W) :
  mixed text ->
  forall out errs w',
    translate_each translate_func (parse_tagged_text text) w = (out, errs, w') ->
    smart_translate translate_func text w = ((Some (contents out), hd_error errs), w')
    /\ Forall (fun e : str => e <> []) errs
    /\ length out = length (parse_tagged_text text).
Proof.
  intros Hm out errs w' He.
  pose proof (smart_translate_mixed W translate_func text w Hm) as H.
  rewrite He in H. split; [exact H|]. clear H Hm.
  revert w out errs w' He.
  induction (parse_tagged_text text) as [|seg rest IH]; intros w out errs w' He.
  - inversion He; subst. split; constructor.
  - simpl in He. destruct (translatable seg).
    + destruct (translate_func (strip (fst seg)) w) as [[tr err] w1].
      destruct (translate_each translate_func rest w1) as [[out1 errs1] w2] eqn:E1.
      inversion He; subst. destruct (IH _ _ _ _ E1) as [He1 Hl]. split.
      * apply Forall_app; split; auto. unfold error_list.
        destruct err as [e|]; [|constructor].
        destruct e; simpl; constructor; [discriminate|constructor].
      * simpl. now rewrite Hl.
    + destruct (translate_each translate_func rest w) as [[out1 errs1] w2] eqn:E1.
      inversion He; subst. destruct (IH _ _ _ _ E1) as [He1 Hl]. split; auto.
      simpl. now rewrite Hl.
Qed.

End SegmentTranslation.

Lemma smart_translate_partial_success_witness :
  mixed (py "a<b>c<i>d")
  /\ smart_translate quiet_failure (py "a<b>c<i>d") tt
     = ((Some (py "a<b>X<i>d"), Some (py "boom")), tt).
Proof.
  assert (Hm : mixed (py "a<b>c<i>d")) by (split; vm_compute; reflexivity).
  split; [exact Hm|].
  exact (proj1 (smart_translate_partial_success unit quiet_failure
                  (py "a<b>c<i>d") tt Hm
                  [(py "a", false); (py "<b>", true); (py "X", false);
                   (py "<i>", true); (py "d", false)]
                  [py "boom"] tt eq_refl)).
Defined.

Section MarkupPreservation.

Variable W : Type.
Variable translate_func : str -> W -> translation * W.

(** Markup preservation for a text that mixes markup and literal segments:
    the result of [smart_translate] is the concatenation of as many
    segments as the tokenization has, marked as they were, and every markup
    segment among them is the one of the tokenization, unchanged and at its
    place between the literal segments. *)
Theorem smart_translate_keeps_markup (text : str) (w : W) :
  mixed text ->
  exists out : list segment,
    fst (fst (smart_translate translate_func text w)) = Some (contents out)
    /\ markup_kept (parse_tagged_text text) out.
Proof.
  intros Hm.
  exists (fst (fst (translate_each translate_func (parse_tagged_text text) w))).
  split.
  - rewrite (smart_translate_mixed W translate_func text w Hm).
    now destruct (translate_each translate_func (parse_tagged_text text) w)
      as [[out errs] w'].
  - apply translate_each_markup_kept.
Qed.

End MarkupPreservation.

Lemma smart_translate_keeps_markup_witness :
  mixed scenario
  /\ exists out : list segment,
       fst (fst (smart_translate answer_X scenario tt)) = Some (contents out)
       /\ markup_kept (parse_tagged_text scenario) out.
Proof.
  assert (Hm : mixed scenario) by (split; vm_compute; reflexivity).
  split; [exact Hm|].
  exact (smart_translate_keeps_markup unit answer_X scenario tt Hm).
Defined.

(** ** The source filter *)

Section RepeatedSubstring.

Variable isalpha : char -> bool.
Variable isalnum : char -> bool.

(** No alphabetic character is white space (the letters are in the general
    categories L*, the white space in Zs, Zl, Zp and Cc). *)
Hypothesis alpha_not_space : forall c, isalpha c = true -> isspace c = false.

(** C10. Repeated-substring skip: a string of alphabetic characters only
    (hence without space or newline) that is two or more copies of a
    shorter, non-empty string is skipped; [Alive] alone is not. *)
Theorem should_skip_repeated_substring :
  (forall (s part : str) (k : nat),
      str_isalpha isalpha s = true ->
      part <> [] -> 2 <= k -> s = str_mul part k ->
      _should_skip_source isalpha isalnum s = true)
  /\ _should_skip_source isalpha isalnum (py "Alive") = false.
Proof.
  split.
  - intros s part k Ha Hp Hk Hs.
    unfold str_isalpha in Ha. apply andb_true_iff in Ha. destruct Ha as [Ht Ha].
    pose proof (alpha_no_space isalpha alpha_not_space s Ha) as Hns.
    unfold _should_skip_source.
    rewrite (strip_no_space s Hns), Ht. cbn [negb orb].
    repeat match goal with
           | |- (if ?c then true else _) = true =>
               destruct c; [reflexivity|]
           end.
    rewrite (no_space_char_in SPACE s eq_refl Hns).
    rewrite (no_space_char_in NEWLINE s eq_refl Hns).
    assert (Hlen : 2 <= length s).
    { subst s. rewrite length_str_mul. destruct part; [congruence|]. simpl. nia. }
    apply Nat.leb_le in Hlen.
    unfold str_isalpha. rewrite Ht, Ha, Hlen. cbn [negb andb].
    subst s. now apply repeats_str_mul.
  - unfold _should_skip_source, str_isalpha. vm_compute.
    repeat match goal with
           | |- context [if ?c then _ else _] => destruct c
           end; reflexivity.
Qed.

End RepeatedSubstring.

Lemma ascii_alpha_not_space (c : char) :
  ascii_isalpha c = true -> isspace c = false.
Proof.
  unfold ascii_isalpha, in_range. intros H.
  assert (Hr : (65 <= c <= 90 \/ 97 <= c <= 122)%N).
  { apply orb_true_iff in H.
    destruct H as [H|H]; apply andb_true_iff in H; destruct H as [H1 H2];
      apply N.leb_le in H1, H2; lia. }
  clear H. unfold isspace, in_range.
  destruct Hr as [Hr|Hr];
    repeat match goal with
           | |- context [N.leb ?a ?b] => destruct (N.leb_spec a b); try lia
           | |- context [N.eqb ?a ?b] => destruct (N.eqb_spec a b); try lia
           end; reflexivity.
Qed.

Lemma should_skip_repeated_substring_witness :
  _should_skip_source ascii_isalpha ascii_isalnum (py "AliveAlive") = true
  /\ _should_skip_source ascii_isalpha ascii_isalnum (py "Alive") = false.
Proof.
  destruct (should_skip_repeated_substring ascii_isalpha ascii_isalnum
              ascii_alpha_not_space) as [Hrep Halive].
  split; [|exact Halive].
  apply (Hrep (py "AliveAlive") (py "Alive") 2).
  - reflexivity.
  - discriminate.
  - lia.
  - reflexivity.
Defined.


(** ** The string collector *)

Import Dict Lang Json FS Catalogue Collector.

(** A package whose only file is [Server/Languages/en-US/x.lang], with
    bytes that are not UTF-8. *)
Definition undecodable_tree : node :=
  Dir [ (py "Server",
         Dir [ (py "Languages",
                Dir [ (py "en-US", Dir [ (py "x.lang", File None) ]) ]) ]) ].

(** C8 at a failing input. The scan of the locale files reads [x.lang]
    inside its [try] and passes it without an entry, and the scan of the
    [server.] keys reads the same file again outside any [try]: the
    exception leaves [collect_all_strings]. *)
Theorem undecodable_locale_file_aborts (lib : pylib) (base_parts : list str) :
  scan_lang lib undecodable_tree start = (start, Some tt)
  /\ snd (scan_server_keys lib base_parts undecodable_tree start) = None
  /\ collect_all_strings lib base_parts undecodable_tree = None.
Proof. repeat split; vm_compute; reflexivity. Qed.

Section CollectionReturns.

Variable lib : pylib.
Variable base_parts : list str.
Variable extracted : node.

Definition readable (files : list path) : Prop :=
  Forall (fun lf => read_text extracted lf <> None) files.

Lemma total_read_ru_files (files : list path) :
  readable files -> forall acc, total (read_ru_files extracted files acc).
Proof.
  induction files as [|lf files IH]; intros H acc; simpl; [apply total_ret|].
  inversion H; subst. apply total_bind.
  - intros s. destruct (read_text extracted lf); [discriminate|congruence].
  - intros text. now apply IH.
Qed.

Lemma total_read_en_files (files : list path) :
  readable files -> forall acc, total (read_en_files extracted files acc).
Proof.
  induction files as [|lf files IH]; intros H acc; simpl; [apply total_ret|].
  inversion H; subst. apply total_bind.
  - intros s. destruct (read_text extracted lf); [discriminate|congruence].
  - intros text. now apply IH.
Qed.

Lemma total_scan_manifest (names : list str) :
  total (scan_manifest lib extracted names).
Proof.
  induction names as [|n names IH]; simpl; [apply total_ret|].
  destruct (is_file extracted [n]); [apply total_try_pass|exact IH].
Qed.

(** Collection tolerance, as far as it goes: when the locale files of the
    target locale and of the locale that is read can be decoded,
    [collect_all_strings] returns a catalogue, whatever the other files of
    the package hold. *)
Theorem collect_all_strings_returns :
  (is_dir extracted ru_dir = true ->
   readable (glob_suffix extracted ru_dir (py ".lang"))) ->
  (forall loc, locale_dir extracted = Some loc ->
               readable (glob_suffix extracted loc (py ".lang"))) ->
  collect_all_strings lib base_parts extracted <> None.
Proof.
  intros Hru Hloc.
  assert (Ht : total (collect lib base_parts extracted)).
  { unfold collect.
    apply total_bind; [apply total_scan_manifest|intros _].
    apply total_bind; [|intros _].
    { unfold scan_lang. apply total_when. apply total_bind.
      - destruct (is_dir extracted ru_dir); [|apply total_ret].
        apply total_read_ru_files. now apply Hru.
      - intros ru. destruct (locale_dir extracted); [|apply total_ret].
        apply total_for. intros lf _. apply total_try_pass. }
    apply total_bind; [|intros _].
    { unfold scan_server_keys. apply total_when.
      destruct (locale_dir extracted) as [loc|] eqn:El; [|apply total_ret].
      apply total_bind; [apply total_read_en_files; now apply Hloc|].
      intros en. destruct (glob_suffix extracted loc (py ".lang")); [apply total_ret|].
      apply total_when. apply total_for. intros jf _. apply total_try_pass. }
    apply total_bind; [|intros _].
    { unfold scan_common. apply total_when. apply total_for. intros jf _.
      destruct (starts_with (py "ru") (name jf));
        [apply total_ret|apply total_try_pass]. }
    apply total_bind; [|intros _].
    { unfold scan_ui. apply total_for. intros uf _.
      destruct (is_file extracted uf); [apply total_try_pass|apply total_ret]. }
    unfold scan_json. apply total_for. intros jf _. apply total_try_pass. }
  unfold collect_all_strings. specialize (Ht start).
  destruct (collect lib base_parts extracted start) as [s [u|]]; [discriminate|].
  now simpl in Ht.
Qed.

End CollectionReturns.

(** ** The keys of the catalogue *)

(** C7, as far as it holds. On a file tree (the names of a directory are
    distinct, not empty and without a slash), the catalogue that
    [collect_all_strings] returns has no two entries of type [manifest] with
    the same pair (file_rel, key), no two of type [lang], no two of type
    [ui], and no two entries of type [ui] with the same pair
    (file_rel, source). *)
Theorem catalogue_keys_unique (lib : pylib) (base_parts : list str) (extracted : node)
    (catalogue : list row) :
  wf_tree extracted = true ->
  collect_all_strings lib base_parts extracted = Some catalogue ->
  NoDup (key_pairs Manifest catalogue)
  /\ NoDup (key_pairs LangFile catalogue)
  /\ NoDup (key_pairs UiFile catalogue)
  /\ NoDup (source_pairs UiFile catalogue).
Proof.
  intros Hwf Hc. apply collect_all_strings_rows in Hc. subst catalogue.
  assert (H0 : forall ty, within ty [] start)
    by (intros ty; split; [constructor|intros x []]).
  repeat split.
  - apply (collect_manifest_unique lib base_parts extracted start (H0 Manifest)).
  - apply (collect_lang_unique lib base_parts extracted Hwf start (H0 LangFile)).
  - apply (collect_ui_unique lib base_parts extracted Hwf start (H0 UiFile)).
  - apply (collect_ui_sources lib base_parts extracted start). reflexivity.
Qed.

(** A package with a manifest, a locale file and a UI descriptor that shows
    the same text twice. *)
Definition demo_tree : node :=
  Dir [ (py "manifest.json", File (Some (py "M")));
        (py "Server",
         Dir [ (py "Languages",
                Dir [ (py "en-US",
                       Dir [ (py "server.lang",
                              File (Some (py "items.sword.name = Iron sword"))) ]) ]) ]);
        (py "hud.ui",
         File (Some (py "Text: " ++ [QUOTE] ++ py "Hello there" ++ [QUOTE]
                     ++ py " Text: " ++ [QUOTE] ++ py "Hello there" ++ [QUOTE]))) ].

(** What [json.loads] returns on the texts of [demo_tree]. *)
Definition demo_table : list (str * json) :=
  [ (py "M",
     JObj [ (KStr (py "Name"), JStr (py "My mod"));
            (KStr (py "Authors"),
             JArr [ JObj [ (KStr (py "Name"), JStr (py "Some one")) ] ]) ]) ].

Definition demo_catalogue : list row :=
  [ make_row Manifest (py "manifest.json") (py "Name") (py "My mod") None;
    make_row Manifest (py "manifest.json") (py "Authors[0].Name") (py "Some one") None;
    make_row LangFile (py "Server/Languages/en-US/server.lang")
      (py "items.sword.name") (py "Iron sword") None;
    make_row UiFile (py "hud.ui") (py "0") (py "Hello there") None;
    make_row GenericJson (py "manifest.json") (py "Name") (py "My mod") None;
    make_row GenericJson (py "manifest.json") (py "Authors[0].Name") (py "Some one") None ].

Lemma catalogue_keys_unique_witness :
  wf_tree demo_tree = true
  /\ collect_all_strings (Run.table_lib demo_table) [] demo_tree = Some demo_catalogue
  /\ NoDup (key_pairs Manifest demo_catalogue)
  /\ NoDup (key_pairs LangFile demo_catalogue)
  /\ NoDup (key_pairs UiFile demo_catalogue)
  /\ NoDup (source_pairs UiFile demo_catalogue).
Proof.
  assert (Hwf : wf_tree demo_tree = true) by (vm_compute; reflexivity).
  assert (Hc : collect_all_strings (Run.table_lib demo_table) [] demo_tree
               = Some demo_catalogue) by (vm_compute; reflexivity).
  split; [exact Hwf|]. split; [exact Hc|].
  exact (catalogue_keys_unique (Run.table_lib demo_table) [] demo_tree demo_catalogue
           Hwf Hc).
Defined.

(** A package whose only file is [Common/Translations/en.json], and what
    [json.loads] returns on its text: an object with the key [a.b] and with
    the key [a], an object of key [b]. *)
Definition common_tree : node :=
  Dir [ (py "Common",
         Dir [ (py "Translations", Dir [ (py "en.json", File (Some (py "T"))) ]) ]) ].

Definition common_table : list (str * json) :=
  [ (py "T",
     JObj [ (KStr (py "a.b"), JStr (py "Hello world"));
            (KStr (py "a"), JObj [ (KStr (py "b"), JStr (py "Good bye")) ]) ]) ].

Definition common_catalogue : list row :=
  [ make_row CommonJson (py "Common/Translations/en.json") (py "a.b")
      (py "Hello world") None;
    make_row CommonJson (py "Common/Translations/en.json") (py "a.b")
      (py "Good bye") None ].

(** C7 fails for the type [common_json]: a key with a dot at the top level
    and the same key built from a nested object give two entries with one
    pair (file_rel, key). *)
Lemma common_json_key_collision :
  wf_tree common_tree = true
  /\ collect_all_strings (Run.table_lib common_table) [] common_tree
     = Some common_catalogue
  /\ ~ NoDup (key_pairs CommonJson common_catalogue).
Proof.
  split; [vm_compute; reflexivity|]. split; [vm_compute; reflexivity|].
  intros H. vm_compute in H. inversion H as [|x l Hn Hd]; subst.
  apply Hn. now left.
Qed.

(** The same happens for the type [json]: in [item.json], the path through
    the key [a.b] and the path through [a] and [b] give one key
    [a.b.name]. *)
Definition generic_tree : node := Dir [ (py "item.json", File (Some (py "J"))) ].

Definition generic_table : list (str * json) :=
  [ (py "J",
     JObj [ (KStr (py "a.b"), JObj [ (KStr (py "name"), JStr (py "Hello world")) ]);
            (KStr (py "a"),
             JObj [ (KStr (py "b"),
                     JObj [ (KStr (py "name"), JStr (py "Good bye")) ]) ]) ]) ].

Lemma generic_json_key_collision :
  collect_all_strings (Run.table_lib generic_table) [] generic_tree
  = Some [ make_row GenericJson (py "item.json") (py "a.b.name") (py "Hello world") None;
           make_row GenericJson (py "item.json") (py "a.b.name") (py "Good bye") None ].
Proof. vm_compute. reflexivity. Qed.

(** A package with the locale files of [en-US] and of [ru-RU], a JSON file
    that [json.loads] rejects and a UI descriptor that is not UTF-8. *)
Definition tolerant_tree : node :=
  Dir [ (py "Server",
         Dir [ (py "Languages",
                Dir [ (py "en-US",
                       Dir [ (py "server.lang",
                              File (Some (py "items.sword.name = Iron sword"))) ]);
                      (py "ru-RU",
                       Dir [ (py "server.lang",
                              File (Some (py "items.sword.name = Zhelezny mech"))) ]) ]) ]);
        (py "broken.json", File (Some (py "{")));
        (py "hud.ui", File None) ].

Lemma collect_all_strings_returns_witness :
  (is_dir tolerant_tree ru_dir = true ->
   readable tolerant_tree (glob_suffix tolerant_tree ru_dir (py ".lang")))
  /\ (forall loc, locale_dir tolerant_tree = Some loc ->
                  readable tolerant_tree (glob_suffix tolerant_tree loc (py ".lang")))
  /\ collect_all_strings (Run.table_lib []) [] tolerant_tree <> None.
Proof.
  assert (Hru : is_dir tolerant_tree ru_dir = true ->
                readable tolerant_tree (glob_suffix tolerant_tree ru_dir (py ".lang"))).
  { intros _. unfold readable. vm_compute. repeat constructor; discriminate. }
  assert (Hloc : forall loc, locale_dir tolerant_tree = Some loc ->
                   readable tolerant_tree (glob_suffix tolerant_tree loc (py ".lang"))).
  { intros loc H. vm_compute in H. inversion H; subst.
    unfold readable. vm_compute. repeat constructor; discriminate. }
  split; [exact Hru|]. split; [exact Hloc|].
  exact (collect_all_strings_returns (Run.table_lib []) [] tolerant_tree Hru Hloc).
Defined.

(** ** The write-back: [save_all_translations] *)

Import Writer.


(** A package with the locale file [server.lang] in [en-US] and in
    [ru-RU]. *)
Definition locale_tree : node :=
  Dir [ (py "Server",
         Dir [ (py "Languages",
                Dir [ (py "en-US",
                       Dir [ (py "server.lang", File (Some (py "z=Hello"))) ]);
                      (py "ru-RU",
                       Dir [ (py "server.lang", File (Some (py "other=Old"))) ]) ]) ]) ].

Definition ru_file : path :=
  [py "Server"; py "Languages"; py "ru-RU"; py "server.lang"].

(** The translation of the key [z]. *)
Definition one_line_rows : list row :=
  [ make_row LangFile (py "Server/Languages/en-US/server.lang") (py "z") (py "Hello")
      (Some (JStr (py "Privet"))) ].


(** A translation of the key [z] that holds a line break. *)
Definition two_line_rows : list row :=
  [ make_row LangFile (py "Server/Languages/en-US/server.lang") (py "z") (py "Hello")
      (Some (JStr (py "Privet" ++ [NEWLINE] ++ py "other=New"))) ].



(** [locale_tree] after the translation of [z] is saved. *)
Definition saved_locale_tree : node :=
  Dir [ (py "Server",
         Dir [ (py "Languages",
                Dir [ (py "en-US",
                       Dir [ (py "server.lang", File (Some (py "z=Hello"))) ]);
                      (py "ru-RU",
                       Dir [ (py "server.lang",
                              File (Some (py "other=Old" ++ [NEWLINE]
                                          ++ py "z=Privet"))) ]) ]) ]) ].

(** The translation of the key [z], and an entry of the manifest without
    translation. *)
Definition some_rows : list row :=
  [ make_row LangFile (py "Server/Languages/en-US/server.lang") (py "z") (py "Hello")
      (Some (JStr (py "Privet")));
    make_row Manifest (py "manifest.json") (py "Name") (py "My mod") None ].


(** A UI descriptor with two texts, and the rows that the collection gives
    for it, the first translated to the text of the second. *)
Definition ui_tree : node :=
  Dir [ (py "hud.ui",
         File (Some (py "Text: " ++ [QUOTE] ++ py "Hello you" ++ [QUOTE]
                     ++ py " Text: " ++ [QUOTE] ++ py "Hi you" ++ [QUOTE]))) ].

Definition chain_rows : list row :=
  [ make_row UiFile (py "hud.ui") (py "0") (py "Hello you") (Some (JStr (py "Hi you")));
    make_row UiFile (py "hud.ui") (py "18") (py "Hi you") (Some (JStr (py "Privet"))) ].

Definition ui_saved_once : node :=
  Dir [ (py "hud.ui",
         File (Some (py "Text: " ++ [QUOTE] ++ py "Hi you" ++ [QUOTE]
                     ++ py " Text: " ++ [QUOTE] ++ py "Privet" ++ [QUOTE]))) ].

Definition ui_saved_twice : node :=
  Dir [ (py "hud.ui",
         File (Some (py "Text: " ++ [QUOTE] ++ py "Privet" ++ [QUOTE]
                     ++ py " Text: " ++ [QUOTE] ++ py "Privet" ++ [QUOTE]))) ].


(** * Further properties of the code *)

(** ** The locale files: [parse_lang_content] and [lang_to_content] *)

(** The lines of a text that ends with a line feed and goes on with [rest]
    are lines that the text decides, then the lines of [rest]. *)
Lemma splitlines_go_before_newline (a : str) :
  forall after_cr cur,
    (after_cr = true -> cur = []) ->
    exists pre, forall rest,
      splitlines_go after_cr cur (a ++ NEWLINE :: rest) = pre ++ splitlines rest.
Proof.
  induction a as [|c a IH]; intros after_cr cur Hcr.
  - destruct after_cr.
    + rewrite (Hcr eq_refl). exists []. intros rest. reflexivity.
    + exists [cur]. intros rest. reflexivity.
  - simpl. destruct (after_cr && char_eqb c NEWLINE) eqn:E1.
    + apply andb_true_iff in E1. destruct E1 as [E1 _]. subst after_cr.
      rewrite (Hcr eq_refl). apply IH. discriminate.
    + destruct (is_linebreak c).
      * destruct (IH (char_eqb c CR) [] (fun _ => eq_refl)) as [pre Hpre].
        exists (cur :: pre). intros rest. now rewrite Hpre.
      * apply IH. discriminate.
Qed.

(** A line feed at the end of a text adds at most an empty line, which
    [parse_lang_content] passes. *)
Lemma fold_parse_line_newline (a : str) :
  forall after_cr cur acc,
    (after_cr = true -> cur = []) ->
    fold_left parse_line (splitlines_go after_cr cur (a ++ [NEWLINE])) acc
    = fold_left parse_line (splitlines_go after_cr cur a) acc.
Proof.
  induction a as [|c a IH]; intros after_cr cur acc Hcr.
  - destruct after_cr.
    + rewrite (Hcr eq_refl). reflexivity.
    + simpl. destruct cur; reflexivity.
  - simpl. destruct (after_cr && char_eqb c NEWLINE) eqn:E1.
    + apply IH. discriminate.
    + destruct (is_linebreak c).
      * simpl. apply IH. auto.
      * apply IH. discriminate.
Qed.

(** Whatever the text, [parse_lang_content] returns every key once, and
    its keys and values are without white space at their ends and without
    line boundary; a key holds no [=] and does not start with [#]. *)
Theorem parse_lang_content_entries_clean (text : str) :
  NoDup (Dict.keys (parse_lang_content text))
  /\ Forall clean_item (parse_lang_content text).
Proof.
  destruct (parse_lang_content_well_formed text) as [Hc Hn]. now split.
Qed.

(** Round trip: the text that [lang_to_content] writes for a dictionary of
    keys and values that fit on a line is read back by [parse_lang_content]
    as the same dictionary, every key with its value and no other key. *)
Theorem lang_round_trip (d : Dict.dict str) :
  Forall clean_item d -> NoDup (Dict.keys d) ->
  forall k, Dict.get (parse_lang_content (lang_to_content d)) k = Dict.get d k.
Proof.
  intros Hc Hn k. rewrite parse_lang_to_content by assumption.
  now apply get_sorted.
Qed.

Definition two_entries : Dict.dict str :=
  [ (py "items.sword.name", py "Iron sword"); (py "bench.title", py "Work bench") ].

Lemma lang_round_trip_witness :
  Forall clean_item two_entries /\ NoDup (Dict.keys two_entries)
  /\ forall k, Dict.get (parse_lang_content (lang_to_content two_entries)) k
               = Dict.get two_entries k.
Proof.
  assert (Hc : Forall clean_item two_entries)
    by (repeat constructor; vm_compute; reflexivity).
  assert (Hn : NoDup (Dict.keys two_entries)).
  { repeat constructor; simpl; [intros [H|[]]; vm_compute in H; discriminate|tauto]. }
  split; [exact Hc|]. split; [exact Hn|].
  exact (lang_round_trip two_entries Hc Hn).
Defined.

(** The text written for what was parsed is a normal form of the file:
    parsing it and writing it again gives the same text, for every text. *)
Theorem lang_normal_form_idempotent (text : str) :
  lang_to_content (parse_lang_content (lang_to_content (parse_lang_content text)))
  = lang_to_content (parse_lang_content text).
Proof.
  destruct (parse_lang_content_well_formed text) as [Hc Hn].
  rewrite parse_lang_to_content by assumption.
  apply lang_to_content_sorted.
Qed.

(** A line that [parse_lang_content] passes: blank, a comment, or without
    [=]. *)
Definition passed_line (c : str) : Prop :=
  no_linebreak c = true
  /\ (truthy (strip c) = false \/ starts_with [HASH] (strip c) = true
      \/ char_in EQUALS (strip c) = false).

Lemma parse_line_passed (result : Dict.dict str) (c : str) :
  passed_line c -> parse_line result c = result.
Proof.
  intros [_ Hc]. unfold parse_line.
  destruct (truthy (strip c)) eqn:Et; cbn [negb orb]; [|reflexivity].
  destruct (starts_with [HASH] (strip c)) eqn:Eh; [reflexivity|].
  destruct Hc as [Hc|[Hc|Hc]]; try discriminate. now rewrite Hc.
Qed.

(** A blank line, a comment line or a line without [=] between two parts
    of a file can be removed without changing what is parsed. *)
Theorem parse_lang_content_skips_line (a c b : str) :
  passed_line c ->
  parse_lang_content (a ++ [NEWLINE] ++ c ++ [NEWLINE] ++ b)
  = parse_lang_content (a ++ [NEWLINE] ++ b).
Proof.
  intros [Hnl Hc]. unfold parse_lang_content, splitlines.
  destruct (splitlines_go_before_newline a false [] (fun H => eq_refl)) as [pre Hpre].
  simpl app. rewrite !Hpre. unfold splitlines at 1.
  rewrite (splitlines_go_line c Hnl), splitlines_go_newline.
  rewrite !fold_left_app. cbn [fold_left app].
  now rewrite (parse_line_passed _ c (conj Hnl Hc)).
Qed.

Lemma parse_lang_content_skips_line_witness :
  passed_line (py "# weapons")
  /\ parse_lang_content (py "a=1" ++ [NEWLINE] ++ py "# weapons" ++ [NEWLINE] ++ py "b=2")
     = parse_lang_content (py "a=1" ++ [NEWLINE] ++ py "b=2").
Proof.
  assert (H : passed_line (py "# weapons"))
    by (split; [reflexivity|right; left; reflexivity]).
  split; [exact H|].
  exact (parse_lang_content_skips_line (py "a=1") (py "# weapons") (py "b=2") H).
Defined.

(** A line [key=value] added at the end of a file sets the key to the
    value and leaves what the file held for the other keys: the dictionary
    parsed is the one of the file with [d[key] = value]. *)
Theorem parse_lang_content_appended_line (a k v : str) :
  clean_item (k, v) ->
  parse_lang_content (a ++ [NEWLINE] ++ lang_line (k, v))
  = Dict.set (parse_lang_content a) k v.
Proof.
  intros Hkv. unfold parse_lang_content, splitlines.
  destruct (splitlines_go_before_newline a false [] (fun H => eq_refl)) as [pre Hpre].
  simpl app. rewrite Hpre.
  destruct (lang_line_is_a_line (k, v) Hkv) as [Hnl Hne].
  assert (Hl : splitlines (lang_line (k, v)) = [lang_line (k, v)]).
  { apply (splitlines_join [lang_line (k, v)]). repeat constructor; auto. }
  rewrite Hl, fold_left_app. simpl.
  rewrite parse_line_lang_line by assumption. f_equal.
  specialize (Hpre []). unfold splitlines in Hpre. simpl in Hpre.
  rewrite app_nil_r in Hpre. rewrite <- Hpre.
  apply (fold_parse_line_newline a false [] []). discriminate.
Qed.

Lemma parse_lang_content_appended_line_witness :
  clean_item (py "b", py "2")
  /\ parse_lang_content (py "a=1" ++ [NEWLINE] ++ lang_line (py "b", py "2"))
     = Dict.set (parse_lang_content (py "a=1")) (py "b") (py "2").
Proof.
  assert (H : clean_item (py "b", py "2")) by (repeat split; vm_compute; reflexivity).
  split; [exact H|].
  exact (parse_lang_content_appended_line (py "a=1") (py "b") (py "2") H).
Defined.

(** ** What the write-back leaves alone *)

(** The file [q] is none of the files that [save_all_translations] writes
    for the row: the file of a [manifest], [ui] or [json] row, the
    [ru_RU.json] beside the file of a [common_json] row, the target-locale
    file of a [lang] row and the source-locale file of its backfill. *)
Definition not_written (q : path) (r : row) : Prop :=
  match r_type r with
  | LangFile =>
      path_of (ru_of r) <> q
      /\ (source_rel (ru_of r) = ru_of r \/ path_of (source_rel (ru_of r)) <> q)
  | CommonJson => common_target (r_file_rel r) <> q
  | _ => path_of (r_file_rel r) <> q
  end.


(** [locale_tree] with a second file in [en-US]. *)
Definition locale_tree_with_notes : node :=
  Dir [ (py "Server",
         Dir [ (py "Languages",
                Dir [ (py "en-US",
                       Dir [ (py "server.lang", File (Some (py "z=Hello")));
                             (py "notes.lang", File (Some (py "n=Note"))) ]);
                      (py "ru-RU",
                       Dir [ (py "server.lang", File (Some (py "other=Old"))) ]) ]) ]) ].


(** ** Rows without translation, and translations that are no strings *)

Lemma group_row_untranslated (g : groups) (r : row) :
  translated_text r = Some [] ->
  exists g', group_row g r = Some g'
             /\ manifest_updates g' = manifest_updates g
             /\ lang_by_file g' = lang_by_file g
             /\ ui_by_file g' = ui_by_file g
             /\ common_json_by_file g' = common_json_by_file g
             /\ json_by_file g' = json_by_file g.
Proof.
  intros Htr. unfold group_row. rewrite Htr. cbn [truthy negb].
  destruct (r_type r); eexists; (split; [reflexivity|]); repeat split.
Qed.

(** When no row has a translation ([None], an empty or a blank string),
    [save_all_translations] returns and writes nothing: every file and
    directory is as it was. *)
Theorem save_all_translations_nothing_to_write (lib : pylib) (extracted : node)
    (rows : list row) :
  (forall r, In r rows -> translated_text r = Some []) ->
  save_all_translations lib extracted rows = Returned extracted.
Proof.
  intros Hrows. unfold save_all_translations.
  assert (G : forall rs g,
             (forall r, In r rs -> translated_text r = Some []) ->
             exists g', group_rows g rs = Some g'
                        /\ manifest_updates g' = manifest_updates g
                        /\ lang_by_file g' = lang_by_file g
                        /\ ui_by_file g' = ui_by_file g
                        /\ common_json_by_file g' = common_json_by_file g
                        /\ json_by_file g' = json_by_file g).
  { induction rs as [|r rs IH]; intros g H; simpl.
    - exists g. repeat split.
    - destruct (group_row_untranslated g r (H r (or_introl eq_refl)))
        as (g1 & E1 & A1 & A2 & A3 & A4 & A5).
      rewrite E1.
      destruct (IH g1 (fun x Hx => H x (or_intror Hx)))
        as (g2 & E2 & B1 & B2 & B3 & B4 & B5).
      exists g2. repeat split; congruence. }
  destruct (G rows no_groups Hrows) as (g & Eg & A1 & A2 & A3 & A4 & A5).
  rewrite Eg, A1, A2, A3, A4, A5. reflexivity.
Qed.

(** Rows whose translation is [None], empty, or blank. *)
Definition untranslated_rows : list row :=
  [ make_row LangFile (py "Server/Languages/en-US/server.lang") (py "z") (py "Hello") None;
    make_row Manifest (py "manifest.json") (py "Name") (py "My mod") (Some (JStr []));
    make_row UiFile (py "hud.ui") (py "0") (py "Hello you") (Some (JStr (py "  "))) ].

Lemma save_all_translations_nothing_to_write_witness :
  (forall r, In r untranslated_rows -> translated_text r = Some [])
  /\ save_all_translations (Run.table_lib []) locale_tree untranslated_rows
     = Returned locale_tree.
Proof.
  assert (H : forall r, In r untranslated_rows -> translated_text r = Some [])
    by (intros r [<-|[<-|[<-|[]]]]; reflexivity).
  split; [exact H|].
  exact (save_all_translations_nothing_to_write (Run.table_lib []) locale_tree
           untranslated_rows H).
Defined.

(** A translation that is true and not a string (a number, a list, an
    object) raises in the loop that groups the rows, before any file is
    written: [save_all_translations] raises and the files are as they
    were. *)
Theorem save_all_translations_rejects_non_string (lib : pylib) (extracted : node)
    (rows : list row) (r : row) :
  In r rows -> translated_text r = None ->
  save_all_translations lib extracted rows = Raised extracted.
Proof.
  intros Hr Htr. unfold save_all_translations.
  assert (G : forall rs g, In r rs -> group_rows g rs = None).
  { induction rs as [|x rs IH]; intros g Hin; [contradiction|]. simpl.
    destruct Hin as [->|Hin].
    - unfold group_row. now rewrite Htr.
    - destruct (group_row g x); auto. }
  now rewrite (G rows no_groups Hr).
Qed.

(** A good translation, then a translation that is the number 5. *)
Definition number_rows : list row :=
  [ make_row LangFile (py "Server/Languages/en-US/server.lang") (py "y") (py "Bye")
      (Some (JStr (py "Poka")));
    make_row LangFile (py "Server/Languages/en-US/server.lang") (py "z") (py "Hello")
      (Some (JInt 5)) ].

Lemma save_all_translations_rejects_non_string_witness :
  In (make_row LangFile (py "Server/Languages/en-US/server.lang") (py "z") (py "Hello")
        (Some (JInt 5))) number_rows
  /\ translated_text
       (make_row LangFile (py "Server/Languages/en-US/server.lang") (py "z") (py "Hello")
          (Some (JInt 5))) = None
  /\ save_all_translations (Run.table_lib []) locale_tree number_rows
     = Raised locale_tree.
Proof.
  assert (H1 : In (make_row LangFile (py "Server/Languages/en-US/server.lang") (py "z")
                     (py "Hello") (Some (JInt 5))) number_rows)
    by (right; left; reflexivity).
  assert (H2 : translated_text
                 (make_row LangFile (py "Server/Languages/en-US/server.lang") (py "z")
                    (py "Hello") (Some (JInt 5))) = None) by reflexivity.
  split; [exact H1|]. split; [exact H2|].
  exact (save_all_translations_rejects_non_string (Run.table_lib []) locale_tree
           number_rows _ H1 H2).
Defined.

(** ** A saved translation is read back *)

(** The groups hold an entry for the key [key] of the target-locale file
    [ru]. *)
Definition has_entry (g : groups) (ru key : str) : Prop :=
  exists entries v,
    Dict.get (lang_by_file g) ru = Some entries /\ Dict.get entries key = Some v.

Lemma str_eq_dec (a b : str) : {a = b} + {a <> b}.
Proof. apply (list_eq_dec N.eq_dec). Qed.

Lemma set_in_has_entry (D : Dict.dict (Dict.dict str)) (rel key value rel' key' : str) :
  (rel' = rel /\ key' = key)
  \/ (exists e v, Dict.get D rel' = Some e /\ Dict.get e key' = Some v) ->
  exists e v, Dict.get (set_in D rel key value) rel' = Some e
              /\ Dict.get e key' = Some v.
Proof.
  unfold set_in. intros [[-> ->]|(e & v & He & Hv)].
  - eexists. exists value. rewrite Dict.get_set_same. split; [reflexivity|].
    apply Dict.get_set_same.
  - destruct (str_eq_dec rel rel') as [<-|Hne].
    + rewrite He, Dict.get_set_same.
      destruct (str_eq_dec key key') as [<-|Hk].
      * eexists. exists value. split; [reflexivity|apply Dict.get_set_same].
      * eexists. exists v. split; [reflexivity|]. now rewrite Dict.get_set_other.
    + exists e, v. now rewrite Dict.get_set_other.
Qed.

Lemma group_row_has_entry (g g' : groups) (x : row) (ru key : str) :
  group_row g x = Some g' ->
  has_entry g ru key
  \/ (r_type x = LangFile /\ ru_of x = ru /\ r_key x = key
      /\ exists tr, translated_text x = Some tr /\ truthy tr = true) ->
  has_entry g' ru key.
Proof.
  unfold group_row, has_entry.
  destruct (translated_text x) as [tr|] eqn:Etr; [|discriminate].
  intros E H.
  assert (Hold : has_entry g ru key -> truthy tr = false \/ r_type x <> LangFile ->
                 has_entry g' ru key).
  { intros Hg Hc. unfold has_entry in *.
    destruct (truthy tr) eqn:Et; cbn [negb] in E.
    - destruct Hc as [Hc|Hc]; [discriminate|].
      destruct (r_type x); try congruence; inversion E; subst; exact Hg.
    - destruct (r_type x); inversion E; subst; exact Hg. }
  destruct (truthy tr) eqn:Et.
  - destruct (r_type x) eqn:Ety;
      try (apply Hold; [destruct H as [H|(Hc & _)]; [exact H|discriminate]
                       |right; discriminate]).
    cbn [negb] in E. inversion E; subst; clear E.
    cbn [lang_by_file]. apply set_in_has_entry.
    destruct H as [H|(_ & <- & <- & _)]; [right; exact H|left; split; reflexivity].
  - apply Hold; [|now left].
    destruct H as [H|(_ & _ & _ & tr' & E' & Ht')]; [exact H|].
    inversion E'; subst. congruence.
Qed.

Lemma group_rows_has_entry (rows : list row) (r : row) (tr : str) :
  In r rows -> r_type r = LangFile ->
  translated_text r = Some tr -> truthy tr = true ->
  forall g g', group_rows g rows = Some g' -> has_entry g' (ru_of r) (r_key r).
Proof.
  intros Hr Hty Htr Ht.
  assert (K : forall rs g g', has_entry g (ru_of r) (r_key r) ->
                group_rows g rs = Some g' -> has_entry g' (ru_of r) (r_key r)).
  { induction rs as [|x rs IH]; intros g g' Hg; simpl.
    - intros E. inversion E. now subst.
    - destruct (group_row g x) as [g1|] eqn:E1; [|discriminate].
      apply IH. apply (group_row_has_entry g g1 x _ _ E1). now left. }
  induction rows as [|x rows IH]; intros g g'; [contradiction|]. simpl.
  destruct (group_row g x) as [g1|] eqn:E1; [|discriminate].
  destruct Hr as [->|Hr].
  - apply K. apply (group_row_has_entry g g1 r _ _ E1). right.
    repeat split; auto. now exists tr.
  - now apply IH.
Qed.

Lemma group_rows_entries_distinct (rows : list row) :
  forall g g', entries_distinct (lang_by_file g) ->
               group_rows g rows = Some g' -> entries_distinct (lang_by_file g').
Proof.
  induction rows as [|x rows IH]; intros g g' Hg; simpl.
  - intros E. inversion E. now subst.
  - destruct (group_row g x) as [g1|] eqn:E1; [|discriminate].
    apply IH. unfold group_row in E1.
    destruct (translated_text x) as [tr|]; [|discriminate].
    destruct (truthy tr); cbn [negb] in E1;
      destruct (r_type x); inversion E1; subst; cbn [lang_by_file]; auto.
    now apply set_in_distinct.
Qed.

(** The merged content gives every entry its value. *)
Lemma merged_ru_sets (lib : pylib) (existing : option str) (entries : Dict.dict str)
    (k v : str) :
  Forall clean_item entries -> NoDup (Dict.keys entries) ->
  Dict.get entries k = Some v ->
  Dict.get (parse_lang_content (merged_ru lib existing entries)) k = Some v.
Proof.
  intros Hc Hn Hk. unfold merged_ru.
  set (ex := match existing with
             | Some text => parse_lang_content text
             | None => []
             end).
  assert (Wex : well_formed ex).
  { unfold ex. destruct existing; [apply parse_lang_content_well_formed|].
    split; constructor. }
  set (d0 := Dict.update ex entries).
  assert (W0 : well_formed d0).
  { destruct Wex as [Hf Hnd].
    split; [apply Dict.update_all; auto|apply Dict.NoDup_keys_update; auto]. }
  destruct (add_aliases_well_formed (lower lib) d0 W0) as [Hf1 Hnd1].
  rewrite parse_lang_to_content by assumption.
  rewrite get_sorted by assumption.
  apply add_aliases_keeps. now apply Dict.get_update_in.
Qed.

Lemma and_then_returned (r : result) (f : node -> result) (t' : node) :
  and_then r f = Returned t' -> exists t1, r = Returned t1 /\ f t1 = Returned t'.
Proof. destruct r as [t1|t1]; simpl; [|discriminate]. intros H. now exists t1. Qed.

Lemma for_each_returned_inv {A : Type} (I : node -> Prop) (step : A -> node -> result)
    (items : list A) :
  (forall x, In x items -> forall t t1, I t -> step x t = Returned t1 -> I t1) ->
  forall t t', I t -> for_each step items t = Returned t' -> I t'.
Proof.
  induction items as [|x items IH]; intros H t t' Ht; simpl.
  - intros E. inversion E. now subst.
  - intros E. apply and_then_returned in E. destruct E as (t1 & E1 & E2).
    apply (IH (fun y Hy => H y (or_intror Hy)) t1 t'); auto.
    apply (H x (or_introl eq_refl) t t1); auto.
Qed.

Lemma for_each_establishes {A : Type} (I : node -> Prop) (step : A -> node -> result)
    (items : list A) :
  (forall x, In x items ->
             (forall t t1, step x t = Returned t1 -> I t1)
             \/ (forall t t1, I t -> step x t = Returned t1 -> I t1)) ->
  (exists x, In x items /\ forall t t1, step x t = Returned t1 -> I t1) ->
  forall t t', for_each step items t = Returned t' -> I t'.
Proof.
  induction items as [|x items IH]; intros H (x0 & Hx0 & E0) t t' E;
    [contradiction|].
  simpl in E. apply and_then_returned in E. destruct E as (t1 & E1 & E2).
  assert (K : forall y, In y items ->
                forall s s1, I s -> step y s = Returned s1 -> I s1).
  { intros y Hy. destruct (H y (or_intror Hy)) as [Hy1|Hy1]; eauto. }
  destruct Hx0 as [->|Hx0].
  - apply (for_each_returned_inv I step items K t1 t'); auto.
    now apply (E0 t t1).
  - apply (IH (fun y Hy => H y (or_intror Hy))
              (ex_intro _ x0 (conj Hx0 E0)) t1 t' E2).
Qed.

Lemma lang_step_sets (lib : pylib) (sources : Dict.dict (Dict.dict str))
    (g : str * Dict.dict str) (P : path) (k v : str) (t t1 : node) :
  path_of (fst g) = P ->
  source_rel (fst g) = fst g \/ path_of (source_rel (fst g)) <> P ->
  Forall clean_item (snd g) -> NoDup (Dict.keys (snd g)) ->
  Dict.get (snd g) k = Some v ->
  lang_step lib sources g t = Returned t1 -> holds P k v t1.
Proof.
  intros HP Hsrc Hc Hn Hk. unfold lang_step.
  destruct (write_ru lib (fst g) (snd g) t) as [t0|] eqn:E0; [|discriminate].
  destruct (backfill_en lib sources (fst g) t0) as [t2|] eqn:E2; [|discriminate].
  intros E. inversion E; subst t2. clear E.
  destruct (write_ru_spec lib _ _ _ _ E0) as (existing & _ & Hr & _ & _).
  rewrite HP in Hr.
  exists (merged_ru lib existing (snd g)). split.
  - apply read_text_lookup.
    apply (backfill_en_keeps lib sources (fst g) P _ t0 t1); auto.
    now apply read_text_lookup.
  - now apply merged_ru_sets.
Qed.

(** A row whose translation is merged into [P] has a key and a translation
    that can stand on a line of a locale file, and where its key is [k] its
    translation is [v]. *)
Definition agreeing_entry (P : path) (k v : str) (r : row) : Prop :=
  r_type r = LangFile ->
  path_of (ru_of r) = P ->
  forall tr, translated_text r = Some tr -> truthy tr = true ->
    clean_key (r_key r) /\ no_linebreak tr = true /\ (r_key r = k -> tr = v).


(** The row of [some_rows] that translates the key [z]. *)
Definition hello_row : row :=
  make_row LangFile (py "Server/Languages/en-US/server.lang") (py "z") (py "Hello")
    (Some (JStr (py "Privet"))).

(** ** The tokenizer: markup and literal text *)

Lemma tag_loop_keeps_markup (text : str) (ms : list (nat * nat)) :
  forall last_end result,
    existsb snd result = true ->
    existsb snd (fst (tag_loop text ms last_end result)) = true.
Proof.
  induction ms as [|[a b] ms IH]; intros last_end result H; simpl; [exact H|].
  apply IH. rewrite existsb_app. simpl. apply orb_true_r.
Qed.

Lemma has_markup_existsb (text : str) :
  has_markup text = existsb snd (parse_tagged_text text).
Proof.
  unfold has_markup, parse_tagged_text. destruct (truthy text); [|reflexivity].
  destruct (finditer text) as [|[a b] ms].
  - simpl. destruct (0 <? length text); [|reflexivity].
    destruct (truthy (slice text 0 (length text))); reflexivity.
  - pose proof (tag_loop_keeps_markup text ms b
                  ((if 0 <? a
                    then if truthy (slice text 0 a)
                         then [] ++ [(slice text 0 a, false)] else []
                    else []) ++ [(slice text a b, true)])) as H.
    simpl tag_loop.
    destruct (tag_loop text ms b _) as [result last_end]. simpl in H.
    rewrite existsb_app in H. simpl in H. rewrite orb_true_r in H.
    specialize (H eq_refl).
    destruct (last_end <? length text); [|now rewrite H].
    destruct (truthy (slice text last_end (length text))); [|now rewrite H].
    rewrite existsb_app. unfold segment. rewrite H. reflexivity.
Qed.

(** *** A match does not depend on the text after it *)

Lemma span_app_stop (p : char -> bool) (a r : str) :
  span p a < length a -> span p (a ++ r) = span p a.
Proof.
  induction a as [|c a IH]; simpl; [lia|].
  destruct (p c); [|reflexivity]. intros H. f_equal. apply IH. lia.
Qed.

Lemma match_run_then_app (p : char -> bool) (close : char) (a r : str) (len : nat) :
  match_run_then p close a = Some len -> match_run_then p close (a ++ r) = Some len.
Proof.
  unfold match_run_then. destruct (span p a) as [|n] eqn:E; [discriminate|].
  destruct (nth_error a (S n)) as [d|] eqn:En; [|discriminate].
  assert (Hn : S n < length a) by (apply nth_error_Some; congruence).
  intros H. rewrite span_app_stop by lia. rewrite E.
  rewrite nth_error_app1 by lia. now rewrite En.
Qed.

Lemma span_firstn (p : char -> bool) (s : str) (n : nat) :
  span p s = n -> span p (firstn (S n) s) = n.
Proof.
  revert n. induction s as [|c s IH]; intros n; simpl.
  - intros <-. reflexivity.
  - destruct (p c) eqn:Hc.
    + destruct n as [|n]; [discriminate|]. intros E. injection E as E.
      f_equal. now apply IH.
    + intros <-. reflexivity.
Qed.

Lemma match_run_then_firstn (p : char -> bool) (close : char) (s : str) (len : nat) :
  match_run_then p close s = Some len ->
  match_run_then p close (firstn len s) = Some len.
Proof.
  unfold match_run_then. destruct (span p s) as [|n] eqn:E; [discriminate|].
  destruct (nth_error s (S n)) as [d|] eqn:En; [|discriminate].
  destruct (char_eqb d close) eqn:Ed; [|discriminate].
  intros H. injection H as <-.
  assert (Hn : S n < length s) by (apply nth_error_Some; congruence).
  assert (E1 : span p (firstn (S (S n)) s) = S n).
  { rewrite <- (firstn_skipn (S (S n)) s) in E.
    destruct (Nat.lt_ge_cases (span p (firstn (S (S n)) s))
                (length (firstn (S (S n)) s))) as [Hlt|Hge].
    - now rewrite span_app_stop in E.
    - pose proof (span_firstn p s (S n)) as K.
      rewrite (firstn_skipn (S (S n)) s) in E. now apply K. }
  rewrite E1, nth_error_firstn.
  destruct (S n <? S (S n)) eqn:El; [|apply Nat.ltb_ge in El; lia].
  now rewrite En, Ed.
Qed.

(** A matcher anchored at the start of the text: what it matches, it
    matches whatever follows ([grows]), and it matches it alone
    ([self_contained]). *)
Definition grows (alt : str -> option nat) : Prop :=
  forall a r len, alt a = Some len -> alt (a ++ r) = Some len.

Definition self_contained (alt : str -> option nat) : Prop :=
  forall s len, alt s = Some len -> alt (firstn len s) = Some len.

Lemma alt_angle_grows : grows alt_angle.
Proof.
  intros [|c a] r len; simpl; [discriminate|].
  destruct (char_eqb c LT); [|discriminate].
  destruct (match_run_then re_not_gt GT a) as [k|] eqn:E; [|discriminate].
  now rewrite (match_run_then_app _ _ a r k E).
Qed.

Lemma alt_bracket_grows : grows alt_bracket.
Proof.
  intros [|c a] r len; simpl; [discriminate|].
  destruct (char_eqb c Tokenizer.LBRACKET); [|discriminate].
  destruct (match_run_then re_AZ_ignorecase Tokenizer.RBRACKET a) as [k|] eqn:E;
    [|discriminate].
  now rewrite (match_run_then_app _ _ a r k E).
Qed.

Lemma alt_escape_grows : grows alt_escape.
Proof. intros [|b [|n a]] r len; simpl; try discriminate; auto. Qed.

Lemma alt_padded_grows : grows alt_padded.
Proof. intros [|a [|b [|n [|z s]]]] r len; simpl; try discriminate; auto. Qed.

Lemma alt_angle_self_contained : self_contained alt_angle.
Proof.
  intros [|c s] len; simpl; [discriminate|].
  destruct (char_eqb c LT) eqn:Hc; [|discriminate].
  destruct (match_run_then re_not_gt GT s) as [k|] eqn:E; [|discriminate].
  intros H. injection H as <-. simpl. rewrite Hc.
  now rewrite (match_run_then_firstn _ _ s k E).
Qed.

Lemma alt_bracket_self_contained : self_contained alt_bracket.
Proof.
  intros [|c s] len; simpl; [discriminate|].
  destruct (char_eqb c Tokenizer.LBRACKET) eqn:Hc; [|discriminate].
  destruct (match_run_then re_AZ_ignorecase Tokenizer.RBRACKET s) as [k|] eqn:E;
    [|discriminate].
  intros H. injection H as <-. simpl. rewrite Hc.
  now rewrite (match_run_then_firstn _ _ s k E).
Qed.

Lemma alt_escape_self_contained : self_contained alt_escape.
Proof.
  intros [|b [|n s]] len; simpl; try discriminate.
  destruct (char_eqb b BACKSLASH && re_n_ignorecase n) eqn:E; [|discriminate].
  intros H. injection H as <-. simpl. now rewrite E.
Qed.

Lemma alt_padded_self_contained : self_contained alt_padded.
Proof.
  intros [|a [|b [|n [|z s]]]] len; simpl; try discriminate.
  destruct (char_eqb a SPACE && char_eqb b BACKSLASH && re_n_ignorecase n
            && char_eqb z SPACE) eqn:E; [|discriminate].
  intros H. injection H as <-. simpl. now rewrite E.
Qed.

Lemma grows_none (alt : str -> option nat) (s : str) (n : nat) :
  grows alt -> alt s = None -> alt (firstn n s) = None.
Proof.
  intros G H. destruct (alt (firstn n s)) as [l|] eqn:E; [|reflexivity].
  apply (G _ (skipn n s)) in E. rewrite firstn_skipn in E. congruence.
Qed.

(** A match of [_TAG_PATTERN] at the start of a text is a match at the
    start of any longer text. *)
Lemma match_tag_app (a r : str) :
  match_tag a <> None -> match_tag (a ++ r) <> None.
Proof.
  unfold match_tag, orelse. intros H.
  destruct (alt_angle a) as [l|] eqn:E1.
  { now rewrite (alt_angle_grows a r l E1). }
  destruct (alt_angle (a ++ r)); [discriminate|].
  destruct (alt_bracket a) as [l|] eqn:E2.
  { now rewrite (alt_bracket_grows a r l E2). }
  destruct (alt_bracket (a ++ r)); [discriminate|].
  destruct (alt_escape a) as [l|] eqn:E3.
  { now rewrite (alt_escape_grows a r l E3). }
  destruct (alt_escape (a ++ r)); [discriminate|].
  destruct (alt_padded a) as [l|] eqn:E4; [|congruence].
  now rewrite (alt_padded_grows a r l E4).
Qed.

(** The text of a match, alone, is matched whole. *)
Lemma match_tag_firstn (s : str) (len : nat) :
  match_tag s = Some len -> match_tag (firstn len s) = Some len.
Proof.
  unfold match_tag, orelse.
  destruct (alt_angle s) as [l|] eqn:E1.
  { intros H. injection H as <-. now rewrite (alt_angle_self_contained s l E1). }
  rewrite (grows_none alt_angle s len alt_angle_grows E1).
  destruct (alt_bracket s) as [l|] eqn:E2.
  { intros H. injection H as <-. now rewrite (alt_bracket_self_contained s l E2). }
  rewrite (grows_none alt_bracket s len alt_bracket_grows E2).
  destruct (alt_escape s) as [l|] eqn:E3.
  { intros H. injection H as <-. now rewrite (alt_escape_self_contained s l E3). }
  rewrite (grows_none alt_escape s len alt_escape_grows E3).
  apply alt_padded_self_contained.
Qed.

(** *** The spans of [finditer] and the text between them *)

(** No match starts at a position of [lo..hi). *)
Definition no_match (text : str) (lo hi : nat) : Prop :=
  forall i, lo <= i < hi -> match_tag (skipn i text) = None.

(** The spans [ms] are the matches of the text from [lo] on: each span is
    a match, and no match starts between two spans, before the first or
    after the last. *)
Fixpoint spans_of (text : str) (lo : nat) (ms : list (nat * nat)) : Prop :=
  match ms with
  | [] => no_match text lo (length text)
  | (a, b) :: ms' =>
      no_match text lo a /\ match_tag (skipn a text) = Some (b - a)
      /\ spans_of text b ms'
  end.

Lemma spans_of_extend (text : str) (lo : nat) (ms : list (nat * nat)) :
  match_tag (skipn lo text) = None -> spans_of text (S lo) ms -> spans_of text lo ms.
Proof.
  intros H0. assert (K : forall hi, no_match text (S lo) hi -> no_match text lo hi).
  { intros hi H i Hi. destruct (Nat.eq_dec i lo) as [->|Hne]; [exact H0|].
    apply H. lia. }
  destruct ms as [|[a b] ms]; simpl; [apply K|].
  intros (H1 & H2 & H3). repeat split; auto.
Qed.

Lemma finditer_from_spans (s : str) :
  forall (pre : str) (skip : nat),
    skip <= length s ->
    spans_of (pre ++ s) (length pre + skip) (finditer_from (length pre) skip s).
Proof.
  induction s as [|c s IH]; intros pre skip Hskip.
  - simpl. intros i Hi. rewrite length_app in Hi. simpl in *. lia.
  - assert (E : pre ++ c :: s = (pre ++ [c]) ++ s) by now rewrite <- app_assoc.
    assert (L : length (pre ++ [c]) = S (length pre))
      by (rewrite length_app; simpl; lia).
    simpl in Hskip. simpl finditer_from. destruct skip as [|k].
    + assert (E0 : skipn (length pre) (pre ++ c :: s) = c :: s).
      { rewrite skipn_app, skipn_all, Nat.sub_diag. reflexivity. }
      destruct (match_tag (c :: s)) as [len|] eqn:Hm.
      * pose proof (match_tag_bounds _ _ Hm) as Hb. simpl in Hb.
        simpl. split; [intros i Hi; lia|]. split.
        { rewrite E0, Hm. f_equal. lia. }
        specialize (IH (pre ++ [c]) (len - 1)). rewrite L, <- E in IH.
        replace (length pre + len) with (S (length pre) + (len - 1)) by lia.
        apply IH. lia.
      * apply spans_of_extend.
        { now rewrite Nat.add_0_r, E0. }
        specialize (IH (pre ++ [c]) 0). rewrite L, <- E in IH.
        rewrite !Nat.add_0_r in *. apply IH. lia.
    + specialize (IH (pre ++ [c]) k). rewrite L, <- E in IH.
      replace (length pre + S k) with (S (length pre) + k) by lia.
      apply IH. lia.
Qed.

Lemma finditer_spans (text : str) : spans_of text 0 (finditer text).
Proof. apply (finditer_from_spans text [] 0). lia. Qed.

Lemma finditer_from_skipped (s : str) :
  forall pos skip, length s <= skip -> finditer_from pos skip s = [].
Proof.
  induction s as [|c s IH]; intros pos skip H; [reflexivity|].
  simpl in *. destruct skip as [|k]; [lia|]. apply IH. lia.
Qed.

Lemma finditer_from_no_match (s : str) :
  forall pos, no_match s 0 (length s) -> finditer_from pos 0 s = [].
Proof.
  induction s as [|c s IH]; intros pos H; [reflexivity|].
  pose proof (H 0) as H0. simpl in H0. cbn [finditer_from].
  rewrite H0 by lia.
  apply IH. intros i Hi. apply (H (S i)). simpl. lia.
Qed.

(** The text between two matches, alone, has no match. *)
Lemma no_match_slice (text : str) (a b : nat) :
  b <= length text -> no_match text a b ->
  no_match (slice text a b) 0 (length (slice text a b)).
Proof.
  intros Hb H i Hi. unfold slice in *.
  rewrite length_firstn, length_skipn in Hi.
  destruct (match_tag (skipn i (firstn (b - a) (skipn a text)))) as [l|] eqn:E;
    [|reflexivity].
  exfalso.
  assert (K : match_tag (skipn i (firstn (b - a) (skipn a text))) <> None)
    by congruence.
  apply (match_tag_app _ (skipn (b - a) (skipn a text))) in K. apply K.
  assert (Hz : i - length (firstn (b - a) (skipn a text)) = 0)
    by (rewrite length_firstn, length_skipn; lia).
  pose proof (skipn_app i (firstn (b - a) (skipn a text))
                (skipn (b - a) (skipn a text))) as Ha.
  rewrite Hz, firstn_skipn, skipn_skipn in Ha.
  change (skipn 0 (skipn (b - a) (skipn a text)))
    with (skipn (b - a) (skipn a text)) in Ha.
  rewrite <- Ha. apply H. lia.
Qed.

Lemma literal_reads_as_itself (text : str) (a b : nat) :
  a < b -> b <= length text -> no_match text a b ->
  parse_tagged_text (slice text a b) = [(slice text a b, false)].
Proof.
  intros Hab Hb H.
  pose proof (slice_nonempty text a b Hab Hb) as Hne.
  pose proof (no_match_slice text a b Hb H) as Hn.
  unfold parse_tagged_text, finditer.
  rewrite (finditer_from_no_match _ 0 Hn).
  destruct (slice text a b) as [|c seg] eqn:E; [congruence|].
  cbn [truthy tag_loop]. rewrite slice_full. reflexivity.
Qed.

Lemma markup_reads_as_itself (s : str) (len : nat) :
  match_tag s = Some len ->
  parse_tagged_text (firstn len s) = [(firstn len s, true)].
Proof.
  intros Hm. pose proof (match_tag_bounds s len Hm) as Hb.
  pose proof (match_tag_firstn s len Hm) as Hf.
  assert (Hl : length (firstn len s) = len) by (rewrite length_firstn; lia).
  unfold parse_tagged_text, finditer.
  destruct (firstn len s) as [|c m] eqn:E; [simpl in Hl; lia|].
  cbn [truthy finditer_from]. rewrite Hf.
  rewrite (finditer_from_skipped m 1 (len - 1)) by (simpl in Hl; lia).
  cbn [tag_loop]. rewrite Nat.ltb_irrefl, Nat.add_0_l, Hl, Nat.ltb_irrefl.
  rewrite <- Hl. now rewrite slice_full.
Qed.

(** The segment, tokenized alone, is one segment: itself. *)
Definition reads_as_itself (seg : segment) : Prop :=
  parse_tagged_text (fst seg) = [seg].

Lemma tag_loop_reads_as_itself (text : str) (ms : list (nat * nat)) :
  forall last_end result,
    chained last_end (length text) ms -> spans_of text last_end ms ->
    Forall reads_as_itself result ->
    Forall reads_as_itself (fst (tag_loop text ms last_end result))
    /\ no_match text (snd (tag_loop text ms last_end result)) (length text).
Proof.
  induction ms as [|[a b] ms IH]; intros last_end result Hch Hsp Hres.
  - simpl. split; assumption.
  - simpl in Hch, Hsp. destruct Hch as (H1 & H2 & H3 & H4).
    destruct Hsp as (S1 & S2 & S3). cbn [tag_loop]. apply IH; auto.
    apply Forall_app. split.
    + destruct (last_end <? a) eqn:Hlt; [|exact Hres].
      apply Nat.ltb_lt in Hlt.
      destruct (truthy (slice text last_end a)); [|exact Hres].
      apply Forall_app. split; [exact Hres|]. constructor; [|constructor].
      apply literal_reads_as_itself; auto; lia.
    + constructor; [|constructor]. unfold reads_as_itself, slice. simpl fst.
      now apply markup_reads_as_itself.
Qed.

Lemma segments_read_as_themselves (text : str) :
  Forall reads_as_itself (parse_tagged_text text).
Proof.
  unfold parse_tagged_text. destruct (truthy text); [|constructor].
  pose proof (tag_loop_reads_as_itself text (finditer text) 0 []
                (finditer_chained text) (finditer_spans text) (Forall_nil _)) as H.
  pose proof (tag_loop_invariant text (finditer text) 0 []
                (finditer_chained text) (Nat.le_0_l _) eq_refl (Forall_nil _)) as Hi.
  destruct (tag_loop text (finditer text) 0 []) as [result last_end].
  destruct H as [Hr Hn]. simpl in Hr, Hn.
  destruct (last_end <? length text) eqn:Hlt; [|exact Hr].
  apply Nat.ltb_lt in Hlt.
  destruct (truthy (slice text last_end (length text))); [|exact Hr].
  apply Forall_app. split; [exact Hr|]. constructor; [|constructor].
  apply (literal_reads_as_itself text last_end (length text)); auto.
Qed.

(** [has_markup] and [parse_tagged_text] agree: a text has markup exactly
    when its tokenization has a markup segment. *)
Theorem has_markup_iff_markup_segment (text : str) :
  has_markup text = existsb snd (parse_tagged_text text).
Proof. apply has_markup_existsb. Qed.

(** The tokenization is stable: every segment of [parse_tagged_text],
    tokenized alone, is that one segment with its marking. So a literal
    segment holds no markup, and a markup segment is one match of
    [_TAG_PATTERN] and nothing else. *)
Theorem parse_tagged_text_segments_stable (text : str) :
  Forall (fun seg : segment => parse_tagged_text (fst seg) = [seg])
    (parse_tagged_text text).
Proof. apply segments_read_as_themselves. Qed.

(** ** The translator: what [translate_func] is given *)

Lemma rstrip_prefix (s : str) : exists post, s = rstrip s ++ post.
Proof.
  unfold rstrip. destruct (lstrip_suffix (rev s)) as (pre & _ & E).
  exists (rev pre). rewrite <- rev_app_distr, <- E. now rewrite rev_involutive.
Qed.

Lemma lstrip_app_keep (a b : str) : lstrip a <> [] -> lstrip (a ++ b) = lstrip a ++ b.
Proof.
  induction a as [|c a IH]; simpl; [congruence|].
  destruct (isspace c); auto.
Qed.

Lemma rstrip_app_keep (a b : str) : rstrip b <> [] -> rstrip (a ++ b) = a ++ rstrip b.
Proof.
  unfold rstrip. intros H. rewrite rev_app_distr, lstrip_app_keep.
  - now rewrite rev_app_distr, rev_involutive.
  - intros E. rewrite E in H. now apply H.
Qed.

(** A text is the white space at its start, its stripped text and the
    white space at its end. *)
Lemma strip_parts (s : str) :
  truthy (strip s) = true ->
  exists pre post,
    s = pre ++ strip s ++ post
    /\ length (lstrip s) = length (strip s ++ post)
    /\ rstrip s = pre ++ strip s.
Proof.
  intros Ht. destruct (lstrip_suffix s) as (pre & _ & E1).
  destruct (rstrip_prefix (lstrip s)) as (post & E2).
  fold (strip s) in E2. exists pre, post. split; [now rewrite <- E2|].
  split; [now rewrite <- E2|].
  rewrite E1 at 1. apply rstrip_app_keep. fold (strip s).
  intros E. rewrite E in Ht. discriminate.
Qed.

(** The white space that [smart_translate] puts back around a translation
    is the white space that the segment had around its stripped text. *)
Lemma reattach_strip (seg : str) :
  truthy (strip seg) = true -> leading seg ++ strip seg ++ trailing seg = seg.
Proof.
  intros Ht. destruct (strip_parts seg Ht) as (pre & post & E & Hl & Hr).
  unfold leading, trailing. rewrite Hr, Hl, slice_prefix.
  remember (strip seg) as st eqn:Est. clear Est Hl Hr Ht. subst seg.
  replace (length (pre ++ st ++ post) - length (st ++ post))
    with (length pre) by (rewrite !length_app; lia).
  rewrite firstn_app, firstn_all, Nat.sub_diag. simpl firstn. rewrite app_nil_r.
  do 2 f_equal. rewrite (app_assoc pre st post).
  now rewrite skipn_app, skipn_all, Nat.sub_diag.
Qed.

Lemma has_markup_false (x : str) :
  has_markup x = false <-> no_match x 0 (length x).
Proof.
  unfold has_markup. split.
  - intros H. pose proof (finditer_spans x) as Hs.
    destruct x as [|c x]; [intros i Hi; simpl in Hi; lia|].
    cbn [truthy] in H. destruct (finditer (c :: x)); [exact Hs|discriminate].
  - intros H. destruct (truthy x); [|reflexivity].
    unfold finditer. now rewrite (finditer_from_no_match x 0 H).
Qed.

(** A part of a text without markup has no markup. *)
Lemma has_markup_part (pre s post : str) :
  has_markup (pre ++ s ++ post) = false -> has_markup s = false.
Proof.
  rewrite !has_markup_false. intros H i Hi.
  destruct (match_tag (skipn i s)) as [l|] eqn:E; [|reflexivity]. exfalso.
  assert (K : match_tag (skipn i s) <> None) by congruence.
  apply (match_tag_app _ post) in K. apply K.
  specialize (H (length pre + i)).
  rewrite skipn_app in H.
  replace (skipn (length pre + i) pre) with (@nil char) in H
    by (symmetry; apply skipn_all2; lia).
  replace (length pre + i - length pre) with i in H by lia.
  rewrite skipn_app in H.
  replace (i - length s) with 0 in H by lia.
  apply H. rewrite !length_app. lia.
Qed.

Lemma has_markup_strip (s : str) : has_markup s = false -> has_markup (strip s) = false.
Proof.
  intros H. destruct (truthy (strip s)) eqn:Ht.
  - destruct (strip_parts s Ht) as (pre & post & E & _).
    rewrite E in H. now apply has_markup_part in H.
  - apply truthy_false in Ht. now rewrite Ht.
Qed.

Section Echo.

Variable W : Type.

(** A translate function that answers every text with the text itself. *)
Definition echo (s : str) (w : W) : translation * W := ((Some s, None), w).

Lemma translate_each_echo (segs : list segment) (w : W) :
  translate_each echo segs w = (segs, [], w).
Proof.
  induction segs as [|[seg is_tag] segs IH]; [reflexivity|].
  rewrite translate_each_cons.
  destruct (negb is_tag && truthy (strip seg)) eqn:Hc.
  - apply andb_true_iff in Hc. destruct Hc as [Htag Hs].
    destruct is_tag; [discriminate|].
    unfold echo at 1. rewrite IH. unfold reattach. rewrite Hs.
    now rewrite (reattach_strip seg Hs).
  - now rewrite IH.
Qed.

(** Translating with the identity gives the text back: for every text
    that is not blank, [smart_translate] with a translate function that
    returns its argument returns the text, character for character, and no
    error. The white space cut off around a segment is put back as it
    was. *)
Theorem smart_translate_echo (text : str) (w : W) :
  truthy (strip text) = true ->
  smart_translate echo text w = ((Some text, None), w).
Proof.
  intros Ht.
  destruct (forallb snd (parse_tagged_text text)
            || negb (existsb snd (parse_tagged_text text))) eqn:Hf.
  - unfold smart_translate. rewrite Ht, Hf.
    destruct text; [discriminate|reflexivity].
  - apply orb_false_iff in Hf. destruct Hf as [Hall Hany].
    apply negb_false_iff in Hany.
    rewrite (smart_translate_mixed W echo text w (conj Hany Hall)).
    rewrite translate_each_echo. now rewrite parse_tagged_text_contents.
Qed.

End Echo.

Lemma smart_translate_echo_witness :
  truthy (strip scenario) = true
  /\ smart_translate (echo unit) scenario tt = ((Some scenario, None), tt).
Proof.
  assert (H : truthy (strip scenario) = true) by (vm_compute; reflexivity).
  split; [exact H|]. exact (smart_translate_echo unit scenario tt H).
Defined.

Section Calls.

Variable W : Type.
Variable translate_func : str -> W -> translation * W.

(** [translate_func] with a record of the texts it was called with. *)
Definition logged (s : str) (st : W * list str) : translation * (W * list str) :=
  let '(r, w1) := translate_func s (fst st) in (r, (w1, snd st ++ [s])).

(** The texts of the literal segments that are not blank, stripped. *)
Definition texts_to_translate (segs : list segment) : list str :=
  map (fun seg : segment => strip (fst seg)) (filter translatable segs).

Lemma translate_each_logged (segs : list segment) :
  forall w log,
    translate_each logged segs (w, log)
    = let '(out, errs, w') := translate_each translate_func segs w in
      (out, errs, (w', log ++ texts_to_translate segs)).
Proof.
  induction segs as [|seg segs IH]; intros w log.
  - simpl. now rewrite app_nil_r.
  - unfold texts_to_translate. simpl. destruct (translatable seg) eqn:Hc.
    + unfold logged at 1. simpl fst. simpl snd.
      destruct (translate_func (strip (fst seg)) w) as [[tr err] w1].
      rewrite IH.
      destruct (translate_each translate_func segs w1) as [[out errs] w2].
      simpl. now rewrite <- app_assoc.
    + rewrite IH.
      now destruct (translate_each translate_func segs w) as [[out errs] w2].
Qed.

Lemma texts_to_translate_plain (text : str) :
  Forall (fun c => has_markup c = false /\ truthy c = true /\ trimmed c)
    (texts_to_translate (parse_tagged_text text)).
Proof.
  unfold texts_to_translate. apply Forall_forall. intros c Hc.
  apply in_map_iff in Hc. destruct Hc as ([seg is_tag] & <- & Hin).
  apply filter_In in Hin. destruct Hin as [Hin Ht].
  unfold translatable in Ht. simpl in *.
  apply andb_true_iff in Ht. destruct Ht as [Htag Hs].
  destruct is_tag; [discriminate|].
  split; [|split; [exact Hs|apply strip_trimmed]].
  apply has_markup_strip.
  pose proof (segments_read_as_themselves text) as H.
  rewrite Forall_forall in H. specialize (H _ Hin).
  unfold reads_as_itself in H. simpl in H.
  now rewrite has_markup_existsb, H.
Qed.

(** What [smart_translate] asks of [translate_func], for a text that mixes
    markup and literal segments: one call for every literal segment that
    is not blank, in the order of the text, with the stripped text of the
    segment. No call is given markup, a blank text or white space at the
    ends, and the record of the calls does not change what is returned. *)
Theorem smart_translate_calls (text : str) (w : W) :
  mixed text ->
  snd (snd (smart_translate logged text (w, [])))
  = texts_to_translate (parse_tagged_text text)
  /\ Forall (fun c => has_markup c = false /\ truthy c = true /\ trimmed c)
       (snd (snd (smart_translate logged text (w, []))))
  /\ fst (smart_translate logged text (w, []))
     = fst (smart_translate translate_func text w).
Proof.
  intros Hm.
  rewrite (smart_translate_mixed _ logged text (w, []) Hm).
  rewrite (smart_translate_mixed _ translate_func text w Hm).
  rewrite translate_each_logged.
  destruct (translate_each translate_func (parse_tagged_text text) w)
    as [[out errs] w'].
  simpl. split; [reflexivity|]. split; [|reflexivity].
  apply texts_to_translate_plain.
Qed.

End Calls.

Lemma smart_translate_calls_witness :
  mixed scenario
  /\ snd (snd (smart_translate (logged unit answer_X) scenario (tt, [])))
     = [py "Defeats"; py "Alive"; py "in"; py "battle"].
Proof.
  assert (Hm : mixed scenario) by (split; vm_compute; reflexivity).
  split; [exact Hm|].
  exact (proj1 (smart_translate_calls unit answer_X scenario tt Hm)).
Defined.

(** ** The catalogue: what every entry satisfies *)

Lemma appends_when_true (P : row -> Prop) (b : bool) (m : M unit) :
  (b = true -> appends P m) -> appends P (when b m).
Proof. intros H. destruct b; [now apply H|apply appends_ret]. Qed.

Lemma appends_bind_lift {A B : Type} (P : row -> Prop) (o : option A) (f : A -> M B) :
  (forall x, o = Some x -> appends P (f x)) -> appends P (mbind (lift o) f).
Proof.
  intros H. destruct o as [x|].
  - intros s. apply (H x eq_refl s).
  - intros s. exists []. split; [now rewrite app_nil_r|constructor].
Qed.

Section Entries.

Variable lib : pylib.
Variable base_parts : list str.
Variable extracted : node.

(** The source of the entry is a text that [_should_skip_source] lets
    through, and but for a locale entry no translation key; the entry of a
    manifest, of a UI descriptor or of a JSON file carries no translation,
    and a locale entry a string or none. *)
Definition entry_ok (r : row) : Prop :=
  skip lib (r_source r) = false
  /\ (r_type r <> LangFile -> is_key lib (r_source r) = false)
  /\ match r_type r with
     | Manifest | UiFile | GenericJson => r_translated r = None
     | LangFile => r_translated r = None \/ exists s, r_translated r = Some (JStr s)
     | CommonJson => True
     end.

Lemma eligible_entry (ty : source_type) (rel key s : str) (tr : option json) :
  eligible lib s = true ->
  match ty with
  | Manifest | UiFile | GenericJson => tr = None
  | LangFile => tr = None \/ exists x, tr = Some (JStr x)
  | CommonJson => True
  end ->
  entry_ok (make_row ty rel key s tr).
Proof.
  unfold eligible. intros H Ht. apply andb_true_iff in H. destruct H as [Hk Hs].
  apply negb_true_iff in Hk, Hs. repeat split; auto.
Qed.

Ltac entries_step :=
  lazymatch goal with
  | |- appends _ (ret _) => apply appends_ret
  | |- appends _ (mbind (lift _) _) => apply appends_bind_lift; intros ? ?
  | |- appends _ (lift _) => apply appends_lift
  | |- appends _ (try_pass _) => apply appends_try_pass
  | |- appends _ (when _ _) => apply appends_when_true; intros ?
  | |- appends _ (for_ _ _) => apply appends_for; intro
  | |- appends _ (mbind _ _) => apply appends_bind; [|intro]
  | |- appends _ (add_lang_key _) => apply appends_silent, silent_add_lang_key
  | |- appends _ (add_seen_ui _) => apply appends_silent, silent_add_seen_ui
  | |- appends _ (lang_key_seen _) => apply appends_silent, silent_lang_key_seen
  | |- appends _ (ui_seen _) => apply appends_silent, silent_ui_seen
  | |- appends _ (read_json _ _ _) => apply appends_read_json
  end.

Lemma entries_manifest_field (rel key : str) (v : option json) :
  appends entry_ok (manifest_field lib rel key v).
Proof.
  unfold manifest_field. apply appends_bind_lift. intros c Hc.
  destruct c as [s|]; [|apply appends_ret].
  apply appends_append_row. apply eligible_entry; [|reflexivity].
  unfold candidate in Hc. destruct v as [j|]; [|discriminate].
  destruct (json_truthy j); [|discriminate].
  destruct j; try discriminate.
  destruct (eligible lib s0) eqn:E; inversion Hc; now subst.
Qed.

Lemma entries_scan_manifest (names : list str) :
  appends entry_ok (scan_manifest lib extracted names).
Proof.
  induction names as [|n names IH]; simpl; [apply appends_ret|].
  destruct (is_file extracted [n]); [|exact IH].
  apply appends_try_pass. unfold manifest_body.
  apply appends_bind; [apply appends_read_json|intros data].
  apply appends_bind; [apply appends_lift|intros nm].
  apply appends_bind; [apply entries_manifest_field|intros _].
  apply appends_bind; [apply appends_lift|intros ds].
  apply appends_bind; [apply entries_manifest_field|intros _].
  apply appends_bind; [apply appends_lift|intros au].
  apply appends_bind; [apply appends_lift|intros items].
  generalize 0 as i. induction items as [|a items IHi]; intros i; simpl.
  - apply appends_ret.
  - apply appends_bind; [|intros _; apply IHi].
    destruct a; try apply appends_ret. apply entries_manifest_field.
Qed.

Lemma entries_scan_lang : appends entry_ok (scan_lang lib extracted).
Proof.
  unfold scan_lang. apply appends_when. apply appends_bind.
  - destruct (is_dir extracted ru_dir); [apply appends_read_ru_files|apply appends_ret].
  - intros ru. destruct (locale_dir extracted); [|apply appends_ret].
    unfold lang_file_body. repeat entries_step.
    apply appends_append_row. apply eligible_entry; [assumption|].
    destruct (Dict.get _ _); simpl; [right; eauto|now left].
Qed.

Lemma entries_scan_server_keys :
  appends entry_ok (scan_server_keys lib base_parts extracted).
Proof.
  unfold scan_server_keys. apply appends_when.
  destruct (locale_dir extracted) as [loc|]; [|apply appends_ret].
  apply appends_bind; [apply appends_read_en_files|intros en].
  destruct (glob_suffix extracted loc (py ".lang")); [apply appends_ret|].
  apply appends_when. apply appends_for. intros jf. apply appends_try_pass.
  apply appends_bind; [apply appends_read_json|intros data].
  apply appends_for. intros key. unfold server_key_body.
  apply appends_bind; [repeat entries_step|intros seen].
  apply appends_when. apply appends_bind; [repeat entries_step|intros _].
  apply appends_bind.
  { destruct (exists_ extracted ru_dir); [apply appends_ru_value|apply appends_ret]. }
  intros v. apply appends_when_true. intros Hs. apply negb_true_iff in Hs.
  apply appends_append_row. split; [exact Hs|]. split; [now intros []|].
  simpl. destruct v; simpl; [right; eauto|now left].
Qed.

Lemma entries_scan_common : appends entry_ok (scan_common lib extracted).
Proof.
  unfold scan_common. apply appends_when. apply appends_for. intros jf.
  destruct (starts_with (py "ru") (name jf)); [apply appends_ret|].
  apply appends_try_pass. unfold common_body.
  apply appends_bind; [apply appends_read_json|intros data].
  destruct data; try apply appends_ret.
  apply appends_bind.
  { destruct (exists_ extracted (parent jf ++ [py "ru_RU.json"]));
      [apply appends_read_json|apply appends_ret]. }
  intros ru_data. unfold common_members. apply appends_for. intros kv.
  destruct (snd kv); try apply appends_ret.
  - destruct (eligible lib s) eqn:E; [|apply appends_ret].
    apply appends_bind; [apply appends_lift|intros tr].
    apply appends_append_row. now apply eligible_entry.
  - apply appends_bind; [apply appends_lift|intros ru_inner].
    unfold common_inner.
    destruct ru_inner as [[]|]; try apply appends_ret;
      apply appends_for; intros kv2; destruct (snd kv2); try apply appends_ret;
      apply appends_when_true; intros E; apply appends_append_row;
      now apply eligible_entry.
Qed.

Lemma entries_scan_ui : appends entry_ok (scan_ui lib extracted).
Proof.
  unfold scan_ui. apply appends_for. intros uf.
  destruct (is_file extracted uf); [|apply appends_ret].
  apply appends_try_pass. unfold ui_body. repeat entries_step.
  apply appends_append_row.
  match goal with H : _ && _ && _ = true |- _ =>
    apply andb_true_iff in H; destruct H as [H _];
    apply andb_true_iff in H; destruct H as [_ H] end.
  now apply eligible_entry.
Qed.

Lemma entries_scan_json : appends entry_ok (scan_json lib base_parts extracted).
Proof.
  unfold scan_json. apply appends_for. intros jf. apply appends_try_pass.
  unfold json_body. repeat entries_step.
  apply appends_append_row.
  match goal with H : _ && _ = true |- _ =>
    apply andb_true_iff in H; destruct H as [_ H] end.
  now apply eligible_entry.
Qed.

Lemma entries_collect : appends entry_ok (collect lib base_parts extracted).
Proof.
  unfold collect.
  apply appends_bind; [apply entries_scan_manifest|intros _].
  apply appends_bind; [apply entries_scan_lang|intros _].
  apply appends_bind; [apply entries_scan_server_keys|intros _].
  apply appends_bind; [apply entries_scan_common|intros _].
  apply appends_bind; [apply entries_scan_ui|intros _].
  apply entries_scan_json.
Qed.

End Entries.

(** Every entry of the catalogue went through the filter: its source is a
    text that [_should_skip_source] does not skip (so it is not blank), and
    unless the entry is a locale entry, its source is no translation key.
    The entries of the manifest, of the UI descriptors and of the other
    JSON files never carry a translation, and a locale entry carries a
    string or nothing. *)
Theorem catalogue_entries_filtered (lib : pylib) (base_parts : list str)
    (extracted : node) (catalogue : list row) :
  collect_all_strings lib base_parts extracted = Some catalogue ->
  Forall (entry_ok lib) catalogue.
Proof.
  unfold collect_all_strings. intros H.
  destruct (entries_collect lib base_parts extracted start) as (new & E & Hnew).
  unfold after in E.
  destruct (collect lib base_parts extracted start) as [s [u|]]; [|discriminate].
  inversion H; subst. simpl in E. now rewrite E.
Qed.

Lemma catalogue_entries_filtered_witness :
  collect_all_strings (Run.table_lib demo_table) [] demo_tree = Some demo_catalogue
  /\ Forall (entry_ok (Run.table_lib demo_table)) demo_catalogue.
Proof.
  assert (Hc : collect_all_strings (Run.table_lib demo_table) [] demo_tree
               = Some demo_catalogue) by (vm_compute; reflexivity).
  split; [exact Hc|].
  exact (catalogue_entries_filtered (Run.table_lib demo_table) [] demo_tree
           demo_catalogue Hc).
Defined.

(** ** The texts of a JSON file: [_json_find_text_paths] and
    [_json_set_by_path] *)

(** Induction on a JSON value, with the property for the items of a list
    and for the values of an object. *)
Lemma json_induction (P : json -> Prop) :
  P JNull -> (forall b, P (JBool b)) -> (forall z, P (JInt z)) ->
  (forall f, P (JFloat f)) -> (forall s, P (JStr s)) ->
  (forall items, Forall P items -> P (JArr items)) ->
  (forall members, Forall (fun kv => P (snd kv)) members -> P (JObj members)) ->
  forall v, P v.
Proof.
  intros H1 H2 H3 H4 H5 H6 H7. fix IH 1.
  intros [ |b|z|f|s|items|members];
    [apply H1|apply H2|apply H3|apply H4|apply H5| | ].
  - apply H6. induction items as [|x items IHi]; constructor; [apply IH|exact IHi].
  - apply H7. induction members as [|[k x] members IHm]; constructor;
      [apply IH|exact IHm].
Qed.

(** The objects of the value have every key once, as the [dict]s that
    [json.loads] builds. *)
Fixpoint keys_distinct (ks : list pkey) : bool :=
  match ks with
  | [] => true
  | k :: rest => negb (existsb (pkey_eqb k) rest) && keys_distinct rest
  end.

Fixpoint unique_keys (v : json) : bool :=
  match v with
  | JObj members =>
      keys_distinct (map fst members)
      && forallb (fun kv => unique_keys (snd kv)) members
  | JArr items => forallb unique_keys items
  | _ => true
  end.

Lemma pkey_eqb_eq (a b : pkey) : pkey_eqb a b = true <-> a = b.
Proof.
  destruct a as [x|x], b as [y|y]; simpl; split; try discriminate; intros H.
  - apply str_eqb_eq in H. now subst.
  - inversion H. apply str_eqb_refl.
  - apply Z.eqb_eq in H. now subst.
  - inversion H. apply Z.eqb_refl.
Qed.

Lemma pkey_eqb_refl (a : pkey) : pkey_eqb a a = true.
Proof. now apply pkey_eqb_eq. Qed.

Lemma pkey_eqb_neq (a b : pkey) : pkey_eqb a b = false <-> a <> b.
Proof.
  destruct (pkey_eqb a b) eqn:E; split; try discriminate; intros H.
  - apply pkey_eqb_eq in E. contradiction.
  - intros ->. rewrite pkey_eqb_refl in E. discriminate.
  - reflexivity.
Qed.

(** Equality of paths. *)
Fixpoint path_eqb (p q : list pkey) : bool :=
  match p, q with
  | [], [] => true
  | a :: p', b :: q' => pkey_eqb a b && path_eqb p' q'
  | _, _ => false
  end.

Lemma path_eqb_refl (p : list pkey) : path_eqb p p = true.
Proof. induction p as [|a p IH]; simpl; auto. now rewrite pkey_eqb_refl. Qed.

Section FoundTexts.

Variable lib : pylib.

(** What one member of an object and the items of a list contribute to
    [_json_find_text_paths]. *)
Definition member_paths (path : list pkey) (kv : pkey * json)
    : list (list pkey * str) :=
  match snd kv with
  | JStr s =>
      if is_text_key lib (fst kv) then [(path ++ [fst kv], s)]
      else _json_find_text_paths lib (snd kv) (path ++ [fst kv])
  | _ => _json_find_text_paths lib (snd kv) (path ++ [fst kv])
  end.

Fixpoint items_paths (path : list pkey) (i : nat) (vs : list json)
    : list (list pkey * str) :=
  match vs with
  | [] => []
  | v :: vs' =>
      _json_find_text_paths lib v (path ++ [KInt (Z.of_nat i)])
      ++ items_paths path (S i) vs'
  end.

Lemma find_obj (members : list (pkey * json)) (path : list pkey) :
  _json_find_text_paths lib (JObj members) path
  = flat_map (member_paths path) members.
Proof.
  simpl. induction members as [|[k v] members IH]; [reflexivity|].
  simpl flat_map. rewrite <- IH. unfold member_paths. simpl fst. simpl snd.
  destruct v; reflexivity.
Qed.

Lemma find_arr (items : list json) (path : list pkey) :
  _json_find_text_paths lib (JArr items) path = items_paths path 0 items.
Proof.
  simpl. generalize 0. induction items as [|v items IH]; intros i; [reflexivity|].
  simpl. now rewrite IH.
Qed.

Definition under (pre : list pkey) (e : list pkey * str) : list pkey * str :=
  (pre ++ fst e, snd e).

Lemma under_under (pre k : list pkey) (l : list (list pkey * str)) :
  map (under pre) (map (under k) l) = map (under (pre ++ k)) l.
Proof.
  rewrite map_map. apply map_ext. intros [q s]. unfold under. simpl.
  now rewrite app_assoc.
Qed.

(** The paths found below [path] are the paths found from the root, with
    [path] before them. *)
Lemma find_under (obj : json) :
  forall pre, _json_find_text_paths lib obj pre
              = map (under pre) (_json_find_text_paths lib obj []).
Proof.
  induction obj as [ |b|z|f|s|items IH|members IH] using json_induction;
    intros pre; try reflexivity.
  - rewrite !find_arr. generalize 0.
    induction IH as [|v items Hv _ IHi]; intros i; [reflexivity|].
    simpl. rewrite map_app, <- IHi. f_equal.
    rewrite (Hv (pre ++ [KInt (Z.of_nat i)])), (Hv [KInt (Z.of_nat i)]).
    now rewrite under_under.
  - rewrite !find_obj.
    induction IH as [|[k v] members Hv _ IHm]; [reflexivity|].
    simpl flat_map. rewrite map_app, <- IHm. f_equal.
    unfold member_paths. simpl fst. simpl snd. simpl in Hv.
    assert (K : _json_find_text_paths lib v (pre ++ [k])
                = map (under pre) (_json_find_text_paths lib v ([] ++ [k]))).
    { rewrite (Hv (pre ++ [k])), (Hv ([] ++ [k])). now rewrite under_under. }
    destruct v; try exact K.
    destruct (is_text_key lib k); [reflexivity|exact K].
Qed.

(** The list of the texts found, with the text at [p] replaced by
    [value]. *)
Definition retarget (p : list pkey) (value : str) (e : list pkey * str)
    : list pkey * str :=
  if path_eqb (fst e) p then (fst e, value) else e.

Definition is_container (v : json) : bool := is_dict v || is_list v.

Lemma retarget_under (k : pkey) (rest : list pkey) (value : str)
    (l : list (list pkey * str)) :
  map (retarget (k :: rest) value) (map (under [k]) l)
  = map (under [k]) (map (retarget rest value) l).
Proof.
  rewrite !map_map. apply map_ext. intros [q s]. unfold retarget, under. simpl.
  rewrite pkey_eqb_refl. simpl. now destruct (path_eqb q rest).
Qed.

Lemma retarget_other (k k' : pkey) (rest : list pkey) (value : str)
    (l : list (list pkey * str)) :
  pkey_eqb k' k = false ->
  map (retarget (k :: rest) value) (map (under [k']) l) = map (under [k']) l.
Proof.
  intros H. rewrite map_map. apply map_ext. intros [q s].
  unfold retarget, under. simpl. now rewrite H.
Qed.

Lemma member_paths_under (kv : pkey * json) :
  exists l, member_paths [] kv = map (under [fst kv]) l.
Proof.
  destruct kv as [k v]. unfold member_paths. simpl fst. simpl snd.
  assert (K : exists l, _json_find_text_paths lib v ([] ++ [k]) = map (under [k]) l)
    by (eexists; apply find_under).
  destruct v; try exact K.
  destruct (is_text_key lib k); [|exact K]. now exists [([], s)].
Qed.

Lemma retarget_members (k : pkey) (rest : list pkey) (value : str)
    (ms : list (pkey * json)) :
  existsb (pkey_eqb k) (map fst ms) = false ->
  map (retarget (k :: rest) value) (flat_map (member_paths []) ms)
  = flat_map (member_paths []) ms.
Proof.
  induction ms as [|kv ms IH]; [reflexivity|]. simpl. intros H.
  apply orb_false_iff in H. destruct H as [Hk Hms].
  rewrite map_app, (IH Hms). f_equal.
  destruct (member_paths_under kv) as (l & ->).
  apply retarget_other. apply pkey_eqb_neq. apply pkey_eqb_neq in Hk. congruence.
Qed.

Lemma members_get_key (ms : list (pkey * json)) (k : pkey) (v : json) :
  members_get ms k = Some v -> existsb (pkey_eqb k) (map fst ms) = true.
Proof.
  induction ms as [|[k0 v0] ms IH]; simpl; [discriminate|].
  destruct (pkey_eqb k0 k) eqn:E.
  - intros _. apply pkey_eqb_eq in E. subst. now rewrite pkey_eqb_refl.
  - intros H. rewrite (IH H). apply orb_true_r.
Qed.

Lemma items_paths_other (value : str) (rest : list pkey) (vs : list json) :
  forall i j, i < j ->
    map (retarget (KInt (Z.of_nat i) :: rest) value) (items_paths [] j vs)
    = items_paths [] j vs.
Proof.
  induction vs as [|v vs IH]; intros i j Hij; [reflexivity|]. simpl.
  rewrite map_app, (IH i (S j)) by lia. f_equal.
  rewrite (find_under v). apply retarget_other. simpl. apply Z.eqb_neq. lia.
Qed.

(** The statement for one value: a text found at [p] can be set, and the
    texts found afterwards are those found before, with the text at [p]
    replaced. *)
Definition settable (obj : json) : Prop :=
  forall p s value,
    unique_keys obj = true ->
    In (p, s) (_json_find_text_paths lib obj []) ->
    exists obj',
      _json_set_by_path obj p value = Some obj'
      /\ is_container obj' = true
      /\ _json_find_text_paths lib obj' []
         = map (retarget p value) (_json_find_text_paths lib obj []).

Lemma set_nonempty (obj obj' : json) (p : list pkey) (value : str) :
  _json_set_by_path obj p value = Some obj' -> p <> [].
Proof. destruct p; [discriminate|discriminate]. Qed.

Lemma set_cons (obj : json) (k : pkey) (rest : list pkey) (value : str) :
  rest <> [] ->
  _json_set_by_path obj (k :: rest) value
  = match getitem obj k with
    | Some child =>
        match _json_set_by_path child rest value with
        | Some child' => setitem obj k child'
        | None => None
        end
    | None => None
    end.
Proof. destruct rest; [congruence|reflexivity]. Qed.

Lemma members_settable (p : list pkey) (s value : str) (ms : list (pkey * json)) :
  Forall (fun kv => settable (snd kv)) ms ->
  keys_distinct (map fst ms) = true ->
  forallb (fun kv => unique_keys (snd kv)) ms = true ->
  In (p, s) (flat_map (member_paths []) ms) ->
  exists ms', _json_set_by_path (JObj ms) p value = Some (JObj ms')
              /\ flat_map (member_paths []) ms'
                 = map (retarget p value) (flat_map (member_paths []) ms).
Proof.
  intros IH. induction IH as [|[k0 v0] ms Hv0 _ IHms]; [intros _ _ []|].
  simpl map. simpl keys_distinct. simpl forallb. simpl flat_map.
  intros Hd Hu Hin.
  apply andb_true_iff in Hd. destruct Hd as [Hk0 Hd]. apply negb_true_iff in Hk0.
  apply andb_true_iff in Hu. destruct Hu as [Hu0 Hu].
  apply in_app_or in Hin. destruct Hin as [Hin|Hin].
  - (* the text is in the first member *)
    unfold member_paths in Hin. simpl fst in Hin. simpl snd in Hin.
    assert (Deep : In (p, s) (_json_find_text_paths lib v0 ([] ++ [k0])) ->
                   is_container v0 = true ->
                   exists ms', _json_set_by_path (JObj ((k0, v0) :: ms)) p value
                               = Some (JObj ms')
                     /\ flat_map (member_paths []) ms'
                        = map (retarget p value)
                            (member_paths [] (k0, v0) ++ flat_map (member_paths []) ms)).
    { intros Hf Hc. rewrite find_under in Hf. apply in_map_iff in Hf.
      destruct Hf as ([rest s'] & E & Hf). unfold under in E. simpl in E.
      inversion E; subst p s'. clear E.
      destruct (Hv0 rest s value Hu0 Hf) as (v' & Hs & Hc' & Hfind).
      simpl snd in Hs, Hfind.
      pose proof (set_nonempty _ _ _ _ Hs) as Hne.
      exists ((k0, v') :: ms). split.
      - rewrite set_cons by assumption. cbn [getitem members_get].
        rewrite pkey_eqb_refl, Hs. cbn [setitem members_set].
        now rewrite pkey_eqb_refl.
      - simpl flat_map. rewrite map_app, (retarget_members k0 rest value ms Hk0).
        f_equal. unfold member_paths. simpl fst. simpl snd.
        assert (K : _json_find_text_paths lib v' ([] ++ [k0])
                    = map (retarget (k0 :: rest) value)
                        (_json_find_text_paths lib v0 ([] ++ [k0]))).
        { rewrite (find_under v'), (find_under v0), Hfind.
          symmetry. apply retarget_under. }
        destruct v'; try discriminate; destruct v0; try discriminate; exact K. }
    destruct v0; try (apply Deep; [exact Hin|reflexivity]);
      try (simpl in Hin; contradiction).
    destruct (is_text_key lib k0) eqn:Ek; [|simpl in Hin; contradiction].
    destruct Hin as [E|[]]. inversion E; subst p s0. clear E.
    exists ((k0, JStr value) :: ms). split.
    + simpl. now rewrite pkey_eqb_refl.
    + simpl flat_map. rewrite map_app, (retarget_members k0 [] value ms Hk0).
      f_equal. unfold member_paths. simpl. rewrite Ek. unfold retarget. simpl.
      now rewrite pkey_eqb_refl.
  - (* the text is in a later member *)
    destruct (IHms Hd Hu Hin) as (ms' & Hs & Hfind).
    destruct p as [|k rest]; [discriminate|].
    assert (Hk : pkey_eqb k0 k = false).
    { destruct (pkey_eqb k0 k) eqn:E; [|reflexivity].
      apply pkey_eqb_eq in E. subst k0. exfalso.
      assert (Hg : exists v, members_get ms k = Some v).
      { destruct rest as [|r rest].
        - clear - Hin. induction ms as [|kv ms IH]; [contradiction|].
          simpl in Hin. apply in_app_or in Hin. destruct Hin as [Hin|Hin].
          + destruct (member_paths_under kv) as (l & El). rewrite El in Hin.
            apply in_map_iff in Hin. destruct Hin as ([q t] & E & _).
            unfold under in E. simpl in E. inversion E; subst.
            destruct kv as [k v]. simpl. rewrite pkey_eqb_refl. eauto.
          + destruct (IH Hin) as (v & Hv). destruct kv as [k1 v1]. simpl.
            destruct (pkey_eqb k1 k); eauto.
        - rewrite set_cons in Hs by discriminate. simpl in Hs.
          destruct (members_get ms k); [eauto|discriminate]. }
      destruct Hg as (v & Hg). apply members_get_key in Hg. congruence. }
    exists ((k0, v0) :: ms'). split.
    + destruct rest as [|r rest].
      * cbn [_json_set_by_path setitem members_set] in *. rewrite Hk.
        now inversion Hs.
      * rewrite set_cons in Hs by discriminate. rewrite set_cons by discriminate.
        cbn [getitem members_get] in *. rewrite Hk.
        destruct (members_get ms k) as [child|]; [|discriminate].
        destruct (_json_set_by_path child (r :: rest) value) as [child'|];
          [|discriminate].
        cbn [setitem members_set] in *. rewrite Hk. now inversion Hs.
    + simpl flat_map. rewrite map_app, Hfind. f_equal.
      destruct (member_paths_under (k0, v0)) as (l & ->). symmetry.
      apply retarget_other. exact Hk.
Qed.

Lemma index_of_nat (len n : nat) : n < len -> index_of len (Z.of_nat n) = Some n.
Proof.
  intros H. unfold index_of.
  destruct (Z.of_nat n <? 0)%Z eqn:E1; [apply Z.ltb_lt in E1; lia|].
  destruct (0 <=? Z.of_nat n)%Z eqn:E2; [|apply Z.leb_gt in E2; lia].
  destruct (Z.of_nat n <? Z.of_nat len)%Z eqn:E3; [|apply Z.ltb_ge in E3; lia].
  simpl. now rewrite Nat2Z.id.
Qed.

Lemma length_list_set_at {A : Type} (l : list A) (i : nat) (x : A) :
  length (list_set_at l i x) = length l.
Proof.
  revert i. induction l as [|y l IH]; intros [|i]; simpl; auto.
Qed.

Lemma items_settable (p : list pkey) (s value : str) (vs : list json) :
  Forall settable vs ->
  forallb unique_keys vs = true ->
  forall i0,
    In (p, s) (items_paths [] i0 vs) ->
    exists n rest v v',
      p = KInt (Z.of_nat (i0 + n)) :: rest
      /\ nth_error vs n = Some v
      /\ _json_set_by_path v rest value = Some v'
      /\ items_paths [] i0 (list_set_at vs n v')
         = map (retarget p value) (items_paths [] i0 vs).
Proof.
  intros IH. induction IH as [|v0 vs Hv0 _ IHvs]; [intros _ i0 []|].
  simpl forallb. intros Hu i0 Hin.
  apply andb_true_iff in Hu. destruct Hu as [Hu0 Hu].
  simpl in Hin. apply in_app_or in Hin. destruct Hin as [Hin|Hin].
  - rewrite find_under in Hin. apply in_map_iff in Hin.
    destruct Hin as ([rest s'] & E & Hf). unfold under in E. simpl in E.
    inversion E; subst p s'. clear E.
    destruct (Hv0 rest s value Hu0 Hf) as (v' & Hs & Hc' & Hfind).
    exists 0, rest, v0, v'. rewrite Nat.add_0_r. repeat split; auto.
    simpl. rewrite map_app, (items_paths_other value rest vs i0 (S i0)) by lia.
    f_equal. rewrite (find_under v'), (find_under v0), Hfind.
    symmetry. apply retarget_under.
  - destruct (IHvs Hu (S i0) Hin) as (n & rest & v & v' & Ep & Hn & Hs & Hfind).
    exists (S n), rest, v, v'.
    replace (i0 + S n) with (S i0 + n) by lia. repeat split; auto.
    simpl. rewrite map_app, Hfind. f_equal.
    rewrite (find_under v0). symmetry. rewrite Ep.
    apply retarget_other. simpl. apply Z.eqb_neq. lia.
Qed.

Lemma found_text_settable (obj : json) : settable obj.
Proof.
  induction obj as [ |b|z|f|s|items IH|members IH] using json_induction;
    intros p t value Hu Hin; try contradiction.
  - rewrite find_arr in Hin. simpl in Hu.
    destruct (items_settable p t value items IH Hu 0 Hin)
      as (n & rest & v & v' & Ep & Hn & Hs & Hfind).
    simpl in Ep. subst p.
    assert (Hlen : n < length items) by (apply nth_error_Some; congruence).
    exists (JArr (list_set_at items n v')). split; [|split; [reflexivity|]].
    + rewrite set_cons by (apply (set_nonempty _ _ _ _ Hs)).
      cbn [getitem]. rewrite (index_of_nat _ _ Hlen), Hn, Hs.
      cbn [setitem]. now rewrite (index_of_nat _ _ Hlen).
    + now rewrite !find_arr.
  - rewrite find_obj in Hin. simpl in Hu.
    apply andb_true_iff in Hu. destruct Hu as [Hd Hu].
    destruct (members_settable p t value members IH Hd Hu Hin) as (ms' & Hs & Hfind).
    exists (JObj ms'). split; [exact Hs|]. split; [reflexivity|].
    now rewrite !find_obj.
Qed.

End FoundTexts.

(** ** The keys of the JSON entries: [_path_to_key_str] and
    [_key_str_to_path] *)

(** A character at which [_key_str_to_path] splits. *)
Definition is_separator (c : char) : bool :=
  char_eqb c Writer.DOT || char_eqb c Writer.LBRACKET || char_eqb c Writer.RBRACKET.

Definition no_separator (s : str) : bool := forallb (fun c => negb (is_separator c)) s.

Lemma split_path_go_plain (s : str) :
  no_separator s = true ->
  forall cur rest, split_path_go cur (s ++ rest) = split_path_go (cur ++ s) rest.
Proof.
  induction s as [|c s IH]; intros H cur rest; simpl.
  - now rewrite app_nil_r.
  - simpl in H. apply andb_true_iff in H. destruct H as [Hc Hs].
    apply negb_true_iff in Hc. unfold is_separator in Hc. rewrite Hc.
    rewrite (IH Hs). now rewrite <- app_assoc.
Qed.

Lemma split_path_go_sep (c : char) (cur s : str) :
  is_separator c = true -> split_path_go cur (c :: s) = cur :: split_path_go [] s.
Proof. intros H. simpl. unfold is_separator in H. now rewrite H. Qed.

Lemma string_of_uint_digits (u : Decimal.uint) :
  forallb (in_range 48 57) (py (NilEmpty.string_of_uint u)) = true.
Proof. induction u; simpl; auto. Qed.

Lemma str_of_Z_no_separator (z : Z) : (0 <= z)%Z -> no_separator (str_of_Z z) = true.
Proof.
  intros Hz. unfold str_of_Z.
  destruct (z <? 0)%Z eqn:E; [apply Z.ltb_lt in E; lia|].
  unfold str_of_nat, no_separator.
  pose proof (string_of_uint_digits (Nat.to_uint (Z.to_nat z))) as H.
  rewrite forallb_forall in *. intros c Hc. specialize (H c Hc).
  unfold in_range in H. apply andb_true_iff in H. destruct H as [H1 H2].
  apply N.leb_le in H1, H2. unfold is_separator, char_eqb.
  apply negb_true_iff. repeat (apply orb_false_iff; split);
    apply N.eqb_neq; unfold Writer.DOT, Writer.LBRACKET, Writer.RBRACKET; lia.
Qed.

Section KeyStrings.

Variable lib : pylib.

(** A key that [_key_str_to_path] reads back: a string that is not empty,
    holds none of [.], [[] and []] and is not a number; or a position of a
    list, whose decimal text [int] reads back. *)
Definition plain_key (k : pkey) : Prop :=
  match k with
  | KStr s => truthy s = true /\ no_separator s = true /\ str_isdigit lib s = false
  | KInt z =>
      (0 <= z)%Z /\ str_isdigit lib (str_of_Z z) = true
      /\ py_int lib (str_of_Z z) = Some z
  end.

Lemma path_elements_cons (a : str) (parts : list str) :
  path_elements lib (a :: parts)
  = match path_elements lib [a], path_elements lib parts with
    | Some x, Some y => Some (x ++ y)
    | _, _ => None
    end.
Proof.
  simpl. destruct (truthy a); [|now destruct (path_elements lib parts)].
  destruct (if str_isdigit lib a then _ else _) as [e|]; [|reflexivity].
  simpl. now destruct (path_elements lib parts).
Qed.

Lemma path_elements_str (s : str) :
  plain_key (KStr s) -> path_elements lib [s] = Some [KStr s].
Proof. intros (H1 & _ & H3). simpl. now rewrite H1, H3. Qed.

Lemma path_elements_int (z : Z) :
  plain_key (KInt z) -> path_elements lib [str_of_Z z] = Some [KInt z].
Proof.
  intros (_ & H2 & H3). simpl. rewrite H2, H3.
  unfold str_isdigit in H2. apply andb_true_iff in H2. now rewrite (proj1 H2).
Qed.

Lemma key_str_tail (p : list pkey) :
  Forall plain_key p ->
  forall cur,
    path_elements lib (split_path_go cur (concat (path_parts false p)))
    = match path_elements lib [cur] with
      | Some a => Some (a ++ p)
      | None => None
      end.
Proof.
  intros H. induction H as [|k p Hk _ IH]; intros cur.
  - simpl concat. cbn [split_path_go].
    destruct (path_elements lib [cur]); [now rewrite app_nil_r|reflexivity].
  - destruct k as [s|z]; cbn [path_parts concat].
    + change ((py "." ++ s) ++ concat (path_parts false p))
        with (Writer.DOT :: (s ++ concat (path_parts false p))).
      rewrite split_path_go_sep by reflexivity.
      rewrite split_path_go_plain by apply Hk. simpl app.
      rewrite (path_elements_cons cur (split_path_go s _)).
      rewrite IH, (path_elements_str s Hk).
      now destruct (path_elements lib [cur]).
    + replace ((py "[" ++ str_of_Z z ++ py "]") ++ concat (path_parts false p))
        with (Writer.LBRACKET
              :: (str_of_Z z ++ Writer.RBRACKET :: concat (path_parts false p)))
        by (simpl; now rewrite <- app_assoc).
      rewrite split_path_go_sep by reflexivity.
      rewrite split_path_go_plain by (apply str_of_Z_no_separator, Hk).
      simpl app. rewrite split_path_go_sep by reflexivity.
      rewrite (path_elements_cons cur (str_of_Z z :: _)).
      rewrite (path_elements_cons (str_of_Z z) (split_path_go [] _)).
      rewrite IH, (path_elements_int z Hk).
      simpl (path_elements lib [[]]).
      now destruct (path_elements lib [cur]).
Qed.

Lemma key_str_round_trip (p : list pkey) :
  Forall plain_key p -> _key_str_to_path lib (_path_to_key_str p) = Some p.
Proof.
  intros H. unfold _key_str_to_path, _path_to_key_str.
  destruct H as [|k p Hk Hp]; [reflexivity|].
  destruct k as [s|z].
  - cbn [path_parts concat].
    destruct Hk as (H1 & H2 & H3).
    assert (E : lstrip_dots (s ++ concat (path_parts false p))
                = s ++ concat (path_parts false p)).
    { destruct s as [|c s]; [discriminate|]. simpl in H2.
      apply andb_true_iff in H2. destruct H2 as [Hc _].
      apply negb_true_iff in Hc. unfold is_separator in Hc.
      apply orb_false_iff in Hc. destruct Hc as [Hc _].
      apply orb_false_iff in Hc. destruct Hc as [Hc _].
      simpl. change Filter.DOT with Writer.DOT. now rewrite Hc. }
    rewrite E, split_path_go_plain by assumption. simpl app.
    rewrite (key_str_tail p Hp s).
    now rewrite (path_elements_str s (conj H1 (conj H2 H3))).
  - change (path_parts true (KInt z :: p)) with (path_parts false (KInt z :: p)).
    assert (E : lstrip_dots (concat (path_parts false (KInt z :: p)))
                = concat (path_parts false (KInt z :: p))) by reflexivity.
    rewrite E. rewrite (key_str_tail (KInt z :: p) (Forall_cons _ Hk Hp) []).
    reflexivity.
Qed.

End KeyStrings.

(** The key written for a path is read back as the path:
    [_key_str_to_path(_path_to_key_str(path)) == path], when the keys of
    the path are positions of lists and strings that are not empty, are no
    numbers, and hold none of the characters [.], [[] and []]. *)
Theorem key_str_to_path_round_trip (lib : pylib) (p : list pkey) :
  Forall (plain_key lib) p -> _key_str_to_path lib (_path_to_key_str p) = Some p.
Proof. apply key_str_round_trip. Qed.

(** An item with a name and a list of tags. *)
Definition item_data : json :=
  JObj [ (KStr (py "item"),
          JObj [ (KStr (py "name"), JStr (py "Sword"));
                 (KStr (py "tags"),
                  JArr [ JObj [ (KStr (py "label"), JStr (py "Sharp")) ] ]) ]) ].

Definition label_path : list pkey :=
  [KStr (py "item"); KStr (py "tags"); KInt 0; KStr (py "label")].

Lemma label_path_plain : Forall (plain_key (Run.table_lib [])) label_path.
Proof.
  repeat constructor; try (vm_compute; reflexivity). vm_compute. discriminate.
Qed.

Lemma key_str_to_path_round_trip_witness :
  Forall (plain_key (Run.table_lib [])) label_path
  /\ _path_to_key_str label_path = py "item.tags[0].label"
  /\ _key_str_to_path (Run.table_lib []) (_path_to_key_str label_path)
     = Some label_path.
Proof.
  split; [exact label_path_plain|]. split; [reflexivity|].
  exact (key_str_to_path_round_trip (Run.table_lib []) label_path label_path_plain).
Defined.

(** A text that [_json_find_text_paths] found can be written back under
    its key: for a value whose objects have every key once and a text
    found at a path of plain keys, the step of [save_all_translations] for
    the key [_path_to_key_str(path)] does not raise, and the texts found
    in the new value are the texts found before, in their order, with the
    text at that path replaced by the translation and every other text
    unchanged. *)
Theorem json_set_found_text (lib : pylib) (data : json) (p : list pkey)
    (s value : str) :
  unique_keys data = true ->
  In (p, s) (_json_find_text_paths lib data []) ->
  Forall (plain_key lib) p ->
  exists data',
    json_set lib data (_path_to_key_str p, value) = Some data'
    /\ _json_find_text_paths lib data' []
       = map (retarget p value) (_json_find_text_paths lib data []).
Proof.
  intros Hu Hin Hp.
  destruct (found_text_settable lib data p s value Hu Hin) as (data' & Hs & _ & Hf).
  exists data'. split; [|exact Hf].
  unfold json_set. simpl fst. simpl snd.
  now rewrite (key_str_round_trip lib p Hp).
Qed.

Lemma json_set_found_text_witness :
  unique_keys item_data = true
  /\ In (label_path, py "Sharp") (_json_find_text_paths (Run.table_lib []) item_data [])
  /\ Forall (plain_key (Run.table_lib [])) label_path
  /\ exists data',
       json_set (Run.table_lib []) item_data (py "item.tags[0].label", py "Ostry")
       = Some data'
       /\ _json_find_text_paths (Run.table_lib []) data' []
          = [ ([KStr (py "item"); KStr (py "name")], py "Sword");
              (label_path, py "Ostry") ].
Proof.
  assert (H1 : unique_keys item_data = true) by (vm_compute; reflexivity).
  assert (H2 : In (label_path, py "Sharp")
                 (_json_find_text_paths (Run.table_lib []) item_data []))
    by (right; left; reflexivity).
  split; [exact H1|]. split; [exact H2|]. split; [exact label_path_plain|].
  exact (json_set_found_text (Run.table_lib []) item_data label_path (py "Sharp")
           (py "Ostry") H1 H2 label_path_plain).
Defined.

(** ** The translation JSON: what [save_all_translations] writes is what
    [collect_all_strings] looks up *)

Lemma members_get_set_same (o : list (pkey * json)) (k : pkey) (v : json) :
  members_get (members_set o k v) k = Some v.
Proof.
  induction o as [|[k0 v0] o IH]; simpl.
  - now rewrite pkey_eqb_refl.
  - destruct (pkey_eqb k0 k) eqn:E; simpl; now rewrite E.
Qed.

Lemma members_get_set_other (o : list (pkey * json)) (k k' : pkey) (v : json) :
  k' <> k -> members_get (members_set o k v) k' = members_get o k'.
Proof.
  intros Hne. induction o as [|[k0 v0] o IH]; simpl.
  - destruct (pkey_eqb k k') eqn:E; [|reflexivity].
    apply pkey_eqb_eq in E. congruence.
  - destruct (pkey_eqb k0 k) eqn:E; simpl.
    + apply pkey_eqb_eq in E. subst k0.
      destruct (pkey_eqb k k') eqn:E'; [|reflexivity].
      apply pkey_eqb_eq in E'. congruence.
    + now rewrite IH.
Qed.

Lemma split_first_dot_plain (k : str) :
  char_in Writer.DOT k = false -> split_first_dot k = (k, None).
Proof. intros H. unfold split_first_dot. now rewrite H. Qed.

Lemma split_first_dot_nested (k k2 : str) :
  char_in Writer.DOT k = false -> split_first_dot (k ++ py "." ++ k2) = (k, Some k2).
Proof.
  intros H. unfold split_first_dot.
  assert (Hd : char_in Writer.DOT (k ++ py "." ++ k2) = true).
  { unfold char_in. rewrite existsb_app. simpl. apply orb_true_r. }
  rewrite Hd. change (py ".") with [Writer.DOT].
  now rewrite (partition_char_mid Writer.DOT k k2 H).
Qed.

(** The translation of an entry of a translation JSON is found again where
    [collect_all_strings] looks for it. For the key [k] of a text at the
    top level, [ru_data.get(k)] is the translation; for the key [k.k2] of
    a text one level down, [ru_data.get(k)] is an object and its
    [get(k2)] is the translation. The other keys of [ru_RU.json], and the
    other keys of the object of [k] when there was one, keep their values.
    The key [k] must hold no dot. *)
Theorem common_set_read_back (o : list (pkey * json)) (k k2 val : str) :
  char_in Writer.DOT k = false ->
  (exists o',
     common_set (JObj o) (k, val) = Some (JObj o')
     /\ members_get o' (KStr k) = Some (JStr val)
     /\ forall k', k' <> KStr k -> members_get o' k' = members_get o k')
  /\ (exists o' inner,
        common_set (JObj o) (k ++ py "." ++ k2, val) = Some (JObj o')
        /\ members_get o' (KStr k) = Some (JObj inner)
        /\ members_get inner (KStr k2) = Some (JStr val)
        /\ (forall k', k' <> KStr k -> members_get o' k' = members_get o k')
        /\ (forall old, members_get o (KStr k) = Some (JObj old) ->
            forall k', k' <> KStr k2 -> members_get inner k' = members_get old k')).
Proof.
  intros Hk. split.
  - exists (members_set o (KStr k) (JStr val)). unfold common_set.
    cbn [fst snd]. rewrite (split_first_dot_plain k Hk).
    split; [reflexivity|]. split.
    + apply members_get_set_same.
    + intros k' Hne. now apply members_get_set_other.
  - unfold common_set. cbn [fst snd]. rewrite (split_first_dot_nested k k2 Hk).
    cbn [str_in getitem bind].
    destruct (members_get o (KStr k)) as [c|] eqn:Eg; cbn [bind].
    + destruct (is_dict c) eqn:Ec; cbn [negb bind setitem getitem].
      * destruct c; try discriminate. rewrite Eg. cbn [bind setitem].
        eexists. eexists. split; [reflexivity|].
        split; [apply members_get_set_same|].
        split; [apply members_get_set_same|].
        split; [intros k' Hne; now apply members_get_set_other|].
        intros old' Ho k' Hne. inversion Ho; subst. now apply members_get_set_other.
      * rewrite members_get_set_same. cbn [bind setitem].
        eexists. eexists. split; [reflexivity|].
        split; [apply members_get_set_same|].
        split; [apply members_get_set_same|].
        split; [intros k' Hne; now rewrite !members_get_set_other by assumption|].
        intros old' Ho. inversion Ho; subst. discriminate.
    + cbn [bind setitem getitem]. rewrite members_get_set_same. cbn [bind setitem].
      eexists. eexists. split; [reflexivity|].
      split; [apply members_get_set_same|].
      split; [apply members_get_set_same|].
      split; [intros k' Hne; now rewrite !members_get_set_other by assumption|].
      intros old' Ho. discriminate.
Qed.

(** A [ru_RU.json] with the translation of one item. *)
Definition ru_items : list (pkey * json) :=
  [ (KStr (py "items"), JObj [ (KStr (py "sword"), JStr (py "Mech")) ]) ].

Lemma common_set_read_back_witness :
  char_in Writer.DOT (py "items") = false
  /\ (exists o',
        common_set (JObj ru_items) (py "items", py "Topor") = Some (JObj o')
        /\ members_get o' (KStr (py "items")) = Some (JStr (py "Topor"))
        /\ forall k', k' <> KStr (py "items") ->
                      members_get o' k' = members_get ru_items k')
  /\ (exists o' inner,
        common_set (JObj ru_items) (py "items" ++ py "." ++ py "axe", py "Topor")
        = Some (JObj o')
        /\ members_get o' (KStr (py "items")) = Some (JObj inner)
        /\ members_get inner (KStr (py "axe")) = Some (JStr (py "Topor"))
        /\ (forall k', k' <> KStr (py "items") ->
                       members_get o' k' = members_get ru_items k')
        /\ (forall old, members_get ru_items (KStr (py "items")) = Some (JObj old) ->
            forall k', k' <> KStr (py "axe") ->
                       members_get inner k' = members_get old k')).
Proof.
  assert (H : char_in Writer.DOT (py "items") = false) by reflexivity.
  split; [exact H|].
  exact (common_set_read_back ru_items (py "items") (py "axe") (py "Topor") H).
Defined.

(** ** The UI descriptors: [extract_ui_strings] and
    [apply_ui_translations] *)

Import Ui.

Lemma sub_from_untouched (replacements : list (str * str)) (s : str) :
  forall pos skip,
    (forall e, In e (extract_from pos skip s) ->
               lookup_translation replacements (snd e) = None) ->
    sub_from replacements skip s = skipn skip s.
Proof.
  induction s as [|c s IH]; intros pos skip H; [now destruct skip|].
  destruct skip as [|k].
  - cbn [sub_from extract_from skipn] in *.
    destruct (match_ui (c :: s)) as [[pre n]|] eqn:Em.
    + pose proof (H _ (or_introl eq_refl)) as H0. cbn [snd] in H0. rewrite H0.
      rewrite (IH (S pos) (pre + n)) by (intros e He; apply H; now right).
      replace (pre + n + 1) with (S (pre + n)) by lia.
      apply (firstn_skipn (S (pre + n)) (c :: s)).
    + now rewrite (IH (S pos) 0 H).
  - cbn [sub_from extract_from skipn] in *. now apply (IH (S pos) k).
Qed.

(** When no pair of the replacements applies to a text of the descriptor
    (no text that [extract_ui_strings] returns is the source of a pair with
    a translation that is not empty), [apply_ui_translations] returns the
    content unchanged, character for character. *)
Theorem apply_ui_translations_untouched (content : str)
    (replacements : list (str * str)) :
  (forall e, In e (extract_ui_strings content) ->
             lookup_translation replacements (snd e) = None) ->
  apply_ui_translations content replacements = content.
Proof.
  intros H. unfold apply_ui_translations.
  destruct replacements as [|r rs]; [reflexivity|].
  apply (sub_from_untouched (r :: rs) content 0 0 H).
Qed.

Definition hud : str :=
  py "Label { Text: " ++ [QUOTE] ++ py "Hello" ++ [QUOTE] ++ py "; }".

Lemma apply_ui_translations_untouched_witness :
  (forall e, In e (extract_ui_strings hud) ->
             lookup_translation [(py "Bye", py "Poka"); (py "Hello", [])] (snd e) = None)
  /\ apply_ui_translations hud [(py "Bye", py "Poka"); (py "Hello", [])] = hud.
Proof.
  assert (H : forall e, In e (extract_ui_strings hud) ->
                lookup_translation [(py "Bye", py "Poka"); (py "Hello", [])] (snd e)
                = None).
  { intros e He. vm_compute in He. destruct He as [<-|[]]. reflexivity. }
  split; [exact H|].
  exact (apply_ui_translations_untouched hud _ H).
Defined.

(** *** What a match of [_UI_TEXT_PATTERN] is made of *)

Definition no_quote (s : str) : bool := forallb re_not_quote s.

Lemma span_all (p : char -> bool) (a b : str) :
  forallb p a = true -> span p (a ++ b) = length a + span p b.
Proof.
  induction a as [|c a IH]; simpl; [reflexivity|]. intros H.
  apply andb_true_iff in H. destruct H as [Hc Ha]. now rewrite Hc, (IH Ha).
Qed.

Lemma span_split (p : char -> bool) (s : str) :
  forallb p (firstn (span p s) s) = true
  /\ match nth_error s (span p s) with Some d => p d = false | None => True end.
Proof.
  induction s as [|c s [IH1 IH2]]; simpl; [auto|].
  destruct (p c) eqn:Hc; simpl; [now rewrite Hc|auto].
Qed.

Lemma split_at_quote (s : str) :
  char_in QUOTE s = true ->
  exists V R, s = V ++ QUOTE :: R /\ no_quote V = true.
Proof.
  induction s as [|c s IH]; simpl; [discriminate|].
  destruct (char_eqb QUOTE c) eqn:Ec; simpl.
  - intros _. apply N.eqb_eq in Ec. subst c. now exists [], s.
  - intros H. destruct (IH H) as (V & R & E & HV). exists (c :: V), R.
    split; [now rewrite E|]. simpl. rewrite HV.
    unfold re_not_quote, char_eqb in *. rewrite N.eqb_sym, Ec. reflexivity.
Qed.

Lemma first_quote_unique (X X' R R' : str) :
  no_quote X = true -> no_quote X' = true ->
  X ++ QUOTE :: R = X' ++ QUOTE :: R' -> X = X' /\ R = R'.
Proof.
  revert X'. induction X as [|c X IH]; intros [|c' X'] H H' E; simpl in *.
  - inversion E. auto.
  - inversion E; subst c'. discriminate.
  - inversion E; subst c. discriminate.
  - apply andb_true_iff in H, H'. destruct H as [_ H]. destruct H' as [_ H'].
    inversion E; subst c'. destruct (IH X' H H' H2) as [-> ->]. auto.
Qed.

Lemma no_quote_char_in (s : str) : no_quote s = true -> char_in QUOTE s = false.
Proof.
  unfold no_quote, char_in. induction s as [|c s IH]; simpl; [reflexivity|].
  intros H. apply andb_true_iff in H. destruct H as [Hc Hs].
  rewrite (IH Hs). unfold re_not_quote, char_eqb in *.
  apply negb_true_iff in Hc. now rewrite N.eqb_sym, Hc.
Qed.

Lemma spaces_no_quote (s : str) : forallb isspace s = true -> no_quote s = true.
Proof.
  unfold no_quote. induction s as [|c s IH]; simpl; [reflexivity|].
  intros H. apply andb_true_iff in H. destruct H as [Hc Hs]. rewrite (IH Hs).
  unfold re_not_quote. destruct (char_eqb c QUOTE) eqn:E; [|reflexivity].
  apply N.eqb_eq in E. subst c. discriminate.
Qed.

(** The quoted value after the marker. *)
Lemma m_quoted_some (s : str) (n : nat) :
  m_quoted s = Some n ->
  exists V R, s = QUOTE :: V ++ QUOTE :: R /\ n = length V /\ no_quote V = true.
Proof.
  unfold m_quoted. destruct s as [|q s]; [discriminate|].
  destruct (char_eqb q QUOTE) eqn:Eq; [|discriminate].
  apply N.eqb_eq in Eq. subst q.
  destruct (span_split re_not_quote s) as [H1 H2].
  destruct (nth_error s (span re_not_quote s)) as [d|] eqn:Ed; [|discriminate].
  intros E. inversion E; subst n. clear E.
  assert (Hd : d = QUOTE).
  { unfold re_not_quote in H2. apply negb_false_iff in H2. now apply N.eqb_eq in H2. }
  subst d. apply nth_error_split in Ed. destruct Ed as (V & R & E & Hl).
  exists V, R. split; [now rewrite E at 1|]. split; [now symmetry|].
  rewrite <- Hl in H1. rewrite E in H1.
  rewrite firstn_app, Nat.sub_diag, firstn_all in H1.
  simpl in H1. now rewrite app_nil_r in H1.
Qed.

Lemma m_quoted_intro (V R : str) :
  no_quote V = true -> m_quoted (QUOTE :: V ++ QUOTE :: R) = Some (length V).
Proof.
  intros H. unfold m_quoted. change (char_eqb QUOTE QUOTE) with true. cbv iota.
  rewrite (span_all re_not_quote V (QUOTE :: R) H). simpl span.
  change (re_not_quote QUOTE) with false. cbv iota. rewrite Nat.add_0_r.
  now rewrite nth_error_app2, Nat.sub_diag by lia.
Qed.

Lemma spaces_split (s : str) :
  exists W r, s = W ++ r /\ forallb isspace W = true /\ spaces s = length W
              /\ match r with c :: _ => isspace c = false | [] => True end.
Proof.
  unfold spaces. induction s as [|c s (W & r & E & HW & Hl & Hr)]; simpl.
  - exists [], []. auto.
  - destruct (isspace c) eqn:Hc.
    + exists (c :: W), r. simpl. rewrite Hc, HW, Hl, E at 1. auto.
    + exists [], (c :: s). simpl. auto.
Qed.

Lemma spaces_intro (W r : str) :
  forallb isspace W = true ->
  match r with c :: _ => isspace c = false | [] => True end ->
  spaces (W ++ r) = length W.
Proof.
  intros HW Hr. unfold spaces. rewrite (span_all isspace W r HW).
  destruct r as [|c r]; simpl; [lia|]. rewrite Hr. lia.
Qed.

Lemma skipn_length_app (a b : str) : skipn (length a) (a ++ b) = b.
Proof. now rewrite skipn_app, skipn_all, Nat.sub_diag. Qed.

Lemma alt_text_intro (W V R : str) :
  forallb isspace W = true -> no_quote V = true ->
  alt_text (py "Text:" ++ W ++ QUOTE :: V ++ QUOTE :: R)
  = Some (5 + length W + 1, length V).
Proof.
  intros HW HV. unfold alt_text.
  change (starts_with (py "Text:") (py "Text:" ++ W ++ QUOTE :: V ++ QUOTE :: R))
    with true. cbv iota.
  change (skipn 5 (py "Text:" ++ W ++ QUOTE :: V ++ QUOTE :: R))
    with (W ++ QUOTE :: V ++ QUOTE :: R).
  rewrite (spaces_intro W (QUOTE :: V ++ QUOTE :: R) HW eq_refl).
  rewrite skipn_length_app. now rewrite (m_quoted_intro V R HV).
Qed.

Lemma alt_at_text_intro (W1 W2 V R : str) :
  forallb isspace W1 = true -> forallb isspace W2 = true -> no_quote V = true ->
  alt_at_text (py "@Text" ++ W1 ++ 61%N :: W2 ++ QUOTE :: V ++ QUOTE :: R)
  = Some (5 + length W1 + 1 + length W2 + 1, length V).
Proof.
  intros H1 H2 HV. unfold alt_at_text.
  change (starts_with (py "@Text")
            (py "@Text" ++ W1 ++ 61%N :: W2 ++ QUOTE :: V ++ QUOTE :: R)) with true.
  cbv iota.
  change (skipn 5 (py "@Text" ++ W1 ++ 61%N :: W2 ++ QUOTE :: V ++ QUOTE :: R))
    with (W1 ++ 61%N :: W2 ++ QUOTE :: V ++ QUOTE :: R).
  rewrite (spaces_intro W1 (61%N :: W2 ++ QUOTE :: V ++ QUOTE :: R) H1 eq_refl).
  rewrite skipn_length_app. change (char_eqb 61%N 61%N) with true. cbv iota.
  rewrite (spaces_intro W2 (QUOTE :: V ++ QUOTE :: R) H2 eq_refl).
  rewrite skipn_length_app. now rewrite (m_quoted_intro V R HV).
Qed.

(** A match is a marker without quote, the quote that opens the value, a
    value without quote and the quote that closes it; with another value
    in its place the marker matches again. *)
Lemma match_ui_some (s : str) (pre n : nat) :
  match_ui s = Some (pre, n) ->
  exists X V R,
    s = X ++ QUOTE :: V ++ QUOTE :: R /\ pre = S (length X) /\ n = length V
    /\ no_quote X = true /\ no_quote V = true
    /\ forall V' R', no_quote V' = true ->
         match_ui (X ++ QUOTE :: V' ++ QUOTE :: R') = Some (pre, length V').
Proof.
  unfold match_ui. destruct (alt_text s) as [m|] eqn:E1.
  - intros E. inversion E; subst m. clear E. unfold alt_text in E1.
    destruct (starts_with (py "Text:") s) eqn:Es; [|discriminate].
    apply starts_with_app in Es. change (length (py "Text:")) with 5 in Es.
    destruct (spaces_split (skipn 5 s)) as (W & r & Ew & HW & Hl & Hr).
    rewrite Hl, Ew, skipn_length_app in E1.
    destruct (m_quoted r) as [n'|] eqn:Em; [|discriminate].
    inversion E1; subst pre n'. clear E1.
    destruct (m_quoted_some r n Em) as (V & R & Er & Hn & HV).
    exists (py "Text:" ++ W), V, R.
    split; [rewrite Es at 1; rewrite Ew, Er; reflexivity|].
    split; [rewrite length_app; simpl; lia|]. split; [exact Hn|].
    split; [unfold no_quote; rewrite forallb_app; simpl;
            apply (spaces_no_quote W HW)|].
    split; [exact HV|]. intros V' R' HV'.
    rewrite <- app_assoc, (alt_text_intro W V' R' HW HV'). reflexivity.
  - intros E2. unfold alt_at_text in E2.
    destruct (starts_with (py "@Text") s) eqn:Es; [|discriminate].
    apply starts_with_app in Es. change (length (py "@Text")) with 5 in Es.
    destruct (spaces_split (skipn 5 s)) as (W1 & r1 & Ew1 & HW1 & Hl1 & Hr1).
    rewrite Hl1, Ew1, skipn_length_app in E2.
    destruct r1 as [|e s2]; [discriminate|].
    destruct (char_eqb e 61%N) eqn:Ee; [|discriminate].
    apply N.eqb_eq in Ee. subst e.
    destruct (spaces_split s2) as (W2 & r2 & Ew2 & HW2 & Hl2 & Hr2).
    rewrite Hl2, Ew2, skipn_length_app in E2.
    destruct (m_quoted r2) as [n'|] eqn:Em; [|discriminate].
    inversion E2; subst pre n'. clear E2.
    destruct (m_quoted_some r2 n Em) as (V & R & Er & Hn & HV).
    assert (Happ : forall rest,
              (py "@Text" ++ W1 ++ 61%N :: W2) ++ rest
              = py "@Text" ++ W1 ++ 61%N :: W2 ++ rest).
    { intros rest. simpl. now rewrite <- app_assoc. }
    exists (py "@Text" ++ W1 ++ 61%N :: W2), V, R.
    split; [rewrite Happ; rewrite Es at 1; now rewrite Ew1, Ew2, Er|].
    split; [simpl; rewrite length_app; simpl; lia|].
    split; [exact Hn|].
    split; [unfold no_quote; simpl; rewrite forallb_app; simpl;
            fold (no_quote W1); fold (no_quote W2);
            rewrite (spaces_no_quote W1 HW1), (spaces_no_quote W2 HW2);
            reflexivity|].
    split; [exact HV|]. intros V' R' HV'.
    assert (Ea : alt_text ((py "@Text" ++ W1 ++ 61%N :: W2) ++ QUOTE :: V' ++ QUOTE :: R')
                 = None) by reflexivity.
    rewrite Ea, Happ.
    now rewrite (alt_at_text_intro W1 W2 V' R' HW1 HW2 HV').
Qed.

(** *** The texts of a descriptor after the translations are applied *)

(** Two texts with the same characters up to their first quote, and a
    quote after it in both or in neither. *)
Definition same_head (s t : str) : Prop :=
  exists X, no_quote X = true
    /\ ((s = X /\ t = X)
        \/ exists R R', s = X ++ QUOTE :: R /\ t = X ++ QUOTE :: R'
                        /\ char_in QUOTE R = char_in QUOTE R').

Lemma char_in_app (c : char) (a b : str) :
  char_in c (a ++ b) = char_in c a || char_in c b.
Proof. unfold char_in. apply existsb_app. Qed.

Lemma char_in_quote_mid (a b : str) : char_in QUOTE (a ++ QUOTE :: b) = true.
Proof.
  rewrite char_in_app.
  change (char_in QUOTE (QUOTE :: b)) with true. apply orb_true_r.
Qed.

Lemma same_head_quote (s t : str) : same_head s t -> char_in QUOTE s = char_in QUOTE t.
Proof.
  intros (X & HX & [[-> ->]|(R & R' & -> & -> & _)]); [reflexivity|].
  now rewrite !char_in_quote_mid.
Qed.

Lemma same_head_cons (c : char) (s t : str) :
  same_head s t -> same_head (c :: s) (c :: t).
Proof.
  intros H. destruct (char_eqb c QUOTE) eqn:Ec.
  - apply N.eqb_eq in Ec. subst c. exists []. split; [reflexivity|]. right.
    exists s, t. repeat split. now apply same_head_quote.
  - destruct H as (X & HX & [[-> ->]|(R & R' & -> & -> & H)]).
    + exists (c :: X). split; [|now left]. simpl. unfold re_not_quote.
      now rewrite Ec, HX.
    + exists (c :: X). split; [simpl; unfold re_not_quote; now rewrite Ec, HX|].
      right. now exists R, R'.
Qed.

(** A text without match has no match when its values are replaced. *)
Lemma match_ui_none (s t : str) :
  same_head s t -> match_ui s = None -> match_ui t = None.
Proof.
  intros (X & HX & H) Hs. destruct (match_ui t) as [[pre n]|] eqn:Et; [|reflexivity].
  exfalso. destruct (match_ui_some t pre n Et) as (X' & V & R & E & _ & _ & HX' & HV & Hi).
  destruct H as [[-> ->]|(R0 & R0' & -> & -> & Hq)]; [congruence|].
  destruct (first_quote_unique X X' R0' (V ++ QUOTE :: R) HX HX' E) as [-> ->].
  assert (Hq' : char_in QUOTE R0 = true).
  { rewrite Hq. apply char_in_quote_mid. }
  destruct (split_at_quote R0 Hq') as (V0 & R1 & -> & HV0).
  rewrite (Hi V0 R1 HV0) in Hs. discriminate.
Qed.

Section Translated.

Variable replacements : list (str * str).

(** No translation holds a quote. *)
Hypothesis plain : forall src tr, In (src, tr) replacements -> char_in QUOTE tr = false.

(** The text that replaces a value. *)
Definition translated (val : str) : str :=
  match lookup_translation replacements val with
  | Some tr => tr
  | None => val
  end.

Lemma lookup_translation_in (val tr : str) :
  lookup_translation replacements val = Some tr -> exists src, In (src, tr) replacements.
Proof.
  clear plain. induction replacements as [|[src t] rest IH]; simpl; [discriminate|].
  destruct (str_eqb val src && truthy t).
  - intros E. inversion E; subst. exists src. now left.
  - intros E. destruct (IH E) as (src' & H). exists src'. now right.
Qed.

Lemma char_in_no_quote (s : str) : char_in QUOTE s = false -> no_quote s = true.
Proof.
  unfold no_quote, char_in. induction s as [|c s IH]; simpl; [reflexivity|].
  intros H. apply orb_false_iff in H. destruct H as [Hc Hs].
  rewrite (IH Hs). unfold re_not_quote, char_eqb in *.
  now rewrite N.eqb_sym, Hc.
Qed.

Lemma translated_no_quote (val : str) :
  no_quote val = true -> no_quote (translated val) = true.
Proof.
  intros H. unfold translated.
  destruct (lookup_translation replacements val) as [tr|] eqn:E; [|exact H].
  destruct (lookup_translation_in val tr E) as (src & Hin).
  apply char_in_no_quote. now apply (plain src).
Qed.

(** What [sub_from] returns at a match. *)
Lemma sub_from_match (X V R : str) (c : char) (s : str) (pre n : nat) :
  c :: s = X ++ QUOTE :: V ++ QUOTE :: R -> pre = S (length X) -> n = length V ->
  match_ui (c :: s) = Some (pre, n) ->
  sub_from replacements 0 (c :: s)
  = X ++ QUOTE :: translated V ++ QUOTE :: sub_from replacements (pre + n) s
  /\ slice (c :: s) pre (pre + n) = V.
Proof.
  intros E Hp Hn Hm. cbn [sub_from]. rewrite Hm.
  assert (Hs : slice (c :: s) pre (pre + n) = V).
  { unfold slice. rewrite E, Hp, Hn.
    replace (S (length X) + length V - S (length X)) with (length V) by lia.
    replace (X ++ QUOTE :: V ++ QUOTE :: R) with ((X ++ [QUOTE]) ++ V ++ QUOTE :: R)
      by now rewrite <- app_assoc.
    replace (S (length X)) with (length (X ++ [QUOTE]))
      by (rewrite length_app; simpl; lia).
    rewrite skipn_length_app, firstn_app, firstn_all, Nat.sub_diag.
    simpl. apply app_nil_r. }
  split; [|exact Hs]. rewrite Hs.
  assert (Hf : firstn pre (c :: s) = X ++ [QUOTE]).
  { rewrite E, Hp.
    replace (X ++ QUOTE :: V ++ QUOTE :: R) with ((X ++ [QUOTE]) ++ V ++ QUOTE :: R)
      by now rewrite <- app_assoc.
    replace (S (length X)) with (length (X ++ [QUOTE]))
      by (rewrite length_app; simpl; lia).
    rewrite firstn_app, firstn_all, Nat.sub_diag. simpl. apply app_nil_r. }
  assert (Hw : firstn (pre + n + 1) (c :: s) = X ++ QUOTE :: V ++ [QUOTE]).
  { rewrite E, Hp, Hn.
    replace (X ++ QUOTE :: V ++ QUOTE :: R)
      with ((X ++ QUOTE :: V ++ [QUOTE]) ++ R)
      by (rewrite <- app_assoc; simpl; now rewrite <- app_assoc).
    replace (S (length X) + length V + 1) with (length (X ++ QUOTE :: V ++ [QUOTE]))
      by (rewrite length_app; simpl; rewrite length_app; simpl; lia).
    rewrite firstn_app, firstn_all, Nat.sub_diag. simpl. apply app_nil_r. }
  unfold translated. rewrite Hf, Hw.
  destruct (lookup_translation replacements V) as [tr|];
    rewrite <- !app_assoc; simpl; now rewrite <- ?app_assoc.
Qed.

Lemma sub_from_same_head (s : str) :
  forall skip, same_head (skipn skip s) (sub_from replacements skip s).
Proof.
  induction s as [|c s IH]; intros skip.
  - destruct skip; exists []; split; auto.
  - destruct skip as [|k]; [|apply IH].
    cbn [skipn]. destruct (match_ui (c :: s)) as [[pre n]|] eqn:Em.
    + destruct (match_ui_some _ _ _ Em) as (X & V & R & E & Hp & Hn & HX & HV & _).
      destruct (sub_from_match X V R c s pre n E Hp Hn Em) as [Hsub _].
      rewrite Hsub, E. exists X. split; [exact HX|]. right.
      eexists. eexists. split; [reflexivity|]. split; [reflexivity|].
      now rewrite !char_in_quote_mid.
    + cbn [sub_from]. rewrite Em. apply same_head_cons. apply (IH 0).
Qed.

(** The texts of a descriptor, from the matches that start after [skip]
    characters. *)
Definition values (skip : nat) (s : str) : list str :=
  map snd (extract_from 0 skip s).

Lemma values_pos (s : str) :
  forall pos skip, map snd (extract_from pos skip s) = values skip s.
Proof.
  unfold values. induction s as [|c s IH]; intros pos skip; [reflexivity|].
  cbn [extract_from]. destruct skip as [|k].
  - destruct (match_ui (c :: s)) as [[pre n]|].
    + cbn [map snd]. f_equal. now rewrite (IH (S pos)), (IH 1).
    + now rewrite (IH (S pos)), (IH 1).
  - now rewrite (IH (S pos)), (IH 1).
Qed.

Lemma values_skip (a b : str) (k : nat) :
  values (length a + k) (a ++ b) = values k b.
Proof.
  induction a as [|c a IH]; [reflexivity|].
  unfold values. simpl. rewrite values_pos. apply IH.
Qed.

Lemma values_sub_from (s : str) :
  forall skip,
    values 0 (sub_from replacements skip s) = map translated (values skip s).
Proof.
  induction s as [|c s IH]; intros skip.
  - now destruct skip.
  - destruct skip as [|k].
    + destruct (match_ui (c :: s)) as [[pre n]|] eqn:Em.
      * destruct (match_ui_some _ _ _ Em) as (X & V & R & E & Hp & Hn & HX & HV & Hi).
        destruct (sub_from_match X V R c s pre n E Hp Hn Em) as [Hsub Hsl].
        rewrite Hsub.
        pose proof (Hi (translated V) (sub_from replacements (pre + n) s)
                      (translated_no_quote V HV)) as Hm.
        assert (Hv0 : values 0 (c :: s) = V :: values (pre + n) s).
        { unfold values. cbn [extract_from]. rewrite Em. cbn [map snd].
          now rewrite Hsl, values_pos. }
        rewrite Hv0. cbn [map]. rewrite <- (IH (pre + n)).
        set (T := sub_from replacements (pre + n) s) in *.
        set (V1 := translated V) in *.
        assert (Hne : exists c' t', X ++ QUOTE :: V1 ++ QUOTE :: T = c' :: t').
        { destruct X; simpl; eauto. }
        destruct Hne as (c' & t' & Et). rewrite Et in *.
        unfold values at 1. cbn [extract_from]. rewrite Hm. cbn [map snd].
        f_equal.
        -- unfold slice. rewrite <- Et, Hp.
          replace (S (length X) + length V1 - S (length X)) with (length V1) by lia.
          replace (X ++ QUOTE :: V1 ++ QUOTE :: T)
            with ((X ++ [QUOTE]) ++ V1 ++ QUOTE :: T) by now rewrite <- app_assoc.
          replace (S (length X)) with (length (X ++ [QUOTE]))
            by (rewrite length_app; simpl; lia).
          rewrite skipn_length_app, firstn_app, firstn_all, Nat.sub_diag.
          simpl. apply app_nil_r.
        -- rewrite values_pos.
          assert (Et' : t' = skipn 1 (X ++ QUOTE :: V1 ++ QUOTE :: T))
            by now rewrite Et.
          assert (Ex : exists a, t' = a ++ T /\ length a = pre + length V1).
          { exists (skipn 1 (X ++ QUOTE :: V1 ++ [QUOTE])). split.
            ++ rewrite Et'.
              replace (X ++ QUOTE :: V1 ++ QUOTE :: T)
                with ((X ++ QUOTE :: V1 ++ [QUOTE]) ++ T)
                by (rewrite <- app_assoc; simpl; now rewrite <- app_assoc).
              rewrite skipn_app.
              replace (1 - length (X ++ QUOTE :: V1 ++ [QUOTE])) with 0;
                [reflexivity|].
              rewrite length_app. cbn [length]. lia.
            ++ rewrite length_skipn, length_app. cbn [length].
               rewrite length_app. cbn [length]. lia. }
          destruct Ex as (a & -> & Hla).
          rewrite <- Hla. rewrite <- (Nat.add_0_r (length a)). apply values_skip.
      * cbn [sub_from]. rewrite Em.
        pose proof (match_ui_none (c :: s) (c :: sub_from replacements 0 s)
                      (same_head_cons c _ _ (sub_from_same_head s 0)) Em) as Hn.
        unfold values. cbn [extract_from]. rewrite Hn, Em.
        rewrite !values_pos. apply IH.
    + cbn [sub_from]. unfold values at 2. cbn [extract_from].
      rewrite values_pos. apply IH.
Qed.

End Translated.

(** The texts of a descriptor after [apply_ui_translations] are the texts
    it had, each replaced by the translation of the first pair whose
    source it is and whose translation is not empty, the others as they
    were: as many texts, in the same order. No translation may hold a
    double quote. *)
Theorem apply_ui_translations_extracted (content : str)
    (replacements : list (str * str)) :
  (forall src tr, In (src, tr) replacements -> char_in QUOTE tr = false) ->
  map snd (extract_ui_strings (apply_ui_translations content replacements))
  = map (translated replacements) (map snd (extract_ui_strings content)).
Proof.
  intros H. unfold apply_ui_translations, extract_ui_strings.
  destruct replacements as [|r rs].
  - rewrite map_map. apply map_ext. reflexivity.
  - apply (values_sub_from (r :: rs) H content 0).
Qed.

Lemma apply_ui_translations_extracted_witness :
  (forall src tr, In (src, tr) [(py "Hello", py "Privet")] -> char_in QUOTE tr = false)
  /\ map snd (extract_ui_strings hud) = [py "Hello"]
  /\ map snd (extract_ui_strings
                (apply_ui_translations hud [(py "Hello", py "Privet")]))
     = [py "Privet"].
Proof.
  assert (H : forall src tr, In (src, tr) [(py "Hello", py "Privet")] ->
                             char_in QUOTE tr = false).
  { intros src tr [E|[]]. inversion E; subst. reflexivity. }
  split; [exact H|]. split; [reflexivity|].
  exact (apply_ui_translations_extracted hud [(py "Hello", py "Privet")] H).
Defined.

(** ** The names of the folders: [safe_mod_name] *)

Import Mods.

Section SafeNames.

Variable isalnum : char -> bool.

Lemma safe_char_underscore : safe_char isalnum UNDERSCORE = true.
Proof. unfold safe_char. apply orb_true_r. Qed.

(** The name that [safe_mod_name] returns has the length of the name it
    was given and holds safe characters only (alphanumeric, [.], [_] or
    [-]); so a character that is neither, such as a path separator or a
    space when [isalnum] rejects it, is not in it. A name of safe
    characters is returned as it is, and only such a name; hence
    [safe_mod_name] applied twice is [safe_mod_name]. *)
Theorem safe_mod_name_safe (name : str) :
  length (safe_mod_name isalnum name) = length name
  /\ forallb (safe_char isalnum) (safe_mod_name isalnum name) = true
  /\ (safe_mod_name isalnum name = name <-> forallb (safe_char isalnum) name = true)
  /\ safe_mod_name isalnum (safe_mod_name isalnum name) = safe_mod_name isalnum name.
Proof.
  assert (Hs : forallb (safe_char isalnum) (safe_mod_name isalnum name) = true).
  { unfold safe_mod_name. induction name as [|c name IH]; [reflexivity|].
    simpl. rewrite IH, andb_true_r.
    destruct (safe_char isalnum c) eqn:E; [exact E|apply safe_char_underscore]. }
  assert (Hf : forall n, safe_mod_name isalnum n = n
                         <-> forallb (safe_char isalnum) n = true).
  { unfold safe_mod_name. induction n as [|c n IH]; [simpl; tauto|]. simpl.
    destruct (safe_char isalnum c) eqn:E; simpl; split.
    - intros H. inversion H as [H1]. rewrite H1. now apply (proj1 IH).
    - intros H. f_equal. now apply (proj2 IH).
    - intros H. inversion H as [[H0 H1]]. rewrite <- H0 in E. rewrite safe_char_underscore in E.
      discriminate E.
    - discriminate. }
  split; [apply length_map|]. split; [exact Hs|]. split; [apply Hf|].
  now apply Hf.
Qed.

End SafeNames.

(** ** The translation memory: [_auto_translate] *)

Import App.

Lemma truthy_dict_set (d : Dict.dict str) (k v : str) :
  truthy_dict (Dict.set d k v) = true.
Proof. destruct d as [|[k' v'] d]; simpl; [reflexivity|]. now destruct (str_eqb k' k). Qed.

Section Memory.

Variable W : Type.
Variable _basic_translate : str -> str -> str -> W -> translation * W.

(** A translation that was found is remembered: after a call of
    [_auto_translate] with a memory that returned a translation that is
    not empty, every further call for the same text, whatever the
    languages asked for, returns that translation and no error, and
    changes nothing: neither the memory nor the cache, and no translation
    service is asked. *)
Theorem auto_translate_remembered (text source_lang target_lang : str)
    (st st' : state W) (r : str) (e : option str) :
  _auto_translate W _basic_translate text source_lang target_lang true st
  = ((Some r, e), st') ->
  truthy r = true ->
  forall source_lang' target_lang',
    _auto_translate W _basic_translate text source_lang' target_lang' true st'
    = ((Some r, None), st').
Proof.
  unfold _auto_translate. intros H Hr sl' tl'.
  destruct (truthy (strip text)); [|discriminate]. cbn [negb] in *.
  destruct (memory_lookup W true st (strip text)) as [v|] eqn:El.
  - inversion H; subst. now rewrite El.
  - assert (K : forall result err st1,
              ((result, err), remember W true (strip text) result st1)
              = ((Some r, e), st') ->
              memory_lookup W true st' (strip text) = Some r).
    { intros result err st1 E. inversion E; subst. unfold remember.
      rewrite Hr. unfold memory_lookup. simpl.
      now rewrite truthy_dict_set, Dict.get_set_same. }
    destruct (has_markup (strip text)).
    + destruct (smart_translate _ (strip text) st) as [[result err] st1].
      now rewrite (K _ _ _ H).
    + destruct (_basic_translate (strip text) source_lang target_lang (world st))
        as [[result err] w1].
      now rewrite (K _ _ _ H).
Qed.

(** A segment is translated once: after [translate_segment] returned a
    translation that is not empty for a segment that is not blank, every
    further call for that segment returns the same translation from the
    cache, with no error and without asking a translation service. *)
Theorem translate_segment_cached (source_lang target_lang seg : str)
    (has_memory : bool) (st st' : state W) (tr : str) (e : option str) :
  translate_segment W _basic_translate source_lang target_lang has_memory seg st
  = ((Some tr, e), st') ->
  truthy (strip seg) = true -> truthy tr = true ->
  forall source_lang' target_lang' has_memory',
    translate_segment W _basic_translate source_lang' target_lang' has_memory' seg st'
    = ((Some tr, None), st').
Proof.
  unfold translate_segment. intros H Hs Ht sl' tl' hm'. rewrite Hs in *.
  cbn [negb] in *.
  destruct (Dict.get (_segment_cache st) (strip seg)) as [v|] eqn:Ec.
  - inversion H; subst. now rewrite Ec.
  - destruct (memory_lookup W has_memory st (strip seg)) as [v|].
    + inversion H; subst. simpl. now rewrite Dict.get_set_same.
    + destruct (_basic_translate (strip seg) source_lang target_lang (world st))
        as [[tr0 err] w1].
      destruct tr0 as [t|]; [|discriminate].
      destruct (truthy t) eqn:Et.
      * inversion H; subst. simpl. now rewrite Dict.get_set_same.
      * inversion H; subst. congruence.
Qed.

Lemma translate_loop_invariant (S : Type) (f : str -> S -> translation * S)
    (I : S -> Prop) :
  (forall s w, I w -> I (snd (f s w))) ->
  forall todo segs errs w,
    I w -> I (snd (translate_loop f todo segs errs w)).
Proof.
  intros Hf. induction todo as [|[idx seg] todo IH]; intros segs errs w Hw.
  - exact Hw.
  - cbn [translate_loop]. destruct (truthy (strip seg)); [|now apply IH].
    specialize (Hf (strip seg) w Hw).
    destruct (f (strip seg) w) as [[tr err] w1]. now apply IH.
Qed.

Lemma smart_translate_invariant (S : Type) (f : str -> S -> translation * S)
    (I : S -> Prop) :
  (forall s w, I w -> I (snd (f s w))) ->
  forall text w, I w -> I (snd (smart_translate f text w)).
Proof.
  intros Hf text w Hw. unfold smart_translate.
  destruct (negb (truthy text) || negb (truthy (strip text))); [exact Hw|].
  destruct (forallb snd (parse_tagged_text text)
            || negb (existsb snd (parse_tagged_text text))); [now apply Hf|].
  destruct (text_segments_of (parse_tagged_text text)) as [|e todo]; [exact Hw|].
  pose proof (translate_loop_invariant S f I Hf (e :: todo)
                (parse_tagged_text text) [] w Hw) as H.
  now destruct (translate_loop f (e :: todo) (parse_tagged_text text) [] w)
    as [[segs errs] w'].
Qed.

Lemma get_truthy_dict (d : Dict.dict str) (k v : str) :
  Dict.get d k = Some v -> truthy_dict d = true.
Proof. destruct d; [discriminate|reflexivity]. Qed.

Lemma memory_lookup_other (has_memory : bool) (st : state W) (k k' v : str) :
  Dict.get (memory st) k = Some v ->
  memory_lookup W has_memory st k' = None -> has_memory = true -> k' <> k.
Proof.
  intros Hk Hl -> ->. unfold memory_lookup in Hl.
  rewrite (get_truthy_dict _ _ _ Hk) in Hl. simpl in Hl. congruence.
Qed.

Lemma translate_segment_keeps (source_lang target_lang seg : str)
    (has_memory : bool) (k v : str) (st : state W) :
  Dict.get (memory st) k = Some v ->
  Dict.get
    (memory (snd (translate_segment W _basic_translate source_lang target_lang
                    has_memory seg st))) k = Some v.
Proof.
  intros Hk. unfold translate_segment.
  destruct (negb (truthy (strip seg))); [exact Hk|].
  destruct (Dict.get (_segment_cache st) (strip seg)); [exact Hk|].
  destruct (memory_lookup W has_memory st (strip seg)) eqn:El; [exact Hk|].
  destruct (_basic_translate (strip seg) source_lang target_lang (world st))
    as [[tr err] w1].
  destruct tr as [t|]; [|exact Hk]. destruct (truthy t); [|exact Hk]. simpl.
  destruct has_memory eqn:Eh; [|exact Hk].
  rewrite Dict.get_set_other; [exact Hk|].
  apply (memory_lookup_other true st k (strip seg) v Hk El eq_refl).
Qed.

(** The memory only grows: an entry of the translation memory is still
    there, with its translation, after any call of [_auto_translate],
    whatever the translation services answer. *)
Theorem auto_translate_keeps_memory (text source_lang target_lang : str)
    (has_memory : bool) (st : state W) (k v : str) :
  Dict.get (memory st) k = Some v ->
  Dict.get
    (memory (snd (_auto_translate W _basic_translate text source_lang target_lang
                    has_memory st))) k = Some v.
Proof.
  intros Hk. unfold _auto_translate.
  destruct (negb (truthy (strip text))); [exact Hk|].
  destruct (memory_lookup W has_memory st (strip text)) eqn:El; [exact Hk|].
  assert (R : forall result st1,
            Dict.get (memory st1) k = Some v ->
            Dict.get (memory (remember W has_memory (strip text) result st1)) k
            = Some v).
  { intros result st1 H1. unfold remember. destruct result as [r|]; [|exact H1].
    destruct (truthy r && has_memory) eqn:E; [|exact H1]. simpl.
    apply andb_true_iff in E. destruct E as [_ Eh].
    rewrite Dict.get_set_other; [exact H1|].
    apply (memory_lookup_other has_memory st k (strip text) v Hk El Eh). }
  destruct (has_markup (strip text)).
  - pose proof (smart_translate_invariant (state W)
                  (translate_segment W _basic_translate source_lang target_lang
                     has_memory)
                  (fun s => Dict.get (memory s) k = Some v)
                  (fun s w => translate_segment_keeps source_lang target_lang s
                                has_memory k v w)
                  (strip text) st Hk) as H.
    destruct (smart_translate _ (strip text) st) as [[result err] st1].
    simpl. now apply R.
  - destruct (_basic_translate (strip text) source_lang target_lang (world st))
      as [[result err] w1].
    simpl. now apply R.
Qed.

End Memory.

(** A translation service that answers every text with [Privet], and a
    state with one entry in the memory. *)
Definition always_privet (text source_lang target_lang : str) (w : unit)
    : translation * unit :=
  ((Some (py "Privet"), None), w).

Definition one_entry : state unit :=
  {| _segment_cache := []; memory := [(py "Bye", py "Poka")]; world := tt |}.

Definition two_entries_state : state unit :=
  {| _segment_cache := [];
     memory := [(py "Bye", py "Poka"); (py "Hello", py "Privet")];
     world := tt |}.

Lemma auto_translate_remembered_witness :
  _auto_translate unit always_privet (py " Hello ") (py "en") (py "ru") true one_entry
  = ((Some (py "Privet"), None), two_entries_state)
  /\ truthy (py "Privet") = true
  /\ forall source_lang' target_lang',
       _auto_translate unit always_privet (py " Hello ") source_lang' target_lang'
         true two_entries_state
       = ((Some (py "Privet"), None), two_entries_state).
Proof.
  assert (H : _auto_translate unit always_privet (py " Hello ") (py "en") (py "ru")
                true one_entry
              = ((Some (py "Privet"), None), two_entries_state)) by reflexivity.
  split; [exact H|]. split; [reflexivity|].
  exact (auto_translate_remembered unit always_privet (py " Hello ") (py "en") (py "ru")
           one_entry two_entries_state (py "Privet") None H eq_refl).
Defined.

Definition cached_state : state unit :=
  {| _segment_cache := [(py "Hello", py "Privet")];
     memory := [(py "Bye", py "Poka")];
     world := tt |}.

Lemma translate_segment_cached_witness :
  translate_segment unit always_privet (py "en") (py "ru") false (py " Hello ") one_entry
  = ((Some (py "Privet"), None), cached_state)
  /\ truthy (strip (py " Hello ")) = true /\ truthy (py "Privet") = true
  /\ forall source_lang' target_lang' has_memory',
       translate_segment unit always_privet source_lang' target_lang' has_memory'
         (py " Hello ") cached_state
       = ((Some (py "Privet"), None), cached_state).
Proof.
  assert (H : translate_segment unit always_privet (py "en") (py "ru") false
                (py " Hello ") one_entry
              = ((Some (py "Privet"), None), cached_state)) by reflexivity.
  split; [exact H|]. split; [reflexivity|]. split; [reflexivity|].
  exact (translate_segment_cached unit always_privet (py "en") (py "ru") (py " Hello ")
           false one_entry cached_state (py "Privet") None H eq_refl eq_refl).
Defined.

Lemma auto_translate_keeps_memory_witness :
  Dict.get (memory one_entry) (py "Bye") = Some (py "Poka")
  /\ Dict.get
       (memory (snd (_auto_translate unit always_privet (py "Hello <b>you</b>")
                       (py "en") (py "ru") true one_entry))) (py "Bye")
     = Some (py "Poka").
Proof.
  assert (H : Dict.get (memory one_entry) (py "Bye") = Some (py "Poka"))
    by reflexivity.
  split; [exact H|].
  exact (auto_translate_keeps_memory unit always_privet (py "Hello <b>you</b>")
           (py "en") (py "ru") true one_entry (py "Bye") (py "Poka") H).
Defined.

(** ** The source-locale file keeps its entries *)

Lemma backfill_get (sources : Dict.dict str) :
  forall d k v, Dict.get d k = Some v -> Dict.get (backfill d sources) k = Some v.
Proof.
  induction sources as [|kv sources IH]; intros d k v Hk; [exact Hk|].
  rewrite backfill_fold. cbn [fold_left]. rewrite <- backfill_fold.
  apply IH. unfold backfill_step.
  destruct (negb (Dict.mem d (fst kv)) && truthy (snd kv)) eqn:E; [|exact Hk].
  apply andb_true_iff in E. destruct E as [E _]. apply negb_true_iff in E.
  rewrite Dict.get_set_other; [exact Hk|].
  intros Ek. rewrite Ek in E. unfold Dict.mem in E. rewrite Hk in E. discriminate.
Qed.

Lemma backfill_en_holds (lib : pylib) (sources : Dict.dict (Dict.dict str))
    (ru_rel : str) (Q : path) (k v : str) (t t' : node) :
  Forall clean_item (sources_of sources ru_rel) ->
  path_of (source_rel ru_rel) = Q ->
  backfill_en lib sources ru_rel t = Some t' ->
  holds Q k v t -> holds Q k v t'.
Proof.
  intros Hc HQ H (cur & Hr & Hg). unfold backfill_en in H.
  fold (source_rel ru_rel) in H. rewrite HQ in H.
  destruct (exists_ t Q && negb (str_eqb (source_rel ru_rel) ru_rel));
    [|inversion H; subst; now exists cur].
  rewrite Hr in H. cbn [bind] in H. fold (sources_of sources ru_rel) in H.
  set (d := backfill (parse_lang_content cur) (sources_of sources ru_rel)) in *.
  assert (Wd : well_formed d)
    by (apply backfill_well_formed; [exact Hc|apply parse_lang_content_well_formed]).
  destruct (add_aliases_well_formed (lower lib) d Wd) as [Hf Hn].
  exists (lang_to_content (add_aliases (lower lib) d)). split.
  - apply read_text_lookup. now apply (lookup_write_same Q t t').
  - rewrite parse_lang_to_content by assumption.
    rewrite get_sorted by assumption.
    apply add_aliases_keeps. now apply backfill_get.
Qed.

Lemma lang_step_holds_source (lib : pylib) (sources : Dict.dict (Dict.dict str))
    (g : str * Dict.dict str) (Q : path) (k v : str) (t : node) :
  path_of (fst g) <> Q ->
  (path_of (source_rel (fst g)) = Q -> Forall clean_item (sources_of sources (fst g))) ->
  holds Q k v t -> holds Q k v (tree_of (lang_step lib sources g t)).
Proof.
  intros Hru Hsrc Ht. unfold lang_step.
  destruct (write_ru lib (fst g) (snd g) t) as [t1|] eqn:E1; [|exact Ht].
  assert (H1 : holds Q k v t1).
  { destruct Ht as (cur & Hr & Hg). exists cur. split; [|exact Hg].
    apply read_text_lookup.
    apply (write_ru_keeps lib (fst g) (snd g) Q (Some cur) t t1 Hru E1).
    now apply read_text_lookup. }
  destruct (backfill_en lib sources (fst g) t1) as [t2|] eqn:E2; [|exact H1].
  simpl.
  destruct (list_eq_dec (list_eq_dec N.eq_dec) (path_of (source_rel (fst g))) Q)
    as [HQ|HQ].
  - now apply (backfill_en_holds lib sources (fst g) Q k v t1 t2 (Hsrc HQ) HQ E2).
  - destruct H1 as (cur & Hr & Hg). exists cur. split; [|exact Hg].
    apply read_text_lookup.
    apply (backfill_en_keeps lib sources (fst g) Q (Some cur) t1 t2); auto.
    now apply read_text_lookup.
Qed.

Lemma group_rows_sources (R : row -> Prop) (rows : list row) :
  forall g g',
    covers (from_lang_source R) (lang_sources g) -> Forall R rows ->
    group_rows g rows = Some g' -> covers (from_lang_source R) (lang_sources g').
Proof.
  induction rows as [|r rows IH]; intros g g' Hg HR; simpl.
  - intros E. inversion E. now subst.
  - inversion HR; subst.
    destruct (group_row g r) as [g1|] eqn:E1; [|discriminate].
    apply IH; auto. unfold group_row in E1.
    destruct (translated_text r) as [tr|]; [|discriminate].
    assert (Hs : r_type r = LangFile ->
                 covers (from_lang_source R)
                   (set_in (lang_sources g) (lang_file_rel_to_ru (r_file_rel r))
                      (r_key r) (strip (r_source r)))).
    { intros Hty. apply set_in_covers; auto. now exists r. }
    destruct (truthy tr); cbn [negb] in E1;
      destruct (r_type r); inversion E1; subst; cbn [lang_sources]; auto.
Qed.

(** The row makes no pass but the backfill write the source-locale file
    [Q], and when the backfill of the row writes [Q], its key and its
    (stripped) source fit on a line of a locale file. *)
Definition keeps_source_file (Q : path) (r : row) : Prop :=
  match r_type r with
  | LangFile =>
      path_of (ru_of r) <> Q
      /\ (path_of (source_rel (ru_of r)) = Q ->
          clean_key (r_key r) /\ no_linebreak (strip (r_source r)) = true)
  | CommonJson => common_target (r_file_rel r) <> Q
  | _ => path_of (r_file_rel r) <> Q
  end.


Definition en_file : path :=
  [py "Server"; py "Languages"; py "en-US"; py "server.lang"].

(** The translation of a key [y] that the source-locale file does not
    hold. *)
Definition bye_rows : list row :=
  [ make_row LangFile (py "Server/Languages/en-US/server.lang") (py "y") (py "Bye")
      (Some (JStr (py "Poka"))) ].


(** ** The filters and the white space around a text *)

Lemma strip_strip (s : str) : strip (strip s) = strip s.
Proof. apply trimmed_strip, strip_trimmed. Qed.

Lemma truthy_strip_text (s : str) : truthy (strip s) = true -> truthy s = true.
Proof. destruct s; [discriminate|reflexivity]. Qed.

(** The two filters of the collector look at the stripped text only:
    [_should_skip_source] and [_is_translation_key] give the same answer
    for a text and for the text without the white space at its ends. *)
Theorem filters_ignore_outer_space (isalpha isalnum : char -> bool) (text : str) :
  _should_skip_source isalpha isalnum (strip text)
  = _should_skip_source isalpha isalnum text
  /\ _is_translation_key isalnum (strip text) = _is_translation_key isalnum text.
Proof.
  unfold _should_skip_source, _is_translation_key. rewrite strip_strip.
  destruct (truthy (strip text)) eqn:Hs.
  - rewrite (truthy_strip_text text Hs). split; reflexivity.
  - cbn [negb]. rewrite !orb_true_r. split; reflexivity.
Qed.

(** ** The target-locale file of a locale file: [lang_file_rel_to_ru] *)

Lemma replace_char_absent (a b : char) (s : str) :
  char_in a s = false -> replace [a] [b] s = s.
Proof.
  unfold replace. induction s as [|c s IH]; [reflexivity|]. simpl.
  intros H. apply orb_false_iff in H. destruct H as [Hc Hs].
  rewrite Hc. simpl. now rewrite (IH Hs).
Qed.

Lemma char_in_join (c sep : char) (parts : list str) :
  char_eqb c sep = false ->
  Forall (fun p => char_in c p = false) parts ->
  char_in c (join [sep] parts) = false.
Proof.
  intros Hsep H. induction H as [|p parts Hp _ IH]; [reflexivity|].
  destruct parts as [|q parts]; [exact Hp|].
  rewrite join_cons2. unfold char_in in *. rewrite !existsb_app. simpl existsb at 2.
  now rewrite Hp, Hsep, IH.
Qed.

Lemma to_ru_parts_first (pre post : list str) (loc : str) :
  Forall (fun p => is_locale_name p = false) pre -> is_locale_name loc = true ->
  to_ru_parts (pre ++ loc :: post) = pre ++ py "ru-RU" :: post.
Proof.
  intros Hpre Hloc. induction Hpre as [|p pre Hp _ IH]; simpl.
  - now rewrite Hloc.
  - now rewrite Hp, IH.
Qed.

(** A part of a path: it holds neither [/] nor [\]. *)
Definition path_part (p : str) : Prop :=
  char_in Lang.SLASH p = false /\ char_in BACKSLASH p = false.

(** The target-locale file is the sibling in [ru-RU]: in a relative path
    whose first component that names a locale is [loc] (a component that
    is not empty, is not [ru-RU], and starts with [en] or has five
    characters with [-] in the middle), [lang_file_rel_to_ru] replaces
    that component by [ru-RU] and leaves the others, also a later
    component that names a locale. *)
Theorem lang_file_rel_to_ru_sibling (pre post : list str) (loc : str) :
  Forall path_part (pre ++ loc :: post) ->
  Forall (fun p => is_locale_name p = false) pre ->
  is_locale_name loc = true ->
  lang_file_rel_to_ru (join [Lang.SLASH] (pre ++ loc :: post))
  = join [Lang.SLASH] (pre ++ py "ru-RU" :: post).
Proof.
  intros Hparts Hpre Hloc. unfold lang_file_rel_to_ru.
  rewrite replace_char_absent.
  - rewrite split_join.
    + now rewrite to_ru_parts_first.
    + destruct pre; discriminate.
    + apply Forall_forall. intros p Hp. rewrite Forall_forall in Hparts.
      apply (Hparts p Hp).
  - apply char_in_join; [reflexivity|].
    apply Forall_forall. intros p Hp. rewrite Forall_forall in Hparts.
    apply (Hparts p Hp).
Qed.

Lemma lang_file_rel_to_ru_sibling_witness :
  Forall path_part ([py "Server"; py "Languages"] ++ py "en-US" :: [py "de-DE"; py "x.lang"])
  /\ Forall (fun p => is_locale_name p = false) [py "Server"; py "Languages"]
  /\ is_locale_name (py "en-US") = true
  /\ lang_file_rel_to_ru (py "Server/Languages/en-US/de-DE/x.lang")
     = py "Server/Languages/ru-RU/de-DE/x.lang".
Proof.
  assert (H1 : Forall path_part
                 ([py "Server"; py "Languages"] ++ py "en-US" :: [py "de-DE"; py "x.lang"]))
    by (repeat constructor).
  assert (H2 : Forall (fun p => is_locale_name p = false) [py "Server"; py "Languages"])
    by (repeat constructor).
  assert (H3 : is_locale_name (py "en-US") = true) by reflexivity.
  split; [exact H1|]. split; [exact H2|]. split; [exact H3|].
  exact (lang_file_rel_to_ru_sibling [py "Server"; py "Languages"]
           [py "de-DE"; py "x.lang"] (py "en-US") H1 H2 H3).
Defined.

(** ** The manifest: what [save_all_translations] sets is what
    [collect_all_strings] reads *)

Lemma str_of_nat_digits (n : nat) : forallb (in_range 48 57) (str_of_nat n) = true.
Proof. apply string_of_uint_digits. Qed.

Lemma digits_without (c : char) (s : str) :
  in_range 48 57 c = false -> forallb (in_range 48 57) s = true -> char_in c s = false.
Proof.
  intros Hc. unfold char_in. induction s as [|x s IH]; [reflexivity|]. simpl.
  intros H. apply andb_true_iff in H. destruct H as [Hx Hs]. rewrite (IH Hs).
  destruct (char_eqb c x) eqn:E; [|reflexivity].
  apply N.eqb_eq in E. subst x. congruence.
Qed.

Lemma author_index_key (lib : pylib) (i : nat) :
  author_index lib (author_key i) = py_int lib (str_of_nat i).
Proof.
  unfold author_index, author_key. f_equal.
  pose proof (str_of_nat_digits i) as Hd.
  assert (H1 : split_char Writer.LBRACKET (py "Authors[" ++ str_of_nat i ++ py "].Name")
               = [py "Authors"; str_of_nat i ++ py "].Name"]).
  { unfold split_char.
    change (py "Authors[" ++ str_of_nat i ++ py "].Name")
      with (py "Authors" ++ Writer.LBRACKET :: (str_of_nat i ++ py "].Name")).
    rewrite split_go_sep by reflexivity. simpl app. f_equal.
    apply (split_go_plain Writer.LBRACKET (str_of_nat i ++ py "].Name")).
    rewrite char_in_app, (digits_without Writer.LBRACKET _ eq_refl Hd). reflexivity. }
  rewrite H1. cbn [nth].
  assert (H2 : split_char Writer.RBRACKET (str_of_nat i ++ py "].Name")
               = [str_of_nat i; py ".Name"]).
  { unfold split_char.
    change (str_of_nat i ++ py "].Name")
      with (str_of_nat i ++ Writer.RBRACKET :: py ".Name").
    rewrite split_go_sep by (apply (digits_without Writer.RBRACKET _ eq_refl Hd)).
    reflexivity. }
  now rewrite H2.
Qed.

Lemma list_set_at_nth {A : Type} (l : list A) (i : nat) (x : A) :
  i < length l -> nth_error (list_set_at l i x) i = Some x.
Proof.
  revert i. induction l as [|y l IH]; intros [|i] H; simpl in *; try lia; auto.
  apply IH. lia.
Qed.


(** A manifest with two authors. *)
Definition two_authors : list json :=
  [ JObj [ (KStr (py "Name"), JStr (py "Some one")) ];
    JObj [ (KStr (py "Name"), JStr (py "Some body")) ] ].

Definition manifest_members : list (pkey * json) :=
  [ (KStr (py "Name"), JStr (py "My mod")); (KStr (py "Authors"), JArr two_authors) ].


(** ** The aliases of the keys: [_key_case_variant] *)

Section AliasLoop.

Variable lower : str -> str.

Lemma fold_alias_origin (items : Dict.dict str) :
  forall acc k' v',
    In (k', v') (fold_left (alias_step lower) items acc) ->
    In (k', v') acc
    \/ exists k, In (k, v') items /\ k' = _key_case_variant lower k /\ k' <> k.
Proof.
  induction items as [|kv items IH]; intros acc k' v' H; [now left|].
  simpl in H. apply IH in H. destruct H as [H|(k & Hin & E & Hne)].
  - unfold alias_step in H.
    destruct (negb (str_eqb (_key_case_variant lower (fst kv)) (fst kv))
              && negb (Dict.mem acc (_key_case_variant lower (fst kv)))) eqn:Ec;
      [|now left].
    apply Dict.in_set in H. destruct H as [H|H]; [now left|]. right.
    inversion H; subst. exists (fst kv). split; [left; now destruct kv|].
    split; [reflexivity|].
    apply andb_true_iff in Ec. destruct Ec as [Ec _]. apply negb_true_iff in Ec.
    intros E. rewrite E, str_eqb_refl in Ec. discriminate.
  - right. exists k. split; [now right|]. now split.
Qed.

(** The loop that adds the aliases: every key keeps its value; the
    other spelling of every key ([_key_case_variant]) is a key afterwards;
    and an entry that the loop added is the other spelling of a key of the
    dictionary, with the value of that key. *)
Theorem add_aliases_entries (d : Dict.dict str) :
  (forall k v, Dict.get d k = Some v -> Dict.get (add_aliases lower d) k = Some v)
  /\ (forall k, In k (Dict.keys d) ->
                In (_key_case_variant lower k) (Dict.keys (add_aliases lower d)))
  /\ (forall k' v', In (k', v') (add_aliases lower d) ->
                    In (k', v') d
                    \/ exists k, In (k, v') d /\ k' = _key_case_variant lower k
                                 /\ k' <> k).
Proof.
  split; [intros k v; apply add_aliases_keeps|]. split.
  - intros k Hk. rewrite add_aliases_fold. now apply fold_alias_adds.
  - intros k' v' H. rewrite add_aliases_fold in H. now apply fold_alias_origin.
Qed.

End AliasLoop.
